(** * A shallow embedding of the WotLK feral cat simulator

    This development embeds the classes of [wotlk_cat_sim.py]
    ([ArmorDebuffs], [UptimeTracker] and its subclasses, [Simulation]) and
    proves properties of the aura bookkeeping, the rotation decision engine,
    the main loop and the replicate orchestration.

    Conventions of the embedding.
    - Python floats are exact rationals ([Q]), and the one infinite time
      the program manipulates on purpose ([np.inf] for a permanent Mangle)
      is modelled by [QInf].  Comparisons and assignments are those of the
      source; what depends on rounding is not provable here, and the three
      computations whose rounding a property can observe (the uptime of a
      tracker, the running averages of the replicates, the undoing of a
      stat increment) are embedded a second time over binary64 in the
      module [Binary64].
    - Division is the field division of [Q], which is defined at 0 where
      the program would fail or produce an infinity: a theorem that goes
      through a quotient carries the hypothesis that keeps its divisor
      away from 0, or states only what happens when the method returns.
    - Objects are records; an attribute that the simulation assigns is a
      record field, an attribute it only reads on the [Player] is an
      observation of the player's private state.  Attributes hold the value
      last assigned: reading an attribute that was never assigned (a
      simulation on which [run] was never called) is not modelled.
    - The [Player] class, the trinket objects, [sim_utils] and the numpy
      random generator are collaborators whose code is not part of the file:
      they are the operations of the class [Collab].
    - Exceptions are values of [exn]; a method runs in the state-and-error
      monad [M] over the simulation record.  The [while] loop of [run] is a
      recursion on fuel.
    - [Simulation.__init__] and [set_active_debuffs] address [params] and
      [strategy] by key; they are embedded over dictionaries of Python
      values in the module [Config].  [calc_deriv] and [calc_stat_weights]
      address the player by attribute name and are embedded over its
      attribute dictionary. *)

From Stdlib Require Import QArith Qround Qminmax Lqa List String ZArith Bool Lia.
From Stdlib Require Floats.
From stdpp Require Import base option gmap strings.
Import ListNotations.
Open Scope Q_scope.

(** ** Numbers *)

Definition Qleb (x y : Q) : bool := Qle_bool x y.
Definition Qltb (x y : Q) : bool := negb (Qle_bool y x).
Definition Qgeb (x y : Q) : bool := Qle_bool y x.
Definition Qgtb (x y : Q) : bool := negb (Qle_bool x y).
Definition Qeqb (x y : Q) : bool := Qeq_bool x y.

(** A Python [bool] used as a number. *)
Definition b2q (b : bool) : Q := if b then 1 else 0.

(** The tolerance of the tick-due and expiry comparisons, [1e-9]. *)
Definition eps : Q := 1e-9.

(** Python's [min(a, b)] and [max(a, b)]: the first argument wins a tie. *)
Definition pymin (a b : Q) : Q := if Qltb b a then b else a.
Definition pymax (a b : Q) : Q := if Qgtb b a then b else a.

(** [np.arange(start, stop, step)]: [ceil((stop - start) / step)] values
    [start + i * step]. *)
Definition arange (start stop step : Q) : list Q :=
  map (fun i : nat => start + inject_Z (Z.of_nat i) * step)
      (seq 0 (Z.to_nat (Qceiling ((stop - start) / step)))).

(** A time that may be [np.inf]. *)
Inductive QInf : Type :=
| Finite (q : Q)
| Infinity.

(** [time >= t] and [t < bound] for a possibly infinite [t]. *)
Definition reached (time : Q) (t : QInf) : bool :=
  match t with Finite q => Qgeb time q | Infinity => false end.
Definition before (t : QInf) (bound : Q) : bool :=
  match t with Finite q => Qltb q bound | Infinity => false end.

Definition sumQ (l : list Q) : Q := fold_left Qplus l 0.

(** [list.sort()]: a stable sort, here by insertion. *)
Fixpoint insert_sorted {A : Type} (leb : A -> A -> bool) (x : A) (l : list A)
    : list A :=
  match l with
  | [] => [x]
  | y :: rest =>
      if leb y x then y :: insert_sorted leb x rest else x :: y :: rest
  end.

Definition pysort {A : Type} (leb : A -> A -> bool) (l : list A) : list A :=
  fold_left (fun acc x => insert_sorted leb x acc) l [].

(** ** Dictionaries kept in insertion order *)

(** [dmg_breakdown] is an ordered dictionary
    ability -> {'casts': n, 'damage': x}. *)
Definition Dict (V : Type) : Type := list (string * V).
Definition Breakdown : Type := Dict (Dict Q).

Fixpoint dict_get {V : Type} (k : string) (d : Dict V) : option V :=
  match d with
  | [] => None
  | (k', v) :: rest => if String.eqb k k' then Some v else dict_get k rest
  end.

(** Assignment to an existing key (the key keeps its position). *)
Fixpoint dict_set {V : Type} (k : string) (v : V) (d : Dict V) : Dict V :=
  match d with
  | [] => [(k, v)]
  | (k', v') :: rest =>
      if String.eqb k k' then (k', v) :: rest else (k', v') :: dict_set k v rest
  end.

(** ** Exceptions *)

Inductive exn : Type :=
| TypeError
| IndexError
| KeyError
| AttributeError
| UnboundLocalError
| OutOfFuel.   (* the loop did not finish within the fuel of the model *)

Inductive Result (A : Type) : Type :=
| Ok (a : A)
| Raise (e : exn).
Arguments Ok {A} a.
Arguments Raise {A} e.

(** ** Combat log entries *)

(** The fields of a log line before formatting. *)
Inductive Outcome : Type :=
| OText (s : string)
| ODamage (d : Q).

Inductive LogEntry : Type :=
| GenLog (time : Q) (event : string) (outcome : Outcome)
         (energy : Q) (combo_points : Z) (mana : Q) (rage : Q)
| PlayerLog (time : Q) (fields : list string).

(** One row of [aura_stats]: [proc_name, num_procs, uptime]. *)
Definition AuraStat : Type := (string * Q * Q)%type.

(** ** Encounter parameters and strategy *)

(** [Simulation.params], shared with the armor debuff controller. *)
Record Params : Type := Build_Params {
  gift_of_arthas : bool;
  boss_armor : Q;
  sunder : Z;
  faerie_fire : bool;
  blood_frenzy : bool;
  shattering_throw : bool;
  tigers_fury : bool
}.

Definition set_sunder (v : Z) (d : Params) : Params :=
  let 'Build_Params x0 x1 _ x3 x4 x5 x6 := d in
  Build_Params x0 x1 v x3 x4 x5 x6.

Definition set_tigers_fury (v : bool) (d : Params) : Params :=
  let 'Build_Params x0 x1 x2 x3 x4 x5 _ := d in
  Build_Params x0 x1 x2 x3 x4 x5 v.


(** [Simulation.strategy]. *)
Record Strategy : Type := Build_Strategy {
  min_combos_for_rip : Z;
  use_rake : bool;
  use_bite : bool;
  bite_time : option Q;
  min_combos_for_bite : Z;
  mangle_spam : bool;
  bear_mangle : bool;
  use_berserk : bool;
  prepop_berserk : bool;
  preproc_omen : bool;
  bearweave : bool;
  berserk_bite_thresh : Q;
  lacerate_prio : bool;
  lacerate_time : Q;
  powerbear : bool;
  min_roar_offset : Q
}.

(** The accumulators of an [UptimeTracker]. *)
Record Tracker : Type := Build_Tracker {
  uptime : Q;
  last_update : Q;
  active : bool;
  num_procs : Z
}.

Definition set_active (v : bool) (t : Tracker) : Tracker :=
  let 'Build_Tracker x0 x1 _ x3 := t in
  Build_Tracker x0 x1 v x3.


(** The kinds of uptime tracker: the base class and its two subclasses. *)
Inductive TrackerKind : Type :=
| BaseTracker
| RipTracker
| RoarTracker.

(** ** The types of the collaborators *)

Class ExtTypes : Type := {
  PExt : Type;     (* the part of a Player the simulation never assigns *)
  TStore : Type;   (* the states of the trinket objects passed to the simulation *)
  TId : Type;      (* the identity of such a trinket object *)
  Rng : Type       (* the state of the global numpy generator *)
}.

(** The entries of [Simulation.trinkets]: the trinkets given by the caller,
    the debuff controller and the two trackers appended by [__init__]. *)
Inductive Trinket `{ExtTypes} : Type :=
| TExternal (i : TId)
| TArmorDebuffs
| TTracker (k : TrackerKind).

Section Records.
Context `{ET : ExtTypes}.

(** ** The player, as far as the simulation assigns its attributes *)

Record Player : Type := Build_Player {
  energy : Q;
  rage : Q;
  gcd : Q;
  omen_icd : Q;
  rune_cd : Q;
  tf_cd : Q;
  berserk_cd : Q;
  enrage_cd : Q;
  mangle_cd : Q;
  five_second_rule : bool;
  berserk : bool;
  savage_roar : bool;
  enrage : bool;
  omen_proc : bool;
  ready_to_shift : bool;
  p_log : bool;
  p_combat_log : option (list string);
  dmg_breakdown : Breakdown;
  pext : PExt
}.

Definition set_energy (v : Q) (p : Player) : Player :=
  let 'Build_Player _ x1 x2 x3 x4 x5 x6 x7 x8 x9 x10 x11 x12 x13 x14 x15 x16
    x17 x18 := p in
  Build_Player v x1 x2 x3 x4 x5 x6 x7 x8 x9 x10 x11 x12 x13 x14 x15 x16 x17
    x18.

Definition set_rage (v : Q) (p : Player) : Player :=
  let 'Build_Player x0 _ x2 x3 x4 x5 x6 x7 x8 x9 x10 x11 x12 x13 x14 x15 x16
    x17 x18 := p in
  Build_Player x0 v x2 x3 x4 x5 x6 x7 x8 x9 x10 x11 x12 x13 x14 x15 x16 x17
    x18.

Definition set_gcd (v : Q) (p : Player) : Player :=
  let 'Build_Player x0 x1 _ x3 x4 x5 x6 x7 x8 x9 x10 x11 x12 x13 x14 x15 x16
    x17 x18 := p in
  Build_Player x0 x1 v x3 x4 x5 x6 x7 x8 x9 x10 x11 x12 x13 x14 x15 x16 x17
    x18.

Definition set_omen_icd (v : Q) (p : Player) : Player :=
  let 'Build_Player x0 x1 x2 _ x4 x5 x6 x7 x8 x9 x10 x11 x12 x13 x14 x15 x16
    x17 x18 := p in
  Build_Player x0 x1 x2 v x4 x5 x6 x7 x8 x9 x10 x11 x12 x13 x14 x15 x16 x17
    x18.

Definition set_rune_cd (v : Q) (p : Player) : Player :=
  let 'Build_Player x0 x1 x2 x3 _ x5 x6 x7 x8 x9 x10 x11 x12 x13 x14 x15 x16
    x17 x18 := p in
  Build_Player x0 x1 x2 x3 v x5 x6 x7 x8 x9 x10 x11 x12 x13 x14 x15 x16 x17
    x18.

Definition set_tf_cd (v : Q) (p : Player) : Player :=
  let 'Build_Player x0 x1 x2 x3 x4 _ x6 x7 x8 x9 x10 x11 x12 x13 x14 x15 x16
    x17 x18 := p in
  Build_Player x0 x1 x2 x3 x4 v x6 x7 x8 x9 x10 x11 x12 x13 x14 x15 x16 x17
    x18.

Definition set_berserk_cd (v : Q) (p : Player) : Player :=
  let 'Build_Player x0 x1 x2 x3 x4 x5 _ x7 x8 x9 x10 x11 x12 x13 x14 x15 x16
    x17 x18 := p in
  Build_Player x0 x1 x2 x3 x4 x5 v x7 x8 x9 x10 x11 x12 x13 x14 x15 x16 x17
    x18.

Definition set_enrage_cd (v : Q) (p : Player) : Player :=
  let 'Build_Player x0 x1 x2 x3 x4 x5 x6 _ x8 x9 x10 x11 x12 x13 x14 x15 x16
    x17 x18 := p in
  Build_Player x0 x1 x2 x3 x4 x5 x6 v x8 x9 x10 x11 x12 x13 x14 x15 x16 x17
    x18.

Definition set_mangle_cd (v : Q) (p : Player) : Player :=
  let 'Build_Player x0 x1 x2 x3 x4 x5 x6 x7 _ x9 x10 x11 x12 x13 x14 x15 x16
    x17 x18 := p in
  Build_Player x0 x1 x2 x3 x4 x5 x6 x7 v x9 x10 x11 x12 x13 x14 x15 x16 x17
    x18.

Definition set_five_second_rule (v : bool) (p : Player) : Player :=
  let 'Build_Player x0 x1 x2 x3 x4 x5 x6 x7 x8 _ x10 x11 x12 x13 x14 x15 x16
    x17 x18 := p in
  Build_Player x0 x1 x2 x3 x4 x5 x6 x7 x8 v x10 x11 x12 x13 x14 x15 x16 x17
    x18.

Definition set_berserk (v : bool) (p : Player) : Player :=
  let 'Build_Player x0 x1 x2 x3 x4 x5 x6 x7 x8 x9 _ x11 x12 x13 x14 x15 x16
    x17 x18 := p in
  Build_Player x0 x1 x2 x3 x4 x5 x6 x7 x8 x9 v x11 x12 x13 x14 x15 x16 x17
    x18.

Definition set_savage_roar (v : bool) (p : Player) : Player :=
  let 'Build_Player x0 x1 x2 x3 x4 x5 x6 x7 x8 x9 x10 _ x12 x13 x14 x15 x16
    x17 x18 := p in
  Build_Player x0 x1 x2 x3 x4 x5 x6 x7 x8 x9 x10 v x12 x13 x14 x15 x16 x17
    x18.

Definition set_enrage (v : bool) (p : Player) : Player :=
  let 'Build_Player x0 x1 x2 x3 x4 x5 x6 x7 x8 x9 x10 x11 _ x13 x14 x15 x16
    x17 x18 := p in
  Build_Player x0 x1 x2 x3 x4 x5 x6 x7 x8 x9 x10 x11 v x13 x14 x15 x16 x17
    x18.

Definition set_omen_proc (v : bool) (p : Player) : Player :=
  let 'Build_Player x0 x1 x2 x3 x4 x5 x6 x7 x8 x9 x10 x11 x12 _ x14 x15 x16
    x17 x18 := p in
  Build_Player x0 x1 x2 x3 x4 x5 x6 x7 x8 x9 x10 x11 x12 v x14 x15 x16 x17
    x18.

Definition set_ready_to_shift (v : bool) (p : Player) : Player :=
  let 'Build_Player x0 x1 x2 x3 x4 x5 x6 x7 x8 x9 x10 x11 x12 x13 _ x15 x16
    x17 x18 := p in
  Build_Player x0 x1 x2 x3 x4 x5 x6 x7 x8 x9 x10 x11 x12 x13 v x15 x16 x17
    x18.

Definition set_p_log (v : bool) (p : Player) : Player :=
  let 'Build_Player x0 x1 x2 x3 x4 x5 x6 x7 x8 x9 x10 x11 x12 x13 x14 _ x16
    x17 x18 := p in
  Build_Player x0 x1 x2 x3 x4 x5 x6 x7 x8 x9 x10 x11 x12 x13 x14 v x16 x17
    x18.

Definition set_p_combat_log (v : option (list string)) (p : Player) : Player :=
  let 'Build_Player x0 x1 x2 x3 x4 x5 x6 x7 x8 x9 x10 x11 x12 x13 x14 x15 _
    x17 x18 := p in
  Build_Player x0 x1 x2 x3 x4 x5 x6 x7 x8 x9 x10 x11 x12 x13 x14 x15 v x17
    x18.

Definition set_dmg_breakdown (v : Breakdown) (p : Player) : Player :=
  let 'Build_Player x0 x1 x2 x3 x4 x5 x6 x7 x8 x9 x10 x11 x12 x13 x14 x15
    x16 _ x18 := p in
  Build_Player x0 x1 x2 x3 x4 x5 x6 x7 x8 x9 x10 x11 x12 x13 x14 x15 x16 v
    x18.

Definition set_pext (v : PExt) (p : Player) : Player :=
  let 'Build_Player x0 x1 x2 x3 x4 x5 x6 x7 x8 x9 x10 x11 x12 x13 x14 x15
    x16 x17 _ := p in
  Build_Player x0 x1 x2 x3 x4 x5 x6 x7 x8 x9 x10 x11 x12 x13 x14 x15 x16 x17
    v.


(** ** The simulation object *)

Record Sim : Type := Build_Sim {
  player : Player;
  fight_length : Q;
  latency : Q;
  trinkets : list Trinket;
  params : Params;
  strategy : Strategy;
  use_sunder : bool;
  trackers : TrackerKind -> Tracker;
  haste_multiplier : Q;
  revitalize_frequency : Q;
  mangle_debuff : bool;
  mangle_end : QInf;
  rake_debuff : bool;
  rake_end : Q;
  rake_ticks : list Q;
  rake_damage : Q;
  rake_sr_snapshot : bool;
  lacerate_debuff : bool;
  lacerate_end : Q;
  lacerate_ticks : list Q;
  last_lacerate_tick : Q;
  lacerate_stacks : Z;
  lacerate_damage : Q;
  lacerate_crit_chance : Q;
  rip_debuff : bool;
  rip_start : Q;
  rip_end : Q;
  rip_ticks : list Q;
  rip_damage : Q;
  rip_crit_chance : Q;
  rip_sr_snapshot : bool;
  roar_end : Q;
  tf_end : Q;
  berserk_end : Q;
  next_action : Q;
  swing_timer : Q;
  swing_times : list Q;
  proc_end_times : list Q;
  time_to_oom : option Q;
  log : bool;
  combat_log : list LogEntry;
  rng : Rng;
  tstore : TStore
}.

Definition set_player (v : Player) (s : Sim) : Sim :=
  let 'Build_Sim _ x1 x2 x3 x4 x5 x6 x7 x8 x9 x10 x11 x12 x13 x14 x15 x16
    x17 x18 x19 x20 x21 x22 x23 x24 x25 x26 x27 x28 x29 x30 x31 x32 x33 x34
    x35 x36 x37 x38 x39 x40 x41 x42 := s in
  Build_Sim v x1 x2 x3 x4 x5 x6 x7 x8 x9 x10 x11 x12 x13 x14 x15 x16 x17 x18
    x19 x20 x21 x22 x23 x24 x25 x26 x27 x28 x29 x30 x31 x32 x33 x34 x35 x36
    x37 x38 x39 x40 x41 x42.

Definition set_fight_length (v : Q) (s : Sim) : Sim :=
  let 'Build_Sim x0 _ x2 x3 x4 x5 x6 x7 x8 x9 x10 x11 x12 x13 x14 x15 x16
    x17 x18 x19 x20 x21 x22 x23 x24 x25 x26 x27 x28 x29 x30 x31 x32 x33 x34
    x35 x36 x37 x38 x39 x40 x41 x42 := s in
  Build_Sim x0 v x2 x3 x4 x5 x6 x7 x8 x9 x10 x11 x12 x13 x14 x15 x16 x17 x18
    x19 x20 x21 x22 x23 x24 x25 x26 x27 x28 x29 x30 x31 x32 x33 x34 x35 x36
    x37 x38 x39 x40 x41 x42.

Definition set_params (v : Params) (s : Sim) : Sim :=
  let 'Build_Sim x0 x1 x2 x3 _ x5 x6 x7 x8 x9 x10 x11 x12 x13 x14 x15 x16
    x17 x18 x19 x20 x21 x22 x23 x24 x25 x26 x27 x28 x29 x30 x31 x32 x33 x34
    x35 x36 x37 x38 x39 x40 x41 x42 := s in
  Build_Sim x0 x1 x2 x3 v x5 x6 x7 x8 x9 x10 x11 x12 x13 x14 x15 x16 x17 x18
    x19 x20 x21 x22 x23 x24 x25 x26 x27 x28 x29 x30 x31 x32 x33 x34 x35 x36
    x37 x38 x39 x40 x41 x42.

Definition set_trackers (v : TrackerKind -> Tracker) (s : Sim) : Sim :=
  let 'Build_Sim x0 x1 x2 x3 x4 x5 x6 _ x8 x9 x10 x11 x12 x13 x14 x15 x16
    x17 x18 x19 x20 x21 x22 x23 x24 x25 x26 x27 x28 x29 x30 x31 x32 x33 x34
    x35 x36 x37 x38 x39 x40 x41 x42 := s in
  Build_Sim x0 x1 x2 x3 x4 x5 x6 v x8 x9 x10 x11 x12 x13 x14 x15 x16 x17 x18
    x19 x20 x21 x22 x23 x24 x25 x26 x27 x28 x29 x30 x31 x32 x33 x34 x35 x36
    x37 x38 x39 x40 x41 x42.

Definition set_mangle_debuff (v : bool) (s : Sim) : Sim :=
  let 'Build_Sim x0 x1 x2 x3 x4 x5 x6 x7 x8 x9 _ x11 x12 x13 x14 x15 x16 x17
    x18 x19 x20 x21 x22 x23 x24 x25 x26 x27 x28 x29 x30 x31 x32 x33 x34 x35
    x36 x37 x38 x39 x40 x41 x42 := s in
  Build_Sim x0 x1 x2 x3 x4 x5 x6 x7 x8 x9 v x11 x12 x13 x14 x15 x16 x17 x18
    x19 x20 x21 x22 x23 x24 x25 x26 x27 x28 x29 x30 x31 x32 x33 x34 x35 x36
    x37 x38 x39 x40 x41 x42.

Definition set_mangle_end (v : QInf) (s : Sim) : Sim :=
  let 'Build_Sim x0 x1 x2 x3 x4 x5 x6 x7 x8 x9 x10 _ x12 x13 x14 x15 x16 x17
    x18 x19 x20 x21 x22 x23 x24 x25 x26 x27 x28 x29 x30 x31 x32 x33 x34 x35
    x36 x37 x38 x39 x40 x41 x42 := s in
  Build_Sim x0 x1 x2 x3 x4 x5 x6 x7 x8 x9 x10 v x12 x13 x14 x15 x16 x17 x18
    x19 x20 x21 x22 x23 x24 x25 x26 x27 x28 x29 x30 x31 x32 x33 x34 x35 x36
    x37 x38 x39 x40 x41 x42.

Definition set_rake_debuff (v : bool) (s : Sim) : Sim :=
  let 'Build_Sim x0 x1 x2 x3 x4 x5 x6 x7 x8 x9 x10 x11 _ x13 x14 x15 x16 x17
    x18 x19 x20 x21 x22 x23 x24 x25 x26 x27 x28 x29 x30 x31 x32 x33 x34 x35
    x36 x37 x38 x39 x40 x41 x42 := s in
  Build_Sim x0 x1 x2 x3 x4 x5 x6 x7 x8 x9 x10 x11 v x13 x14 x15 x16 x17 x18
    x19 x20 x21 x22 x23 x24 x25 x26 x27 x28 x29 x30 x31 x32 x33 x34 x35 x36
    x37 x38 x39 x40 x41 x42.

Definition set_rake_end (v : Q) (s : Sim) : Sim :=
  let 'Build_Sim x0 x1 x2 x3 x4 x5 x6 x7 x8 x9 x10 x11 x12 _ x14 x15 x16 x17
    x18 x19 x20 x21 x22 x23 x24 x25 x26 x27 x28 x29 x30 x31 x32 x33 x34 x35
    x36 x37 x38 x39 x40 x41 x42 := s in
  Build_Sim x0 x1 x2 x3 x4 x5 x6 x7 x8 x9 x10 x11 x12 v x14 x15 x16 x17 x18
    x19 x20 x21 x22 x23 x24 x25 x26 x27 x28 x29 x30 x31 x32 x33 x34 x35 x36
    x37 x38 x39 x40 x41 x42.

Definition set_rake_ticks (v : list Q) (s : Sim) : Sim :=
  let 'Build_Sim x0 x1 x2 x3 x4 x5 x6 x7 x8 x9 x10 x11 x12 x13 _ x15 x16 x17
    x18 x19 x20 x21 x22 x23 x24 x25 x26 x27 x28 x29 x30 x31 x32 x33 x34 x35
    x36 x37 x38 x39 x40 x41 x42 := s in
  Build_Sim x0 x1 x2 x3 x4 x5 x6 x7 x8 x9 x10 x11 x12 x13 v x15 x16 x17 x18
    x19 x20 x21 x22 x23 x24 x25 x26 x27 x28 x29 x30 x31 x32 x33 x34 x35 x36
    x37 x38 x39 x40 x41 x42.

Definition set_rake_damage (v : Q) (s : Sim) : Sim :=
  let 'Build_Sim x0 x1 x2 x3 x4 x5 x6 x7 x8 x9 x10 x11 x12 x13 x14 _ x16 x17
    x18 x19 x20 x21 x22 x23 x24 x25 x26 x27 x28 x29 x30 x31 x32 x33 x34 x35
    x36 x37 x38 x39 x40 x41 x42 := s in
  Build_Sim x0 x1 x2 x3 x4 x5 x6 x7 x8 x9 x10 x11 x12 x13 x14 v x16 x17 x18
    x19 x20 x21 x22 x23 x24 x25 x26 x27 x28 x29 x30 x31 x32 x33 x34 x35 x36
    x37 x38 x39 x40 x41 x42.

Definition set_rake_sr_snapshot (v : bool) (s : Sim) : Sim :=
  let 'Build_Sim x0 x1 x2 x3 x4 x5 x6 x7 x8 x9 x10 x11 x12 x13 x14 x15 _ x17
    x18 x19 x20 x21 x22 x23 x24 x25 x26 x27 x28 x29 x30 x31 x32 x33 x34 x35
    x36 x37 x38 x39 x40 x41 x42 := s in
  Build_Sim x0 x1 x2 x3 x4 x5 x6 x7 x8 x9 x10 x11 x12 x13 x14 x15 v x17 x18
    x19 x20 x21 x22 x23 x24 x25 x26 x27 x28 x29 x30 x31 x32 x33 x34 x35 x36
    x37 x38 x39 x40 x41 x42.

Definition set_lacerate_debuff (v : bool) (s : Sim) : Sim :=
  let 'Build_Sim x0 x1 x2 x3 x4 x5 x6 x7 x8 x9 x10 x11 x12 x13 x14 x15 x16 _
    x18 x19 x20 x21 x22 x23 x24 x25 x26 x27 x28 x29 x30 x31 x32 x33 x34 x35
    x36 x37 x38 x39 x40 x41 x42 := s in
  Build_Sim x0 x1 x2 x3 x4 x5 x6 x7 x8 x9 x10 x11 x12 x13 x14 x15 x16 v x18
    x19 x20 x21 x22 x23 x24 x25 x26 x27 x28 x29 x30 x31 x32 x33 x34 x35 x36
    x37 x38 x39 x40 x41 x42.

Definition set_lacerate_end (v : Q) (s : Sim) : Sim :=
  let 'Build_Sim x0 x1 x2 x3 x4 x5 x6 x7 x8 x9 x10 x11 x12 x13 x14 x15 x16
    x17 _ x19 x20 x21 x22 x23 x24 x25 x26 x27 x28 x29 x30 x31 x32 x33 x34
    x35 x36 x37 x38 x39 x40 x41 x42 := s in
  Build_Sim x0 x1 x2 x3 x4 x5 x6 x7 x8 x9 x10 x11 x12 x13 x14 x15 x16 x17 v
    x19 x20 x21 x22 x23 x24 x25 x26 x27 x28 x29 x30 x31 x32 x33 x34 x35 x36
    x37 x38 x39 x40 x41 x42.

Definition set_lacerate_ticks (v : list Q) (s : Sim) : Sim :=
  let 'Build_Sim x0 x1 x2 x3 x4 x5 x6 x7 x8 x9 x10 x11 x12 x13 x14 x15 x16
    x17 x18 _ x20 x21 x22 x23 x24 x25 x26 x27 x28 x29 x30 x31 x32 x33 x34
    x35 x36 x37 x38 x39 x40 x41 x42 := s in
  Build_Sim x0 x1 x2 x3 x4 x5 x6 x7 x8 x9 x10 x11 x12 x13 x14 x15 x16 x17
    x18 v x20 x21 x22 x23 x24 x25 x26 x27 x28 x29 x30 x31 x32 x33 x34 x35
    x36 x37 x38 x39 x40 x41 x42.

Definition set_last_lacerate_tick (v : Q) (s : Sim) : Sim :=
  let 'Build_Sim x0 x1 x2 x3 x4 x5 x6 x7 x8 x9 x10 x11 x12 x13 x14 x15 x16
    x17 x18 x19 _ x21 x22 x23 x24 x25 x26 x27 x28 x29 x30 x31 x32 x33 x34
    x35 x36 x37 x38 x39 x40 x41 x42 := s in
  Build_Sim x0 x1 x2 x3 x4 x5 x6 x7 x8 x9 x10 x11 x12 x13 x14 x15 x16 x17
    x18 x19 v x21 x22 x23 x24 x25 x26 x27 x28 x29 x30 x31 x32 x33 x34 x35
    x36 x37 x38 x39 x40 x41 x42.

Definition set_lacerate_stacks (v : Z) (s : Sim) : Sim :=
  let 'Build_Sim x0 x1 x2 x3 x4 x5 x6 x7 x8 x9 x10 x11 x12 x13 x14 x15 x16
    x17 x18 x19 x20 _ x22 x23 x24 x25 x26 x27 x28 x29 x30 x31 x32 x33 x34
    x35 x36 x37 x38 x39 x40 x41 x42 := s in
  Build_Sim x0 x1 x2 x3 x4 x5 x6 x7 x8 x9 x10 x11 x12 x13 x14 x15 x16 x17
    x18 x19 x20 v x22 x23 x24 x25 x26 x27 x28 x29 x30 x31 x32 x33 x34 x35
    x36 x37 x38 x39 x40 x41 x42.

Definition set_lacerate_damage (v : Q) (s : Sim) : Sim :=
  let 'Build_Sim x0 x1 x2 x3 x4 x5 x6 x7 x8 x9 x10 x11 x12 x13 x14 x15 x16
    x17 x18 x19 x20 x21 _ x23 x24 x25 x26 x27 x28 x29 x30 x31 x32 x33 x34
    x35 x36 x37 x38 x39 x40 x41 x42 := s in
  Build_Sim x0 x1 x2 x3 x4 x5 x6 x7 x8 x9 x10 x11 x12 x13 x14 x15 x16 x17
    x18 x19 x20 x21 v x23 x24 x25 x26 x27 x28 x29 x30 x31 x32 x33 x34 x35
    x36 x37 x38 x39 x40 x41 x42.

Definition set_lacerate_crit_chance (v : Q) (s : Sim) : Sim :=
  let 'Build_Sim x0 x1 x2 x3 x4 x5 x6 x7 x8 x9 x10 x11 x12 x13 x14 x15 x16
    x17 x18 x19 x20 x21 x22 _ x24 x25 x26 x27 x28 x29 x30 x31 x32 x33 x34
    x35 x36 x37 x38 x39 x40 x41 x42 := s in
  Build_Sim x0 x1 x2 x3 x4 x5 x6 x7 x8 x9 x10 x11 x12 x13 x14 x15 x16 x17
    x18 x19 x20 x21 x22 v x24 x25 x26 x27 x28 x29 x30 x31 x32 x33 x34 x35
    x36 x37 x38 x39 x40 x41 x42.

Definition set_rip_debuff (v : bool) (s : Sim) : Sim :=
  let 'Build_Sim x0 x1 x2 x3 x4 x5 x6 x7 x8 x9 x10 x11 x12 x13 x14 x15 x16
    x17 x18 x19 x20 x21 x22 x23 _ x25 x26 x27 x28 x29 x30 x31 x32 x33 x34
    x35 x36 x37 x38 x39 x40 x41 x42 := s in
  Build_Sim x0 x1 x2 x3 x4 x5 x6 x7 x8 x9 x10 x11 x12 x13 x14 x15 x16 x17
    x18 x19 x20 x21 x22 x23 v x25 x26 x27 x28 x29 x30 x31 x32 x33 x34 x35
    x36 x37 x38 x39 x40 x41 x42.

Definition set_rip_start (v : Q) (s : Sim) : Sim :=
  let 'Build_Sim x0 x1 x2 x3 x4 x5 x6 x7 x8 x9 x10 x11 x12 x13 x14 x15 x16
    x17 x18 x19 x20 x21 x22 x23 x24 _ x26 x27 x28 x29 x30 x31 x32 x33 x34
    x35 x36 x37 x38 x39 x40 x41 x42 := s in
  Build_Sim x0 x1 x2 x3 x4 x5 x6 x7 x8 x9 x10 x11 x12 x13 x14 x15 x16 x17
    x18 x19 x20 x21 x22 x23 x24 v x26 x27 x28 x29 x30 x31 x32 x33 x34 x35
    x36 x37 x38 x39 x40 x41 x42.

Definition set_rip_end (v : Q) (s : Sim) : Sim :=
  let 'Build_Sim x0 x1 x2 x3 x4 x5 x6 x7 x8 x9 x10 x11 x12 x13 x14 x15 x16
    x17 x18 x19 x20 x21 x22 x23 x24 x25 _ x27 x28 x29 x30 x31 x32 x33 x34
    x35 x36 x37 x38 x39 x40 x41 x42 := s in
  Build_Sim x0 x1 x2 x3 x4 x5 x6 x7 x8 x9 x10 x11 x12 x13 x14 x15 x16 x17
    x18 x19 x20 x21 x22 x23 x24 x25 v x27 x28 x29 x30 x31 x32 x33 x34 x35
    x36 x37 x38 x39 x40 x41 x42.

Definition set_rip_ticks (v : list Q) (s : Sim) : Sim :=
  let 'Build_Sim x0 x1 x2 x3 x4 x5 x6 x7 x8 x9 x10 x11 x12 x13 x14 x15 x16
    x17 x18 x19 x20 x21 x22 x23 x24 x25 x26 _ x28 x29 x30 x31 x32 x33 x34
    x35 x36 x37 x38 x39 x40 x41 x42 := s in
  Build_Sim x0 x1 x2 x3 x4 x5 x6 x7 x8 x9 x10 x11 x12 x13 x14 x15 x16 x17
    x18 x19 x20 x21 x22 x23 x24 x25 x26 v x28 x29 x30 x31 x32 x33 x34 x35
    x36 x37 x38 x39 x40 x41 x42.

Definition set_rip_damage (v : Q) (s : Sim) : Sim :=
  let 'Build_Sim x0 x1 x2 x3 x4 x5 x6 x7 x8 x9 x10 x11 x12 x13 x14 x15 x16
    x17 x18 x19 x20 x21 x22 x23 x24 x25 x26 x27 _ x29 x30 x31 x32 x33 x34
    x35 x36 x37 x38 x39 x40 x41 x42 := s in
  Build_Sim x0 x1 x2 x3 x4 x5 x6 x7 x8 x9 x10 x11 x12 x13 x14 x15 x16 x17
    x18 x19 x20 x21 x22 x23 x24 x25 x26 x27 v x29 x30 x31 x32 x33 x34 x35
    x36 x37 x38 x39 x40 x41 x42.

Definition set_rip_crit_chance (v : Q) (s : Sim) : Sim :=
  let 'Build_Sim x0 x1 x2 x3 x4 x5 x6 x7 x8 x9 x10 x11 x12 x13 x14 x15 x16
    x17 x18 x19 x20 x21 x22 x23 x24 x25 x26 x27 x28 _ x30 x31 x32 x33 x34
    x35 x36 x37 x38 x39 x40 x41 x42 := s in
  Build_Sim x0 x1 x2 x3 x4 x5 x6 x7 x8 x9 x10 x11 x12 x13 x14 x15 x16 x17
    x18 x19 x20 x21 x22 x23 x24 x25 x26 x27 x28 v x30 x31 x32 x33 x34 x35
    x36 x37 x38 x39 x40 x41 x42.

Definition set_rip_sr_snapshot (v : bool) (s : Sim) : Sim :=
  let 'Build_Sim x0 x1 x2 x3 x4 x5 x6 x7 x8 x9 x10 x11 x12 x13 x14 x15 x16
    x17 x18 x19 x20 x21 x22 x23 x24 x25 x26 x27 x28 x29 _ x31 x32 x33 x34
    x35 x36 x37 x38 x39 x40 x41 x42 := s in
  Build_Sim x0 x1 x2 x3 x4 x5 x6 x7 x8 x9 x10 x11 x12 x13 x14 x15 x16 x17
    x18 x19 x20 x21 x22 x23 x24 x25 x26 x27 x28 x29 v x31 x32 x33 x34 x35
    x36 x37 x38 x39 x40 x41 x42.

Definition set_roar_end (v : Q) (s : Sim) : Sim :=
  let 'Build_Sim x0 x1 x2 x3 x4 x5 x6 x7 x8 x9 x10 x11 x12 x13 x14 x15 x16
    x17 x18 x19 x20 x21 x22 x23 x24 x25 x26 x27 x28 x29 x30 _ x32 x33 x34
    x35 x36 x37 x38 x39 x40 x41 x42 := s in
  Build_Sim x0 x1 x2 x3 x4 x5 x6 x7 x8 x9 x10 x11 x12 x13 x14 x15 x16 x17
    x18 x19 x20 x21 x22 x23 x24 x25 x26 x27 x28 x29 x30 v x32 x33 x34 x35
    x36 x37 x38 x39 x40 x41 x42.

Definition set_tf_end (v : Q) (s : Sim) : Sim :=
  let 'Build_Sim x0 x1 x2 x3 x4 x5 x6 x7 x8 x9 x10 x11 x12 x13 x14 x15 x16
    x17 x18 x19 x20 x21 x22 x23 x24 x25 x26 x27 x28 x29 x30 x31 _ x33 x34
    x35 x36 x37 x38 x39 x40 x41 x42 := s in
  Build_Sim x0 x1 x2 x3 x4 x5 x6 x7 x8 x9 x10 x11 x12 x13 x14 x15 x16 x17
    x18 x19 x20 x21 x22 x23 x24 x25 x26 x27 x28 x29 x30 x31 v x33 x34 x35
    x36 x37 x38 x39 x40 x41 x42.

Definition set_berserk_end (v : Q) (s : Sim) : Sim :=
  let 'Build_Sim x0 x1 x2 x3 x4 x5 x6 x7 x8 x9 x10 x11 x12 x13 x14 x15 x16
    x17 x18 x19 x20 x21 x22 x23 x24 x25 x26 x27 x28 x29 x30 x31 x32 _ x34
    x35 x36 x37 x38 x39 x40 x41 x42 := s in
  Build_Sim x0 x1 x2 x3 x4 x5 x6 x7 x8 x9 x10 x11 x12 x13 x14 x15 x16 x17
    x18 x19 x20 x21 x22 x23 x24 x25 x26 x27 x28 x29 x30 x31 x32 v x34 x35
    x36 x37 x38 x39 x40 x41 x42.

Definition set_next_action (v : Q) (s : Sim) : Sim :=
  let 'Build_Sim x0 x1 x2 x3 x4 x5 x6 x7 x8 x9 x10 x11 x12 x13 x14 x15 x16
    x17 x18 x19 x20 x21 x22 x23 x24 x25 x26 x27 x28 x29 x30 x31 x32 x33 _
    x35 x36 x37 x38 x39 x40 x41 x42 := s in
  Build_Sim x0 x1 x2 x3 x4 x5 x6 x7 x8 x9 x10 x11 x12 x13 x14 x15 x16 x17
    x18 x19 x20 x21 x22 x23 x24 x25 x26 x27 x28 x29 x30 x31 x32 x33 v x35
    x36 x37 x38 x39 x40 x41 x42.

Definition set_swing_timer (v : Q) (s : Sim) : Sim :=
  let 'Build_Sim x0 x1 x2 x3 x4 x5 x6 x7 x8 x9 x10 x11 x12 x13 x14 x15 x16
    x17 x18 x19 x20 x21 x22 x23 x24 x25 x26 x27 x28 x29 x30 x31 x32 x33 x34
    _ x36 x37 x38 x39 x40 x41 x42 := s in
  Build_Sim x0 x1 x2 x3 x4 x5 x6 x7 x8 x9 x10 x11 x12 x13 x14 x15 x16 x17
    x18 x19 x20 x21 x22 x23 x24 x25 x26 x27 x28 x29 x30 x31 x32 x33 x34 v
    x36 x37 x38 x39 x40 x41 x42.

Definition set_swing_times (v : list Q) (s : Sim) : Sim :=
  let 'Build_Sim x0 x1 x2 x3 x4 x5 x6 x7 x8 x9 x10 x11 x12 x13 x14 x15 x16
    x17 x18 x19 x20 x21 x22 x23 x24 x25 x26 x27 x28 x29 x30 x31 x32 x33 x34
    x35 _ x37 x38 x39 x40 x41 x42 := s in
  Build_Sim x0 x1 x2 x3 x4 x5 x6 x7 x8 x9 x10 x11 x12 x13 x14 x15 x16 x17
    x18 x19 x20 x21 x22 x23 x24 x25 x26 x27 x28 x29 x30 x31 x32 x33 x34 x35
    v x37 x38 x39 x40 x41 x42.

Definition set_proc_end_times (v : list Q) (s : Sim) : Sim :=
  let 'Build_Sim x0 x1 x2 x3 x4 x5 x6 x7 x8 x9 x10 x11 x12 x13 x14 x15 x16
    x17 x18 x19 x20 x21 x22 x23 x24 x25 x26 x27 x28 x29 x30 x31 x32 x33 x34
    x35 x36 _ x38 x39 x40 x41 x42 := s in
  Build_Sim x0 x1 x2 x3 x4 x5 x6 x7 x8 x9 x10 x11 x12 x13 x14 x15 x16 x17
    x18 x19 x20 x21 x22 x23 x24 x25 x26 x27 x28 x29 x30 x31 x32 x33 x34 x35
    x36 v x38 x39 x40 x41 x42.

Definition set_time_to_oom (v : option Q) (s : Sim) : Sim :=
  let 'Build_Sim x0 x1 x2 x3 x4 x5 x6 x7 x8 x9 x10 x11 x12 x13 x14 x15 x16
    x17 x18 x19 x20 x21 x22 x23 x24 x25 x26 x27 x28 x29 x30 x31 x32 x33 x34
    x35 x36 x37 _ x39 x40 x41 x42 := s in
  Build_Sim x0 x1 x2 x3 x4 x5 x6 x7 x8 x9 x10 x11 x12 x13 x14 x15 x16 x17
    x18 x19 x20 x21 x22 x23 x24 x25 x26 x27 x28 x29 x30 x31 x32 x33 x34 x35
    x36 x37 v x39 x40 x41 x42.

Definition set_log (v : bool) (s : Sim) : Sim :=
  let 'Build_Sim x0 x1 x2 x3 x4 x5 x6 x7 x8 x9 x10 x11 x12 x13 x14 x15 x16
    x17 x18 x19 x20 x21 x22 x23 x24 x25 x26 x27 x28 x29 x30 x31 x32 x33 x34
    x35 x36 x37 x38 _ x40 x41 x42 := s in
  Build_Sim x0 x1 x2 x3 x4 x5 x6 x7 x8 x9 x10 x11 x12 x13 x14 x15 x16 x17
    x18 x19 x20 x21 x22 x23 x24 x25 x26 x27 x28 x29 x30 x31 x32 x33 x34 x35
    x36 x37 x38 v x40 x41 x42.

Definition set_combat_log (v : list LogEntry) (s : Sim) : Sim :=
  let 'Build_Sim x0 x1 x2 x3 x4 x5 x6 x7 x8 x9 x10 x11 x12 x13 x14 x15 x16
    x17 x18 x19 x20 x21 x22 x23 x24 x25 x26 x27 x28 x29 x30 x31 x32 x33 x34
    x35 x36 x37 x38 x39 _ x41 x42 := s in
  Build_Sim x0 x1 x2 x3 x4 x5 x6 x7 x8 x9 x10 x11 x12 x13 x14 x15 x16 x17
    x18 x19 x20 x21 x22 x23 x24 x25 x26 x27 x28 x29 x30 x31 x32 x33 x34 x35
    x36 x37 x38 x39 v x41 x42.

Definition set_rng (v : Rng) (s : Sim) : Sim :=
  let 'Build_Sim x0 x1 x2 x3 x4 x5 x6 x7 x8 x9 x10 x11 x12 x13 x14 x15 x16
    x17 x18 x19 x20 x21 x22 x23 x24 x25 x26 x27 x28 x29 x30 x31 x32 x33 x34
    x35 x36 x37 x38 x39 x40 _ x42 := s in
  Build_Sim x0 x1 x2 x3 x4 x5 x6 x7 x8 x9 x10 x11 x12 x13 x14 x15 x16 x17
    x18 x19 x20 x21 x22 x23 x24 x25 x26 x27 x28 x29 x30 x31 x32 x33 x34 x35
    x36 x37 x38 x39 x40 v x42.


End Records.

(** ** The collaborators *)

Section Interfaces.
Context `{ET : ExtTypes}.

(** A method of the player: it may change the player and draw from the
    generator. *)
Definition PM (A : Type) : Type := Player -> Rng -> A * Player * Rng.

End Interfaces.

Class Collab `{ET : ExtTypes} : Type := {
  (* numpy.random *)
  rand : Rng -> Q * Rng;
  randn : Rng -> Q * Rng;
  (* sim_utils.calc_yellow_damage(low, high, bonus, crit_chance,
     crit_multiplier), first component of the result *)
  calc_yellow_damage : Q -> Q -> Q -> Q -> Q -> Rng -> Q * Rng;
  (* attributes of the player that the simulation reads *)
  combo_points : PExt -> Z;
  mana : PExt -> Q;
  cat_form : PExt -> bool;
  last_shift : PExt -> Q;
  omen : PExt -> bool;
  p_swing_timer : PExt -> Q;
  furor : PExt -> Q;
  berserk_glyph : PExt -> bool;
  shred_glyph : PExt -> bool;
  primal_gore : PExt -> bool;
  rip_duration : PExt -> Q;
  roar_durations : PExt -> Z -> option Q;
  roar_cost : PExt -> Q;
  rip_cost : PExt -> Q;
  bite_cost : PExt -> Q;
  rake_cost : PExt -> Q;
  mangle_cost : PExt -> Q;
  _mangle_cost : PExt -> Q;
  shred_cost : PExt -> Q;
  crit_chance : PExt -> Q;
  miss_chance : PExt -> Q;
  attack_power : PExt -> Q;
  bite_low : PExt -> Z -> option Q;
  bite_high : PExt -> Z -> option Q;
  bite_multiplier : PExt -> Q;
  rip_tick : PExt -> Z -> option Q;
  shred_low : PExt -> Q;
  shred_high : PExt -> Q;
  rake_hit : PExt -> Q;
  rake_tick : PExt -> Q;
  lacerate_tick : PExt -> Q;
  roar_fac : PExt -> Q;
  proc_trinkets : PExt -> list TId;
  calc_crit_multiplier : PExt -> Q;
  (* methods of the player *)
  player_reset : PM unit;
  player_regen : Q -> PM unit;
  player_swing : PM Q;
  player_maul : bool -> PM Q;
  player_shift : Q -> bool -> PM unit;
  player_mangle : PM (Q * bool);
  player_rake : bool -> PM (Q * bool);
  player_lacerate : bool -> PM (Q * bool);
  player_rip : PM (Q * bool);
  player_shred : bool -> PM (Q * bool);
  player_bite : PM Q;
  player_roar : Q -> PM Q;
  player_calc_damage_params : Params -> PM unit;
  player_set_ability_costs : PM unit;
  player_set_mana_regen : PM unit;
  (* hooks of the trinket objects given by the caller; each receives the
     simulation and may change it *)
  trinket_reset : TId -> Sim -> Sim;
  trinket_update : TId -> Q -> Sim -> Q * Sim;
  trinket_periodic_only : TId -> Sim -> bool;
  trinket_check_for_proc : TId -> bool -> bool -> Sim -> Sim;
  (* the end-of-fight block of [run] for such a trinket: deactivate it if
     it is active and report [proc_name, num_procs, uptime], or nothing
     when an attribute is missing *)
  trinket_finish : TId -> Q -> Sim -> option AuraStat * Sim
}.

Section Monad.
Context `{C : Collab}.

(** ** The state-and-error monad of the simulation's methods *)

Definition M (A : Type) : Type := Sim -> Result (A * Sim).

Definition ret {A : Type} (a : A) : M A := fun s => Ok (a, s).

Definition bind {A B : Type} (m : M A) (k : A -> M B) : M B :=
  fun s => match m s with
           | Ok (a, s') => k a s'
           | Raise e => Raise e
           end.

Definition raise {A : Type} (e : exn) : M A := fun _ => Raise e.

(** Read the state. *)
Definition gets {A : Type} (f : Sim -> A) : M A := fun s => Ok (f s, s).

(** Read the state with an expression that may raise. *)
Definition getsR {A : Type} (f : Sim -> Result A) : M A :=
  fun s => match f s with Ok a => Ok (a, s) | Raise e => Raise e end.

(** Assign attributes. *)
Definition modify (f : Sim -> Sim) : M unit := fun s => Ok (tt, f s).

(** [if c: t else: e] on a condition over the state. *)
Definition ifS {A : Type} (c : Sim -> bool) (t e : M A) : M A :=
  fun s => if c s then t s else e s.

Definition whenS (c : Sim -> bool) (t : M unit) : M unit := ifS c t (ret tt).

(** Call a method of the player. *)
Definition call_player {A : Type} (m : PM A) : M A :=
  fun s => let '(a, p, g) := m (player s) (rng s) in
           Ok (a, set_rng g (set_player p s)).

(** Call a hook of a trinket object. *)
Definition call_trinket {A : Type} (f : Sim -> A * Sim) : M A :=
  fun s => Ok (f s).

(** Draw from [np.random.rand()]. *)
Definition np_rand : M Q :=
  fun s => let '(x, g) := rand (rng s) in Ok (x, set_rng g s).

Definition np_randn : M Q :=
  fun s => let '(x, g) := randn (rng s) in Ok (x, set_rng g s).

End Monad.

Notation "x <- m ;; k" := (bind m (fun x => k))
  (at level 20, m at level 99, k at level 200, only parsing).
Notation "' pat <- m ;; k" := (bind m (fun x => match x with pat => k end))
  (at level 20, pat pattern, m at level 99, k at level 200, only parsing).
Notation "m ;;; k" := (bind m (fun _ => k))
  (at level 100, k at level 200, only parsing, right associativity).
Notation "s |> f" := (f s) (at level 45, left associativity, only parsing).

(** ** Combat log *)

Section Logging.
Context `{C : Collab}.

(** [Simulation.gen_log]. *)
Definition gen_log (time : Q) (event : string) (outcome : Outcome)
    (s : Sim) : LogEntry :=
  GenLog time event outcome (energy (player s))
         (combo_points (pext (player s))) (mana (pext (player s)))
         (rage (player s)).

(** [if self.log: self.combat_log.append(entry)]. *)
Definition log_append (entry : Sim -> LogEntry) : M unit :=
  fun s => if log s
           then Ok (tt, set_combat_log (combat_log s ++ [entry s]) s)
           else Ok (tt, s).

(** [if log: self.combat_log.append(entry)], on the argument [log] of
    [run] rather than on the attribute. *)
Definition log_append_if (log_v : bool) (entry : Sim -> LogEntry) : M unit :=
  fun s => if log_v
           then Ok (tt, set_combat_log (combat_log s ++ [entry s]) s)
           else Ok (tt, s).

End Logging.

(** ** class ArmorDebuffs *)

Module ArmorDebuffs.
Section Defs.
Context `{C : Collab}.

Definition reset : M unit :=
  modify (fun s => set_params (set_sunder 0%Z (params s)) s).

Definition update (time : Q) : M Q :=
  ifS (fun s => use_sunder s && (sunder (params s) <? 5)%Z
                && Qgeb time (1.5 * inject_Z (sunder (params s))))
    (modify (fun s =>
       set_params (set_sunder (sunder (params s) + 1)%Z (params s)) s);;;
     log_append (gen_log time "Sunder Armor" (OText "applied"));;;
     d <- gets params;;
     call_player (player_calc_damage_params d);;;
     ret 0)
    (ret 0).

End Defs.
End ArmorDebuffs.

(** ** class UptimeTracker and its subclasses *)

(** What [is_active] returns: the subclasses return a boolean, the base
    class returns (it does not raise) a [NotImplementedError] object. *)
Inductive ActiveValue : Type :=
| ActiveBool (b : bool)
| NotImplementedErrorObject (msg : string).

Definition same_kind (a b : TrackerKind) : bool :=
  match a, b with
  | BaseTracker, BaseTracker => true
  | RipTracker, RipTracker => true
  | RoarTracker, RoarTracker => true
  | _, _ => false
  end.

Module UptimeTracker.
Section Defs.
Context `{C : Collab}.

Definition reset : Tracker :=
  {| uptime := 0; last_update := 15; active := false; num_procs := 0 |}.

(** [__init__], for every kind of tracker. *)
Definition init (k : TrackerKind) : Result Tracker := Ok reset.

(** [is_active(player, sim)], by class. *)
Definition is_active (k : TrackerKind) (s : Sim) : ActiveValue :=
  match k with
  | BaseTracker =>
      NotImplementedErrorObject
        "Logic for aura active status must be implemented by UptimeTracker subclasses."
  | RipTracker => ActiveBool (rip_debuff s)
  | RoarTracker => ActiveBool (savage_roar (player s))
  end.

(** [update(time, player, sim)] on the accumulators [t].  The product
    [dt * active_now] of a float and an exception object is a [TypeError],
    raised before any attribute is assigned.  The divisor [time - 15] is
    positive whenever [last_update] is at least 15, as [reset] leaves it
    and [update] keeps it; with a smaller [last_update] the program can
    divide by zero, which the quotient of [Q] does not show. *)
Definition update_tracker (k : TrackerKind) (time : Q) (s : Sim)
    (t : Tracker) : Result Tracker :=
  if Qgtb time (last_update t) && Qltb time (fight_length s - 15) then
    let dt := time - last_update t in
    match is_active k s with
    | ActiveBool active_now =>
        Ok {| uptime := (uptime t * (last_update t - 15) + dt * b2q active_now)
                        / (time - 15);
              last_update := time;
              active := active_now;
              num_procs := if active_now && negb (active t)
                           then (num_procs t + 1)%Z else num_procs t |}
    | NotImplementedErrorObject _ => Raise TypeError
    end
  else Ok t.

(** The method on the tracker object of kind [k] held by the simulation. *)
Definition update (k : TrackerKind) (time : Q) : M Q :=
  fun s => match update_tracker k time s (trackers s k) with
           | Ok t => Ok (0, set_trackers
                              (fun k' => if same_kind k' k then t
                                         else trackers s k') s)
           | Raise e => Raise e
           end.

Definition deactivate (t : Tracker) : Tracker := set_active false t.

Definition proc_name (k : TrackerKind) : Result string :=
  match k with
  | BaseTracker => Raise AttributeError
  | RipTracker => Ok "Rip"%string
  | RoarTracker => Ok "Savage Roar"%string
  end.

End Defs.
End UptimeTracker.

(** ** class Simulation: abilities and their bookkeeping *)

Section Abilities.
Context `{C : Collab}.

(** [l[0]]. *)
Definition first_of (l : list Q) : Result Q :=
  match l with
  | [] => Raise IndexError
  | x :: _ => Ok x
  end.

(** [self.player.dmg_breakdown[ability]['damage'] += x]. *)
Definition add_damage (ability : string) (x : Q) : M unit :=
  fun s =>
    let bd := dmg_breakdown (player s) in
    match dict_get ability bd with
    | None => Raise KeyError
    | Some inner =>
        match dict_get "damage" inner with
        | None => Raise KeyError
        | Some d =>
            Ok (tt, set_player
                      (set_dmg_breakdown
                         (dict_set ability (dict_set "damage" (d + x) inner) bd)
                         (player s)) s)
        end
    end.

Definition mangle (time : Q) : M Q :=
  '(damage_done, success) <- call_player player_mangle;;
  (* If it landed, flag the debuff as active and start timer *)
  (if success : bool then
     modify (fun s =>
       s |> set_mangle_debuff true
         |> set_mangle_end (if bear_mangle (strategy s) then Infinity
                            else Finite (time + 60)))
   else ret tt);;;
  ret damage_done.

Definition rake (time : Q) : M Q :=
  md <- gets mangle_debuff;;
  '(damage_done, success) <- call_player (player_rake md);;
  (if success : bool then
     modify (fun s =>
       s |> set_rake_debuff true
         |> set_rake_end (time + 9)
         |> set_rake_ticks (arange (time + 3) (time + 9.01) 3)
         |> set_rake_damage (rake_tick (pext (player s)))
         |> set_rake_sr_snapshot (savage_roar (player s)))
   else ret tt);;;
  ret damage_done.

Definition lacerate (time : Q) : M Q :=
  md <- gets mangle_debuff;;
  '(damage_done, success) <- call_player (player_lacerate md);;
  (if success : bool then
     modify (set_lacerate_end (time + 15));;;
     ifS lacerate_debuff
       (* Lacerate maintains its tick rate when it is refreshed, so we
          simply append more ticks to extend the duration. *)
       (modify (fun s =>
          let last_tick :=
            match lacerate_ticks s with
            | [] => last_lacerate_tick s
            | _ :: _ => List.last (lacerate_ticks s) 0
            end in
          s |> set_lacerate_ticks
                 (lacerate_ticks s
                  ++ arange (last_tick + 3) (lacerate_end s + eps) 3)
            |> set_lacerate_stacks (Z.min (lacerate_stacks s + 1) 5)))
       (modify (fun s =>
          s |> set_lacerate_debuff true
            |> set_lacerate_ticks (arange (time + 3) (time + 16) 3)
            |> set_lacerate_stacks 1%Z));;;
     modify (fun s =>
       s |> set_lacerate_damage
              (lacerate_tick (pext (player s))
               * inject_Z (lacerate_stacks s)
               * (1 + 0.15 * b2q (enrage (player s))))
         |> set_lacerate_crit_chance (crit_chance (pext (player s)) - 0.04))
   else ret tt);;;
  ret damage_done.

Definition rip (time : Q) : M Q :=
  '(damage_per_tick, success) <- call_player player_rip;;
  (if success : bool then
     modify (fun s =>
       let rip_end' := time + rip_duration (pext (player s)) in
       s |> set_rip_debuff true
         |> set_rip_start time
         |> set_rip_end rip_end'
         |> set_rip_ticks (arange (time + 2) (rip_end' + eps) 2)
         |> set_rip_damage damage_per_tick
         |> set_rip_crit_chance (crit_chance (pext (player s)))
         |> set_rip_sr_snapshot (savage_roar (player s)))
   else ret tt);;;
  ret 0.

Definition shred : M Q :=
  md <- gets mangle_debuff;;
  '(damage_done, success) <- call_player (player_shred md);;
  (* If it landed, apply Glyph of Shred *)
  whenS (fun s => success && rip_debuff s && shred_glyph (pext (player s)))
    (whenS (fun s => Qltb (rip_end s - rip_start s)
                          (rip_duration (pext (player s)) + 6))
       (modify (fun s => set_rip_end (rip_end s + 2) s);;;
        modify (fun s => set_rip_ticks (rip_ticks s ++ [rip_end s]) s)));;;
  ret damage_done.

(** ** Predictions used by the decision engine *)

Definition berserk_expected_at (current_time future_time : Q) (s : Sim)
    : bool :=
  if berserk (player s) then
    Qltb future_time (berserk_end s)
    || Qgtb future_time (current_time + berserk_cd (player s))
  else if Qgtb (berserk_cd (player s)) eps then
    Qgtb future_time (current_time + berserk_cd (player s))
  else if tigers_fury (params s) && use_berserk (strategy s) then
    Qgtb future_time (tf_end s)
  else false.

Definition tf_expected_before (current_time future_time : Q) (s : Sim)
    : bool :=
  if Qgtb (tf_cd (player s)) eps then
    Qltb (current_time + tf_cd (player s)) future_time
  else if berserk (player s) then
    Qltb (berserk_end s) future_time
  else true.

Definition get_finisher_costs (time : Q) (s : Sim) : Q * Q * Q :=
  let rip_end' := if negb (rip_debuff s) then time else rip_end s in
  let ripcost := if berserk_expected_at time rip_end' s then 15 else 30 in
  let bitecost :=
    if Qgeb (energy (player s)) (bite_cost (pext (player s)))
    then pymin (bite_cost (pext (player s)) + 30) (energy (player s))
    else bite_cost (pext (player s)) + 10 * latency s in
  let sr_end := if negb (savage_roar (player s)) then time else roar_end s in
  let srcost := if berserk_expected_at time sr_end s then 12.5 else 25 in
  (ripcost, bitecost, srcost).

(** A table lookup [table[key]]. *)
Definition lookup_table (table : Z -> option Q) (key : Z) : Result Q :=
  match table key with
  | Some v => Ok v
  | None => Raise KeyError
  end.

(** [calc_allowed_rip_downtime].  Its quotients (by [avg_rip_tick],
    [shred_dpc] and [rake_dpc]) are those of [Q]: the program fails where a
    divisor is zero. *)
Definition calc_allowed_rip_downtime (time : Q) (s : Sim) : Result (Q * Q) :=
  let pl := pext (player s) in
  let rip_cp := min_combos_for_rip (strategy s) in
  let bite_cp := min_combos_for_bite (strategy s) in
  let '(rip_cost', bite_cost', roar_cost') := get_finisher_costs time s in
  let crit_factor := calc_crit_multiplier pl - 1 in
  match lookup_table (bite_low pl) bite_cp with
  | Raise e => Raise e
  | Ok bite_low_cp =>
  match lookup_table (bite_high pl) bite_cp with
  | Raise e => Raise e
  | Ok bite_high_cp =>
  let bite_base_dmg := 0.5 * (bite_low_cp + bite_high_cp) in
  let bite_bonus_dmg :=
    (bite_cost' - bite_cost pl) * (9.4 + attack_power pl / 410)
    * bite_multiplier pl in
  let bite_dpc :=
    (bite_base_dmg + bite_bonus_dmg)
    * (1 + crit_factor * (crit_chance pl + 0.25)) in
  let crit_mod := crit_factor * crit_chance pl in
  match lookup_table (rip_tick pl) rip_cp with
  | Raise e => Raise e
  | Ok rip_tick_cp =>
  let avg_rip_tick :=
    rip_tick_cp * 1.3 * (1 + crit_mod * b2q (primal_gore pl)) in
  let shred_dpc :=
    0.5 * (shred_low pl + shred_high pl) * 1.3 * (1 + crit_mod) in
  let allowed_rip_downtime :=
    (bite_dpc - (bite_cost' - rip_cost') * shred_dpc / 42) / avg_rip_tick * 2 in
  let cpe := (42 * bite_dpc / shred_dpc - 35) / 5 in
  let srep1 := (1 - 5) * (cpe - 125 / 34) in
  let srep2 := (2 - 5) * (cpe - 125 / 34) in
  let srep_avg := crit_chance pl * srep2 + (1 - crit_chance pl) * srep1 in
  let rake_dpc :=
    1.3 * (rake_hit pl * (1 + crit_mod)
           + 3 * rake_tick pl * (1 + crit_mod * b2q (primal_gore pl))) in
  let allowed_sr_downtime :=
    (bite_dpc - shred_dpc / 42 * pymin (pymin srep_avg srep1) srep2)
    / (0.33 / 1.33 * rake_dpc) in
  Ok (allowed_rip_downtime, allowed_sr_downtime)
  end end end.

(** [can_bite_analytical].  Its quotients (by the swing timer, the
    Revitalize interval, [cp_per_builder] and [1 + downtime / duration])
    are those of [Q]: the program fails where a divisor is zero. *)
Definition can_bite_analytical (time : Q) (s : Sim) : Result bool :=
  let pl := pext (player s) in
  (* First calculate how much Energy we expect to accumulate before our
     next finisher expires. *)
  let maxripdur := rip_duration pl + 6 * b2q (shred_glyph pl) in
  let ripdur := rip_start s + maxripdur - time in
  let srdur := roar_end s - time in
  let mindur := pymin ripdur srdur in
  let maxdur := pymax ripdur srdur in
  let expected_energy_gain_min := 10 * mindur in
  let expected_energy_gain_max := 10 * maxdur in
  let expected_energy_gain_min :=
    if tf_expected_before time (time + mindur) s
    then expected_energy_gain_min + 60 else expected_energy_gain_min in
  let expected_energy_gain_max :=
    if tf_expected_before time (time + maxdur) s
    then expected_energy_gain_max + 60 else expected_energy_gain_max in
  let expected_energy_gain_min :=
    if omen pl
    then expected_energy_gain_min
         + mindur / swing_timer s * (3.5 / 60 * (1 - miss_chance pl) * 42)
    else expected_energy_gain_min in
  let expected_energy_gain_max :=
    if omen pl
    then expected_energy_gain_max
         + maxdur / swing_timer s * (3.5 / 60 * (1 - miss_chance pl) * 42)
    else expected_energy_gain_max in
  let expected_energy_gain_min :=
    expected_energy_gain_min + mindur / revitalize_frequency s * 0.15 * 8 in
  let expected_energy_gain_max :=
    expected_energy_gain_max + maxdur / revitalize_frequency s * 0.15 * 8 in
  let total_energy_min := energy (player s) + expected_energy_gain_min in
  let total_energy_max := energy (player s) + expected_energy_gain_max in
  (* Now calculate the effective Energy cost for Biting now. *)
  let '(ripcost, bitecost, srcost) := get_finisher_costs time s in
  let cp_per_builder := 1 + crit_chance pl in
  let cost_per_builder := (42 + 42 + 35) / 3 * (1 + 0.2 * miss_chance pl) in
  let nextcost := if Qltb srdur ripdur then srcost else ripcost in
  let secondcps := if Qltb srdur ripdur then 5 else 1 in
  let total_energy_cost_min :=
    bitecost + 5 / cp_per_builder * cost_per_builder + nextcost in
  let total_energy_cost_max :=
    bitecost + (5 + secondcps) / cp_per_builder * cost_per_builder
    + ripcost + srcost in
  (* It is okay to lose a few seconds of Rip or SR uptime to gain a Bite. *)
  match calc_allowed_rip_downtime time s with
  | Raise e => Raise e
  | Ok (rip_downtime, sr_downtime) =>
  (* Adjust downtime estimate to account for end of fight losses *)
  let rip_downtime :=
    maxripdur * (1 - 1 / (1 + rip_downtime / maxripdur)) in
  let sr_downtime := 34 * (1 - 1 / (1 + sr_downtime / 34)) in
  let next_downtime :=
    if Qltb srdur ripdur then sr_downtime else rip_downtime in
  let total_energy_cost_min := total_energy_cost_min - 10 * next_downtime in
  let total_energy_cost_max :=
    total_energy_cost_max - 10 * pymin rip_downtime sr_downtime in
  Ok (Qgtb total_energy_min total_energy_cost_min
      && Qgtb total_energy_max total_energy_cost_max)
  end.

Definition can_bite (time : Q) (s : Sim) : Result bool :=
  match bite_time (strategy s) with
  | Some bt =>
      Ok (Qgeb (rip_end s - time) bt && Qgeb (roar_end s - time) bt)
  | None => can_bite_analytical time s
  end.

Definition clip_roar (time : Q) (s : Sim) : Result bool :=
  if negb (rip_debuff s) || Qltb (fight_length s - rip_end s) 10 then
    Ok false
  else
    (* Project Rip end time assuming full Glyph of Shred extensions. *)
    let max_rip_dur :=
      rip_duration (pext (player s))
      + 6 * b2q (shred_glyph (pext (player s))) in
    let rip_end' := rip_start s + max_rip_dur in
    if Qgtb (roar_end s) rip_end' then Ok false
    else
      (* Calculate when Roar would end if we cast it now. *)
      match lookup_table (roar_durations (pext (player s)))
                         (combo_points (pext (player s))) with
      | Raise e => Raise e
      | Ok new_roar_dur =>
          let new_roar_end := time + new_roar_dur in
          (* Clip as soon as we have enough CPs for the new Roar to expire
             well after the current Rip. *)
          Ok (Qgeb new_roar_end (rip_end' + min_roar_offset (strategy s)))
      end.

End Abilities.

(** ** class Simulation: swing timer and cooldown buffs *)

Section Rotation.
Context `{C : Collab}.

(** [update_swing_times].  Without [first_swing] the remaining fraction
    of the swing is a quotient by the old swing timer, and the schedule is
    an [np.arange] whose step is the new one: the program fails, or builds
    an infinite start, where one of them is zero. *)
Definition update_swing_times (time new_swing_timer : Q) (first_swing : bool)
    : M unit :=
  (* First calculate the start time for the next swing. *)
  start_time <-
    (if first_swing then ret time
     else
       next_swing <- getsR (fun s => first_of (swing_times s));;
       frac_remaining <- gets (fun s => (next_swing - time) / swing_timer s);;
       ret (time + frac_remaining * new_swing_timer));;
  (* Now update the internal swing times *)
  modify (set_swing_timer new_swing_timer);;;
  modify (fun s =>
    if Qgtb start_time (fight_length s - swing_timer s)
    then set_swing_times [start_time; start_time + swing_timer s] s
    else set_swing_times
           (arange start_time (fight_length s + swing_timer s) (swing_timer s))
           s).

Definition apply_tigers_fury (time : Q) : M unit :=
  modify (fun s =>
    set_player (set_energy (pymin 100 (energy (player s) + 60)) (player s)) s);;;
  modify (fun s => set_params (set_tigers_fury true (params s)) s);;;
  d <- gets params;;
  call_player (player_calc_damage_params d);;;
  modify (set_tf_end (time + 6));;;
  modify (fun s => set_player (set_tf_cd 30 (player s)) s);;;
  modify (fun s => set_next_action (time + latency s) s);;;
  modify (fun s =>
    set_proc_end_times
      (pysort Qleb (proc_end_times s ++ [time + 30])) s);;;
  log_append (gen_log time "Tiger's Fury" (OText "applied")).

Definition drop_tigers_fury (time : Q) : M unit :=
  modify (fun s => set_params (set_tigers_fury false (params s)) s);;;
  d <- gets params;;
  call_player (player_calc_damage_params d);;;
  log_append (gen_log time "Tiger's Fury" (OText "falls off")).

Definition apply_berserk (time : Q) (prepop : bool) : M unit :=
  modify (fun s => set_player (set_berserk true (player s)) s);;;
  call_player player_set_ability_costs;;;
  modify (fun s =>
    set_player (set_gcd (1 * b2q (negb prepop)) (player s)) s);;;
  modify (fun s =>
    set_berserk_end
      (time + 15 + 5 * b2q (berserk_glyph (pext (player s)))) s);;;
  modify (fun s =>
    set_player (set_berserk_cd (180 - b2q prepop) (player s)) s);;;
  log_append (gen_log time "Berserk" (OText "applied")).

Definition drop_berserk (time : Q) : M unit :=
  modify (fun s => set_player (set_berserk false (player s)) s);;;
  call_player player_set_ability_costs;;;
  log_append (gen_log time "Berserk" (OText "falls off")).

(** ** The rotation decision engine: the local variables of
    [execute_rotation] *)

Definition end_thresh : Q := 10.

Definition rip_now (time : Q) (s : Sim) : bool :=
  (combo_points (pext (player s)) >=? min_combos_for_rip (strategy s))%Z
  && negb (rip_debuff s)
  && Qgeb (fight_length s - time) end_thresh
  && negb (omen_proc (player s)).

Definition bite_at_end (time : Q) (s : Sim) : bool :=
  (combo_points (pext (player s)) >=? min_combos_for_bite (strategy s))%Z
  && (Qltb (fight_length s - time) end_thresh
      || (rip_debuff s && Qltb (fight_length s - rip_end s) end_thresh)).

Definition mangle_now (time : Q) (s : Sim) : bool :=
  negb (rip_now time s) && negb (mangle_debuff s).

(** [can_bite] is called only when the conjuncts before it hold. *)
Definition bite_before_rip (time : Q) (s : Sim) : Result bool :=
  if (combo_points (pext (player s)) >=? min_combos_for_bite (strategy s))%Z
     && rip_debuff s && savage_roar (player s) && use_bite (strategy s)
  then can_bite time s
  else Ok false.

Definition bite_now (bite_before_rip_v : bool) (time : Q) (s : Sim) : bool :=
  let bite_now_v :=
    (bite_before_rip_v || bite_at_end time s) && negb (omen_proc (player s)) in
  (* During Berserk, we additionally add an Energy constraint on Bite
     usage. *)
  if bite_now_v && berserk (player s)
  then Qleb (energy (player s)) (berserk_bite_thresh (strategy s))
  else bite_now_v.

Definition rake_now (time : Q) (s : Sim) : bool :=
  use_rake (strategy s) && negb (rake_debuff s)
  && Qgtb (fight_length s - time) 9
  && negb (omen_proc (player s)).

Definition berserk_now (s : Sim) : bool :=
  use_berserk (strategy s) && Qltb (berserk_cd (player s)) eps
  && Qgtb (tf_cd (player s))
          (15 + 5 * b2q (berserk_glyph (pext (player s)))).

(** [clip_roar] is called only when there is a combo point and Savage Roar
    is up. *)
Definition roar_now (time : Q) (s : Sim) : Result bool :=
  if (combo_points (pext (player s)) >=? 1)%Z then
    if negb (savage_roar (player s)) then Ok true else clip_roar time s
  else Ok false.

Definition rip_refresh_pending (s : Sim) : bool :=
  rip_debuff s && Qltb (rip_end s) (fight_length s - end_thresh).

(** The order of Python tuples [(due_time, cost)]. *)
Definition pair_leb (a b : Q * Q) : bool :=
  Qltb (fst a) (fst b) || (Qeqb (fst a) (fst b) && Qleb (snd a) (snd b)).

(** [pending_actions], after [pending_actions.sort()]. *)
Definition pending_actions (time : Q) (s : Sim) : list (Q * Q) :=
  let rip_part :=
    if rip_refresh_pending s then
      [(rip_end s, if berserk_expected_at time (rip_end s) s then 15 else 30)]
    else [] in
  let rake_part :=
    if rake_debuff s && Qltb (rake_end s) (fight_length s - 9) then
      [(rake_end s,
        if berserk_expected_at time (rake_end s) s then 17.5 else 35)]
    else [] in
  let mangle_part :=
    match mangle_end s with
    | Finite m =>
        if mangle_debuff s && Qltb m (fight_length s - 1) then
          let base_cost := _mangle_cost (pext (player s)) in
          [(m, if berserk_expected_at time m s then 0.5 * base_cost
               else base_cost)]
        else []
    | Infinity => []
    end in
  let roar_part :=
    if savage_roar (player s) then
      [(roar_end s,
        if berserk_expected_at time (roar_end s) s then 12.5 else 25)]
    else [] in
  pysort pair_leb (rip_part ++ rake_part ++ mangle_part ++ roar_part).

Definition furor_cap (s : Sim) : Q := pymin (20 * furor (pext (player s))) 85.

Definition weave_energy (s : Sim) : Q :=
  let w := furor_cap s - 30 - 20 * latency s in
  if Qgtb (furor (pext (player s))) 3 then w - 15 else w.

Definition weave_end (time : Q) (s : Sim) : Q := time + 4.5 + 2 * latency s.

Definition bearweave_now (time : Q) (s : Sim) : bool :=
  let b :=
    bearweave (strategy s) && Qleb (energy (player s)) (weave_energy s)
    && negb (omen_proc (player s))
    && (negb (rip_refresh_pending s) || Qgeb (rip_end s) (weave_end time s))
    && negb (berserk (player s)) in
  if b && negb (lacerate_prio (strategy s))
  then negb (tf_expected_before time (weave_end time s) s)
  else b.

Definition emergency_bearweave (time : Q) (s : Sim) : bool :=
  bearweave (strategy s) && lacerate_prio (strategy s)
  && lacerate_debuff s
  && Qltb (lacerate_end s - time) (2.5 + latency s)
  && Qltb (lacerate_end s) (fight_length s).

(** The loop over [pending_actions] that reserves Energy for the refreshes
    that regeneration alone will not pay for. *)
Fixpoint float_energy (pending : list (Q * Q)) (floating_energy : Q)
    (previous_time : Q) : Q :=
  match pending with
  | [] => floating_energy
  | (refresh_time, refresh_cost) :: rest =>
      let delta_t := refresh_time - previous_time in
      if Qltb delta_t (refresh_cost / 10)
      then float_energy rest (floating_energy + (refresh_cost - 10 * delta_t))
                        refresh_time
      else float_energy rest floating_energy
                        (previous_time + refresh_cost / 10)
  end.

Definition floating_energy (time : Q) (s : Sim) : Q :=
  float_energy (pending_actions time s) 0 time.

Definition excess_e (time : Q) (s : Sim) : Q :=
  energy (player s) - floating_energy time s.

(** *** Locals of the Dire Bear Form branch *)

Definition shift_next (time : Q) (s : Sim) : bool :=
  Qgtb (energy (player s) + 30 + 10 * latency s) (furor_cap s)
  || (rip_refresh_pending s && Qltb (rip_end s) (time + 4.5)).

Definition powerbear_now (time : Q) (s : Sim) : bool :=
  let shift_now0 :=
    Qgtb (energy (player s) + 15 + 10 * latency s) (furor_cap s)
    || (rip_refresh_pending s && Qltb (rip_end s) (time + 3)) in
  if powerbear (strategy s)
  then negb shift_now0 && Qltb (rage (player s)) 10
  else false.

Definition build_lacerate (s : Sim) : bool :=
  negb (lacerate_debuff s) || (lacerate_stacks s <? 5)%Z.

Definition maintain_lacerate (time : Q) (s : Sim) : bool :=
  negb (build_lacerate s)
  && (Qleb (lacerate_end s - time) (lacerate_time (strategy s))
      && (Qltb (rage (player s)) 38 || shift_next time s)
      && Qltb (lacerate_end s) (fight_length s)).

Definition lacerate_now (time : Q) (s : Sim) : bool :=
  lacerate_prio (strategy s) && (build_lacerate s || maintain_lacerate time s).

Definition emergency_lacerate (time : Q) (s : Sim) : bool :=
  lacerate_prio (strategy s) && lacerate_debuff s
  && Qltb (lacerate_end s - time) (3 + 2 * latency s)
  && Qltb (lacerate_end s) (fight_length s).

Definition shift_now (time : Q) (s : Sim) : bool :=
  let shift_now0 :=
    Qgtb (energy (player s) + 15 + 10 * latency s) (furor_cap s)
    || (rip_refresh_pending s && Qltb (rip_end s) (time + 3)) in
  let shift_now1 :=
    if powerbear (strategy s) then shift_now0
    else shift_now0 || Qltb (rage (player s)) 10 in
  if negb (lacerate_prio (strategy s)) || negb (lacerate_now time s)
  then shift_now1 || omen_proc (player s)
  else shift_now1.

(** How a branch of [execute_rotation] ends: with [return damage], or by
    falling through to the scheduling of the next decision with a value of
    [time_to_next_action]. *)
Inductive Flow : Type :=
| Return (damage_done : Q)
| Wait (time_to_next_action : Q).

Definition returning (m : M Q) : M Flow := d <- m;; ret (Return d).
Definition waiting (t : Sim -> Q) : M Flow := w <- gets t;; ret (Wait w).

Definition set_ready_to_shift_true : M unit :=
  modify (fun s => set_player (set_ready_to_shift true (player s)) s).

(** The branch taken when the player is not in Cat Form. *)
Definition bear_rotation (time : Q) : M Flow :=
  ifS (fun s => emergency_lacerate time s && Qgeb (rage (player s)) 13)
    (returning (lacerate time))
  (ifS (shift_now time)
    (set_ready_to_shift_true;;; ret (Wait 0))
  (ifS (powerbear_now time)
    (call_player (player_shift time true);;; ret (Wait 0))
  (ifS (fun s => lacerate_now time s && Qgeb (rage (player s)) 13)
    (returning (lacerate time))
  (ifS (fun s => Qgeb (rage (player s)) 15 && Qltb (mangle_cd (player s)) eps)
    (returning (mangle time))
  (ifS (fun s => Qgeb (rage (player s)) 13)
    (returning (lacerate time))
    (next_swing <- getsR (fun s => first_of (swing_times s));;
     ret (Wait (next_swing - time)))))))).

(** The branches taken in Cat Form. *)
Definition cat_rotation (bite_before_rip_v roar_now_v : bool) (time : Q)
    : M Flow :=
  ifS (emergency_bearweave time)
    (set_ready_to_shift_true;;; ret (Wait 0))
  (ifS berserk_now
    (apply_berserk time false;;; ret (Return 0))
  (if roar_now_v then
     ifS (fun s => Qgeb (energy (player s)) (roar_cost (pext (player s))))
       (new_roar_end <- call_player (player_roar time);;
        modify (set_roar_end new_roar_end);;;
        ret (Return 0))
       (waiting (fun s =>
          (roar_cost (pext (player s)) - energy (player s)) / 10))
   else
  (ifS (rip_now time)
    (ifS (fun s => Qgeb (energy (player s)) (rip_cost (pext (player s)))
                   || omen_proc (player s))
       (returning (rip time))
       (waiting (fun s =>
          (rip_cost (pext (player s)) - energy (player s)) / 10)))
  (ifS (bite_now bite_before_rip_v time)
    (ifS (fun s => Qgeb (energy (player s)) (bite_cost (pext (player s))))
       (returning (call_player player_bite))
       (waiting (fun s =>
          (bite_cost (pext (player s)) - energy (player s)) / 10)))
  (ifS (rake_now time)
    (ifS (fun s => Qgeb (energy (player s)) (rake_cost (pext (player s)))
                   || omen_proc (player s))
       (returning (rake time))
       (waiting (fun s =>
          (rake_cost (pext (player s)) - energy (player s)) / 10)))
  (ifS (mangle_now time)
    (ifS (fun s => Qgeb (energy (player s)) (mangle_cost (pext (player s)))
                   || omen_proc (player s))
       (returning (mangle time))
       (waiting (fun s =>
          (mangle_cost (pext (player s)) - energy (player s)) / 10)))
  (ifS (bearweave_now time)
    (set_ready_to_shift_true;;; ret (Wait 0))
  (ifS (fun s => mangle_spam (strategy s) && negb (omen_proc (player s)))
    (ifS (fun s => Qgeb (excess_e time s) (mangle_cost (pext (player s))))
       (returning (mangle time))
       (waiting (fun s =>
          (mangle_cost (pext (player s)) - excess_e time s) / 10)))
    (ifS (fun s => Qgeb (excess_e time s) (shred_cost (pext (player s)))
                   || omen_proc (player s))
       (returning shred)
       (waiting (fun s =>
          (shred_cost (pext (player s)) - excess_e time s) / 10))))))))))).

(** [not self.time_to_oom]: the attribute is [None] or a float. *)
Definition no_oom_yet (s : Sim) : bool :=
  match time_to_oom s with
  | None => true
  | Some t => Qeqb t 0
  end.

Definition execute_rotation (time : Q) : M Q :=
  ifS (fun s => ready_to_shift (player s))
    (* Execute the shift decided earlier, once the input delay is over. *)
    (call_player (player_shift time false);;;
     whenS (fun s => Qltb (mana (pext (player s))) 0 && no_oom_yet s)
       (modify (set_time_to_oom (Some time)));;;
     (* Swing timer only updates on the next swing after we shift *)
     swing_fac <- gets (fun s =>
       if cat_form (pext (player s)) then 1 / 2.5 else 2.5);;
     next_swing <- getsR (fun s => first_of (swing_times s));;
     new_swing_timer <- gets (fun s => swing_timer s * swing_fac);;
     update_swing_times next_swing new_swing_timer true;;;
     ret 0)
    (bite_before_rip_v <- getsR (bite_before_rip time);;
     roar_now_v <- getsR (roar_now time);;
     pending <- gets (pending_actions time);;
     flow <- ifS (fun s => negb (cat_form (pext (player s))))
               (bear_rotation time)
               (cat_rotation bite_before_rip_v roar_now_v time);;
     match flow with
     | Return damage_done => ret damage_done
     | Wait time_to_next_action =>
         (* Model in latency when waiting on Energy for our next action *)
         let next_action_v := time + time_to_next_action in
         let next_action_v :=
           match pending with
           | [] => next_action_v
           | (due, _) :: _ => pymin next_action_v due
           end in
         modify (fun s => set_next_action (next_action_v + latency s) s);;;
         ret 0
     end).

End Rotation.

(** ** class Simulation: the main loop *)

(** The four output series of [run]. *)
Record Series : Type := Build_Series {
  times : list Q;
  damage : list Q;
  energy_series : list Q;
  combos : list Z
}.

(** The tuple returned by [run]; the combat log is present only when
    logging was requested. *)
Record RunOutput : Type := Build_RunOutput {
  out_series : Series;
  out_dmg_breakdown : Breakdown;
  out_aura_stats : list AuraStat;
  out_combat_log : option (list LogEntry)
}.

Section MainLoop.
Context `{C : Collab}.

(** The loop over [self.player.proc_trinkets] at the end of
    [apply_bleed_damage]. *)
Fixpoint periodic_procs (time : Q) (ts : list TId) (tick_damage : Q) : M Q :=
  match ts with
  | [] => ret tick_damage
  | i :: rest =>
      periodic <- gets (trinket_periodic_only i);;
      if periodic : bool then
        call_trinket (fun s => (tt, trinket_check_for_proc i false true s));;;
        d <- call_trinket (trinket_update i time);;
        periodic_procs time rest (tick_damage + d)
      else periodic_procs time rest tick_damage
  end.

(** [apply_bleed_damage].  The tick is added to the entry of the
    ability before the Savage Roar bonus, the bonus [roar_fac * tick] to the
    ['Savage Roar'] entry, and the value returned is [tick * (1 + roar_fac)]:
    three roundings in the program, so that the entries and the value
    returned add up in exact arithmetic only. *)
Definition apply_bleed_damage (base_tick_damage crit_chance_v : Q)
    (ability_name : string) (sr_snapshot : bool) (time : Q) : M Q :=
  tick_damage <- gets (fun s =>
    base_tick_damage * (1 + 0.3 * b2q (mangle_debuff s)));;
  crits <- gets (fun s =>
    Qgtb crit_chance_v 0 && primal_gore (pext (player s)));;
  tick_damage <-
    (if crits : bool then
       fun s =>
         let '(d, g) :=
           calc_yellow_damage tick_damage tick_damage 0 crit_chance_v
             (calc_crit_multiplier (pext (player s))) (rng s) in
         Ok (d, set_rng g s)
     else ret tick_damage);;
  add_damage ability_name tick_damage;;;
  tick_damage <-
    (if sr_snapshot then
       fac <- gets (fun s => roar_fac (pext (player s)));;
       add_damage "Savage Roar" (fac * tick_damage);;;
       ret (tick_damage * (1 + fac))
     else ret tick_damage);;
  log_append
    (gen_log time (ability_name ++ " tick") (ODamage tick_damage));;;
  (* Procs that trigger only on periodic damage are checked here. *)
  ts <- gets (fun s => proc_trinkets (pext (player s)));;
  periodic_procs time ts tick_damage.

(** [trinket.reset()] and [trinket.update(time, player, sim)] for an entry
    of [self.trinkets]. *)
Definition reset_trinket (t : Trinket) : M unit :=
  match t with
  | TExternal i => call_trinket (fun s => (tt, trinket_reset i s))
  | TArmorDebuffs => ArmorDebuffs.reset
  | TTracker k =>
      modify (fun s =>
        set_trackers (fun k' => if same_kind k' k then UptimeTracker.reset
                                else trackers s k') s)
  end.

Definition update_trinket (time : Q) (t : Trinket) : M Q :=
  match t with
  | TExternal i => call_trinket (trinket_update i time)
  | TArmorDebuffs => ArmorDebuffs.update time
  | TTracker k => UptimeTracker.update k time
  end.

Fixpoint reset_trinkets (ts : list Trinket) : M unit :=
  match ts with
  | [] => ret tt
  | t :: rest => reset_trinket t;;; reset_trinkets rest
  end.

(** [for trinket in self.trinkets: dmg_done += trinket.update(...)]. *)
Fixpoint update_trinkets (time : Q) (ts : list Trinket) (dmg_done : Q)
    : M Q :=
  match ts with
  | [] => ret dmg_done
  | t :: rest =>
      d <- update_trinket time t;;
      update_trinkets time rest (dmg_done + d)
  end.

(** [l.pop(0)] on one of the tick lists. *)
Definition pop_first (get : Sim -> list Q) (set : list Q -> Sim -> Sim)
    : M unit :=
  fun s => match get s with
           | [] => Raise IndexError
           | _ :: rest => Ok (tt, set rest s)
           end.

(** *** The phases of one iteration, in the order of the loop body *)

(** Regeneration and cooldowns for the time elapsed since the last event. *)
Definition advance_cooldowns (time delta_t : Q) : M unit :=
  call_player (player_regen delta_t);;;
  modify (fun s =>
    let p := player s in
    set_player
      (p |> set_gcd (pymax 0 (gcd p - delta_t))
         |> set_omen_icd (pymax 0 (omen_icd p - delta_t))
         |> set_rune_cd (pymax 0 (rune_cd p - delta_t))
         |> set_tf_cd (pymax 0 (tf_cd p - delta_t))
         |> set_berserk_cd (pymax 0 (berserk_cd p - delta_t))
         |> set_enrage_cd (pymax 0 (enrage_cd p - delta_t))
         |> set_mangle_cd (pymax 0 (mangle_cd p - delta_t))) s);;;
  whenS (fun s => five_second_rule (player s)
                  && Qgeb (time - last_shift (pext (player s))) 5)
    (modify (fun s => set_player (set_five_second_rule false (player s)) s)).

(** Tiger's Fury, Berserk, Mangle and Savage Roar falling off.  The entry
    for Savage Roar is guarded by the argument [log] of [run]. *)
Definition expire_buffs (log_v : bool) (time : Q) : M unit :=
  cond <- gets (fun s => tigers_fury (params s) && Qgeb time (tf_end s));;
  (if cond : bool then t <- gets tf_end;; drop_tigers_fury t else ret tt);;;
  cond <- gets (fun s => berserk (player s) && Qgeb time (berserk_end s));;
  (if cond : bool then t <- gets berserk_end;; drop_berserk t else ret tt);;;
  whenS (fun s => mangle_debuff s && reached time (mangle_end s))
    (modify (set_mangle_debuff false);;;
     log_append (fun s =>
       gen_log (match mangle_end s with Finite m => m | Infinity => time end)
               "Mangle" (OText "falls off") s));;;
  whenS (fun s => savage_roar (player s) && Qgeb time (roar_end s))
    (modify (fun s => set_player (set_savage_roar false (player s)) s);;;
     log_append_if log_v (fun s =>
       gen_log (roar_end s) "Savage Roar" (OText "falls off") s)).

(** [debuff and (time >= ticks[0])]. *)
Definition tick_due (debuff : Sim -> bool) (ticks : Sim -> list Q) (time : Q)
    : M bool :=
  ifS debuff
    (first <- getsR (fun s => first_of (ticks s));; ret (Qgeb time first))
    (ret false).

Definition rip_phase (time : Q) : M Q :=
  (* Check if a Rip tick happens at this time *)
  due <- tick_due rip_debuff rip_ticks time;;
  d <- (if due : bool then
          dmg <- gets rip_damage;;
          crit <- gets rip_crit_chance;;
          snap <- gets rip_sr_snapshot;;
          d <- apply_bleed_damage dmg crit "Rip" snap time;;
          pop_first rip_ticks set_rip_ticks;;;
          ret d
        else ret 0);;
  (* Check if Rip fell off *)
  whenS (fun s => rip_debuff s && Qgtb time (rip_end s - eps))
    (modify (set_rip_debuff false);;;
     log_append (fun s => gen_log (rip_end s) "Rip" (OText "falls off") s));;;
  ret d.

Definition rake_phase (time : Q) : M Q :=
  due <- tick_due rake_debuff rake_ticks time;;
  d <- (if due : bool then
          dmg <- gets rake_damage;;
          snap <- gets rake_sr_snapshot;;
          d <- apply_bleed_damage dmg 0 "Rake" snap time;;
          pop_first rake_ticks set_rake_ticks;;;
          ret d
        else ret 0);;
  whenS (fun s => rake_debuff s && Qgtb time (rake_end s - eps))
    (modify (set_rake_debuff false);;;
     log_append (fun s => gen_log (rake_end s) "Rake" (OText "falls off") s));;;
  ret d.

Definition lacerate_phase (time : Q) : M Q :=
  due <- gets (fun s =>
    lacerate_debuff s
    && match lacerate_ticks s with
       | [] => false
       | first :: _ => Qgeb time first
       end);;
  d <- (if due : bool then
          modify (set_last_lacerate_tick time);;;
          dmg <- gets lacerate_damage;;
          crit <- gets lacerate_crit_chance;;
          d <- apply_bleed_damage dmg crit "Lacerate" false time;;
          pop_first lacerate_ticks set_lacerate_ticks;;;
          ret d
        else ret 0);;
  whenS (fun s => lacerate_debuff s && Qgtb time (lacerate_end s - eps))
    (modify (set_lacerate_debuff false);;;
     log_append (fun s =>
       gen_log (lacerate_end s) "Lacerate" (OText "falls off") s));;;
  ret d.

(** Roll for Revitalize procs at the pre-calculated frequency; returns the
    new value of [num_hot_ticks]. *)
Definition revitalize_phase (time : Q) (num_hot_ticks : Z) : M Z :=
  ifS (fun s =>
         Qgeb time (revitalize_frequency s * inject_Z (num_hot_ticks + 1)))
    (r <- np_rand;;
     (if Qltb r 0.15 then
        modify (fun s =>
          let p := player s in
          if cat_form (pext p)
          then set_player (set_energy (pymin 100 (energy p + 8)) p) s
          else set_player (set_rage (pymin 100 (rage p + 4)) p) s);;;
        log_append (gen_log time "Revitalize" (OText "applied"))
      else ret tt);;;
     ret (num_hot_ticks + 1)%Z)
    (ret num_hot_ticks).

Definition enrage_phase (time : Q) : M unit :=
  whenS (fun s =>
           negb (cat_form (pext (player s)))
           && Qltb (enrage_cd (player s)) eps
           && Qltb time (last_shift (pext (player s)) + 1.5 + eps))
    (modify (fun s =>
       let p := player s in
       set_player
         (p |> set_rage (pymin 100 (rage p + 20))
            |> set_enrage true
            |> set_enrage_cd 60) s);;;
     log_append (gen_log time "Enrage" (OText "applied"))).

(** The Rage threshold above which a bear auto-attack is a Maul. *)
Definition maul_rage_thresh (time : Q) (s : Sim) : Q :=
  let p := player s in
  let rip_refresh_pending_v :=
    rip_debuff s && Qltb (rip_end s) (fight_length s - 10) in
  let energy_leeway := furor_cap s - 15 - 10 * (gcd p + latency s) in
  let shift_next0 := Qgtb (energy p) energy_leeway in
  let shift_next_v :=
    if rip_refresh_pending_v
    then shift_next0 || Qltb (rip_end s) (time + gcd p + 3)
    else shift_next0 in
  let '(mangle_next, lacerate_next, emergency_lacerate_next) :=
    if lacerate_prio (strategy s) then
      let lacerate_leeway := gcd p + lacerate_time (strategy s) in
      let lacerate_next :=
        negb (lacerate_debuff s) || (lacerate_stacks s <? 5)%Z
        || Qleb (lacerate_end s - time) lacerate_leeway in
      let emergency_leeway := gcd p + 3 + 2 * latency s in
      let emergency_lacerate_next :=
        lacerate_debuff s && Qleb (lacerate_end s - time) emergency_leeway in
      let mangle_next :=
        negb lacerate_next
        && (negb (mangle_debuff s)
            || before (mangle_end s) (time + gcd p + 3)) in
      (mangle_next, lacerate_next, emergency_lacerate_next)
    else
      let mangle_next := Qltb (mangle_cd p) (gcd p) in
      let lacerate_next :=
        lacerate_debuff s
        && ((lacerate_stacks s <? 5)%Z
            || Qltb (lacerate_end s) (time + gcd p + 4.5)) in
      (mangle_next, lacerate_next, false) in
  if emergency_lacerate_next then 23
  else if shift_next_v then 10
  else if mangle_next then 25
  else if lacerate_next then 23
  else 10.

(** [self.combat_log.append(['%.3f' % time] + self.player.combat_log)]
    when logging: concatenating a list and [None] is a [TypeError]. *)
Definition log_player_swing (time : Q) : M unit :=
  fun s =>
    if log s then
      match p_combat_log (player s) with
      | Some l => Ok (tt, set_combat_log (combat_log s ++ [PlayerLog time l]) s)
      | None => Raise TypeError
      end
    else Ok (tt, s).

(** [if self.log and self.player.combat_log: ...append(...)]. *)
Definition log_player_action (time : Q) : M unit :=
  fun s =>
    if log s then
      match p_combat_log (player s) with
      | Some (x :: l) =>
          Ok (tt, set_combat_log (combat_log s ++ [PlayerLog time (x :: l)]) s)
      | _ => Ok (tt, s)
      end
    else Ok (tt, s).

Definition swing_phase (time : Q) : M Q :=
  next_swing <- getsR (fun s => first_of (swing_times s));;
  if Qeqb time next_swing then
    d <- ifS (fun s => cat_form (pext (player s)))
           (call_player player_swing)
           (thresh <- gets (maul_rage_thresh time);;
            ifS (fun s => Qgeb (rage (player s)) thresh)
              (md <- gets mangle_debuff;; call_player (player_maul md))
              (call_player player_swing));;
    pop_first swing_times set_swing_times;;;
    log_player_swing time;;;
    (* If the swing/Maul resulted in an Omen proc, then schedule the next
       player decision based on latency. *)
    whenS (fun s => omen_proc (player s))
      (modify (fun s => set_next_action (time + latency s) s));;;
    ret d
  else ret 0.

Definition rotation_phase (time : Q) : M Q :=
  modify (fun s => set_player (set_p_combat_log None (player s)) s);;;
  d <- ifS (fun s => Qltb (gcd (player s)) eps && Qgeb time (next_action s))
         (execute_rotation time)
         (ret 0);;
  (* Append player's log to running combat log *)
  log_player_action time;;;
  (* If we entered Dire Bear Form, Tiger's Fury fell off *)
  whenS (fun s => tigers_fury (params s) && Qeqb (gcd (player s)) 1.5)
    (drop_tigers_fury time);;;
  ret d.

Definition proc_end_phase (time : Q) : M unit :=
  whenS (fun s => match proc_end_times s with
                  | [] => false
                  | first :: _ => Qeqb time first
                  end)
    (pop_first proc_end_times set_proc_end_times).

Definition tf_now (s : Sim) : bool :=
  let p := player s in
  let leeway_time := pymax (gcd p) (latency s) in
  let tf_energy_thresh := 40 - 10 * (leeway_time + b2q (omen_proc p)) in
  Qltb (energy p) tf_energy_thresh && Qltb (tf_cd p) eps
  && negb (berserk p) && cat_form (pext p).

Definition tigers_fury_phase (time : Q) : M unit :=
  whenS tf_now (apply_tigers_fury time).

(** [Update time]: the time of the next event. *)
Definition next_event_time (time : Q) : M Q :=
  next_swing <- getsR (fun s => first_of (swing_times s));;
  next_action_v <- gets (fun s =>
    pymax (time + gcd (player s)) (next_action s));;
  let t := pymin next_action_v next_swing in
  t <- ifS rip_debuff
         (first <- getsR (fun s => first_of (rip_ticks s));;
          ret (pymin t first))
         (ret t);;
  t <- ifS rake_debuff
         (first <- getsR (fun s => first_of (rake_ticks s));;
          ret (pymin t first))
         (ret t);;
  gets (fun s =>
    let t :=
      if lacerate_debuff s then
        match lacerate_ticks s with [] => t | first :: _ => pymin t first end
      else t in
    match proc_end_times s with [] => t | first :: _ => pymin t first end).

(** One iteration of the [while] loop: returns the damage sample, the new
    [num_hot_ticks] and the next value of [time]. *)
Definition loop_body (log_v : bool) (time previous_time : Q)
    (num_hot_ticks : Z) : M (Q * Z * Q) :=
  (* Update player Mana and Energy based on elapsed simulation time *)
  let delta_t := time - previous_time in
  advance_cooldowns time delta_t;;;
  expire_buffs log_v time;;;
  d_rip <- rip_phase time;;
  d_rake <- rake_phase time;;
  d_lac <- lacerate_phase time;;
  num_hot_ticks <- revitalize_phase time num_hot_ticks;;
  (* Activate or deactivate trinkets if appropriate *)
  ts <- gets trinkets;;
  dmg_done <- update_trinkets time ts (0 + d_rip + d_rake + d_lac);;
  enrage_phase time;;;
  d_swing <- swing_phase time;;
  d_rot <- rotation_phase time;;
  (* If a trinket proc occurred from a swing or special, apply it *)
  ts <- gets trinkets;;
  dmg_done <- update_trinkets time ts (dmg_done + d_swing + d_rot);;
  proc_end_phase time;;;
  tigers_fury_phase time;;;
  next_time <- next_event_time time;;
  ret (dmg_done, num_hot_ticks, next_time).

Definition empty_series : Series :=
  {| times := []; damage := []; energy_series := []; combos := [] |}.

(** [while time <= self.fight_length: ...], with fuel. *)
Fixpoint run_loop (fuel : nat) (log_v : bool) (time previous_time : Q)
    (num_hot_ticks : Z) (acc : Series) : M Series :=
  match fuel with
  | O => raise OutOfFuel
  | S fuel' =>
      ifS (fun s => Qleb time (fight_length s))
        ('(dmg_done, num_hot_ticks', next_time) <-
           loop_body log_v time previous_time num_hot_ticks;;
         (* Log current parameters *)
         energy_v <- gets (fun s => energy (player s));;
         combos_v <- gets (fun s => combo_points (pext (player s)));;
         run_loop fuel' log_v next_time time num_hot_ticks'
           {| times := times acc ++ [time];
              damage := damage acc ++ [dmg_done];
              energy_series := energy_series acc ++ [energy_v];
              combos := combos acc ++ [combos_v] |})
        (ret acc)
  end.

(** The final pass over [self.trinkets] for one entry: a last update at the
    fight end, then the [try] block that deactivates the aura and reports
    it; an [AttributeError] in that block skips the entry. *)
Definition finish_trinket (t : Trinket) : M (option AuraStat) :=
  fl <- gets fight_length;;
  update_trinket fl t;;;
  match t with
  | TExternal i => call_trinket (trinket_finish i fl)
  | TArmorDebuffs => ret None
  | TTracker k =>
      whenS (fun s => active (trackers s k))
        (modify (fun s =>
           set_trackers
             (fun k' => if same_kind k' k
                        then UptimeTracker.deactivate (trackers s k)
                        else trackers s k') s));;;
      gets (fun s =>
        match UptimeTracker.proc_name k with
        | Ok name =>
            Some (name, inject_Z (num_procs (trackers s k)),
                  uptime (trackers s k))
        | Raise _ => None
        end)
  end.

Fixpoint finish_trinkets (ts : list Trinket) (aura_stats : list AuraStat)
    : M (list AuraStat) :=
  match ts with
  | [] => ret aura_stats
  | t :: rest =>
      r <- finish_trinket t;;
      finish_trinkets rest
        (match r with Some row => aura_stats ++ [row] | None => aura_stats end)
  end.

Definition run (fuel : nat) (log_v : bool) : M RunOutput :=
  (* Reset player to fresh fight *)
  call_player player_reset;;;
  modify (fun s =>
    s |> set_mangle_debuff false |> set_rip_debuff false
      |> set_rake_debuff false |> set_lacerate_debuff false);;;
  modify (fun s => set_params (set_tigers_fury false (params s)) s);;;
  modify (set_next_action 0);;;
  (* Configure combat logging if requested *)
  modify (set_log log_v);;;
  (if log_v then
     modify (fun s => set_player (set_p_log true (player s)) s);;;
     modify (set_combat_log [])
   else modify (fun s => set_player (set_p_log false (player s)) s));;;
  (* The first swing occurs at most 100 ms after the first special. *)
  r <- np_rand;;
  let swing_timer_start := 0.1 * r in
  player_swing_timer <- gets (fun s => p_swing_timer (pext (player s)));;
  update_swing_times swing_timer_start player_swing_timer true;;;
  (* Reset all trinkets to fresh state *)
  modify (set_proc_end_times []);;;
  ts <- gets trinkets;;
  reset_trinkets ts;;;
  (* A bear tank providing Mangle uptime *)
  whenS (fun s => bear_mangle (strategy s))
    (modify (fun s => s |> set_mangle_debuff true |> set_mangle_end Infinity));;;
  (* Pre-pop Berserk if requested *)
  whenS (fun s => use_berserk (strategy s) && prepop_berserk (strategy s))
    (apply_berserk (-1) true);;;
  (* Pre-proc Clearcasting if requested *)
  whenS (fun s => preproc_omen (strategy s) && omen (pext (player s)))
    (modify (fun s => set_player (set_omen_proc true (player s)) s));;;
  (* Create placeholder for time to OOM if the player goes OOM in the run *)
  modify (set_time_to_oom None);;;
  (* Run simulation *)
  series <- run_loop fuel log_v 0 0 0%Z empty_series;;
  (* Final update on trinkets at the exact fight end *)
  ts <- gets trinkets;;
  aura_stats <- finish_trinkets ts [];;
  gets (fun s =>
    {| out_series := series;
       out_dmg_breakdown := dmg_breakdown (player s);
       out_aura_stats := aura_stats;
       out_combat_log := if log s then Some (combat_log s) else None |}).

(** ** Replicates *)

(** [Simulation.iterate], called with the replicate index.  [np.random.seed()] without argument
    replaces the state of the global generator by one derived from the
    operating system's entropy pool: [entropy] is that state. *)
Definition iterate (args : list Z) (entropy : Rng) (fuel : nat)
    : M (Q * Breakdown * list AuraStat * Q) :=
  modify (set_rng entropy);;;
  (* Randomize fight length to avoid haste clipping effects. *)
  base_fight_length <- gets fight_length;;
  jitter <- np_randn;;
  let randomized_fight_length := base_fight_length + jitter in
  modify (set_fight_length randomized_fight_length);;;
  out <- run fuel false;;
  fl <- gets fight_length;;
  let avg_dps := sumQ (damage (out_series out)) / fl in
  modify (set_fight_length base_fight_length);;;
  oom <- gets time_to_oom;;
  let oom_time :=
    match oom with
    | None => randomized_fight_length
    | Some t => t
    end in
  ret (avg_dps, out_dmg_breakdown out, out_aura_stats out, oom_time).

End MainLoop.

(** ** Replicate orchestration *)

(** What [iterate] returns:
    [avg_dps, dmg_breakdown, aura_stats, time_to_oom]. *)
Definition IterOutput : Type := (Q * Breakdown * list AuraStat * Q)%type.

(** The running-average update [(avg * i + val) / (i + 1)], in exact
    arithmetic; [Binary64.avg_update] is the same update with the rounding
    of the program. *)
Definition avg_update (i : nat) (avg val : Q) : Q :=
  (avg * inject_Z (Z.of_nat i) + val) / inject_Z (Z.of_nat i + 1).

(** [for key in cast_sum[ability]: val = dmg_breakdown[ability][key]; ...] *)
Fixpoint merge_keys (i : nat) (ability : string) (inner : Dict Q)
    (dmg_breakdown_v : Breakdown) : Result (Dict Q) :=
  match inner with
  | [] => Ok []
  | (key, avg) :: rest =>
      match dict_get ability dmg_breakdown_v with
      | None => Raise KeyError
      | Some d =>
          match dict_get key d with
          | None => Raise KeyError
          | Some val =>
              match merge_keys i ability rest dmg_breakdown_v with
              | Ok rest' => Ok ((key, avg_update i avg val) :: rest')
              | Raise e => Raise e
              end
          end
      end
  end.

(** [for ability in cast_sum: ...] *)
Fixpoint merge_casts (i : nat) (cast_sum : Breakdown)
    (dmg_breakdown_v : Breakdown) : Result Breakdown :=
  match cast_sum with
  | [] => Ok []
  | (ability, inner) :: rest =>
      match merge_keys i ability inner dmg_breakdown_v with
      | Raise e => Raise e
      | Ok inner' =>
          match merge_casts i rest dmg_breakdown_v with
          | Ok rest' => Ok ((ability, inner') :: rest')
          | Raise e => Raise e
          end
      end
  end.

(** [for row in range(len(aura_sum)): for col in [1, 2]: ...], the rows of
    [aura_stats] being addressed by position. *)
Fixpoint merge_auras (i : nat) (aura_sum aura_stats : list AuraStat)
    : Result (list AuraStat) :=
  match aura_sum with
  | [] => Ok []
  | (name, procs, up) :: rest =>
      match aura_stats with
      | [] => Raise IndexError
      | (_, procs', up') :: stats_rest =>
          match merge_auras i rest stats_rest with
          | Ok rest' =>
              Ok ((name, avg_update i procs procs', avg_update i up up')
                  :: rest')
          | Raise e => Raise e
          end
      end
  end.

(** The local variables of the consolidation loop of [run_replicates]. *)
Record Consolidation : Type := Build_Consolidation {
  loop_i : nat;
  dps_vals : list Q;
  sums : option (Breakdown * list AuraStat);   (* cast_sum, aura_sum *)
  oom_times : list Q
}.

Definition consolidate_one (detailed_output : bool) (acc : Consolidation)
    (output : IterOutput) : Result Consolidation :=
  let '(avg_dps, dmg_breakdown_v, aura_stats, time_to_oom_v) := output in
  let i := loop_i acc in
  let dps_vals' := dps_vals acc ++ [avg_dps] in
  if negb detailed_output then
    Ok {| loop_i := S i; dps_vals := dps_vals'; sums := sums acc;
          oom_times := oom_times acc |}
  else
    let sums' :=
      match i, sums acc with
      | O, _ => Ok (dmg_breakdown_v, aura_stats)
      | S _, Some (cast_sum, aura_sum) =>
          match merge_casts i cast_sum dmg_breakdown_v with
          | Raise e => Raise e
          | Ok cast_sum' =>
              match merge_auras i aura_sum aura_stats with
              | Raise e => Raise e
              | Ok aura_sum' => Ok (cast_sum', aura_sum')
              end
          end
      | S _, None => Raise UnboundLocalError
      end in
    match sums' with
    | Raise e => Raise e
    | Ok sm =>
        Ok {| loop_i := S i; dps_vals := dps_vals'; sums := Some sm;
              oom_times := oom_times acc ++ [time_to_oom_v] |}
    end.

Fixpoint consolidate_from (detailed_output : bool) (acc : Consolidation)
    (outputs : list IterOutput) : Result Consolidation :=
  match outputs with
  | [] => Ok acc
  | output :: rest =>
      match consolidate_one detailed_output acc output with
      | Raise e => Raise e
      | Ok acc' => consolidate_from detailed_output acc' rest
      end
  end.

(** The loop [for output in pool.imap(...)] over the outputs in order. *)
Definition consolidate (detailed_output : bool) (outputs : list IterOutput)
    : Result Consolidation :=
  consolidate_from detailed_output
    {| loop_i := O; dps_vals := []; sums := None; oom_times := [] |} outputs.

Section Replicates.
Context `{C : Collab}.

(** The outputs of the pool: worker [k] runs [iterate] on its own copy of
    the simulation, reseeded from the entropy [entropy k]. *)
Fixpoint pool_imap (entropy : nat -> Rng) (fuel : nat) (s : Sim)
    (indices : list nat) : Result (list IterOutput) :=
  match indices with
  | [] => Ok []
  | k :: rest =>
      match iterate [Z.of_nat k] (entropy k) fuel s with
      | Raise e => Raise e
      | Ok (output, _) =>
          match pool_imap entropy fuel s rest with
          | Ok outputs => Ok (output :: outputs)
          | Raise e => Raise e
          end
      end
  end.

Definition run_replicates (num_replicates : nat) (detailed_output : bool)
    (entropy : nat -> Rng) (fuel : nat) : M Consolidation :=
  (* Make sure damage and mana parameters are up to date *)
  d <- gets params;;
  call_player (player_calc_damage_params d);;;
  call_player player_set_mana_regen;;;
  (* Run replicates and consolidate results *)
  outputs <- getsR (fun s =>
    pool_imap entropy fuel s (seq 0 num_replicates));;
  getsR (fun _ => consolidate detailed_output outputs).

End Replicates.

(** ** Stat weights *)

(** [calc_deriv] addresses the player by attribute name ([getattr],
    [setattr]), so here the player is its attribute dictionary. *)
Section StatWeights.

(** [run_replicates] as seen by [calc_deriv]: what it leaves in the
    attributes of the player of the calling process (through
    [calc_damage_params] and [set_mana_regen]) and the array [dps_vals]. *)
Variable replicates : nat -> gmap string Q -> gmap string Q * list Q.

(** [player.name += delta]. *)
Definition augment (name : string) (delta : gmap string Q -> Result Q)
    (player : gmap string Q) : Result (gmap string Q) :=
  match player !! name with
  | None => Raise AttributeError
  | Some v =>
      match delta player with
      | Raise e => Raise e
      | Ok d => Ok (<[name := v + d]> player)
      end
  end.

Definition attr (name : string) (player : gmap string Q) : Result Q :=
  match player !! name with
  | None => Raise AttributeError
  | Some v => Ok v
  end.

Definition times_attr (name : string) (x : Q) (player : gmap string Q)
    : Result Q :=
  match attr name player with
  | Ok v => Ok (v * x)
  | Raise e => Raise e
  end.

Definition and_then {A B : Type} (r : Result A) (k : A -> Result B)
    : Result B :=
  match r with
  | Ok a => k a
  | Raise e => Raise e
  end.

(** The block [# Increment the stat] and the two that follow it. *)
Definition increment_stat (param : string) (increment : Q)
    (player : gmap string Q) : Result (Q * gmap string Q) :=
  and_then (attr param player) (fun original_value =>
  let player := <[param := original_value + increment]> player in
  (* For Expertise increments, update both miss_chance and dodge_chance *)
  and_then (if String.eqb param "dodge_chance"
            then augment "miss_chance" (fun _ => Ok increment) player
            else Ok player) (fun player =>
  (* For Agility increments, also augment Attack Power and Crit *)
  and_then (if String.eqb param "agility"
            then and_then
                   (augment "attack_power" (times_attr "ap_mod" increment)
                            player)
                   (augment "crit_chance"
                            (fun _ => Ok (increment / 83.33 / 100)))
            else Ok player) (fun player =>
  Ok (original_value, player)))).

(** The block [# Reset the stat to original value] and the two that follow
    it, in exact arithmetic; [Binary64.restore_stat] is the same block with
    the rounding of the program, where subtracting the increment does not
    undo its addition. *)
Definition restore_stat (param : string) (original_value increment : Q)
    (player : gmap string Q) : Result (gmap string Q) :=
  let player := <[param := original_value]> player in
  and_then (if String.eqb param "dodge_chance"
            then augment "miss_chance" (fun _ => Ok (- increment)) player
            else Ok player) (fun player =>
  if String.eqb param "agility"
  then and_then
         (augment "attack_power"
                  (fun p => and_then (times_attr "ap_mod" increment p)
                                     (fun d => Ok (- d)))
                  player)
         (augment "crit_chance" (fun _ => Ok (- (increment / 83.33 / 100))))
  else Ok player).

(** [np.mean]. *)
Definition mean (l : list Q) : Q := sumQ l / inject_Z (Z.of_nat (length l)).

Definition calc_deriv (num_replicates : nat) (param : string)
    (increment base_dps : Q) (player : gmap string Q)
    : Result (Q * gmap string Q) :=
  and_then (increment_stat param increment player)
    (fun '(original_value, player) =>
  (* Calculate DPS *)
  let '(player, dps_vals_v) := replicates num_replicates player in
  let avg_dps := mean dps_vals_v in
  and_then (restore_stat param original_value increment player)
    (fun player =>
  Ok (avg_dps - base_dps, player))).

End StatWeights.

(** ** Observing a run without its combat log *)

Section Observation.
Context `{C : Collab}.

(** The player and the simulation with everything that belongs to logging
    cleared: the two [log] flags and the two logs. *)
Definition erase_player (p : Player) : Player :=
  p |> set_p_log false |> set_p_combat_log None.

Definition erase (s : Sim) : Sim :=
  s |> set_player (erase_player (player s))
    |> set_log false
    |> set_combat_log [].

(** [run] gives the player's flag the value of the simulation's. *)
Definition log_consistent (s : Sim) : Prop := p_log (player s) = log s.

(** Two states that differ at most in what belongs to logging. *)
Definition low_equiv (s1 s2 : Sim) : Prop :=
  erase s1 = erase s2 /\ log_consistent s1 /\ log_consistent s2.

Definition res_equiv {A : Type} (r1 r2 : Result (A * Sim)) : Prop :=
  match r1, r2 with
  | Ok (a1, s1), Ok (a2, s2) => a1 = a2 /\ low_equiv s1 s2
  | Raise e1, Raise e2 => e1 = e2
  | _, _ => False
  end.

(** A computation whose result and effect do not depend on logging. *)
Definition secure {A : Type} (m : M A) : Prop :=
  forall s1 s2, low_equiv s1 s2 -> res_equiv (m s1) (m s2).

(** Two computations that differ at most in what they log. *)
Definition related {A : Type} (m1 m2 : M A) : Prop :=
  forall s1 s2, low_equiv s1 s2 -> res_equiv (m1 s1) (m2 s2).

(** An expression over the state that does not read what belongs to
    logging. *)
Definition blind {A : Type} (f : Sim -> A) : Prop :=
  forall s, f (erase s) = f s.

(** An assignment that neither reads nor writes what belongs to logging. *)
Definition frame_ok (f : Sim -> Sim) : Prop :=
  forall s, erase (f s) = erase (f (erase s))
            /\ log (f s) = log s
            /\ p_log (player (f s)) = p_log (player s).

(** The same for a method of the player: it may write its own log, but its
    result, the generator and the rest of the player do not depend on the
    log, and it leaves the flag alone. *)
Definition pm_secure {A : Type} (m : PM A) : Prop :=
  forall p g,
    (m (erase_player p) g).1.1 = (m p g).1.1
    /\ (m (erase_player p) g).2 = (m p g).2
    /\ erase_player (m (erase_player p) g).1.2 = erase_player (m p g).1.2
    /\ p_log (m p g).1.2 = p_log p.

(** A melee attack leaves a log line when the player's flag is set. *)
Definition logs_when_asked (m : PM Q) : Prop :=
  forall p g, p_log p = true -> p_combat_log (m p g).1.2 <> None.

End Observation.

(** The contract that logging noninterference of [run] asks of the
    collaborators. *)
Class LogOblivious `{C : Collab} : Prop := {
  lo_reset : pm_secure player_reset;
  lo_regen : forall dt, pm_secure (player_regen dt);
  lo_swing : pm_secure player_swing;
  lo_maul : forall md, pm_secure (player_maul md);
  lo_shift : forall t b, pm_secure (player_shift t b);
  lo_mangle : pm_secure player_mangle;
  lo_rake : forall md, pm_secure (player_rake md);
  lo_lacerate : forall md, pm_secure (player_lacerate md);
  lo_rip : pm_secure player_rip;
  lo_shred : forall md, pm_secure (player_shred md);
  lo_bite : pm_secure player_bite;
  lo_roar : forall t, pm_secure (player_roar t);
  lo_calc_damage_params : forall d, pm_secure (player_calc_damage_params d);
  lo_set_ability_costs : pm_secure player_set_ability_costs;
  lo_swing_logs : logs_when_asked player_swing;
  lo_maul_logs : forall md, logs_when_asked (player_maul md);
  lo_trinket_reset :
    forall i, secure (call_trinket (fun s => (tt, trinket_reset i s)));
  lo_trinket_update : forall i t, secure (call_trinket (trinket_update i t));
  lo_trinket_periodic_only : forall i, blind (trinket_periodic_only i);
  lo_trinket_check_for_proc :
    forall i a b,
      secure (call_trinket (fun s => (tt, trinket_check_for_proc i a b s)));
  lo_trinket_finish : forall i t, secure (call_trinket (trinket_finish i t))
}.

(** ** A miniature player, for concrete runs *)

(** A small implementation of the collaborators: every ability lands, costs
    its Energy or Rage and starts a one second global cooldown; there are no
    trinkets; the generator is a list of variates drawn in advance. *)
Module Mini.

Record MiniPlayer : Type := Build_MiniPlayer {
  mp_combo_points : Z;
  mp_mana : Q;
  mp_cat_form : bool;
  mp_last_shift : Q
}.

#[export] Instance types : ExtTypes :=
  {| PExt := MiniPlayer; TStore := unit; TId := unit; Rng := list Q |}.

Definition draw (g : list Q) : Q * list Q :=
  match g with
  | [] => (0, [])
  | x :: rest => (x, rest)
  end.

Definition fresh_breakdown : Breakdown :=
  map (fun name : string => (name, [("casts"%string, 0); ("damage"%string, 0)]))
      ["Melee"; "Mangle"; "Rake"; "Lacerate"; "Rip"; "Shred"; "Bite";
       "Savage Roar"]%string.

Definition fresh_private : MiniPlayer :=
  {| mp_combo_points := 0; mp_mana := 1000; mp_cat_form := true;
     mp_last_shift := -10 |}.

Definition write_log (line : list string) (p : Player) : Player :=
  if p_log p then set_p_combat_log (Some line) p else p.

Definition add_combo (n : Z) (p : Player) : Player :=
  set_pext
    {| mp_combo_points := Z.min 5 (mp_combo_points (pext p) + n);
       mp_mana := mp_mana (pext p);
       mp_cat_form := mp_cat_form (pext p);
       mp_last_shift := mp_last_shift (pext p) |} p.

Definition spend_combos (p : Player) : Player :=
  set_pext
    {| mp_combo_points := 0;
       mp_mana := mp_mana (pext p);
       mp_cat_form := mp_cat_form (pext p);
       mp_last_shift := mp_last_shift (pext p) |} p.

(** A special ability that costs Energy. *)
Definition special (name : string) (cost dmg : Q) (after : Player -> Player)
    : PM (Q * bool) :=
  fun p g =>
    ((dmg, true),
     p |> set_energy (energy p - cost) |> set_gcd 1 |> set_omen_proc false
       |> after |> write_log [name; "hit"%string],
     g).

Definition reset : PM unit :=
  fun p g =>
    (tt,
     {| energy := 100; rage := 0; gcd := 0; omen_icd := 0; rune_cd := 0;
        tf_cd := 0; berserk_cd := 0; enrage_cd := 0; mangle_cd := 0;
        five_second_rule := false; berserk := false; savage_roar := false;
        enrage := false; omen_proc := false; ready_to_shift := false;
        p_log := p_log p; p_combat_log := None;
        dmg_breakdown := fresh_breakdown; pext := fresh_private |},
     g).

Definition regen (delta_t : Q) : PM unit :=
  fun p g => (tt, set_energy (pymin 100 (energy p + 10 * delta_t)) p, g).

Definition swing : PM Q :=
  fun p g => (100, write_log ["Melee"; "hit"]%string p, g).

Definition maul (mangle_debuff_v : bool) : PM Q :=
  fun p g =>
    (200, p |> set_rage (rage p - 10) |> write_log ["Maul"; "hit"]%string, g).

Definition shift (time : Q) (powershift : bool) : PM unit :=
  fun p g =>
    (tt,
     p |> set_gcd 1.5 |> set_ready_to_shift false
       |> set_energy (if mp_cat_form (pext p) then energy p else 40)
       |> set_pext
            {| mp_combo_points := mp_combo_points (pext p);
               mp_mana := mp_mana (pext p) - 100;
               mp_cat_form := if powershift then mp_cat_form (pext p)
                              else negb (mp_cat_form (pext p));
               mp_last_shift := time |}
       |> write_log ["shift"; ""]%string,
     g).

Definition lacerate (mangle_debuff_v : bool) : PM (Q * bool) :=
  fun p g =>
    ((60, true),
     p |> set_rage (rage p - 13) |> set_gcd 1.5
       |> write_log ["Lacerate"; "hit"]%string,
     g).

Definition bite : PM Q :=
  fun p g =>
    let '(r, p', g') := special "Bite" 35 400 spend_combos p g in
    (fst r, p', g').

Definition roar (time : Q) : PM Q :=
  fun p g =>
    (time + 9 + 5 * inject_Z (mp_combo_points (pext p)),
     p |> set_energy (energy p - 25) |> set_gcd 1 |> set_savage_roar true
       |> spend_combos |> write_log ["Savage Roar"; "applied"]%string,
     g).

Definition by_combo_points (base step : Q) (cp : Z) : option Q :=
  if (1 <=? cp)%Z && (cp <=? 5)%Z then Some (base + step * inject_Z cp)
  else None.

Definition nothing : PM unit := fun p g => (tt, p, g).

#[export] Instance collab : Collab := {|
  rand := draw;
  randn := draw;
  calc_yellow_damage := fun low high bonus crit mult g => (low, g);
  combo_points := mp_combo_points;
  mana := mp_mana;
  cat_form := mp_cat_form;
  last_shift := mp_last_shift;
  omen := fun _ => false;
  p_swing_timer := fun _ => 1;
  furor := fun _ => 5;
  berserk_glyph := fun _ => false;
  shred_glyph := fun _ => true;
  primal_gore := fun _ => false;
  rip_duration := fun _ => 12;
  roar_durations := fun _ => by_combo_points 9 5;
  roar_cost := fun _ => 25;
  rip_cost := fun _ => 30;
  bite_cost := fun _ => 35;
  rake_cost := fun _ => 35;
  mangle_cost := fun _ => 40;
  _mangle_cost := fun _ => 40;
  shred_cost := fun _ => 42;
  crit_chance := fun _ => 0.5;
  miss_chance := fun _ => 0;
  attack_power := fun _ => 4100;
  bite_low := fun _ => by_combo_points 100 50;
  bite_high := fun _ => by_combo_points 200 50;
  bite_multiplier := fun _ => 1;
  rip_tick := fun _ => by_combo_points 20 10;
  shred_low := fun _ => 100;
  shred_high := fun _ => 200;
  rake_hit := fun _ => 80;
  rake_tick := fun _ => 30;
  lacerate_tick := fun _ => 10;
  roar_fac := fun _ => 0.3;
  proc_trinkets := fun _ => [];
  calc_crit_multiplier := fun _ => 2;
  player_reset := reset;
  player_regen := regen;
  player_swing := swing;
  player_maul := maul;
  player_shift := shift;
  player_mangle := special "Mangle" 40 120 (add_combo 1);
  player_rake := fun _ => special "Rake" 35 80 (add_combo 1);
  player_lacerate := lacerate;
  player_rip := special "Rip" 30 50 spend_combos;
  player_shred := fun _ => special "Shred" 42 150 (add_combo 1);
  player_bite := bite;
  player_roar := roar;
  player_calc_damage_params := fun _ => nothing;
  player_set_ability_costs := nothing;
  player_set_mana_regen := nothing;
  trinket_reset := fun _ s => s;
  trinket_update := fun _ _ s => (0, s);
  trinket_periodic_only := fun _ _ => false;
  trinket_check_for_proc := fun _ _ _ s => s;
  trinket_finish := fun _ _ s => (None, s)
|}.

Definition default_params : Params :=
  {| gift_of_arthas := true; boss_armor := 3731; sunder := 0;
     faerie_fire := true; blood_frenzy := false; shattering_throw := false;
     tigers_fury := false |}.

Definition default_strategy : Strategy :=
  {| min_combos_for_rip := 5; use_rake := false; use_bite := true;
     bite_time := Some 8; min_combos_for_bite := 5; mangle_spam := false;
     bear_mangle := false; use_berserk := false; prepop_berserk := false;
     preproc_omen := false; bearweave := false; berserk_bite_thresh := 100;
     lacerate_prio := false; lacerate_time := 10; powerbear := false;
     min_roar_offset := 10 |}.

(** A player at rest with [energy_v] Energy and [cp] combo points. *)
Definition player_with (energy_v : Q) (cp : Z) : Player :=
  {| energy := energy_v; rage := 0; gcd := 0; omen_icd := 0; rune_cd := 0;
     tf_cd := 30; berserk_cd := 0; enrage_cd := 0; mangle_cd := 0;
     five_second_rule := false; berserk := false; savage_roar := false;
     enrage := false; omen_proc := false; ready_to_shift := false;
     p_log := false; p_combat_log := None;
     dmg_breakdown := fresh_breakdown;
     pext := {| mp_combo_points := cp; mp_mana := 1000; mp_cat_form := true;
                mp_last_shift := -10 |} |}.

(** A simulation as [__init__] leaves it (with the default parameters, a
    fight of [fight_length_v] seconds and 100 ms of latency), no aura up. *)
Definition sim_with (fight_length_v : Q) (p : Player) : Sim :=
  {| player := p; fight_length := fight_length_v; latency := 0.1;
     trinkets := [TArmorDebuffs; TTracker RipTracker; TTracker RoarTracker];
     params := default_params; strategy := default_strategy;
     use_sunder := false;
     trackers := fun _ => UptimeTracker.reset;
     haste_multiplier := 1; revitalize_frequency := 15 / (8 * 1e-9);
     mangle_debuff := false; mangle_end := Finite 0;
     rake_debuff := false; rake_end := 0; rake_ticks := []; rake_damage := 0;
     rake_sr_snapshot := false;
     lacerate_debuff := false; lacerate_end := 0; lacerate_ticks := [];
     last_lacerate_tick := 0; lacerate_stacks := 0; lacerate_damage := 0;
     lacerate_crit_chance := 0;
     rip_debuff := false; rip_start := 0; rip_end := 0; rip_ticks := [];
     rip_damage := 0; rip_crit_chance := 0; rip_sr_snapshot := false;
     roar_end := 0; tf_end := 0; berserk_end := 0; next_action := 0;
     swing_timer := 1; swing_times := [0; 1; 2]; proc_end_times := [];
     time_to_oom := None; log := false; combat_log := [];
     rng := []; tstore := tt |}.

End Mini.

(** ** Concrete states and replicates *)

Section Examples.

#[local] Existing Instance Mini.types.
#[local] Existing Instance Mini.collab.

(** A fight of 6 seconds about to start, full Energy. *)
Definition fresh_fight : Sim := Mini.sim_with 6 (Mini.player_with 100 0).

(** Lacerate up with 2 stacks, its tick of time 12 scheduled. *)
Definition lacerate_up : Sim :=
  Mini.sim_with 300 (Mini.player_with 100 0)
  |> set_lacerate_debuff true
  |> set_lacerate_end 25
  |> set_lacerate_ticks [12]
  |> set_last_lacerate_tick 9
  |> set_lacerate_stacks 2%Z.

(** Rip up since time 0, not yet extended. *)
Definition rip_up : Sim :=
  Mini.sim_with 300 (Mini.player_with 100 3)
  |> set_rip_debuff true
  |> set_rip_start 0
  |> set_rip_end 12
  |> set_rip_ticks [10; 12].

(** One combo point, no Savage Roar, 10 Energy: Roar is due and too
    expensive. *)
Definition roar_unaffordable : Sim :=
  Mini.sim_with 300 (Mini.player_with 10 1).

(** 30 Energy, no combo point, Mangle up until time 60 and Savage Roar up
    until time 12: at time 10 the filler is Shred, and 5 Energy are
    floating for the Roar refresh. *)
Definition shred_unaffordable : Sim :=
  Mini.sim_with 300 (set_savage_roar true (Mini.player_with 30 0))
  |> set_mangle_debuff true
  |> set_mangle_end (Finite 60)
  |> set_roar_end 12.

(** Two replicate outputs. *)
Definition replicate_a : IterOutput :=
  (1000,
   [("Shred"%string, [("casts"%string, 10); ("damage"%string, 30000)]);
    ("Rip"%string, [("casts"%string, 2); ("damage"%string, 8000)])],
   [("Rip"%string, 2, 0.9); ("Savage Roar"%string, 3, 1)],
   60).

Definition replicate_b : IterOutput :=
  (1100,
   [("Rip"%string, [("damage"%string, 9000); ("casts"%string, 3)]);
    ("Shred"%string, [("casts"%string, 12); ("damage"%string, 33000)])],
   [("Rip"%string, 3, 0.8); ("Savage Roar"%string, 3, 0.9)],
   61).

(** A player's numeric attributes, and replicates that leave them alone. *)
Definition some_attributes : gmap string Q :=
  {[ "agility"%string := 1000; "attack_power"%string := 5000;
     "ap_mod"%string := 1.1; "crit_chance"%string := 0.4;
     "dodge_chance"%string := 0.05; "miss_chance"%string := 0.08 ]}.

Definition quiet_replicates (n : nat) (p : gmap string Q)
    : gmap string Q * list Q :=
  (p, [100; 102]).

End Examples.

(** ** Histories of a tracker *)

Section TrackerHistory.
Context `{C : Collab}.

(** The calls a tracker object receives. *)
Inductive Call : Type :=
| CallUpdate (time : Q) (s : Sim)
| CallDeactivate
| CallReset.

(** The accumulators after one call; an [update] that raises leaves them
    as they were. *)
Definition apply_call (k : TrackerKind) (t : Tracker) (c : Call) : Tracker :=
  match c with
  | CallUpdate time s =>
      match UptimeTracker.update_tracker k time s t with
      | Ok t' => t'
      | Raise _ => t
      end
  | CallDeactivate => UptimeTracker.deactivate t
  | CallReset => UptimeTracker.reset
  end.

Definition apply_calls (k : TrackerKind) (calls : list Call) : Tracker :=
  fold_left (apply_call k) calls UptimeTracker.reset.

(** The trimmed measurement window of a fight. *)
Definition in_window (time : Q) (s : Sim) : Prop :=
  15 < time /\ time < fight_length s - 15.

(** The invariant of the accumulators. *)
Definition tracker_ok (t : Tracker) : Prop :=
  15 <= last_update t /\ 0 <= uptime t <= 1.

(** The accumulators of a tracker that has never seen its aura up. *)
Definition tracker_idle (t : Tracker) : Prop :=
  15 <= last_update t /\ uptime t == 0 /\ num_procs t = 0%Z
  /\ active t = false.

End TrackerHistory.

(** ** Reading the outputs of the replicates *)

(** [dmg_breakdown[ability][key]] of one replicate. *)
Definition cast_value (ability key : string) (o : IterOutput) : option Q :=
  match dict_get ability o.1.1.2 with
  | Some d => dict_get key d
  | None => None
  end.

(** [aura_stats[row][1]] and [aura_stats[row][2]] of one replicate. *)
Definition aura_procs (row : nat) (o : IterOutput) : option Q :=
  match nth_error o.1.2 row with
  | Some (_, procs, _) => Some procs
  | None => None
  end.

Definition aura_uptime (row : nat) (o : IterOutput) : option Q :=
  match nth_error o.1.2 row with
  | Some (_, _, up) => Some up
  | None => None
  end.

(** The values of one entry in all the replicates. *)
Fixpoint all_values (f : IterOutput -> option Q) (outputs : list IterOutput)
    : option (list Q) :=
  match outputs with
  | [] => Some []
  | o :: rest =>
      match f o, all_values f rest with
      | Some x, Some xs => Some (x :: xs)
      | _, _ => None
      end
  end.

(** Two breakdowns with the same abilities and, for each, the same keys,
    in the same order. *)
Definition same_keys (b1 b2 : Breakdown) : Prop :=
  Forall2 (fun x y => fst x = fst y /\ map fst (snd x) = map fst (snd y))
          b1 b2.

(** The state of the consolidation loop after the outputs [done]: the sums
    have the entries of the first output, and each entry is the mean of the
    values of that entry in [done]. *)
Definition consolidated (done : list IterOutput) (first : IterOutput)
    (acc : Consolidation) : Prop :=
  loop_i acc = length done
  /\ exists cast_sum aura_sum,
       sums acc = Some (cast_sum, aura_sum)
       /\ same_keys cast_sum first.1.1.2
       /\ (forall ability inner key avg,
             dict_get ability cast_sum = Some inner ->
             dict_get key inner = Some avg ->
             exists xs,
               all_values (cast_value ability key) done = Some xs
               /\ avg == mean xs)
       /\ length aura_sum = length first.1.2
       /\ (forall row name procs up,
             nth_error aura_sum row = Some (name, procs, up) ->
             exists ps us,
               all_values (aura_procs row) done = Some ps
               /\ all_values (aura_uptime row) done = Some us
               /\ procs == mean ps /\ up == mean us).

(** A replicate that has every entry of the first one. *)
Definition has_entries_of (first o : IterOutput) : Prop :=
  (forall ability inner key avg,
     In (ability, inner) first.1.1.2 ->
     In (key, avg) inner ->
     cast_value ability key o <> None)
  /\ (length first.1.2 <= length o.1.2)%nat.

(** ** Stat increments *)

(** The attributes that [calc_deriv] changes together with [param]. *)
Definition coupled (param a : string) : Prop :=
  (param = "dodge_chance"%string /\ a = "miss_chance"%string)
  \/ (param = "agility"%string
      /\ (a = "attack_power"%string \/ a = "crit_chance"%string)).

(** What [calc_deriv] relies on: [run_replicates] does not assign the
    attributes that the restoration reads back. *)
Definition keeps_coupled
    (replicates : nat -> gmap string Q -> gmap string Q * list Q) : Prop :=
  forall n (q : gmap string Q) (a : string),
    In a ["miss_chance"; "attack_power"; "crit_chance"; "ap_mod"]%string ->
    (replicates n q).1 !! a = q !! a.

(** Two attribute values that are the same number. *)
Definition same_value (x y : option Q) : Prop :=
  match x, y with
  | Some v, Some w => v == w
  | None, None => True
  | _, _ => False
  end.

(** The player has the attributes that [calc_deriv] reads for [param]. *)
Definition has_attrs (param : string) (p : gmap string Q) : Prop :=
  is_Some (p !! param)
  /\ (param = "dodge_chance"%string -> is_Some (p !! "miss_chance"%string))
  /\ (param = "agility"%string ->
      is_Some (p !! "attack_power"%string)
      /\ is_Some (p !! "ap_mod"%string)
      /\ is_Some (p !! "crit_chance"%string)).

(** ** The Energy-gated choices of the rotation *)

Section Gates.
Context `{C : Collab}.

(** The actions of the Cat Form rotation that are paid with Energy. *)
Inductive Gate : Type :=
| GRoar
| GRip
| GBite
| GRake
| GMangle
| GMangleSpam
| GShred.

(** The action selected by the chain of gates of [execute_rotation] in Cat
    Form, if it is one paid with Energy ([None] for the shifts and for
    Berserk). *)
Definition selected_gate (bite_before_rip_v roar_now_v : bool) (time : Q)
    (s : Sim) : option Gate :=
  if emergency_bearweave time s then None
  else if berserk_now s then None
  else if roar_now_v then Some GRoar
  else if rip_now time s then Some GRip
  else if bite_now bite_before_rip_v time s then Some GBite
  else if rake_now time s then Some GRake
  else if mangle_now time s then Some GMangle
  else if bearweave_now time s then None
  else if mangle_spam (strategy s) && negb (omen_proc (player s))
       then Some GMangleSpam
  else Some GShred.

(** The cost of the action. *)
Definition gate_cost (g : Gate) (s : Sim) : Q :=
  let pl := pext (player s) in
  match g with
  | GRoar => roar_cost pl
  | GRip => rip_cost pl
  | GBite => bite_cost pl
  | GRake => rake_cost pl
  | GMangle | GMangleSpam => mangle_cost pl
  | GShred => shred_cost pl
  end.

(** The Energy the cost is compared with: the current Energy, or what is
    left of it after the reservation for the pending refreshes in the case
    of the two fillers. *)
Definition gate_energy (g : Gate) (time : Q) (s : Sim) : Q :=
  match g with
  | GMangleSpam | GShred => excess_e time s
  | _ => energy (player s)
  end.

(** Whether a Clearcasting proc waives the cost of the action. *)
Definition gate_free (g : Gate) (s : Sim) : bool :=
  match g with
  | GRip | GRake | GMangle | GShred => omen_proc (player s)
  | GRoar | GBite | GMangleSpam => false
  end.

(** The cap of the next decision time by the earliest pending refresh. *)
Definition capped (time : Q) (s : Sim) (t : Q) : Q :=
  match pending_actions time s with
  | [] => t
  | (due, _) :: _ => pymin t due
  end.

End Gates.

(** ** Computations that ignore the logs *)

Section LocalChecks.
Context `{C : Collab}.

(** A primitive computation checked on a state and on its erasure: same
    result, same effect outside the logs, flags untouched. *)
Definition local_ok {A : Type} (m : M A) : Prop :=
  forall s,
    match m s, m (erase s) with
    | Ok (a, s'), Ok (a', s'') =>
        a = a' /\ erase s' = erase s''
        /\ log s' = log s /\ p_log (player s') = p_log (player s)
    | Raise e, Raise e' => e = e'
    | _, _ => False
    end.

(** When the simulation logs, the player has left a log line. *)
Definition has_line (s : Sim) : Prop :=
  log s = true -> p_combat_log (player s) <> None.

(** Noninterference between states that satisfy [P]. *)
Definition secure_on {A : Type} (P : Sim -> Prop) (m : M A) : Prop :=
  forall s1 s2, low_equiv s1 s2 -> P s1 -> P s2 -> res_equiv (m s1) (m s2).

(** [m] establishes [P] when it returns from a state whose flags agree. *)
Definition ensures {A : Type} (m : M A) (P : Sim -> Prop) : Prop :=
  forall s a s', log_consistent s -> m s = Ok (a, s') -> P s'.

End LocalChecks.

(** ** What a run shows without its log *)

(** The output of [run] without the combat log. *)
Definition observe (o : RunOutput)
    : Series * Breakdown * list AuraStat :=
  (out_series o, out_dmg_breakdown o, out_aura_stats o).

Section Observed.
Context `{C : Collab}.

Definition res_equiv_on {A B : Type} (f : A -> B)
    (r1 r2 : Result (A * Sim)) : Prop :=
  match r1, r2 with
  | Ok (a1, s1), Ok (a2, s2) => f a1 = f a2 /\ low_equiv s1 s2
  | Raise e1, Raise e2 => e1 = e2
  | _, _ => False
  end.

Definition related_obs {A B : Type} (f : A -> B) (m1 m2 : M A) : Prop :=
  forall s1 s2, low_equiv s1 s2 -> res_equiv_on f (m1 s1) (m2 s2).

End Observed.

(** ** Configuration: the constructor and [set_active_debuffs] *)

(** [Simulation.__init__] and [set_active_debuffs] address [params] and
    [strategy] by key, with values of any type, so here the two
    dictionaries are association lists of Python values in insertion
    order.  The debuff controller holds the very dictionary of the
    simulation, so its writes are writes to [cfg_params]. *)
Module Config.

Inductive PyValue : Type :=
| PyBool (b : bool)
| PyInt (n : Z)
| PyFloat (x : Q)
| PyStr (s : string)
| PyNone.

(** [bool(v)]. *)
Definition truthy (v : PyValue) : bool :=
  match v with
  | PyBool b => b
  | PyInt n => negb (n =? 0)%Z
  | PyFloat x => negb (Qeqb x 0)
  | PyStr s => negb (String.eqb s "")
  | PyNone => false
  end.

(** The exceptions of the two methods, with what their message reports. *)
Inductive ConfigError : Type :=
| KeyErrorOn (key : string)
| ValueErrorOn (unsupported : list string).

Definition default_params : Dict PyValue :=
  [("gift_of_arthas", PyBool true);
   ("boss_armor", PyInt 3731);
   ("sunder", PyBool false);
   ("faerie_fire", PyBool true);
   ("blood_frenzy", PyBool false);
   ("shattering_throw", PyBool false)]%string.

Definition default_strategy : Dict PyValue :=
  [("min_combos_for_rip", PyInt 5);
   ("use_rake", PyBool false);
   ("use_bite", PyBool true);
   ("bite_time", PyFloat 8);
   ("min_combos_for_bite", PyInt 5);
   ("mangle_spam", PyBool false);
   ("bear_mangle", PyBool false);
   ("use_berserk", PyBool false);
   ("prepop_berserk", PyBool false);
   ("preproc_omen", PyBool false);
   ("bearweave", PyBool false);
   ("berserk_bite_thresh", PyInt 100);
   ("lacerate_prio", PyBool false);
   ("lacerate_time", PyFloat 10);
   ("powerbear", PyBool false);
   ("min_roar_offset", PyFloat 10)]%string.

(** [key in d]. *)
Definition has_key {V : Type} (key : string) (d : Dict V) : bool :=
  match dict_get key d with
  | Some _ => true
  | None => false
  end.

(** The loop over [kwargs.items()] of [__init__]. *)
Fixpoint apply_kwargs (kwargs : list (string * PyValue))
    (params strategy : Dict PyValue)
    : ConfigError + Dict PyValue * Dict PyValue :=
  match kwargs with
  | [] => inr (params, strategy)
  | (key, value) :: rest =>
      if has_key key params then
        apply_kwargs rest (dict_set key value params) strategy
      else if has_key key strategy then
        apply_kwargs rest params (dict_set key value strategy)
      else inl (KeyErrorOn key)
  end.

(** [ArmorDebuffs.process_params] followed by the [reset] it calls: the
    new [use_sunder] and the dictionary after [params['sunder'] = 0]. *)
Definition process_params (params : Dict PyValue)
    : ConfigError + bool * Dict PyValue :=
  match dict_get "sunder" params with
  | None => inl (KeyErrorOn "sunder")
  | Some v => inr (truthy v, dict_set "sunder" (PyInt 0) params)
  end.

Section Constructor.
Context `{ET : ExtTypes}.

(** [player.calc_damage_params], a method of the collaborator, called with
    the entries of [params] as keywords. *)
Variable calc_damage_params : Dict PyValue -> Player -> Player.

(** The attributes that [__init__] assigns. *)
Record Simulation : Type := Build_Simulation {
  cfg_player : Player;
  cfg_fight_length : Q;
  cfg_latency : Q;
  cfg_trinkets : list Trinket;
  cfg_params : Dict PyValue;
  cfg_strategy : Dict PyValue;
  cfg_use_sunder : bool;
  cfg_haste_multiplier : Q;
  cfg_revitalize_frequency : Q
}.

(** [Simulation.__init__].  The list [trinkets] is the one the caller
    passes; it is extended in place, and [cfg_trinkets] is its content
    after the call. *)
Definition init (player : Player) (fight_length latency : Q)
    (trinkets : list Trinket) (haste_multiplier hot_uptime : Q)
    (kwargs : list (string * PyValue)) : ConfigError + Simulation :=
  match apply_kwargs kwargs default_params default_strategy with
  | inl e => inl e
  | inr (params, strategy) =>
      (* Set up controller for delayed armor debuffs. *)
      match process_params params with
      | inl e => inl e
      | inr (use_sunder_v, params) =>
          let trinkets := trinkets ++ [TArmorDebuffs] in
          (* Set up trackers for Rip and Roar uptime *)
          let trinkets := trinkets ++ [TTracker RipTracker] in
          let trinkets := trinkets ++ [TTracker RoarTracker] in
          inr {| cfg_player := calc_damage_params params player;
                 cfg_fight_length := fight_length;
                 cfg_latency := latency;
                 cfg_trinkets := trinkets;
                 cfg_params := params;
                 cfg_strategy := strategy;
                 cfg_use_sunder := use_sunder_v;
                 cfg_haste_multiplier := haste_multiplier;
                 cfg_revitalize_frequency :=
                   15 / (8 * pymax hot_uptime 1e-9) |}
      end
  end.

(** [active_debuffs.remove(key)]: the first occurrence goes. *)
Fixpoint remove_first (key : string) (l : list string) : list string :=
  match l with
  | [] => []
  | x :: rest => if String.eqb key x then rest else x :: remove_first key rest
  end.

(** The loop [for key in all_debuffs] of [set_active_debuffs]: the
    dictionary and what is left of [active_debuffs]. *)
Fixpoint mark_debuffs (all_debuffs : list string) (params : Dict PyValue)
    (active_debuffs : list string) : Dict PyValue * list string :=
  match all_debuffs with
  | [] => (params, active_debuffs)
  | key :: rest =>
      if existsb (String.eqb key) active_debuffs then
        mark_debuffs rest (dict_set key (PyBool true) params)
                     (remove_first key active_debuffs)
      else
        mark_debuffs rest (dict_set key (PyBool false) params) active_debuffs
  end.

(** [set_active_debuffs(debuff_list)]: the simulation after the call, and
    the exception if the call raised one.  The flags are written before the
    list is checked, so they stay written when the call raises. *)
Definition set_active_debuffs (debuff_list : list string) (sim : Simulation)
    : Simulation * option ConfigError :=
  let all_debuffs :=
    List.filter (fun key => negb (String.eqb key "boss_armor"))
           (map fst (cfg_params sim)) in
  let '(params, active_debuffs) :=
    mark_debuffs all_debuffs (cfg_params sim) debuff_list in
  let sim := {| cfg_player := cfg_player sim;
                cfg_fight_length := cfg_fight_length sim;
                cfg_latency := cfg_latency sim;
                cfg_trinkets := cfg_trinkets sim;
                cfg_params := params;
                cfg_strategy := cfg_strategy sim;
                cfg_use_sunder := cfg_use_sunder sim;
                cfg_haste_multiplier := cfg_haste_multiplier sim;
                cfg_revitalize_frequency := cfg_revitalize_frequency sim |} in
  match active_debuffs with
  | _ :: _ => (sim, Some (ValueErrorOn active_debuffs))
  | [] =>
      match process_params params with
      | inl e => (sim, Some e)
      | inr (use_sunder_v, params) =>
          ({| cfg_player := cfg_player sim;
              cfg_fight_length := cfg_fight_length sim;
              cfg_latency := cfg_latency sim;
              cfg_trinkets := cfg_trinkets sim;
              cfg_params := params;
              cfg_strategy := cfg_strategy sim;
              cfg_use_sunder := use_sunder_v;
              cfg_haste_multiplier := cfg_haste_multiplier sim;
              cfg_revitalize_frequency := cfg_revitalize_frequency sim |},
           None)
      end
  end.

End Constructor.

(** The value passed for [key] in [kwargs], or else [default]. *)
Definition given (key : string) (kwargs : list (string * PyValue))
    (default : option PyValue) : option PyValue :=
  match dict_get key (rev kwargs) with
  | Some v => Some v
  | None => default
  end.

(** A keyword that [__init__] accepts. *)
Definition supported (key : string) : bool :=
  has_key key default_params || has_key key default_strategy.

End Config.

(** ** Orders and schedules *)

(** A list in ascending order for the comparison [leb]: every element is
    below all the later ones. *)
Fixpoint ascending {A : Type} (leb : A -> A -> bool) (l : list A) : Prop :=
  match l with
  | [] => True
  | x :: rest => Forall (fun y => leb x y = true) rest /\ ascending leb rest
  end.

(** The [n] points [start], [start + step], ... *)
Definition cadence (start step : Q) (n : nat) : list Q :=
  map (fun i : nat => start + inject_Z (Z.of_nat i) * step) (seq 0 n).

(** ** Footprints *)

Section Footprints.
Context `{C : Collab}.

(** The computation [m] leaves the observation [f] of the state as it
    found it whenever it returns. *)
Definition preserves {A B : Type} (f : Sim -> B) (m : M A) : Prop :=
  forall s a s', m s = Ok (a, s') -> f s' = f s.

(** An observation that reads neither the player nor the generator, and
    one that does not read the combat log. *)
Definition ignores_player {B : Type} (f : Sim -> B) : Prop :=
  forall s p g, f (set_rng g (set_player p s)) = f s.

Definition ignores_log {B : Type} (f : Sim -> B) : Prop :=
  forall s l, f (set_combat_log l s) = f s.

End Footprints.

(** ** What [run_replicates] returns *)

(** The two [return] statements of [run_replicates]: the array [dps_vals]
    alone, or with [cast_sum], [aura_sum] and [oom_times]; the last two
    local variables are bound by the first pass through the loop. *)
Definition replicates_result (detailed_output : bool) (acc : Consolidation)
    : Result (list Q * option (Breakdown * list AuraStat * list Q)) :=
  if negb detailed_output then Ok (dps_vals acc, None)
  else
    match sums acc with
    | Some (cast_sum, aura_sum) =>
        Ok (dps_vals acc, Some (cast_sum, aura_sum, oom_times acc))
    | None => Raise UnboundLocalError
    end.

Section ReplicatesResult.
Context `{C : Collab}.

(** [run_replicates] up to its [return]. *)
Definition run_replicates_result (num_replicates : nat)
    (detailed_output : bool) (entropy : nat -> Rng) (fuel : nat)
    : M (list Q * option (Breakdown * list AuraStat * list Q)) :=
  acc <- run_replicates num_replicates detailed_output entropy fuel;;
  getsR (fun _ => replicates_result detailed_output acc).

End ReplicatesResult.

(** ** Casts and their records *)

Section Casts.
Context `{C : Collab}.


(** A trinket list without trinket objects of the caller: the debuff
    controller and the trackers only. *)
Definition own_trinkets (ts : list Trinket) : Prop :=
  Forall (fun t => match t with TExternal _ => False | _ => True end) ts.

(** The row of [aura_stats] for an entry of the trinket list, from the
    accumulators of its tracker. *)
Definition aura_row (s : Sim) (t : Trinket) : list AuraStat :=
  match t with
  | TTracker RipTracker =>
      [("Rip"%string, inject_Z (num_procs (trackers s RipTracker)),
        uptime (trackers s RipTracker))]
  | TTracker RoarTracker =>
      [("Savage Roar"%string, inject_Z (num_procs (trackers s RoarTracker)),
        uptime (trackers s RoarTracker))]
  | _ => []
  end.

(** The tick schedule of a bleed that is up has a tick left, and its last
    tick falls on the expiry. *)
Definition schedule_ok (debuff : bool) (ticks : list Q) (expiry : Q) : Prop :=
  debuff = true -> ticks <> [] /\ List.last ticks 0 == expiry.

(** [m] maintains the property [P] of the state. *)
Definition invariant {A : Type} (P : Sim -> Prop) (m : M A) : Prop :=
  forall s a s', P s -> m s = Ok (a, s') -> P s'.

(** The swing schedule and the trinket list. *)
Definition swings (s : Sim) : list Q * list Trinket :=
  (swing_times s, trinkets s).

(** What a Mangle kept up by a bear tank depends on, and the property
    that it is up for good: the debuff is on and has no expiry. *)
Definition mangle_view (s : Sim) : Strategy * bool * QInf * list Trinket :=
  (strategy s, mangle_debuff s, mangle_end s, trinkets s).

Definition permanent_view (v : Strategy * bool * QInf * list Trinket)
    : Prop :=
  bear_mangle v.1.1.1 = true /\ v.1.1.2 = true /\ v.1.2 = Infinity
  /\ own_trinkets v.2.

Definition mangle_permanent (s : Sim) : Prop :=
  permanent_view (mangle_view s).

(** The ['damage'] entry of an ability in a breakdown. *)
Definition damage_entry (ability : string) (bd : Breakdown) : option Q :=
  match dict_get ability bd with
  | Some inner => dict_get "damage" inner
  | None => None
  end.

(** What [run] overwrites before it reads it: the state with these
    attributes cleared. *)
Definition leftovers_cleared (s : Sim) : Sim :=
  s |> set_mangle_debuff false |> set_rip_debuff false
    |> set_rake_debuff false |> set_lacerate_debuff false
    |> (fun s => set_params (set_tigers_fury false (params s)) s)
    |> set_next_action 0 |> set_log false
    |> set_swing_timer 0 |> set_swing_times [] |> set_proc_end_times [].

(** The length of the fight and the trinket list, and the property that
    the length is [fl] and the list holds no trinket object of the
    caller. *)
Definition fight_view (s : Sim) : Q * list Trinket :=
  (fight_length s, trinkets s).

Definition fight_of (fl : Q) (v : Q * list Trinket) : Prop :=
  v.1 = fl /\ own_trinkets v.2.

(** No trinket object procs on periodic damage only. *)
Definition no_periodic_trinkets : Prop :=
  forall i s, trinket_periodic_only i s = false.

End Casts.

(** ** Haste buffs and stat weights *)

Section HasteBuff.
Context `{C : Collab}.

(** [sim_utils.calc_haste_rating(swing_timer, multiplier, cat_form)] and
    [sim_utils.calc_swing_timer(haste_rating, multiplier, cat_form)]. *)
Variable calc_haste_rating : Q -> Q -> bool -> Q.
Variable calc_swing_timer : Q -> Q -> bool -> Q.

Definition apply_haste_buff (time haste_rating_increment : Q) : M unit :=
  new_swing_timer <- gets (fun s =>
    calc_swing_timer
      (calc_haste_rating (swing_timer s) (haste_multiplier s)
                         (cat_form (pext (player s)))
       + haste_rating_increment)
      (haste_multiplier s) (cat_form (pext (player s))));;
  update_swing_times time new_swing_timer false.

End HasteBuff.

(** [calc_stat_weights], on the attribute dictionary of the player like
    [calc_deriv].  A ['1 AP'] delta of zero, by which the weights are
    divided, is outside the model. *)
Section AllStatWeights.

Variable replicates : nat -> gmap string Q -> gmap string Q * list Q.

(** [sim_utils.calc_haste_rating(swing_timer, multiplier=...)] and
    [sim_utils.calc_swing_timer(haste_rating, multiplier=...)]. *)
Variable calc_haste_rating : Q -> Q -> Q.
Variable calc_swing_timer : Q -> Q -> Q.

(** [run_replicates] never assigns the attribute [a] of the player. *)
Definition leaves_alone (a : string) : Prop :=
  forall n (q : gmap string Q), (replicates n q).1 !! a = q !! a.

(** [1 - 2 * int(c)]. *)
Definition sign_of (c : bool) : Q := 1 - 2 * b2q c.

(** The loop that normalizes the deltas by the ['1 AP'] delta. *)
Definition normalize (dps_deltas : Dict Q) : Result (Dict Q) :=
  match dict_get "1 AP" dps_deltas with
  | None => Raise KeyError
  | Some ap_delta =>
      Ok (map (fun entry : string * Q => (entry.1, entry.2 / ap_delta))
              (List.filter
                 (fun entry : string * Q => negb (String.eqb entry.1 "1 AP"))
                 dps_deltas))
  end.

Definition calc_stat_weights (num_replicates : nat) (base_dps : option Q)
    (agi_mod haste_multiplier_v : Q) (player : gmap string Q)
    : Result (Dict Q * Dict Q * gmap string Q) :=
  (* First store base DPS and deltas after each stat increment *)
  let '(player, base_dps) :=
    match base_dps with
    | Some b => (player, b)
    | None =>
        let '(player, dps_vals_v) := replicates num_replicates player in
        (player, mean dps_vals_v)
    end in
  let deriv := calc_deriv replicates num_replicates in
  (* For AP, an increment of +80 AP scaled by the player's modifier *)
  and_then (attr "ap_mod" player) (fun ap_mod =>
  and_then (deriv "attack_power" (80 * ap_mod) base_dps player)
    (fun '(d, player) =>
  let dps_deltas := [("1 AP"%string, 1 / 80 * d)] in
  (* For hit, reduce miss chance by 2% if well below hit cap, and increase
     it by 2% when already capped or close. *)
  and_then (attr "miss_chance" player) (fun miss =>
  and_then (attr "dodge_chance" player) (fun dodge =>
  let sign := sign_of (Qgtb (miss - dodge) 0.02) in
  and_then (deriv "miss_chance" (sign * 0.02) base_dps player)
    (fun '(d, player) =>
  let dps_deltas := dps_deltas ++ [("1% hit"%string, -0.5 * sign * d)] in
  (* For expertise, we mimic hit, except with dodge. *)
  and_then (attr "dodge_chance" player) (fun dodge =>
  let sign := sign_of (Qgtb dodge 0.02) in
  and_then (deriv "dodge_chance" (sign * 0.02) base_dps player)
    (fun '(d, player) =>
  let dps_deltas :=
    dps_deltas ++ [("1% expertise"%string, -0.5 * sign * d)] in
  (* Crit is a simple increment *)
  and_then (deriv "crit_chance" 0.02 base_dps player) (fun '(d, player) =>
  let dps_deltas := dps_deltas ++ [("1% crit"%string, 0.5 * d)] in
  (* For haste, an increment of 4% by reducing the player swing timer *)
  and_then (attr "swing_timer" player) (fun swing_timer_v =>
  let base_haste_rating :=
    calc_haste_rating swing_timer_v haste_multiplier_v in
  let swing_delta :=
    swing_timer_v
    - calc_swing_timer (base_haste_rating + 100.84) haste_multiplier_v in
  and_then (deriv "swing_timer" (- swing_delta) base_dps player)
    (fun '(d, player) =>
  let dps_deltas := dps_deltas ++ [("1% haste"%string, 0.25 * d)] in
  (* Due to bearweaving, separate Agility weight calculation is needed *)
  and_then (deriv "agility" (40 * agi_mod) base_dps player)
    (fun '(d, player) =>
  let dps_deltas := dps_deltas ++ [("1 Agility"%string, 1 / 40 * d)] in
  (* For armor pen, an increment of 50 Rating whose sign depends on the
     1400 cap. *)
  and_then (attr "armor_pen_rating" player) (fun arp =>
  let sign := sign_of (Qgtb arp 1350) in
  and_then (deriv "armor_pen_rating" (sign * 50) base_dps player)
    (fun '(d, player) =>
  let dps_deltas :=
    dps_deltas ++ [("1 Armor Pen Rating"%string, 1 / 50 * sign * d)] in
  (* For weapon damage, we use an increment of 12 *)
  and_then (deriv "bonus_damage" 12 base_dps player) (fun '(d, player) =>
  let dps_deltas :=
    dps_deltas ++ [("1 Weapon Damage"%string, 1 / 12 * d)] in
  (* Calculate normalized stat weights *)
  and_then (normalize dps_deltas) (fun stat_weights =>
  Ok (dps_deltas, stat_weights, player)))))))))))))))).

End AllStatWeights.

(** ** More concrete states *)

Section MoreExamples.

#[local] Existing Instance Mini.types.
#[local] Existing Instance Mini.collab.

(** A fight of 6.5 seconds: its swing schedule 0, 1, ..., 7 ends after
    the fight does. *)
Definition short_fight : Sim := set_fight_length 6.5 fresh_fight.

(** The strategy of a raid whose bear tank keeps Mangle up. *)
Definition tank_strategy : Strategy :=
  {| min_combos_for_rip := 5; use_rake := false; use_bite := true;
     bite_time := Some 8; min_combos_for_bite := 5; mangle_spam := false;
     bear_mangle := true; use_berserk := false; prepop_berserk := false;
     preproc_omen := false; bearweave := false; berserk_bite_thresh := 100;
     lacerate_prio := false; lacerate_time := 10; powerbear := false;
     min_roar_offset := 10 |}.

Definition tank_fight : Sim :=
  let 'Build_Sim x0 x1 x2 x3 x4 _ x6 x7 x8 x9 x10 x11 x12 x13 x14 x15 x16
    x17 x18 x19 x20 x21 x22 x23 x24 x25 x26 x27 x28 x29 x30 x31 x32 x33 x34
    x35 x36 x37 x38 x39 x40 x41 x42 := short_fight in
  Build_Sim x0 x1 x2 x3 x4 tank_strategy x6 x7 x8 x9 x10 x11 x12 x13 x14 x15
    x16 x17 x18 x19 x20 x21 x22 x23 x24 x25 x26 x27 x28 x29 x30 x31 x32 x33
    x34 x35 x36 x37 x38 x39 x40 x41 x42.


(** Five combo points and full Energy in a long fight. *)
Definition rip_ready : Sim := Mini.sim_with 300 (Mini.player_with 100 5).

(** A player about to leave cat form. *)
Definition shifting : Sim :=
  Mini.sim_with 300 (set_ready_to_shift true (Mini.player_with 100 0)).

(** Rake up since time 0, its ticks of times 6 and 9 to come. *)
Definition rake_up : Sim :=
  Mini.sim_with 300 (Mini.player_with 100 1)
  |> set_rake_debuff true
  |> set_rake_end 9
  |> set_rake_ticks [6; 9]
  |> set_rake_damage 30.

(** The last swing of the schedule, due at time 6. *)
Definition last_swing_due : Sim := set_swing_times [6] fresh_fight.

(** A simulation as the constructor leaves it for the default
    parameters. *)
Definition configured : Config.Simulation :=
  {| Config.cfg_player := Mini.player_with 100 0;
     Config.cfg_fight_length := 180;
     Config.cfg_latency := 0.1;
     Config.cfg_trinkets :=
       [TArmorDebuffs; TTracker RipTracker; TTracker RoarTracker];
     Config.cfg_params :=
       dict_set "sunder" (Config.PyInt 0) Config.default_params;
     Config.cfg_strategy := Config.default_strategy;
     Config.cfg_use_sunder := false;
     Config.cfg_haste_multiplier := 1;
     Config.cfg_revitalize_frequency := 15 / (8 * 1e-9) |}.

(** The numeric attributes that [calc_stat_weights] reads. *)
Definition all_attributes : gmap string Q :=
  {[ "agility"%string := 1000; "attack_power"%string := 5000;
     "ap_mod"%string := 1.1; "crit_chance"%string := 0.4;
     "dodge_chance"%string := 0.05; "miss_chance"%string := 0.08;
     "swing_timer"%string := 1; "armor_pen_rating"%string := 400;
     "bonus_damage"%string := 0 ]}.

(** Stand-ins for the two conversions of [sim_utils], inverse of each
    other: a haste rating of 25 is one percent of haste. *)
Definition rating_of_timer (swing_timer_v multiplier : Q) : Q :=
  2500 * (multiplier / swing_timer_v - 1).

Definition timer_of_rating (haste_rating multiplier : Q) : Q :=
  multiplier / (1 + haste_rating / 2500).

End MoreExamples.

(** ** The arithmetic of the program in binary64 *)

(** The embedding above reads the floats of the program as exact
    rationals.  Three computations of the source accumulate rounding
    errors that a property can see: the running uptime of a tracker, the
    running averages of [run_replicates], and the undoing of a stat
    increment in [calc_deriv].  They are given here a second time, from
    the same source lines, over the doubles of the machine (Rocq's
    primitive floats are IEEE 754 binary64 with rounding to nearest, the
    arithmetic of a Python [float]). *)
Module Binary64.
Import PrimFloat SpecFloat FloatOps.
#[local] Set Warnings "-inexact-float".

(** The rational number that a finite double stands for. *)
Definition exact (x : float) : option Q :=
  match Prim2SF x with
  | S754_zero _ => Some 0
  | S754_finite sign m e =>
      Some (inject_Z (if sign then Z.neg m else Z.pos m) * 2 ^ e)
  | S754_infinity _ | S754_nan => None
  end.

Fixpoint exact_all (xs : list float) : option (list Q) :=
  match xs with
  | [] => Some []
  | x :: rest =>
      match exact x, exact_all rest with
      | Some q, Some qs => Some (q :: qs)
      | _, _ => None
      end
  end.

(** A Python [int] in a float operation (exact below [2 ^ 53]). *)
Definition of_int (n : nat) : float := of_uint63 (Uint63.of_Z (Z.of_nat n)).

(** *** [UptimeTracker] *)

Record Tracker : Type := Build_Tracker {
  uptime : float;
  last_update : float;
  active : bool;
  num_procs : Z
}.

Definition reset : Tracker :=
  {| uptime := 0%float; last_update := 15%float; active := false;
     num_procs := 0 |}.

(** [update(time, player, sim)] of a subclass whose [is_active] returns
    the boolean [active_now], in a fight of length [fight_length]. *)
Definition update (time fight_length : float) (active_now : bool)
    (t : Tracker) : Tracker :=
  if ((last_update t <? time) && (time <? fight_length - 15))%float then
    let dt := (time - last_update t)%float in
    {| uptime := ((uptime t * (last_update t - 15)
                   + dt * (if active_now then 1 else 0))
                  / (time - 15))%float;
       last_update := time;
       active := active_now;
       num_procs := if active_now && negb (active t)
                    then (num_procs t + 1)%Z else num_procs t |}
  else t.

(** *** The running averages of [run_replicates] *)

(** [(avg * i + val) / (i + 1)]. *)
Definition avg_update (i : nat) (avg val : float) : float :=
  ((avg * of_int i + val) / of_int (i + 1))%float.

(** One entry of [cast_sum] or [aura_sum] through the loop, from pass
    [i] on. *)
Fixpoint average_from (i : nat) (avg : float) (vals : list float) : float :=
  match vals with
  | [] => avg
  | val :: rest => average_from (S i) (avg_update i avg val) rest
  end.

(** The entry after all the outputs: copied from the first one, updated
    with each of the others. *)
Definition running_average (vals : list float) : option float :=
  match vals with
  | [] => None
  | first :: rest => Some (average_from 1 first rest)
  end.

(** *** The stat increment of [calc_deriv] *)

Section StatIncrement.

(** What [run_replicates] leaves in the attributes of the player. *)
Variable replicates : nat -> gmap string float -> gmap string float.

(** [player.name += delta]. *)
Definition augment (name : string) (delta : gmap string float -> Result float)
    (player : gmap string float) : Result (gmap string float) :=
  match player !! name with
  | None => Raise AttributeError
  | Some v =>
      match delta player with
      | Raise e => Raise e
      | Ok d => Ok (<[name := (v + d)%float]> player)
      end
  end.

(** [player.name -= delta]. *)
Definition diminish (name : string)
    (delta : gmap string float -> Result float)
    (player : gmap string float) : Result (gmap string float) :=
  match player !! name with
  | None => Raise AttributeError
  | Some v =>
      match delta player with
      | Raise e => Raise e
      | Ok d => Ok (<[name := (v - d)%float]> player)
      end
  end.

Definition attr (name : string) (player : gmap string float) : Result float :=
  match player !! name with
  | None => Raise AttributeError
  | Some v => Ok v
  end.

(** [self.player.ap_mod * increment]. *)
Definition ap_increment (increment : float) (player : gmap string float)
    : Result float :=
  match attr "ap_mod" player with
  | Ok v => Ok (v * increment)%float
  | Raise e => Raise e
  end.

(** The block [# Increment the stat] and the two that follow it. *)
Definition increment_stat (param : string) (increment : float)
    (player : gmap string float) : Result (float * gmap string float) :=
  and_then (attr param player) (fun original_value =>
  let player := <[param := (original_value + increment)%float]> player in
  and_then (if String.eqb param "dodge_chance"
            then augment "miss_chance" (fun _ => Ok increment) player
            else Ok player) (fun player =>
  and_then (if String.eqb param "agility"
            then and_then
                   (augment "attack_power" (ap_increment increment) player)
                   (augment "crit_chance"
                            (fun _ => Ok (increment / 83.33 / 100)%float))
            else Ok player) (fun player =>
  Ok (original_value, player)))).

(** The block [# Reset the stat to original value] and the two that
    follow it. *)
Definition restore_stat (param : string) (original_value increment : float)
    (player : gmap string float) : Result (gmap string float) :=
  let player := <[param := original_value]> player in
  and_then (if String.eqb param "dodge_chance"
            then diminish "miss_chance" (fun _ => Ok increment) player
            else Ok player) (fun player =>
  if String.eqb param "agility"
  then and_then
         (diminish "attack_power" (ap_increment increment) player)
         (diminish "crit_chance"
                   (fun _ => Ok (increment / 83.33 / 100)%float))
  else Ok player).

(** [calc_deriv], what it does to the player. *)
Definition calc_deriv_player (num_replicates : nat) (param : string)
    (increment : float) (player : gmap string float)
    : Result (gmap string float) :=
  and_then (increment_stat param increment player)
    (fun '(original_value, player) =>
  let player := replicates num_replicates player in
  restore_stat param original_value increment player).

End StatIncrement.

(** *** Concrete inputs *)

(** A tracker whose aura is up at the updates of times 15.1 and 31.2 in a
    fight of 60 seconds. *)
Definition aura_up_twice : Tracker :=
  update 31.2 60 true (update 15.1 60 true reset).

(** The values 0.0, 0.1 and 0.2 of one entry in three replicates. *)
Definition three_values : list float := [0; 0.1; 0.2]%float.

(** A player with 3% to be missed and 1% to be dodged, replicates that
    leave the player alone, and the increment of 2% that
    [calc_stat_weights] uses for expertise when [dodge_chance] is at most
    0.02. *)
Definition some_player : gmap string float :=
  {[ "dodge_chance"%string := 0.01%float;
     "miss_chance"%string := 0.03%float ]}.

Definition quiet (n : nat) (p : gmap string float) : gmap string float := p.

Definition two_percent : float := 0.02%float.

(** [x > 1] and [x == y] on doubles. *)
Definition above_one (x : float) : bool := (1 <? x)%float.

Definition same (x y : float) : bool := (x =? y)%float.

End Binary64.

(** * Properties *)

(** ** Comparisons *)

Lemma Qleb_le (x y : Q) : Qleb x y = true <-> x <= y.
Proof. unfold Qleb. apply Qle_bool_iff. Qed.

Lemma Qleb_gt (x y : Q) : Qleb x y = false <-> y < x.
Proof.
  unfold Qleb. split; intros H.
  - apply Qnot_le_lt. intros Hle. apply Qle_bool_iff in Hle. congruence.
  - destruct (Qle_bool x y) eqn:E; [|reflexivity].
    apply Qle_bool_iff in E. exfalso. apply (Qlt_not_le _ _ H E).
Qed.

Lemma Qltb_lt (x y : Q) : Qltb x y = true <-> x < y.
Proof.
  unfold Qltb. rewrite negb_true_iff. apply (Qleb_gt y x).
Qed.

Lemma Qltb_ge (x y : Q) : Qltb x y = false <-> y <= x.
Proof.
  unfold Qltb. rewrite negb_false_iff. apply (Qleb_le y x).
Qed.

Lemma Qgeb_ge (x y : Q) : Qgeb x y = true <-> y <= x.
Proof. apply (Qleb_le y x). Qed.

Lemma Qgeb_lt (x y : Q) : Qgeb x y = false <-> x < y.
Proof. apply (Qleb_gt y x). Qed.

Lemma Qgtb_gt (x y : Q) : Qgtb x y = true <-> y < x.
Proof. apply (Qltb_lt y x). Qed.

Lemma Qgtb_le (x y : Q) : Qgtb x y = false <-> x <= y.
Proof. apply (Qltb_ge y x). Qed.

Lemma b2q_range (b : bool) : 0 <= b2q b <= 1.
Proof. destruct b; simpl; split; lra. Qed.

(** ** Uptime trackers *)

Section TrackerProperties.
Context `{C : Collab}.

Lemma weighted_average_bounds (u w dt a : Q) :
  0 <= u <= 1 -> 0 <= w -> 0 < dt -> 0 <= a <= 1 ->
  0 <= (u * w + dt * a) / (w + dt) <= 1.
Proof.
  intros [Hu0 Hu1] Hw Hdt [Ha0 Ha1].
  assert (Hpos : 0 < w + dt) by lra.
  assert (H1 : 0 <= u * w) by (apply Qmult_le_0_compat; assumption).
  assert (H2 : 0 <= dt * a) by (apply Qmult_le_0_compat; lra).
  assert (H3 : u * w <= w).
  { apply Qle_trans with (1 * w); [|rewrite Qmult_1_l; apply Qle_refl].
    apply Qmult_le_compat_r; assumption. }
  assert (H4 : dt * a <= dt).
  { apply Qle_trans with (1 * dt); [|rewrite Qmult_1_l; apply Qle_refl].
    rewrite (Qmult_comm dt a). apply Qmult_le_compat_r; lra. }
  split.
  - apply Qle_shift_div_l; [assumption | lra].
  - apply Qle_shift_div_r; [assumption | lra].
Qed.

Lemma update_tracker_ok (k : TrackerKind) (time : Q) (s : Sim)
    (t t' : Tracker) :
  tracker_ok t -> UptimeTracker.update_tracker k time s t = Ok t' ->
  tracker_ok t'.
Proof.
  intros [HL Hu] Hup. unfold UptimeTracker.update_tracker in Hup.
  destruct (Qgtb time (last_update t) && Qltb time (fight_length s - 15))
    eqn:Hguard.
  - apply andb_true_iff in Hguard as [Hgt _]. apply Qgtb_gt in Hgt.
    destruct (UptimeTracker.is_active k s) as [b|msg]; [|discriminate].
    injection Hup as <-. unfold tracker_ok; simpl. split; [lra|].
    assert (Heq : time - 15 == (last_update t - 15) + (time - last_update t))
      by ring.
    rewrite Heq.
    apply weighted_average_bounds; try lra. apply b2q_range.
  - injection Hup as <-. split; assumption.
Qed.

Lemma apply_call_ok (k : TrackerKind) (t : Tracker) (c : Call) :
  tracker_ok t -> tracker_ok (apply_call k t c).
Proof.
  intros Hok. destruct c as [time s| |]; simpl.
  - destruct (UptimeTracker.update_tracker k time s t) eqn:E; [|assumption].
    eapply update_tracker_ok; eassumption.
  - destruct t; assumption.
  - unfold tracker_ok; simpl. split; lra.
Qed.

Lemma fold_calls_ok (k : TrackerKind) (calls : list Call) (t : Tracker) :
  tracker_ok t -> tracker_ok (fold_left (apply_call k) calls t).
Proof.
  revert t. induction calls as [|c calls IH]; intros t Hok; simpl.
  - assumption.
  - apply IH, apply_call_ok, Hok.
Qed.

Lemma apply_call_idle (k : TrackerKind) (t : Tracker) (c : Call) :
  (forall time s, c = CallUpdate time s -> in_window time s ->
                  UptimeTracker.is_active k s <> ActiveBool true) ->
  tracker_idle t -> tracker_idle (apply_call k t c).
Proof.
  intros Hnever (HL & Hu & Hn & Ha).
  destruct c as [time s| |]; simpl.
  - unfold UptimeTracker.update_tracker.
    destruct (Qgtb time (last_update t) && Qltb time (fight_length s - 15))
      eqn:Hguard; [|repeat split; assumption].
    apply andb_true_iff in Hguard as [Hgt Hlt].
    apply Qgtb_gt in Hgt. apply Qltb_lt in Hlt.
    specialize (Hnever time s eq_refl).
    destruct (UptimeTracker.is_active k s) as [[|]|msg].
    + exfalso. apply Hnever; [split; lra | reflexivity].
    + unfold tracker_idle; simpl. rewrite Hu.
      repeat split; try assumption; [lra|].
      unfold Qdiv. ring.
    + repeat split; assumption.
  - destruct t; repeat split; assumption.
  - unfold tracker_idle; simpl. repeat split; lra.
Qed.

Lemma fold_calls_idle (k : TrackerKind) (calls : list Call) (t : Tracker) :
  (forall time s, In (CallUpdate time s) calls -> in_window time s ->
                  UptimeTracker.is_active k s <> ActiveBool true) ->
  tracker_idle t -> tracker_idle (fold_left (apply_call k) calls t).
Proof.
  revert t. induction calls as [|c calls IH]; intros t Hnever Hidle; simpl.
  - assumption.
  - apply IH.
    + intros time s Hin. apply Hnever. right. assumption.
    + apply apply_call_idle; [|assumption].
      intros time s -> . apply Hnever. left. reflexivity.
Qed.

(** C9, as the code has it.  In exact arithmetic, whatever calls a
    tracker of any kind receives after its creation ([update] at any times
    and in any states of the simulation, [deactivate], [reset]), its uptime
    stays in [[0, 1]]; and if no [update] inside the trimmed window (after
    the first and before the last 15 seconds) finds the aura active, the
    tracker reports uptime 0 and no procs.  The program computes the
    average in binary64, where it can exceed 1 by rounding
    ([uptime_exceeds_one]). *)
Theorem uptime_tracker_invariant (k : TrackerKind) (calls : list Call) :
  (0 <= uptime (apply_calls k calls) <= 1)
  /\ ((forall time s, In (CallUpdate time s) calls -> in_window time s ->
                      UptimeTracker.is_active k s <> ActiveBool true) ->
      uptime (apply_calls k calls) == 0
      /\ num_procs (apply_calls k calls) = 0%Z).
Proof.
  split.
  - apply (fold_calls_ok k calls UptimeTracker.reset).
    unfold tracker_ok; simpl. split; lra.
  - intros Hnever.
    destruct (fold_calls_idle k calls UptimeTracker.reset Hnever)
      as (_ & Hu & Hn & _).
    + unfold tracker_idle; simpl. repeat split; lra.
    + split; assumption.
Qed.

End TrackerProperties.

Section TrackerKinds.
Context `{C : Collab}.

(** C2, as the code has it.  No kind of tracker is rejected when it is
    constructed.  For the two kinds that [Simulation.__init__] creates,
    [RipTracker] and [RoarTracker], [is_active] returns a boolean, and
    [update] does not raise on accumulators whose [last_update] is at
    least 15, whatever the time and the state of the simulation: [reset]
    leaves them so, [update] keeps them so, and whenever [update]
    recomputes the average its divisor [time - 15] is positive. *)
Theorem implemented_trackers_update (k : TrackerKind) (time : Q) (s : Sim)
    (t : Tracker) :
  15 <= last_update t ->
  UptimeTracker.init k = Ok UptimeTracker.reset
  /\ 15 <= last_update UptimeTracker.reset
  /\ (k <> BaseTracker ->
      (exists b, UptimeTracker.is_active k s = ActiveBool b)
      /\ (exists t',
            UptimeTracker.update_tracker k time s t = Ok t'
            /\ 15 <= last_update t')
      /\ (Qgtb time (last_update t) && Qltb time (fight_length s - 15) = true ->
          0 < time - 15)).
Proof.
  intros Hlast. split; [reflexivity|]. split; [simpl; lra|].
  intros Hk.
  assert (Hdiv : Qgtb time (last_update t)
                 && Qltb time (fight_length s - 15) = true ->
                 0 < time - 15).
  { intros Hguard. apply andb_true_iff in Hguard as [Hgt _].
    apply Qgtb_gt in Hgt. lra. }
  unfold UptimeTracker.update_tracker.
  destruct k; [congruence| |]; simpl.
  - split; [eauto|]. split; [|exact Hdiv].
    destruct (Qgtb time (last_update t) && Qltb time (fight_length s - 15))
      eqn:Hguard; eexists; (split; [reflexivity|]); [|exact Hlast].
    simpl. specialize (Hdiv eq_refl). lra.
  - split; [eauto|]. split; [|exact Hdiv].
    destruct (Qgtb time (last_update t) && Qltb time (fight_length s - 15))
      eqn:Hguard; eexists; (split; [reflexivity|]); [|exact Hlast].
    simpl. specialize (Hdiv eq_refl). lra.
Qed.

End TrackerKinds.

(** ** Aura bookkeeping *)

Section Auras.
Context `{C : Collab}.



(** The values of [np.arange] with a positive step: the points
    [start + i * step] below [stop], all of them. *)
Lemma arange_cadence (start stop step : Q) :
  arange start stop step
  = map (fun i : nat => start + inject_Z (Z.of_nat i) * step)
        (seq 0 (length (arange start stop step))).
Proof. unfold arange. rewrite length_map, length_seq. reflexivity. Qed.

Lemma arange_below_stop (start stop step : Q) :
  0 < step -> Forall (fun x => x < stop) (arange start stop step).
Proof.
  intros Hstep. unfold arange. apply List.Forall_forall. intros x Hin.
  apply in_map_iff in Hin as [i [<- Hi]]. apply in_seq in Hi as [_ Hi].
  simpl in Hi.
  set (c := Qceiling ((stop - start) / step)) in *.
  assert (Hic : (Z.of_nat i <= c - 1)%Z) by lia.
  assert (Hq : inject_Z (Z.of_nat i) < (stop - start) / step).
  { apply Qle_lt_trans with (inject_Z (c - 1)).
    - rewrite <- Zle_Qle. exact Hic.
    - apply Qceiling_lt. }
  apply (Qmult_lt_compat_r _ _ step) in Hq; [|assumption].
  assert (Hdiv : (stop - start) / step * step == stop - start)
    by (field; lra).
  rewrite Hdiv in Hq. lra.
Qed.

Lemma arange_complete (start stop step : Q) :
  0 < step ->
  stop <= start + inject_Z (Z.of_nat (length (arange start stop step))) * step.
Proof.
  intros Hstep. unfold arange. rewrite length_map, length_seq.
  set (c := Qceiling ((stop - start) / step)).
  assert (Hc : (c <= Z.of_nat (Z.to_nat c))%Z) by lia.
  assert (Hq : (stop - start) / step <= inject_Z (Z.of_nat (Z.to_nat c))).
  { apply Qle_trans with (inject_Z c).
    - apply Qle_ceiling.
    - rewrite <- Zle_Qle. exact Hc. }
  apply (Qmult_le_compat_r _ _ step) in Hq; [|lra].
  assert (Hdiv : (stop - start) / step * step == stop - start)
    by (field; lra).
  rewrite Hdiv in Hq. lra.
Qed.

(** C3.  A Lacerate that lands on an already active Lacerate keeps the tick
    cadence: the ticks already scheduled stay, and the new ones follow the
    last scheduled tick (or, when none is left, the last executed tick) at
    3 second intervals, all the cadence points below the new expiry
    [time + 15] (with its tolerance); the stack counter grows by one, up to
    5.  With 2 stacks and the tick of time 12 scheduled, a refresh at time
    13 gives the ticks 12, 15, 18, 21, 24, 27 and 3 stacks.  Whatever the
    outcome of the cast, a stack counter that is at most 5 stays at most
    5, and after a cast that lands it is at most 5. *)
Theorem lacerate_refresh_keeps_cadence (time : Q) (s : Sim) :
  let cast := player_lacerate (mangle_debuff s) (player s) (rng s) in
  let last_tick :=
    match lacerate_ticks s with
    | [] => last_lacerate_tick s
    | _ :: _ => List.last (lacerate_ticks s) 0
    end in
  exists s',
    lacerate time s = Ok (cast.1.1.1, s')
    /\ ((lacerate_stacks s <= 5)%Z -> (lacerate_stacks s' <= 5)%Z)
    /\ (cast.1.1.2 = true ->
        (lacerate_stacks s' <= 5)%Z
        /\ lacerate_debuff s' = true
        /\ lacerate_end s' = time + 15
        /\ (lacerate_debuff s = true ->
            (exists new_ticks,
               lacerate_ticks s' = lacerate_ticks s ++ new_ticks
               /\ new_ticks
                  = map (fun i : nat =>
                           last_tick + 3 + inject_Z (Z.of_nat i) * 3)
                        (seq 0 (length new_ticks))
               /\ Forall (fun x => x < time + 15 + eps) new_ticks
               /\ time + 15 + eps
                  <= last_tick + 3
                     + inject_Z (Z.of_nat (length new_ticks)) * 3)
            /\ lacerate_stacks s' = Z.min (lacerate_stacks s + 1) 5
            /\ (lacerate_stacks s = 2%Z -> lacerate_ticks s = [12] ->
                time == 13 ->
                Forall2 Qeq (lacerate_ticks s') [12; 15; 18; 21; 24; 27]
                /\ lacerate_stacks s' = 3%Z))).
Proof.
  intros cast last_tick.
  unfold lacerate, bind, gets, call_player, ifS, modify, ret.
  fold cast. destruct cast as [[[dmg success] p'] g'] eqn:Hcast.
  destruct s; simpl in *.
  destruct success; simpl.
  2: { eexists. split; [reflexivity|]. simpl.
       split; [auto | discriminate]. }
  destruct lacerate_debuff0 eqn:Hactive; simpl.
  - eexists. split; [reflexivity|]. simpl.
    split; [lia|]. intros _. split; [lia|].
    split; [reflexivity|]. split; [reflexivity|]. intros _.
    split.
    { eexists. split; [reflexivity|]. split; [apply arange_cadence|].
      split; [apply arange_below_stop; reflexivity|].
      apply arange_complete; reflexivity. }
    split; [reflexivity|].
    intros Hstacks Hticks Htime. subst. split; [|reflexivity].
    simpl in last_tick. subst last_tick. simpl.
    unfold arange.
    assert (Hn : Qceiling ((time + 15 + eps - (12 + 3)) / 3) = 5%Z).
    { rewrite Htime. reflexivity. }
    rewrite Hn. simpl.
    repeat constructor; reflexivity.
  - eexists. split; [reflexivity|]. simpl.
    split; [lia|]. intros _. split; [lia|].
    split; [reflexivity|]. split; [reflexivity|]. discriminate.
Qed.

End Auras.

(** ** Running averages *)

Lemma sumQ_snoc (l : list Q) (x : Q) : sumQ (l ++ [x]) = sumQ l + x.
Proof. unfold sumQ. rewrite fold_left_app. reflexivity. Qed.

Lemma all_values_snoc (f : IterOutput -> option Q) (outputs : list IterOutput)
    (o : IterOutput) (xs : list Q) (x : Q) :
  all_values f outputs = Some xs -> f o = Some x ->
  all_values f (outputs ++ [o]) = Some (xs ++ [x]).
Proof.
  revert xs. induction outputs as [|o' outputs IH]; intros xs Hall Hx; simpl in *.
  - injection Hall as <-. rewrite Hx. reflexivity.
  - destruct (f o') as [x'|]; [|discriminate].
    destruct (all_values f outputs) as [xs'|]; [|discriminate].
    injection Hall as <-. rewrite (IH xs' eq_refl Hx). reflexivity.
Qed.

Lemma all_values_length (f : IterOutput -> option Q)
    (outputs : list IterOutput) (xs : list Q) :
  all_values f outputs = Some xs -> length xs = length outputs.
Proof.
  revert xs. induction outputs as [|o outputs IH]; intros xs Hall; simpl in *.
  - injection Hall as <-. reflexivity.
  - destruct (f o); [|discriminate].
    destruct (all_values f outputs) as [xs'|]; [|discriminate].
    injection Hall as <-. simpl. f_equal. apply IH. reflexivity.
Qed.

(** One step of the running average turns the mean of [i] values into the
    mean of [i + 1] values. *)
Lemma avg_update_mean (xs : list Q) (avg val : Q) :
  xs <> [] -> avg == mean xs ->
  avg_update (length xs) avg val == mean (xs ++ [val]).
Proof.
  intros Hne Havg. unfold avg_update, mean.
  rewrite sumQ_snoc, length_app. simpl length.
  rewrite Havg.
  assert (Hlen : (0 < Z.of_nat (length xs))%Z).
  { destruct xs; [congruence | simpl; lia]. }
  assert (Hpos : 0 < inject_Z (Z.of_nat (length xs))).
  { change 0 with (inject_Z 0). rewrite <- Zlt_Qlt. exact Hlen. }
  replace (Z.of_nat (length xs + 1)) with (Z.of_nat (length xs) + 1)%Z by lia.
  rewrite inject_Z_plus.
  change (inject_Z 1) with 1. unfold mean.
  field. split; lra.
Qed.

Lemma mean_singleton (x : Q) : mean [x] == x.
Proof. unfold mean, sumQ. simpl. field. Qed.

Lemma merge_keys_spec (i : nat) (ability : string) (inner inner' : Dict Q)
    (new : Breakdown) :
  merge_keys i ability inner new = Ok inner' ->
  map fst inner' = map fst inner
  /\ forall key avg',
       dict_get key inner' = Some avg' ->
       exists avg val,
         dict_get key inner = Some avg
         /\ cast_value ability key (0, new, [], 0) = Some val
         /\ avg' = avg_update i avg val.
Proof.
  revert inner'. induction inner as [|[k avg] rest IH]; intros inner' H;
    simpl in H.
  - injection H as <-. split; [reflexivity|]. intros key avg' Hget.
    discriminate.
  - destruct (dict_get ability new) as [d|] eqn:Hd; [|discriminate].
    destruct (dict_get k d) as [val|] eqn:Hval; [|discriminate].
    destruct (merge_keys i ability rest new) as [rest'|] eqn:Hrest;
      [|discriminate].
    injection H as <-. destruct (IH rest' eq_refl) as [Hkeys Hvals].
    split; [simpl; f_equal; assumption|].
    intros key avg' Hget. simpl in Hget |- *.
    destruct (String.eqb key k) eqn:Hk.
    + injection Hget as <-. apply String.eqb_eq in Hk. subst key.
      exists avg, val. unfold cast_value; simpl. rewrite Hd.
      repeat split; [assumption].
    + apply Hvals. assumption.
Qed.

Lemma merge_casts_spec (i : nat) (cast_sum cast_sum' new : Breakdown) :
  merge_casts i cast_sum new = Ok cast_sum' ->
  same_keys cast_sum' cast_sum
  /\ forall ability inner',
       dict_get ability cast_sum' = Some inner' ->
       exists inner,
         dict_get ability cast_sum = Some inner
         /\ merge_keys i ability inner new = Ok inner'.
Proof.
  revert cast_sum'. induction cast_sum as [|[a inner] rest IH];
    intros cast_sum' H; simpl in H.
  - injection H as <-. split; [constructor|]. intros ability inner' Hget.
    discriminate.
  - destruct (merge_keys i a inner new) as [inner1|] eqn:Hinner;
      [|discriminate].
    destruct (merge_casts i rest new) as [rest'|] eqn:Hrest; [|discriminate].
    injection H as <-. destruct (IH rest' eq_refl) as [Hkeys Hvals].
    split.
    { constructor; [|assumption]. simpl. split; [reflexivity|].
      apply (merge_keys_spec _ _ _ _ _ Hinner). }
    intros ability inner' Hget. simpl in Hget |- *.
    destruct (String.eqb ability a) eqn:Ha.
    + injection Hget as <-. apply String.eqb_eq in Ha. subst ability.
      exists inner. split; [reflexivity | assumption].
    + apply Hvals. assumption.
Qed.

Lemma merge_auras_spec (i : nat) (aura_sum aura_sum' new : list AuraStat) :
  merge_auras i aura_sum new = Ok aura_sum' ->
  length aura_sum' = length aura_sum
  /\ forall row name procs' up',
       nth_error aura_sum' row = Some (name, procs', up') ->
       exists procs up name1 procs1 up1,
         nth_error aura_sum row = Some (name, procs, up)
         /\ nth_error new row = Some (name1, procs1, up1)
         /\ procs' = avg_update i procs procs1
         /\ up' = avg_update i up up1.
Proof.
  revert aura_sum' new.
  induction aura_sum as [|[[nm procs] up] rest IH]; intros aura_sum' new H;
    simpl in H.
  - injection H as <-. split; [reflexivity|].
    intros row name procs' up' Hnth. destruct row; discriminate.
  - destruct new as [|[[nm1 procs1] up1] new_rest]; [discriminate|].
    destruct (merge_auras i rest new_rest) as [rest'|] eqn:Hrest;
      [|discriminate].
    injection H as <-. destruct (IH rest' new_rest Hrest) as [Hlen Hvals].
    split; [simpl; f_equal; assumption|].
    intros row name procs' up' Hnth. destruct row as [|row]; simpl in *.
    + injection Hnth as <- <- <-.
      exists procs, up, nm1, procs1, up1. repeat split; reflexivity.
    + apply Hvals. assumption.
Qed.

Lemma same_keys_refl (b : Breakdown) : same_keys b b.
Proof.
  induction b as [|x b IH]; constructor; [split; reflexivity | assumption].
Qed.

Lemma same_keys_trans (b1 b2 b3 : Breakdown) :
  same_keys b1 b2 -> same_keys b2 b3 -> same_keys b1 b3.
Proof.
  intros H12. revert b3. induction H12 as [|x y b1 b2 [Hf Hk] _ IH];
    intros b3 H23; inversion H23 as [|y' z b2' b3' [Hf' Hk'] Hrest]; subst.
  - constructor.
  - constructor; [split; congruence | apply IH; assumption].
Qed.

Lemma same_keys_In (b1 b2 : Breakdown) (ability : string) (inner : Dict Q)
    (key : string) (avg : Q) :
  same_keys b1 b2 -> In (ability, inner) b1 -> In (key, avg) inner ->
  exists inner2 avg2, In (ability, inner2) b2 /\ In (key, avg2) inner2.
Proof.
  intros Hsame. induction Hsame as [|x y b1 b2 [Hf Hk] _ IH];
    intros Hin Hkey; [contradiction|].
  destruct Hin as [-> | Hin].
  - simpl in Hf, Hk. destruct y as [a2 inner2]; simpl in *. subst a2.
    assert (Hk2 : In key (map fst inner2)).
    { rewrite <- Hk. apply (in_map fst inner (key, avg)), Hkey. }
    apply in_map_iff in Hk2 as [[key2 avg2] [Heq Hin2]]. simpl in Heq.
    subst key2. exists inner2, avg2. split; [left; reflexivity | assumption].
  - destruct (IH Hin Hkey) as (inner2 & avg2 & H1 & H2).
    exists inner2, avg2. split; [right|]; assumption.
Qed.

Lemma consolidate_first (o : IterOutput) (acc : Consolidation) :
  consolidate_one true
    {| loop_i := O; dps_vals := []; sums := None; oom_times := [] |} o
  = Ok acc ->
  consolidated [o] o acc.
Proof.
  destruct o as [[[avg_dps dmg] aura] oom]. simpl. intros H.
  injection H as <-. split; [reflexivity|].
  exists dmg, aura. simpl.
  split; [reflexivity|]. split; [apply same_keys_refl|].
  split.
  { intros ability inner key avg Hget Hkey. exists [avg].
    unfold cast_value; simpl. rewrite Hget, Hkey.
    split; [reflexivity|]. symmetry. apply mean_singleton. }
  split; [reflexivity|].
  intros row name procs up Hnth. exists [procs], [up].
  unfold aura_procs, aura_uptime; simpl. rewrite Hnth.
  repeat split; try reflexivity; symmetry; apply mean_singleton.
Qed.

Lemma consolidate_step (done : list IterOutput) (first o : IterOutput)
    (acc acc' : Consolidation) :
  done <> [] -> consolidated done first acc ->
  consolidate_one true acc o = Ok acc' ->
  consolidated (done ++ [o]) first acc'.
Proof.
  intros Hne (Hi & cs & aus & Hsums & Hkeys & Hcast & Hlen & Haura) H.
  destruct o as [[[avg_dps dmg] aura] oom]. unfold consolidate_one in H.
  simpl in H. rewrite Hsums in H.
  destruct (loop_i acc) as [|i'] eqn:Hloop.
  { destruct done; [congruence | discriminate]. }
  destruct (merge_casts (S i') cs dmg) as [cs'|] eqn:Hmc; [|discriminate].
  destruct (merge_auras (S i') aus aura) as [aus'|] eqn:Hma; [|discriminate].
  injection H as <-.
  destruct (merge_casts_spec _ _ _ _ Hmc) as [Hk' Hc'].
  destruct (merge_auras_spec _ _ _ _ Hma) as [Hl' Ha'].
  split; [simpl; rewrite length_app, <- Hi; simpl; lia|].
  exists cs', aus'. simpl.
  split; [reflexivity|].
  split; [eapply same_keys_trans; eassumption|].
  split.
  { intros ability inner' key avg' Hget Hkey.
    destruct (Hc' ability inner' Hget) as (inner & Hget0 & Hmk).
    destruct (merge_keys_spec _ _ _ _ _ Hmk) as [_ Hv].
    destruct (Hv key avg' Hkey) as (avg & val & Hkey0 & Hval & ->).
    destruct (Hcast ability inner key avg Hget0 Hkey0) as (xs & Hxs & Havg).
    exists (xs ++ [val]). split.
    - apply all_values_snoc; assumption.
    - rewrite Hi, <- (all_values_length _ _ _ Hxs).
      apply avg_update_mean; [|assumption].
      intros ->. apply all_values_length in Hxs. destruct done; [congruence|].
      discriminate. }
  split; [congruence|].
  intros row name procs' up' Hnth.
  destruct (Ha' row name procs' up' Hnth)
    as (procs & up & name1 & procs1 & up1 & Hnth0 & Hnew & -> & ->).
  destruct (Haura row name procs up Hnth0) as (ps & us & Hps & Hus & Hp & Hu).
  exists (ps ++ [procs1]), (us ++ [up1]).
  assert (Hps_ne : ps <> []).
  { intros ->. apply all_values_length in Hps. destruct done; [congruence|].
    discriminate. }
  assert (Hus_ne : us <> []).
  { intros ->. apply all_values_length in Hus. destruct done; [congruence|].
    discriminate. }
  split; [apply all_values_snoc; [assumption|];
          unfold aura_procs; simpl; rewrite Hnew; reflexivity|].
  split; [apply all_values_snoc; [assumption|];
          unfold aura_uptime; simpl; rewrite Hnew; reflexivity|].
  split.
  - rewrite Hi, <- (all_values_length _ _ _ Hps).
    apply avg_update_mean; assumption.
  - rewrite Hi, <- (all_values_length _ _ _ Hus).
    apply avg_update_mean; assumption.
Qed.

Lemma consolidate_from_inv (rest done : list IterOutput) (first : IterOutput)
    (acc acc' : Consolidation) :
  done <> [] -> consolidated done first acc ->
  consolidate_from true acc rest = Ok acc' ->
  consolidated (done ++ rest) first acc'.
Proof.
  revert done acc. induction rest as [|o rest IH]; intros done acc Hne Hc H;
    simpl in H.
  - injection H as <-. rewrite app_nil_r. assumption.
  - destruct (consolidate_one true acc o) as [acc1|] eqn:Hone; [|discriminate].
    replace (done ++ o :: rest) with ((done ++ [o]) ++ rest)
      by (rewrite <- app_assoc; reflexivity).
    apply (IH (done ++ [o]) acc1).
    + intros Habs. apply app_eq_nil in Habs as [_ Habs]. discriminate.
    + eapply consolidate_step; eassumption.
    + assumption.
Qed.

(** Success of the merges when the new replicate has the entries. *)
Lemma merge_keys_total (i : nat) (ability : string) (inner : Dict Q)
    (new : Breakdown) :
  (forall key avg, In (key, avg) inner ->
                   cast_value ability key (0, new, [], 0) <> None) ->
  exists inner', merge_keys i ability inner new = Ok inner'.
Proof.
  induction inner as [|[k avg] rest IH]; intros Hall; simpl.
  - eauto.
  - pose proof (Hall k avg (or_introl eq_refl)) as Hk.
    unfold cast_value in Hk; simpl in Hk.
    destruct (dict_get ability new) as [d|]; [|congruence].
    destruct (dict_get k d) as [val|]; [|congruence].
    destruct IH as [rest' ->]; [|eauto].
    intros key avg' Hin. apply (Hall key avg'). right. assumption.
Qed.

Lemma dict_get_In {V : Type} (k : string) (v : V) (d : Dict V) :
  dict_get k d = Some v -> In (k, v) d.
Proof.
  induction d as [|[k' v'] rest IH]; simpl; [discriminate|].
  destruct (String.eqb k k') eqn:E.
  - intros H. injection H as <-. apply String.eqb_eq in E. subst. left.
    reflexivity.
  - intros H. right. apply IH, H.
Qed.

Lemma merge_casts_total (i : nat) (cast_sum new : Breakdown) :
  (forall ability inner key avg,
     In (ability, inner) cast_sum -> In (key, avg) inner ->
     cast_value ability key (0, new, [], 0) <> None) ->
  exists cast_sum', merge_casts i cast_sum new = Ok cast_sum'.
Proof.
  induction cast_sum as [|[a inner] rest IH]; intros Hall; simpl.
  - eauto.
  - destruct (merge_keys_total i a inner new) as [inner' ->].
    { intros key avg Hin. apply (Hall a inner key avg); [left|]; auto. }
    destruct IH as [rest' ->]; [|eauto].
    intros ability inner0 key avg Hin1 Hin2.
    apply (Hall ability inner0 key avg); [right|]; assumption.
Qed.

Lemma merge_auras_total (i : nat) (aura_sum new : list AuraStat) :
  (length aura_sum <= length new)%nat ->
  exists aura_sum', merge_auras i aura_sum new = Ok aura_sum'.
Proof.
  revert new. induction aura_sum as [|[[nm p] u] rest IH]; intros new Hlen;
    simpl.
  - eauto.
  - destruct new as [|[[nm1 p1] u1] new_rest]; [simpl in Hlen; lia|].
    destruct (IH new_rest) as [rest' ->]; [simpl in Hlen; lia|]. eauto.
Qed.

Lemma consolidate_from_total (rest done : list IterOutput)
    (first : IterOutput) (acc : Consolidation) :
  done <> [] -> consolidated done first acc ->
  (forall o, In o rest -> has_entries_of first o) ->
  exists acc', consolidate_from true acc rest = Ok acc'.
Proof.
  revert done acc. induction rest as [|o rest IH]; intros done acc Hne Hc Hall;
    simpl.
  - eauto.
  - assert (Hone : exists acc1, consolidate_one true acc o = Ok acc1).
    { destruct Hc as (Hi & cs & aus & Hsums & Hkeys & _ & Hlen & _).
      destruct (Hall o (or_introl eq_refl)) as [Hentries Hrows].
      destruct o as [[[avg_dps dmg] aura] oom].
      unfold consolidate_one; simpl. rewrite Hsums.
      destruct (loop_i acc) as [|i'] eqn:Hloop.
      { destruct done; [congruence | discriminate]. }
      destruct (merge_casts_total (S i') cs dmg) as [cs' ->].
      { intros ability inner key avg Hin Hkey.
        destruct (same_keys_In _ _ _ _ _ _ Hkeys Hin Hkey)
          as (inner2 & avg2 & Hin2 & Hkey2).
        apply (Hentries ability inner2 key avg2 Hin2 Hkey2). }
      destruct (merge_auras_total (S i') aus aura) as [aus' ->].
      { simpl in Hrows. lia. }
      eauto. }
    destruct Hone as [acc1 Hone]. rewrite Hone.
    apply (IH (done ++ [o]) acc1).
    + intros Habs. apply app_eq_nil in Habs as [_ Habs]. discriminate.
    + eapply consolidate_step; eassumption.
    + intros o' Hin. apply Hall. right. assumption.
Qed.

(** C8, as the code has it.  In exact arithmetic, with detailed output
    and [n >= 1] replicates, the consolidation loop of [run_replicates],
    which updates each entry by [avg := (avg * i + x) / (i + 1)], ends with
    the arithmetic mean of the [n] per-replicate values in every [casts]
    and [damage] entry of every ability and in the proc count and uptime of
    every aura; the entries are those of the first replicate.  The loop
    raises no error when every replicate has the entries of the first one.
    The program rounds every update to binary64, so its entries are the
    means up to rounding only ([running_average_rounds]). *)
Theorem running_average_exact (first : IterOutput) (rest : list IterOutput) :
  (forall acc,
     consolidate true (first :: rest) = Ok acc ->
     exists cast_sum aura_sum,
       sums acc = Some (cast_sum, aura_sum)
       /\ same_keys cast_sum first.1.1.2
       /\ (forall ability inner key avg,
             dict_get ability cast_sum = Some inner ->
             dict_get key inner = Some avg ->
             exists xs,
               all_values (cast_value ability key) (first :: rest) = Some xs
               /\ avg == mean xs)
       /\ length aura_sum = length first.1.2
       /\ (forall row name procs up,
             nth_error aura_sum row = Some (name, procs, up) ->
             exists ps us,
               all_values (aura_procs row) (first :: rest) = Some ps
               /\ all_values (aura_uptime row) (first :: rest) = Some us
               /\ procs == mean ps /\ up == mean us))
  /\ ((forall o, In o rest -> has_entries_of first o) ->
      exists acc, consolidate true (first :: rest) = Ok acc).
Proof.
  unfold consolidate. simpl.
  destruct (consolidate_one true
              {| loop_i := 0; dps_vals := []; sums := None; oom_times := [] |}
              first) as [acc1|e] eqn:Hfirst.
  2: { exfalso. destruct first as [[[avg_dps dmg] aura] oom]. discriminate. }
  pose proof (consolidate_first first acc1 Hfirst) as Hc.
  split.
  - intros acc H.
    assert (Hne : [first] <> []) by discriminate.
    destruct (consolidate_from_inv rest [first] first acc1 acc Hne Hc H)
      as (_ & cs & aus & Hsums & Hkeys & Hcast & Hlen & Haura).
    exists cs, aus. repeat split; assumption.
  - intros Hall.
    apply (consolidate_from_total rest [first] first acc1);
      [discriminate | assumption | assumption].
Qed.
(** ** Stat increments *)

Section StatIncrement.
Variable replicates : nat -> gmap string Q -> gmap string Q * list Q.

Lemma augment_lookup (name : string) (delta : gmap string Q -> Result Q)
    (p p' : gmap string Q) :
  augment name delta p = Ok p' ->
  exists v d, p !! name = Some v /\ delta p = Ok d
              /\ p' = <[name := v + d]> p.
Proof.
  unfold augment. destruct (p !! name) as [v|]; [|discriminate].
  destruct (delta p) as [d|]; [|discriminate].
  intros H. injection H as <-. eauto.
Qed.

Lemma increment_stat_spec (param : string) (increment original : Q)
    (p q : gmap string Q) :
  increment_stat param increment p = Ok (original, q) ->
  p !! param = Some original
  /\ (forall a, a <> param -> ~ coupled param a -> q !! a = p !! a)
  /\ (param = "dodge_chance"%string ->
      exists m, p !! "miss_chance"%string = Some m
                /\ q !! "miss_chance"%string = Some (m + increment))
  /\ (param = "agility"%string ->
      exists ap am cc,
        p !! "attack_power"%string = Some ap
        /\ p !! "ap_mod"%string = Some am
        /\ p !! "crit_chance"%string = Some cc
        /\ q !! "attack_power"%string = Some (ap + am * increment)
        /\ q !! "ap_mod"%string = Some am
        /\ q !! "crit_chance"%string = Some (cc + increment / 83.33 / 100)).
Proof.
  unfold increment_stat, and_then, attr.
  destruct (p !! param) as [v|] eqn:Hparam; [|discriminate].
  destruct (String.eqb param "dodge_chance") eqn:Hd.
  - apply String.eqb_eq in Hd. subst param. simpl.
    destruct (augment "miss_chance" _ _) as [p1|] eqn:Haug; [|discriminate].
    intros H. injection H as <- <-.
    apply augment_lookup in Haug as (m & d & Hm & Hdelta & ->).
    injection Hdelta as <-.
    rewrite lookup_insert_ne in Hm by discriminate.
    split; [reflexivity|]. split.
    { intros a Ha Hc. rewrite !lookup_insert_ne; [reflexivity|congruence|].
      intros <-. apply Hc. left. split; reflexivity. }
    split.
    { intros _. exists m. split; [assumption|]. apply lookup_insert_eq. }
    discriminate.
  - destruct (String.eqb param "agility") eqn:Ha.
    + apply String.eqb_eq in Ha. subst param. simpl.
      destruct (augment "attack_power" _ _) as [p1|] eqn:Haug1;
        [|discriminate].
      destruct (augment "crit_chance" _ _) as [p2|] eqn:Haug2; [|discriminate].
      intros H. injection H as <- <-.
      apply augment_lookup in Haug1 as (ap & d1 & Hap & Hd1 & ->).
      apply augment_lookup in Haug2 as (cc & d2 & Hcc & Hd2 & ->).
      injection Hd2 as <-.
      unfold times_attr, attr in Hd1.
      destruct (<["agility"%string:=v + increment]> p !! "ap_mod"%string)
        as [am|] eqn:Ham; [|discriminate].
      injection Hd1 as <-.
      rewrite lookup_insert_ne in Hap by discriminate.
      rewrite lookup_insert_ne in Ham by discriminate.
      rewrite !lookup_insert_ne in Hcc by discriminate.
      split; [reflexivity|]. split.
      { intros a Hne Hc. rewrite !lookup_insert_ne; [reflexivity|congruence| |].
        - intros <-. apply Hc. right. split; [reflexivity|left; reflexivity].
        - intros <-. apply Hc. right. split; [reflexivity|right; reflexivity]. }
      split; [discriminate|].
      intros _. exists ap, am, cc.
      repeat split; try assumption.
      * rewrite lookup_insert_ne by discriminate. apply lookup_insert_eq.
      * rewrite !lookup_insert_ne by discriminate. assumption.
      * apply lookup_insert_eq.
    + intros H. injection H as <- <-.
      apply String.eqb_neq in Hd, Ha.
      split; [reflexivity|]. split.
      { intros a Hne _. rewrite lookup_insert_ne; [reflexivity|congruence]. }
      split; intros ->; congruence.
Qed.

Lemma restore_stat_spec (param : string) (original increment : Q)
    (q p' : gmap string Q) :
  restore_stat param original increment q = Ok p' ->
  p' !! param = Some original
  /\ (forall a, a <> param -> ~ coupled param a -> p' !! a = q !! a)
  /\ (param = "dodge_chance"%string ->
      exists m, q !! "miss_chance"%string = Some m
                /\ p' !! "miss_chance"%string = Some (m - increment))
  /\ (param = "agility"%string ->
      exists ap am cc,
        q !! "attack_power"%string = Some ap
        /\ q !! "ap_mod"%string = Some am
        /\ q !! "crit_chance"%string = Some cc
        /\ p' !! "attack_power"%string = Some (ap - am * increment)
        /\ p' !! "crit_chance"%string = Some (cc - increment / 83.33 / 100)).
Proof.
  unfold restore_stat, and_then.
  destruct (String.eqb param "dodge_chance") eqn:Hd.
  - apply String.eqb_eq in Hd. subst param. simpl.
    destruct (augment "miss_chance" _ _) as [p1|] eqn:Haug; [|discriminate].
    intros H. injection H as <-.
    apply augment_lookup in Haug as (m & d & Hm & Hdelta & ->).
    injection Hdelta as <-.
    rewrite lookup_insert_ne in Hm by discriminate.
    split; [rewrite lookup_insert_ne by discriminate; apply lookup_insert_eq|].
    split.
    { intros a Ha Hc. rewrite !lookup_insert_ne; [reflexivity|congruence|].
      intros <-. apply Hc. left. split; reflexivity. }
    split.
    { intros _. exists m. split; [assumption|]. apply lookup_insert_eq. }
    discriminate.
  - destruct (String.eqb param "agility") eqn:Ha.
    + apply String.eqb_eq in Ha. subst param. simpl.
      destruct (augment "attack_power" _ _) as [p1|] eqn:Haug1;
        [|discriminate].
      intros Haug2.
      apply augment_lookup in Haug1 as (ap & d1 & Hap & Hd1 & ->).
      apply augment_lookup in Haug2 as (cc & d2 & Hcc & Hd2 & ->).
      injection Hd2 as <-.
      unfold and_then, times_attr, attr in Hd1.
      destruct (<["agility"%string:=original]> q !! "ap_mod"%string)
        as [am|] eqn:Ham; [|discriminate].
      injection Hd1 as <-.
      rewrite lookup_insert_ne in Hap by discriminate.
      rewrite lookup_insert_ne in Ham by discriminate.
      rewrite !lookup_insert_ne in Hcc by discriminate.
      split; [rewrite !lookup_insert_ne by discriminate;
              apply lookup_insert_eq|].
      split.
      { intros a Hne Hc. rewrite !lookup_insert_ne; [reflexivity|congruence| |].
        - intros <-. apply Hc. right. split; [reflexivity|left; reflexivity].
        - intros <-. apply Hc. right. split; [reflexivity|right; reflexivity]. }
      split; [discriminate|].
      intros _. exists ap, am, cc.
      repeat split; try assumption.
      * rewrite lookup_insert_ne by discriminate. apply lookup_insert_eq.
      * apply lookup_insert_eq.
    + intros H. injection H as <-.
      apply String.eqb_neq in Hd, Ha.
      split; [apply lookup_insert_eq|]. split.
      { intros a Hne _. rewrite lookup_insert_ne; [reflexivity|congruence]. }
      split; intros ->; congruence.
Qed.

Lemma increment_stat_total (param : string) (increment : Q)
    (p : gmap string Q) :
  has_attrs param p ->
  exists original q, increment_stat param increment p = Ok (original, q).
Proof.
  intros ([v Hv] & Hdodge & Hagi).
  unfold increment_stat, and_then, attr. rewrite Hv.
  destruct (String.eqb param "dodge_chance") eqn:Hd.
  - apply String.eqb_eq in Hd. subst param. simpl.
    destruct (Hdodge eq_refl) as [m Hm].
    unfold augment. rewrite lookup_insert_ne by discriminate. rewrite Hm.
    eauto.
  - destruct (String.eqb param "agility") eqn:Ha; [|eauto].
    apply String.eqb_eq in Ha. subst param. simpl.
    destruct (Hagi eq_refl) as ([ap Hap] & [am Ham] & [cc Hcc]).
    unfold augment, times_attr, attr.
    rewrite !lookup_insert_ne by discriminate. rewrite Hap, Ham.
    rewrite !lookup_insert_ne by discriminate. rewrite Hcc.
    eauto.
Qed.

Lemma restore_stat_total (param : string) (original increment : Q)
    (q : gmap string Q) :
  (param = "dodge_chance"%string -> is_Some (q !! "miss_chance"%string)) ->
  (param = "agility"%string ->
   is_Some (q !! "attack_power"%string)
   /\ is_Some (q !! "ap_mod"%string)
   /\ is_Some (q !! "crit_chance"%string)) ->
  exists p', restore_stat param original increment q = Ok p'.
Proof.
  intros Hdodge Hagi. unfold restore_stat, and_then.
  destruct (String.eqb param "dodge_chance") eqn:Hd.
  - apply String.eqb_eq in Hd. subst param. simpl.
    destruct (Hdodge eq_refl) as [m Hm].
    unfold augment. rewrite lookup_insert_ne by discriminate. rewrite Hm.
    eauto.
  - destruct (String.eqb param "agility") eqn:Ha; [|eauto].
    apply String.eqb_eq in Ha. subst param. simpl.
    destruct (Hagi eq_refl) as ([ap Hap] & [am Ham] & [cc Hcc]).
    unfold augment, times_attr, attr, and_then.
    rewrite !lookup_insert_ne by discriminate. rewrite Hap, Ham.
    rewrite !lookup_insert_ne by discriminate. rewrite Hcc.
    eauto.
Qed.

(** In exact arithmetic, and provided [run_replicates] does not itself
    assign [miss_chance], [attack_power], [crit_chance] or [ap_mod]: when
    [calc_deriv(num_replicates, param, increment, base_dps)] returns, the
    attribute [param] of the player has the value it had before the call,
    the attributes changed together with it ([miss_chance] for
    ['dodge_chance'], [attack_power] and [crit_chance] for ['agility']) are
    back to their values, and every other attribute is what
    [run_replicates] left, the increment and its undoing not touching it.
    The call returns whenever the player has the attributes it reads.  In
    binary64 the coupled attributes, undone by subtraction, are not back
    to their values ([coupled_attribute_drifts]). *)
Theorem calc_deriv_restores_player (num_replicates : nat) (param : string)
    (increment base_dps : Q) (p : gmap string Q) :
  keeps_coupled replicates ->
  (forall dps_delta p',
     calc_deriv replicates num_replicates param increment base_dps p
     = Ok (dps_delta, p') ->
     p' !! param = p !! param
     /\ (forall a, coupled param a -> same_value (p' !! a) (p !! a))
     /\ exists q,
          forall a, a <> param -> ~ coupled param a ->
                    q !! a = p !! a
                    /\ p' !! a = (replicates num_replicates q).1 !! a)
  /\ (has_attrs param p ->
      exists dps_delta p',
        calc_deriv replicates num_replicates param increment base_dps p
        = Ok (dps_delta, p')).
Proof.
  intros Hkeep. split.
  - intros dps_delta p' H. unfold calc_deriv, and_then in H.
    destruct (increment_stat param increment p) as [[original q]|] eqn:Hinc;
      [|discriminate].
    destruct (replicates num_replicates q) as [q' dps] eqn:Hrep.
    destruct (restore_stat param original increment q') as [p1|] eqn:Hres;
      [|discriminate].
    injection H as _ <-.
    destruct (increment_stat_spec _ _ _ _ _ Hinc)
      as (Hp & Hframe1 & Hdodge1 & Hagi1).
    destruct (restore_stat_spec _ _ _ _ _ Hres)
      as (Hp' & Hframe2 & Hdodge2 & Hagi2).
    assert (Hq' : forall a,
               In a ["miss_chance"; "attack_power"; "crit_chance";
                     "ap_mod"]%string -> q' !! a = q !! a).
    { intros a Ha. pose proof (Hkeep num_replicates q a Ha) as Hk.
      rewrite Hrep in Hk. exact Hk. }
    split; [congruence|]. split.
    + intros a [[-> ->] | [-> [-> | ->]]].
      * destruct (Hdodge1 eq_refl) as (m & Hm & Hqm).
        destruct (Hdodge2 eq_refl) as (m' & Hm' & Hpm).
        rewrite Hq' in Hm' by (simpl; tauto).
        rewrite Hqm in Hm'. injection Hm' as <-.
        rewrite Hpm, Hm. simpl. ring.
      * destruct (Hagi1 eq_refl) as (ap & am & cc & Hap & Ham & Hcc & Hqap
                                     & Hqam & Hqcc).
        destruct (Hagi2 eq_refl) as (ap' & am' & cc' & Hap' & Ham' & Hcc'
                                     & Hpap & Hpcc).
        rewrite Hq' in Hap', Ham' by (simpl; tauto).
        rewrite Hqap in Hap'. rewrite Hqam in Ham'.
        injection Hap' as <-. injection Ham' as <-.
        rewrite Hpap, Hap. simpl. ring.
      * destruct (Hagi1 eq_refl) as (ap & am & cc & Hap & Ham & Hcc & Hqap
                                     & Hqam & Hqcc).
        destruct (Hagi2 eq_refl) as (ap' & am' & cc' & Hap' & Ham' & Hcc'
                                     & Hpap & Hpcc).
        rewrite Hq' in Hcc' by (simpl; tauto).
        rewrite Hqcc in Hcc'. injection Hcc' as <-.
        rewrite Hpcc, Hcc. simpl. ring.
    + exists q. intros a Hne Hc. split; [apply Hframe1; assumption|].
      rewrite Hrep. simpl. apply Hframe2; assumption.
  - intros Hattrs.
    destruct (increment_stat_total param increment p Hattrs)
      as (original & q & Hinc).
    unfold calc_deriv, and_then. rewrite Hinc.
    destruct (replicates num_replicates q) as [q' dps] eqn:Hrep.
    destruct (increment_stat_spec _ _ _ _ _ Hinc)
      as (Hp & Hframe1 & Hdodge1 & Hagi1).
    assert (Hq' : forall a,
               In a ["miss_chance"; "attack_power"; "crit_chance";
                     "ap_mod"]%string -> q' !! a = q !! a).
    { intros a Ha. pose proof (Hkeep num_replicates q a Ha) as Hk.
      rewrite Hrep in Hk. exact Hk. }
    destruct (restore_stat_total param original increment q') as [p' ->].
    + intros Hd. destruct (Hdodge1 Hd) as (m & _ & Hqm).
      rewrite Hq' by (simpl; tauto). rewrite Hqm. eauto.
    + intros Ha.
      destruct (Hagi1 Ha) as (ap & am & cc & _ & _ & _ & Hqap & Hqam & Hqcc).
      rewrite !Hq' by (simpl; tauto). rewrite Hqap, Hqam, Hqcc. eauto.
    + eauto.
Qed.

End StatIncrement.
(** ** The insufficient-Energy policy of the rotation *)

Section Policy.
Context `{C : Collab}.

(** C7, as the code has it.  In Cat Form, when the action selected by the
    gates costs more than the Energy available to it (the current Energy,
    or the excess over the floating Energy for the fillers Mangle-spam and
    Shred) and no Clearcasting proc waives the cost, [execute_rotation]
    casts nothing and changes nothing but [next_action], which becomes
    the current time plus the wait [(cost - available) / 10], capped by the
    earliest pending refresh, plus the latency; the wait is positive. *)
Theorem insufficient_energy_waits (time : Q) (s : Sim)
    (bite_before_rip_v roar_now_v : bool) (g : Gate) :
  ready_to_shift (player s) = false ->
  cat_form (pext (player s)) = true ->
  bite_before_rip time s = Ok bite_before_rip_v ->
  roar_now time s = Ok roar_now_v ->
  selected_gate bite_before_rip_v roar_now_v time s = Some g ->
  gate_energy g time s < gate_cost g s ->
  gate_free g s = false ->
  let wait := (gate_cost g s - gate_energy g time s) / 10 in
  0 < wait
  /\ execute_rotation time s
     = Ok (0, set_next_action (capped time s (time + wait) + latency s) s).
Proof.
  intros Hready Hcat Hbbr Hrn Hsel Hlt Hfree wait.
  split.
  { unfold wait. apply Qlt_shift_div_l; lra. }
  unfold execute_rotation, ifS, bind, getsR, gets.
  rewrite Hready, Hbbr, Hrn, Hcat. simpl negb. cbv iota.
  unfold cat_rotation, ifS, waiting, returning, bind, gets, ret, modify.
  unfold selected_gate in Hsel.
  destruct (emergency_bearweave time s); [discriminate|].
  destruct (berserk_now s); [discriminate|].
  assert (Hge : forall x y, x < y -> Qgeb x y = false).
  { intros x y H. apply Qgeb_lt. exact H. }
  destruct roar_now_v.
  { injection Hsel as <-. simpl in Hlt, Hfree, wait.
    rewrite (Hge _ _ Hlt). reflexivity. }
  destruct (rip_now time s).
  { injection Hsel as <-. simpl in Hlt, Hfree, wait.
    rewrite (Hge _ _ Hlt), Hfree. reflexivity. }
  destruct (bite_now bite_before_rip_v time s).
  { injection Hsel as <-. simpl in Hlt, Hfree, wait.
    rewrite (Hge _ _ Hlt). reflexivity. }
  destruct (rake_now time s).
  { injection Hsel as <-. simpl in Hlt, Hfree, wait.
    rewrite (Hge _ _ Hlt), Hfree. reflexivity. }
  destruct (mangle_now time s).
  { injection Hsel as <-. simpl in Hlt, Hfree, wait.
    rewrite (Hge _ _ Hlt), Hfree. reflexivity. }
  destruct (bearweave_now time s); [discriminate|].
  destruct (mangle_spam (strategy s) && negb (omen_proc (player s))).
  { injection Hsel as <-. simpl in Hlt, Hfree, wait.
    rewrite (Hge _ _ Hlt). reflexivity. }
  injection Hsel as <-. simpl in Hlt, Hfree, wait.
  rewrite (Hge _ _ Hlt), Hfree. reflexivity.
Qed.

End Policy.
(** ** Logging noninterference: the combinators *)

(** Expose the fields of a simulation and of its player. *)
Ltac break_sim s :=
  let p := fresh "p" in
  destruct s as [p ? ? ? ? ? ? ? ? ? ? ? ? ? ? ? ? ? ? ? ? ? ? ? ? ? ? ? ? ?
                   ? ? ? ? ? ? ? ? ? ? ? ? ?];
  destruct p.

(** An expression that does not mention the logs computes to the same term
    on a state and on its erasure. *)
Ltac blind_tac :=
  let s := fresh "s" in
  intros s; break_sim s; reflexivity.

Ltac frame_tac :=
  let s := fresh "s" in
  intros s; break_sim s; cbn;
  repeat match goal with
         | |- context [if ?c then _ else _] => destruct c
         end;
  repeat split; reflexivity.

Section SecureCore.
Context `{C : Collab}.

Lemma erase_idem (s : Sim) : erase (erase s) = erase s.
Proof. break_sim s. reflexivity. Qed.

Lemma low_equiv_erase (s : Sim) :
  log_consistent s -> low_equiv s (erase s).
Proof.
  intros H. split; [symmetry; apply erase_idem|].
  split; [assumption|]. break_sim s. reflexivity.
Qed.

Lemma blind_low_equiv {A : Type} (f : Sim -> A) (s1 s2 : Sim) :
  blind f -> low_equiv s1 s2 -> f s1 = f s2.
Proof.
  intros Hb [He _]. rewrite <- (Hb s1), <- (Hb s2), He. reflexivity.
Qed.

Lemma secure_ret {A : Type} (a : A) : secure (ret a).
Proof. intros s1 s2 H. simpl. split; [reflexivity | assumption]. Qed.

Lemma secure_raise {A : Type} (e : exn) : secure (raise e : M A).
Proof. intros s1 s2 H. reflexivity. Qed.

Lemma secure_bind {A B : Type} (m : M A) (k : A -> M B) :
  secure m -> (forall a, secure (k a)) -> secure (bind m k).
Proof.
  intros Hm Hk s1 s2 H. unfold bind. specialize (Hm s1 s2 H).
  unfold res_equiv in Hm.
  destruct (m s1) as [[a1 s1']|e1], (m s2) as [[a2 s2']|e2];
    try contradiction.
  - destruct Hm as [<- Hs]. apply Hk, Hs.
  - exact Hm.
Qed.

Lemma secure_gets {A : Type} (f : Sim -> A) : blind f -> secure (gets f).
Proof.
  intros Hb s1 s2 H. simpl. split; [|assumption].
  apply blind_low_equiv; assumption.
Qed.

Lemma secure_getsR {A : Type} (f : Sim -> Result A) :
  blind f -> secure (getsR f).
Proof.
  intros Hb s1 s2 H. unfold getsR.
  rewrite (blind_low_equiv f s1 s2 Hb H).
  destruct (f s2); simpl; [split; [reflexivity|assumption] | reflexivity].
Qed.

Lemma secure_modify (f : Sim -> Sim) : frame_ok f -> secure (modify f).
Proof.
  intros Hf s1 s2 [He [H1 H2]]. simpl. split; [reflexivity|].
  destruct (Hf s1) as (E1 & L1 & P1), (Hf s2) as (E2 & L2 & P2).
  split; [rewrite E1, E2, He; reflexivity|].
  unfold log_consistent in *. split; congruence.
Qed.

Lemma secure_ifS {A : Type} (c : Sim -> bool) (t e : M A) :
  blind c -> secure t -> secure e -> secure (ifS c t e).
Proof.
  intros Hc Ht He s1 s2 H. unfold ifS.
  rewrite (blind_low_equiv c s1 s2 Hc H).
  destruct (c s2); [apply Ht | apply He]; assumption.
Qed.

Lemma secure_whenS (c : Sim -> bool) (t : M unit) :
  blind c -> secure t -> secure (whenS c t).
Proof. intros Hc Ht. apply secure_ifS; [assumption..|apply secure_ret]. Qed.

Lemma erase_set_player_rng (p : Player) (g : Rng) (s : Sim) :
  erase (set_rng g (set_player p s))
  = set_rng g (set_player (erase_player p) (erase s)).
Proof. break_sim s. reflexivity. Qed.

Lemma erase_rng (s : Sim) : rng (erase s) = rng s.
Proof. break_sim s. reflexivity. Qed.

Lemma erase_player_of (s : Sim) : player (erase s) = erase_player (player s).
Proof. break_sim s. reflexivity. Qed.

Lemma erase_player_idem (p : Player) :
  erase_player (erase_player p) = erase_player p.
Proof. destruct p. reflexivity. Qed.

Lemma low_equiv_rng (s1 s2 : Sim) : low_equiv s1 s2 -> rng s1 = rng s2.
Proof.
  intros [He _]. rewrite <- (erase_rng s1), <- (erase_rng s2), He.
  reflexivity.
Qed.

Lemma low_equiv_player (s1 s2 : Sim) :
  low_equiv s1 s2 -> erase_player (player s1) = erase_player (player s2).
Proof.
  intros [He _].
  rewrite <- (erase_player_of s1), <- (erase_player_of s2), He. reflexivity.
Qed.

Lemma log_set_player_rng (p : Player) (g : Rng) (s : Sim) :
  log (set_rng g (set_player p s)) = log s
  /\ player (set_rng g (set_player p s)) = p.
Proof. break_sim s. split; reflexivity. Qed.

Lemma secure_call_player {A : Type} (m : PM A) :
  pm_secure m -> secure (call_player m).
Proof.
  intros Hm s1 s2 H. unfold call_player.
  pose proof (low_equiv_rng _ _ H) as Hg.
  pose proof (low_equiv_player _ _ H) as Hp.
  destruct H as (He & H1 & H2).
  destruct (Hm (player s1) (rng s1)) as (Ha1 & Hg1 & Hp1 & Hl1).
  destruct (Hm (player s2) (rng s2)) as (Ha2 & Hg2 & Hp2 & Hl2).
  rewrite Hp, Hg in Ha1, Hg1, Hp1. rewrite Hg in Hl1 |- *.
  destruct (m (player s1) (rng s2)) as [[a1 p1] g1].
  destruct (m (player s2) (rng s2)) as [[a2 p2] g2].
  simpl in *. split; [congruence|].
  split.
  - rewrite !erase_set_player_rng. congruence.
  - unfold log_consistent in *.
    destruct (log_set_player_rng p1 g1 s1) as [-> ->].
    destruct (log_set_player_rng p2 g2 s2) as [-> ->].
    split; congruence.
Qed.

Lemma set_combat_log_low (l : list LogEntry) (s : Sim) :
  erase (set_combat_log l s) = erase s
  /\ log (set_combat_log l s) = log s
  /\ player (set_combat_log l s) = player s.
Proof. break_sim s. repeat split; reflexivity. Qed.

Lemma low_equiv_set_combat_log_l (l : list LogEntry) (s1 s2 : Sim) :
  low_equiv s1 s2 -> low_equiv (set_combat_log l s1) s2.
Proof.
  intros (He & H1 & H2). unfold low_equiv, log_consistent in *.
  destruct (set_combat_log_low l s1) as (-> & -> & ->). auto.
Qed.

Lemma low_equiv_sym (s1 s2 : Sim) : low_equiv s1 s2 -> low_equiv s2 s1.
Proof. intros (He & H1 & H2). repeat split; auto. Qed.

Lemma secure_log_append (entry : Sim -> LogEntry) : secure (log_append entry).
Proof.
  intros s1 s2 H. unfold log_append.
  destruct (log s1), (log s2); simpl; (split; [reflexivity|]).
  - apply low_equiv_set_combat_log_l, low_equiv_sym,
      low_equiv_set_combat_log_l, low_equiv_sym, H.
  - apply low_equiv_set_combat_log_l, H.
  - apply low_equiv_sym, low_equiv_set_combat_log_l, low_equiv_sym, H.
  - exact H.
Qed.

Lemma secure_match_pair {A B D : Type} (k : A -> B -> M D) (x : A * B) :
  (forall a b, secure (k a b)) -> secure (let '(a, b) := x in k a b).
Proof. intros H. destruct x. apply H. Qed.

End SecureCore.
(** ** Logging noninterference: the methods *)

(** Case analysis on a scrutinee that contains no other case analysis. *)
Ltac destruct_inner :=
  match goal with
  | |- context [match ?c with _ => _ end] =>
      lazymatch c with
      | context [match _ with _ => _ end] => fail
      | _ => destruct c
      end
  end.

Ltac local_tac :=
  let s := fresh "s" in
  intros s; break_sim s; cbn;
  repeat (destruct_inner; cbn);
  repeat split; try reflexivity; try congruence.

Create HintDb secure_db.

Section SecureMethods.
Context `{LO : LogOblivious}.

#[local] Hint Resolve lo_reset lo_regen lo_swing lo_maul lo_shift lo_mangle
  lo_rake lo_lacerate lo_rip lo_shred lo_bite lo_roar lo_calc_damage_params
  lo_set_ability_costs lo_trinket_reset lo_trinket_update
  lo_trinket_check_for_proc lo_trinket_finish : secure_db.

Lemma secure_local {A : Type} (m : M A) : local_ok m -> secure m.
Proof.
  intros Hm s1 s2 (He & H1 & H2).
  pose proof (Hm s1) as L1. pose proof (Hm s2) as L2.
  rewrite He in L1. unfold res_equiv, low_equiv, log_consistent in *.
  destruct (m s1) as [[a1 s1']|e1], (m s2) as [[a2 s2']|e2],
    (m (erase s2)) as [[a3 s3]|e3]; try contradiction; try congruence.
  destruct L1 as (-> & E1 & F1 & G1), L2 as (-> & E2 & F2 & G2).
  split; [reflexivity|]. split; [congruence|]. split; congruence.
Qed.

Ltac secure_step :=
  lazymatch goal with
  | |- secure (bind _ _) => apply secure_bind; [|intros ?; cbv beta]
  | |- secure (ret _) => apply secure_ret
  | |- secure (raise _) => apply secure_raise
  | |- secure (gets _) => apply secure_gets; blind_tac
  | |- secure (getsR _) => apply secure_getsR; blind_tac
  | |- secure (modify _) => apply secure_modify; frame_tac
  | |- secure (ifS _ _ _) => apply secure_ifS; [blind_tac | |]
  | |- secure (whenS _ _) => apply secure_whenS; [blind_tac |]
  | |- secure (log_append _) => apply secure_log_append
  | |- secure (call_player _) =>
      apply secure_call_player; solve [auto with secure_db]
  | |- secure (call_trinket _) => solve [auto with secure_db]
  | |- secure (fun _ => _) => apply secure_local; local_tac
  | |- secure (match ?x with _ => _ end) => destruct x
  | |- secure (let _ := _ in _) => cbv zeta
  | |- secure _ => solve [auto with secure_db]
  end.

Ltac secure_tac := repeat secure_step.

Lemma secure_add_damage (ability : string) (x : Q) :
  secure (add_damage ability x).
Proof. apply secure_local. unfold add_damage. local_tac. Qed.
#[local] Hint Resolve secure_add_damage : secure_db.

Lemma secure_np_rand : secure np_rand.
Proof. apply secure_local. unfold np_rand. local_tac. Qed.
#[local] Hint Resolve secure_np_rand : secure_db.

Lemma secure_np_randn : secure np_randn.
Proof. apply secure_local. unfold np_randn. local_tac. Qed.
#[local] Hint Resolve secure_np_randn : secure_db.

Lemma secure_pop_rip_ticks : secure (pop_first rip_ticks set_rip_ticks).
Proof. apply secure_local. unfold pop_first. local_tac. Qed.
Lemma secure_pop_rake_ticks : secure (pop_first rake_ticks set_rake_ticks).
Proof. apply secure_local. unfold pop_first. local_tac. Qed.
Lemma secure_pop_lacerate_ticks :
  secure (pop_first lacerate_ticks set_lacerate_ticks).
Proof. apply secure_local. unfold pop_first. local_tac. Qed.
Lemma secure_pop_swing_times : secure (pop_first swing_times set_swing_times).
Proof. apply secure_local. unfold pop_first. local_tac. Qed.
Lemma secure_pop_proc_end_times :
  secure (pop_first proc_end_times set_proc_end_times).
Proof. apply secure_local. unfold pop_first. local_tac. Qed.
#[local] Hint Resolve secure_pop_rip_ticks secure_pop_rake_ticks
  secure_pop_lacerate_ticks secure_pop_swing_times secure_pop_proc_end_times
  : secure_db.

Lemma secure_log_player_action (time : Q) : secure (log_player_action time).
Proof.
  intros s1 s2 H. unfold log_player_action.
  destruct (log s1), (log s2);
    repeat match goal with
           | |- context [match ?c with _ => _ end] => destruct c
           end; simpl; (split; [reflexivity|]);
    repeat first [ apply low_equiv_set_combat_log_l
                 | apply low_equiv_sym, low_equiv_set_combat_log_l,
                     low_equiv_sym ];
    exact H.
Qed.
#[local] Hint Resolve secure_log_player_action : secure_db.

Lemma secure_tracker_update (k : TrackerKind) (time : Q) :
  secure (UptimeTracker.update k time).
Proof.
  apply secure_local.
  unfold UptimeTracker.update, UptimeTracker.update_tracker,
    UptimeTracker.is_active.
  local_tac.
Qed.
#[local] Hint Resolve secure_tracker_update : secure_db.

Lemma secure_mangle (time : Q) : secure (mangle time).
Proof. unfold mangle. secure_tac. Qed.
#[local] Hint Resolve secure_mangle : secure_db.

Lemma secure_rake (time : Q) : secure (rake time).
Proof. unfold rake. secure_tac. Qed.
#[local] Hint Resolve secure_rake : secure_db.

Lemma secure_lacerate (time : Q) : secure (lacerate time).
Proof. unfold lacerate. secure_tac. Qed.
#[local] Hint Resolve secure_lacerate : secure_db.

Lemma secure_rip (time : Q) : secure (rip time).
Proof. unfold rip. secure_tac. Qed.
#[local] Hint Resolve secure_rip : secure_db.

Lemma secure_shred : secure shred.
Proof. unfold shred. secure_tac. Qed.
#[local] Hint Resolve secure_shred : secure_db.

Lemma secure_update_swing_times (time new_swing_timer : Q) (first : bool) :
  secure (update_swing_times time new_swing_timer first).
Proof. unfold update_swing_times. secure_tac. Qed.
#[local] Hint Resolve secure_update_swing_times : secure_db.

Lemma secure_apply_tigers_fury (time : Q) : secure (apply_tigers_fury time).
Proof. unfold apply_tigers_fury. secure_tac. Qed.
#[local] Hint Resolve secure_apply_tigers_fury : secure_db.

Lemma secure_drop_tigers_fury (time : Q) : secure (drop_tigers_fury time).
Proof. unfold drop_tigers_fury. secure_tac. Qed.
#[local] Hint Resolve secure_drop_tigers_fury : secure_db.

Lemma secure_apply_berserk (time : Q) (prepop : bool) :
  secure (apply_berserk time prepop).
Proof. unfold apply_berserk. secure_tac. Qed.
#[local] Hint Resolve secure_apply_berserk : secure_db.

Lemma secure_drop_berserk (time : Q) : secure (drop_berserk time).
Proof. unfold drop_berserk. secure_tac. Qed.
#[local] Hint Resolve secure_drop_berserk : secure_db.

Lemma secure_armor_reset : secure ArmorDebuffs.reset.
Proof. unfold ArmorDebuffs.reset. secure_tac. Qed.
#[local] Hint Resolve secure_armor_reset : secure_db.

Lemma secure_armor_update (time : Q) : secure (ArmorDebuffs.update time).
Proof. unfold ArmorDebuffs.update. secure_tac. Qed.
#[local] Hint Resolve secure_armor_update : secure_db.

Lemma secure_bear_rotation (time : Q) : secure (bear_rotation time).
Proof.
  unfold bear_rotation, returning, waiting, set_ready_to_shift_true.
  secure_tac.
Qed.
#[local] Hint Resolve secure_bear_rotation : secure_db.

Lemma secure_cat_rotation (b r : bool) (time : Q) :
  secure (cat_rotation b r time).
Proof.
  unfold cat_rotation, returning, waiting, set_ready_to_shift_true.
  secure_tac.
Qed.
#[local] Hint Resolve secure_cat_rotation : secure_db.

Lemma secure_execute_rotation (time : Q) : secure (execute_rotation time).
Proof. unfold execute_rotation. secure_tac. Qed.
#[local] Hint Resolve secure_execute_rotation : secure_db.

Lemma secure_periodic_procs (time : Q) (ts : list TId) (tick_damage : Q) :
  secure (periodic_procs time ts tick_damage).
Proof.
  revert tick_damage. induction ts as [|i ts IH]; intros tick_damage; simpl.
  - apply secure_ret.
  - apply secure_bind;
      [apply secure_gets, lo_trinket_periodic_only | intros periodic].
    destruct periodic; [|apply IH].
    secure_tac.
Qed.
#[local] Hint Resolve secure_periodic_procs : secure_db.

Lemma secure_apply_bleed_damage (base crit : Q) (name : string)
    (snapshot : bool) (time : Q) :
  secure (apply_bleed_damage base crit name snapshot time).
Proof. unfold apply_bleed_damage. secure_tac. Qed.
#[local] Hint Resolve secure_apply_bleed_damage : secure_db.

Lemma secure_reset_trinket (t : Trinket) : secure (reset_trinket t).
Proof. unfold reset_trinket. secure_tac. Qed.
#[local] Hint Resolve secure_reset_trinket : secure_db.

Lemma secure_update_trinket (time : Q) (t : Trinket) :
  secure (update_trinket time t).
Proof. unfold update_trinket. secure_tac. Qed.
#[local] Hint Resolve secure_update_trinket : secure_db.

Lemma secure_reset_trinkets (ts : list Trinket) : secure (reset_trinkets ts).
Proof.
  induction ts as [|t ts IH]; simpl; [apply secure_ret|].
  apply secure_bind; [apply secure_reset_trinket | intros _; apply IH].
Qed.
#[local] Hint Resolve secure_reset_trinkets : secure_db.

Lemma secure_update_trinkets (time : Q) (ts : list Trinket) (dmg : Q) :
  secure (update_trinkets time ts dmg).
Proof.
  revert dmg. induction ts as [|t ts IH]; intros dmg; simpl;
    [apply secure_ret|].
  apply secure_bind; [apply secure_update_trinket | intros d; apply IH].
Qed.
#[local] Hint Resolve secure_update_trinkets : secure_db.

Lemma secure_advance_cooldowns (time delta_t : Q) :
  secure (advance_cooldowns time delta_t).
Proof. unfold advance_cooldowns. secure_tac. Qed.
#[local] Hint Resolve secure_advance_cooldowns : secure_db.

(** *** The one entry guarded by the argument of [run] *)

Lemma related_bind {A B : Type} (m1 m2 : M A) (k1 k2 : A -> M B) :
  related m1 m2 -> (forall a, related (k1 a) (k2 a)) ->
  related (bind m1 k1) (bind m2 k2).
Proof.
  intros Hm Hk s1 s2 H. unfold bind. specialize (Hm s1 s2 H).
  unfold res_equiv in Hm.
  destruct (m1 s1) as [[a1 s1']|e1], (m2 s2) as [[a2 s2']|e2];
    try contradiction.
  - destruct Hm as [<- Hs]. apply Hk, Hs.
  - exact Hm.
Qed.

Lemma related_same {A : Type} (m : M A) : secure m -> related m m.
Proof. intros H. exact H. Qed.

Lemma related_ifS {A : Type} (c : Sim -> bool) (t1 t2 e1 e2 : M A) :
  blind c -> related t1 t2 -> related e1 e2 ->
  related (ifS c t1 e1) (ifS c t2 e2).
Proof.
  intros Hc Ht He s1 s2 H. unfold ifS.
  rewrite (blind_low_equiv c s1 s2 Hc H).
  destruct (c s2); [apply Ht | apply He]; assumption.
Qed.

Lemma related_log_append_if (b1 b2 : bool) (entry : Sim -> LogEntry) :
  related (log_append_if b1 entry) (log_append_if b2 entry).
Proof.
  intros s1 s2 H. unfold log_append_if.
  destruct b1, b2; simpl; (split; [reflexivity|]).
  - apply low_equiv_set_combat_log_l, low_equiv_sym,
      low_equiv_set_combat_log_l, low_equiv_sym, H.
  - apply low_equiv_set_combat_log_l, H.
  - apply low_equiv_sym, low_equiv_set_combat_log_l, low_equiv_sym, H.
  - exact H.
Qed.

Lemma related_expire_buffs (b1 b2 : bool) (time : Q) :
  related (expire_buffs b1 time) (expire_buffs b2 time).
Proof.
  unfold expire_buffs.
  do 5 (apply related_bind; [apply related_same; secure_tac | intros ?]).
  unfold whenS.
  apply related_ifS; [blind_tac | | apply related_same, secure_ret].
  apply related_bind; [apply related_same; secure_tac | intros ?].
  apply related_log_append_if.
Qed.

Lemma secure_rip_phase (time : Q) : secure (rip_phase time).
Proof. unfold rip_phase, tick_due. secure_tac. Qed.
#[local] Hint Resolve secure_rip_phase : secure_db.

Lemma secure_rake_phase (time : Q) : secure (rake_phase time).
Proof. unfold rake_phase, tick_due. secure_tac. Qed.
#[local] Hint Resolve secure_rake_phase : secure_db.

Lemma secure_lacerate_phase (time : Q) : secure (lacerate_phase time).
Proof. unfold lacerate_phase. secure_tac. Qed.
#[local] Hint Resolve secure_lacerate_phase : secure_db.

Lemma secure_revitalize_phase (time : Q) (n : Z) :
  secure (revitalize_phase time n).
Proof. unfold revitalize_phase. secure_tac. Qed.
#[local] Hint Resolve secure_revitalize_phase : secure_db.

Lemma secure_enrage_phase (time : Q) : secure (enrage_phase time).
Proof. unfold enrage_phase. secure_tac. Qed.
#[local] Hint Resolve secure_enrage_phase : secure_db.

Lemma secure_rotation_phase (time : Q) : secure (rotation_phase time).
Proof. unfold rotation_phase. secure_tac. Qed.
#[local] Hint Resolve secure_rotation_phase : secure_db.

Lemma secure_proc_end_phase (time : Q) : secure (proc_end_phase time).
Proof. unfold proc_end_phase. secure_tac. Qed.
#[local] Hint Resolve secure_proc_end_phase : secure_db.

Lemma secure_tigers_fury_phase (time : Q) : secure (tigers_fury_phase time).
Proof. unfold tigers_fury_phase. secure_tac. Qed.
#[local] Hint Resolve secure_tigers_fury_phase : secure_db.

Lemma secure_next_event_time (time : Q) : secure (next_event_time time).
Proof. unfold next_event_time. secure_tac. Qed.
#[local] Hint Resolve secure_next_event_time : secure_db.

(** *** The melee swing: the one place where the log is concatenated *)

Lemma secure_bind_ensures {A B : Type} (P : Sim -> Prop) (m : M A)
    (k : A -> M B) :
  secure m -> ensures m P -> (forall a, secure_on P (k a)) ->
  secure (bind m k).
Proof.
  intros Hm He Hk s1 s2 H. unfold bind.
  pose proof (Hm s1 s2 H) as Hr. unfold res_equiv in Hr.
  destruct (m s1) as [[a1 s1']|e1] eqn:E1, (m s2) as [[a2 s2']|e2] eqn:E2;
    try contradiction.
  - destruct Hr as [<- Hs]. destruct H as (_ & H1 & H2).
    unfold ensures in He.
    apply Hk; [assumption | eapply He; [exact H1 | exact E1]
              | eapply He; [exact H2 | exact E2]].
  - exact Hr.
Qed.

Lemma ensures_call_attack (m : PM Q) :
  logs_when_asked m -> ensures (call_player m) has_line.
Proof.
  intros Hm s a s' Hc H. unfold call_player in H.
  pose proof (Hm (player s) (rng s)) as Hline.
  destruct (m (player s) (rng s)) as [[a' p'] g']. injection H as <- <-.
  intros Hlog. destruct (log_set_player_rng p' g' s) as [Hl Hp].
  rewrite Hp. rewrite Hl in Hlog. apply Hline.
  unfold log_consistent in Hc. congruence.
Qed.

Lemma ensures_attack (time : Q) :
  ensures
    (ifS (fun s => cat_form (pext (player s)))
       (call_player player_swing)
       (thresh <- gets (maul_rage_thresh time);;
        ifS (fun s => Qgeb (rage (player s)) thresh)
          (md <- gets mangle_debuff;; call_player (player_maul md))
          (call_player player_swing)))
    has_line.
Proof.
  intros s a s' Hc. unfold ifS, bind, gets.
  destruct (cat_form (pext (player s))).
  - apply ensures_call_attack; [apply lo_swing_logs | assumption].
  - destruct (Qgeb (rage (player s)) (maul_rage_thresh time s)).
    + apply ensures_call_attack; [apply lo_maul_logs | assumption].
    + apply ensures_call_attack; [apply lo_swing_logs | assumption].
Qed.

Lemma secure_on_log_player_swing (time : Q) (k : M Q) :
  secure k ->
  secure_on has_line
    (pop_first swing_times set_swing_times;;; log_player_swing time;;; k).
Proof.
  intros Hk s1 s2 H L1 L2. unfold bind.
  pose proof (secure_pop_swing_times s1 s2 H) as Hpop.
  unfold res_equiv in Hpop. unfold pop_first in *.
  assert (Hset : forall l s, log (set_swing_times l s) = log s
                             /\ player (set_swing_times l s) = player s).
  { intros l s. break_sim s. split; reflexivity. }
  destruct (swing_times s1) as [|x1 r1], (swing_times s2) as [|x2 r2];
    try contradiction; [reflexivity|].
  destruct Hpop as [_ Hs].
  unfold log_player_swing.
  destruct (Hset r1 s1) as [-> ->], (Hset r2 s2) as [-> ->].
  unfold has_line in L1, L2.
  destruct (log s1) eqn:G1, (log s2) eqn:G2.
  - destruct (p_combat_log (player s1)); [|exfalso; apply L1; reflexivity].
    destruct (p_combat_log (player s2)); [|exfalso; apply L2; reflexivity].
    apply Hk.
    apply low_equiv_set_combat_log_l, low_equiv_sym,
      low_equiv_set_combat_log_l, low_equiv_sym, Hs.
  - destruct (p_combat_log (player s1)); [|exfalso; apply L1; reflexivity].
    apply Hk. apply low_equiv_set_combat_log_l, Hs.
  - destruct (p_combat_log (player s2)); [|exfalso; apply L2; reflexivity].
    apply Hk.
    apply low_equiv_sym, low_equiv_set_combat_log_l, low_equiv_sym, Hs.
  - apply Hk, Hs.
Qed.

Lemma secure_swing_phase (time : Q) : secure (swing_phase time).
Proof.
  unfold swing_phase.
  apply secure_bind; [secure_tac | intros next_swing].
  destruct (Qeqb time next_swing); [|apply secure_ret].
  apply secure_bind_ensures with (P := has_line).
  - secure_tac.
  - apply ensures_attack.
  - intros d. apply secure_on_log_player_swing. secure_tac.
Qed.
#[local] Hint Resolve secure_swing_phase : secure_db.

(** *** The loop and the final pass *)

Lemma related_loop_body (b1 b2 : bool) (time previous_time : Q) (n : Z) :
  related (loop_body b1 time previous_time n)
          (loop_body b2 time previous_time n).
Proof.
  unfold loop_body. cbv zeta.
  apply related_bind; [apply related_same; secure_tac | intros ?].
  apply related_bind; [apply related_expire_buffs | intros ?].
  apply related_same. secure_tac.
Qed.

Lemma related_run_loop (fuel : nat) (b1 b2 : bool) (time previous_time : Q)
    (n : Z) (acc : Series) :
  related (run_loop fuel b1 time previous_time n acc)
          (run_loop fuel b2 time previous_time n acc).
Proof.
  revert time previous_time n acc.
  induction fuel as [|fuel IH]; intros time previous_time n acc; simpl.
  - apply related_same, secure_raise.
  - apply related_ifS; [blind_tac | | apply related_same, secure_ret].
    apply related_bind; [apply related_loop_body | intros [[d n'] t]].
    apply related_bind; [apply related_same; secure_tac | intros e].
    apply related_bind; [apply related_same; secure_tac | intros c].
    apply IH.
Qed.

Lemma secure_finish_trinket (t : Trinket) : secure (finish_trinket t).
Proof.
  unfold finish_trinket, UptimeTracker.deactivate, UptimeTracker.proc_name.
  secure_tac.
Qed.
#[local] Hint Resolve secure_finish_trinket : secure_db.

Lemma secure_finish_trinkets (ts : list Trinket) (aura_stats : list AuraStat) :
  secure (finish_trinkets ts aura_stats).
Proof.
  revert aura_stats. induction ts as [|t ts IH]; intros aura_stats; simpl;
    [apply secure_ret|].
  apply secure_bind; [apply secure_finish_trinket | intros r; apply IH].
Qed.
#[local] Hint Resolve secure_finish_trinkets : secure_db.

(** *** The output of [run] *)

Lemma related_obs_bind {A B D : Type} (f : B -> D) (m1 m2 : M A)
    (k1 k2 : A -> M B) :
  related m1 m2 -> (forall a, related_obs f (k1 a) (k2 a)) ->
  related_obs f (bind m1 k1) (bind m2 k2).
Proof.
  intros Hm Hk s1 s2 H. unfold bind. specialize (Hm s1 s2 H).
  unfold res_equiv in Hm.
  destruct (m1 s1) as [[a1 s1']|e1], (m2 s2) as [[a2 s2']|e2];
    try contradiction.
  - destruct Hm as [<- Hs]. apply Hk, Hs.
  - exact Hm.
Qed.

Lemma related_obs_gets {A B : Type} (f : A -> B) (g : Sim -> A) :
  blind (fun s => f (g s)) -> related_obs f (gets g) (gets g).
Proof.
  intros Hb s1 s2 H. simpl. split; [|assumption].
  apply (blind_low_equiv (fun s => f (g s))); assumption.
Qed.

Lemma same_start {A B D : Type} (f : B -> D) (m : M A) (k1 k2 : A -> M B)
    (s : Sim) :
  (forall a s', res_equiv_on f (k1 a s') (k2 a s')) ->
  res_equiv_on f (bind m k1 s) (bind m k2 s).
Proof.
  intros H. unfold bind. destruct (m s) as [[a s']|e]; [apply H|reflexivity].
Qed.

Lemma after_log_setup {B D : Type} (f : B -> D) (g1 g2 g3 h1 h2 : Sim -> Sim)
    (body1 body2 : M B) (s : Sim) :
  related_obs f body1 body2 ->
  low_equiv (g3 (g2 (g1 s))) (h2 (h1 s)) ->
  res_equiv_on f
    ((modify g1;;; (modify g2;;; modify g3);;; body1) s)
    ((modify h1;;; modify h2;;; body2) s).
Proof. intros Hb Hs. unfold bind, modify. apply Hb, Hs. Qed.

Lemma run_logging_equiv (fuel : nat) (s : Sim) :
  res_equiv_on observe (run fuel true s) (run fuel false s).
Proof.
  unfold run.
  do 4 (apply same_start; intros ? ?).
  apply after_log_setup.
  - cbv zeta.
    do 10 (apply related_obs_bind;
           [apply related_same; solve [secure_tac] | intros ?; cbv beta zeta]).
    apply related_obs_bind; [apply related_run_loop | intros ?].
    do 2 (apply related_obs_bind;
          [apply related_same; solve [secure_tac] | intros ?; cbv beta zeta]).
    apply related_obs_gets. blind_tac.
  - match goal with
    | |- low_equiv _ (_ (_ ?x)) => break_sim x
    end.
    repeat split; reflexivity.
Qed.

(** C5.  Provided the collaborators (the player's methods and the hooks
    of the trinkets) do not let their log influence anything else, for every
    state of the simulation and the same random draws, [run(log=True)] and
    [run(log=False)] give the same series of times, damage, Energy and combo
    points, the same damage breakdown and the same aura statistics, leave
    states that differ at most in the logs and the log flags, and raise the
    same exception if one raises (or both exhaust the fuel): the flag only
    adds entries to the combat log. *)
Theorem logging_noninterference (fuel : nat) (s : Sim) :
  match run fuel true s, run fuel false s with
  | Ok (o1, s1), Ok (o2, s2) =>
      out_series o1 = out_series o2
      /\ out_dmg_breakdown o1 = out_dmg_breakdown o2
      /\ out_aura_stats o1 = out_aura_stats o2
      /\ erase s1 = erase s2
  | Raise e1, Raise e2 => e1 = e2
  | _, _ => False
  end.
Proof.
  pose proof (run_logging_equiv fuel s) as H. unfold res_equiv_on in H.
  destruct (run fuel true s) as [[o1 s1]|e1],
    (run fuel false s) as [[o2 s2]|e2]; try exact H.
  destruct H as [Hobs [He _]]. unfold observe in Hobs.
  injection Hobs as H1 H2 H3. auto.
Qed.

End SecureMethods.

(** ** Replicates and the generator *)

Section Reseeding.
Context `{C : Collab}.

Lemma run_ignores_leftovers (fuel : nat) (log_v : bool) (s : Sim) :
  run fuel log_v (leftovers_cleared s) = run fuel log_v s.
Proof.
  unfold run, leftovers_cleared.
  match goal with
  | |- context [bind (modify (set_proc_end_times [])) ?K] => set (tail := K)
  end.
  unfold bind, call_player, modify, np_rand, gets, update_swing_times, ret.
  destruct s; simpl.
  destruct (player_reset _ _) as [[[] p] g]; simpl.
  match goal with d : Params |- _ => destruct d end.
  destruct log_v; simpl; destruct (rand g) as [r g']; simpl;
    repeat match goal with
           | |- context [Qgtb ?a ?b] => destruct (Qgtb a b)
           end;
    reflexivity.
Qed.

Lemma iterate_unfolded (args : list Z) (entropy : Rng) (fuel : nat)
    (s : Sim) :
  let randomized := fight_length s + (randn entropy).1 in
  let start := set_fight_length randomized (set_rng (randn entropy).2 s) in
  iterate args entropy fuel s
  = match run fuel false start with
    | Ok (out, s') =>
        Ok ((sumQ (damage (out_series out)) / fight_length s',
             out_dmg_breakdown out, out_aura_stats out,
             match time_to_oom s' with
             | None => randomized
             | Some t => t
             end),
            set_fight_length (fight_length s) s')
    | Raise e => Raise e
    end.
Proof.
  unfold iterate, bind, modify, gets, np_randn, ret.
  destruct s; simpl. destruct (randn entropy) as [jitter g]. simpl.
  destruct (run fuel false _) as [[out s']|e]; [|reflexivity].
  destruct s'; reflexivity.
Qed.

(** C1, as the code has it.  [iterate] ignores its argument and first
    replaces the state of the generator by one taken from the operating
    system's entropy.  The replicate is then the run, without log, of the
    simulation whose fight length is the base length plus the first normal
    variate of the reseeded generator: it returns the total damage of that
    run over the randomized length, its breakdown and aura statistics and
    the out-of-mana time (the randomized length when the player never ran
    out of mana), it raises what that run raises, and it puts the base
    length back.  So two replicates reseeded to the same generator state,
    started from states that agree except for the generator and for what
    [run] overwrites before reading it, return the same results and leave
    the same state, whatever their arguments. *)
Theorem iterate_determined_by_entropy (args1 args2 : list Z) (entropy : Rng)
    (fuel : nat) (s1 s2 : Sim) :
  (leftovers_cleared (set_rng entropy s1)
   = leftovers_cleared (set_rng entropy s2) ->
   iterate args1 entropy fuel s1 = iterate args2 entropy fuel s2)
  /\ (let randomized := fight_length s1 + (randn entropy).1 in
      let start :=
        set_fight_length randomized (set_rng (randn entropy).2 s1) in
      (forall e, run fuel false start = Raise e ->
                 iterate args1 entropy fuel s1 = Raise e)
      /\ (forall out s',
            run fuel false start = Ok (out, s') ->
            iterate args1 entropy fuel s1
            = Ok ((sumQ (damage (out_series out)) / fight_length s',
                   out_dmg_breakdown out, out_aura_stats out,
                   match time_to_oom s' with
                   | None => randomized
                   | Some t => t
                   end),
                  set_fight_length (fight_length s1) s')))
  /\ (forall output s',
        iterate args1 entropy fuel s1 = Ok (output, s') ->
        time_to_oom s' = None ->
        output.2 = fight_length s1 + (randn entropy).1).
Proof.
  split; [|split].
  - intros H. rewrite !iterate_unfolded.
    assert (Hfl : fight_length s1 = fight_length s2).
    { apply (f_equal fight_length) in H. destruct s1, s2. exact H. }
    assert (Hstart :
      leftovers_cleared
        (set_fight_length (fight_length s1 + (randn entropy).1)
           (set_rng (randn entropy).2 s1))
      = leftovers_cleared
          (set_fight_length (fight_length s2 + (randn entropy).1)
             (set_rng (randn entropy).2 s2))).
    { rewrite <- Hfl. destruct s1, s2. unfold leftovers_cleared in *.
      simpl in *. injection H as -> -> -> -> -> -> -> -> -> -> -> -> ->
                                  -> -> -> -> -> -> -> -> -> -> -> ->
                                  -> -> -> -> -> -> -> ->.
      reflexivity. }
    cbv zeta.
    rewrite <- (run_ignores_leftovers fuel false
                  (set_fight_length _ (set_rng _ s1))).
    rewrite <- (run_ignores_leftovers fuel false
                  (set_fight_length _ (set_rng _ s2))).
    rewrite Hstart, Hfl. reflexivity.
  - cbv zeta. rewrite iterate_unfolded. cbv zeta. split.
    + intros e ->. reflexivity.
    + intros out s' ->. reflexivity.
  - intros output s'. rewrite iterate_unfolded. cbv zeta.
    destruct (run fuel false _) as [[out s3]|e]; [|discriminate].
    intros H Hoom. injection H as <- <-.
    assert (Ht : forall v s, time_to_oom (set_fight_length v s)
                             = time_to_oom s).
    { intros v s. destruct s. reflexivity. }
    rewrite Ht in Hoom. rewrite Hoom. reflexivity.
Qed.

End Reseeding.

(** * Concrete runs with the miniature player *)

Section MiniContract.

#[local] Existing Instance Mini.types.
#[local] Existing Instance Mini.collab.

Ltac mini_pm :=
  let p := fresh "p" in
  let g := fresh "g" in
  intros p g; destruct p as [? ? ? ? ? ? ? ? ? ? ? ? ? ? ? [|] ? ? ?];
  repeat split; reflexivity.

Lemma mini_trinket_secure {A : Type} (a : A) :
  secure (call_trinket (fun s : Sim => (a, s))).
Proof. intros s1 s2 H. simpl. split; [reflexivity | assumption]. Qed.

(** The miniature player honours the logging contract. *)
Lemma mini_log_oblivious : LogOblivious.
Proof.
  constructor; intros;
    try apply mini_trinket_secure;
    try solve [ mini_pm ].
  - intros p g Hl. destruct p. simpl in Hl. subst. discriminate.
  - intros p g Hl. destruct p. simpl in Hl. subst. discriminate.
  - intros s. reflexivity.
Qed.

End MiniContract.

Section ConcreteRuns.

#[local] Existing Instance Mini.types.
#[local] Existing Instance Mini.collab.

(** C1, counterexample.  Two replicates started from the same state with
    the same argument 7, whose reseeding draws different entropy, end with
    different randomized fight lengths: the argument is not a seed. *)
Lemma same_argument_different_replicates :
  match iterate [7%Z] [0.5; 0] 100 fresh_fight,
        iterate [7%Z] [-0.25; 0] 100 fresh_fight with
  | Ok (o1, _), Ok (o2, _) => ~ o1.2 == o2.2
  | _, _ => False
  end.
Proof. vm_compute. intros H. discriminate H. Qed.

Lemma iterate_determined_witness :
  iterate [1%Z] [0.5; 0] 100 fresh_fight
  = iterate [2%Z] [0.5; 0] 100
      (fresh_fight |> set_rng [0.75] |> set_rip_debuff true
                   |> set_next_action 5 |> set_swing_times [3]).
Proof.
  apply (iterate_determined_by_entropy (C := Mini.collab)).
  reflexivity.
Defined.

(** C2, counterexample.  A tracker of the base class is constructed
    without complaint; its [is_active] returns the [NotImplementedError]
    object, and [update] inside the measurement window fails on it with a
    [TypeError]. *)
Lemma base_tracker_accepted_then_fails :
  let s := Mini.sim_with 100 (Mini.player_with 100 0) in
  UptimeTracker.init BaseTracker = Ok UptimeTracker.reset
  /\ (exists msg,
        UptimeTracker.is_active BaseTracker s = NotImplementedErrorObject msg)
  /\ UptimeTracker.update_tracker BaseTracker 20 s UptimeTracker.reset
     = Raise TypeError
  /\ UptimeTracker.update BaseTracker 20 s = Raise TypeError.
Proof.
  simpl. split; [reflexivity|]. split; [eexists; reflexivity|].
  split; reflexivity.
Qed.

Lemma implemented_trackers_witness :
  exists t',
    UptimeTracker.update_tracker RipTracker 20
      (Mini.sim_with 100 (Mini.player_with 100 0)) UptimeTracker.reset
    = Ok t'
    /\ 15 <= last_update t'.
Proof.
  assert (Hlast : 15 <= last_update UptimeTracker.reset)
    by (vm_compute; discriminate).
  assert (Hkind : RipTracker <> BaseTracker) by discriminate.
  exact (proj1 (proj2 (proj2 (proj2
           (implemented_trackers_update (ET := Mini.types) RipTracker 20
              (Mini.sim_with 100 (Mini.player_with 100 0))
              UptimeTracker.reset Hlast)) Hkind))).
Defined.

Lemma lacerate_refresh_witness :
  exists s',
    lacerate 13 lacerate_up = Ok (60, s')
    /\ Forall2 Qeq (lacerate_ticks s') [12; 15; 18; 21; 24; 27]
    /\ lacerate_stacks s' = 3%Z.
Proof.
  destruct (lacerate_refresh_keeps_cadence (C := Mini.collab) 13 lacerate_up)
    as (s' & Hrun & _ & Hlands).
  destruct (Hlands eq_refl) as (_ & _ & _ & Hrefresh).
  destruct (Hrefresh eq_refl) as (_ & _ & Hexample).
  exists s'. split; [exact Hrun|].
  apply Hexample; reflexivity.
Defined.


Lemma logging_noninterference_witness :
  exists o1 s1 o2 s2,
    run 100 true short_fight = Ok (o1, s1)
    /\ run 100 false short_fight = Ok (o2, s2)
    /\ length (times (out_series o1)) = 7%nat
    /\ out_series o1 = out_series o2
    /\ out_dmg_breakdown o1 = out_dmg_breakdown o2
    /\ out_aura_stats o1 = out_aura_stats o2
    /\ erase s1 = erase s2
    /\ out_combat_log o1 <> None
    /\ out_combat_log o2 = None.
Proof.
  pose proof (logging_noninterference (LO := mini_log_oblivious) 100
                short_fight) as H.
  destruct (run 100 true short_fight) as [[o1 s1]|e1] eqn:E1;
    [|vm_compute in E1; discriminate E1].
  destruct (run 100 false short_fight) as [[o2 s2]|e2] eqn:E2;
    [|vm_compute in E2; discriminate E2].
  destruct H as (H1 & H2 & H3 & H4).
  exists o1, s1, o2, s2.
  split; [reflexivity|]. split; [reflexivity|].
  split; [vm_compute in E1; injection E1 as <- _; reflexivity|].
  split; [exact H1|]. split; [exact H2|]. split; [exact H3|].
  split; [exact H4|].
  split; [vm_compute in E1; injection E1 as <- _; discriminate|].
  vm_compute in E2. injection E2 as <- _. reflexivity.
Defined.

Lemma insufficient_energy_witness :
  0 < (25 - 10) / 10
  /\ execute_rotation 10 roar_unaffordable
     = Ok (0, set_next_action
                (capped 10 roar_unaffordable (10 + (25 - 10) / 10)
                 + latency roar_unaffordable)
                roar_unaffordable).
Proof.
  apply (insufficient_energy_waits (C := Mini.collab) 10 roar_unaffordable false true GRoar);
    reflexivity.
Defined.

(** C7, counterexample.  At time 10 the gates select Shred, which costs 42
    with 30 Energy and no Clearcasting; 5 Energy are floating, so the next
    decision is set to [10 + (42 - 25) / 10 + 0.1 = 11.8], not to
    [10 + (42 - 30) / 10 + 0.1 = 11.3]. *)
Lemma shred_wait_counts_floating_energy :
  let s := shred_unaffordable in
  selected_gate false false 10 s = Some GShred
  /\ energy (player s) < shred_cost (pext (player s))
  /\ omen_proc (player s) = false
  /\ floating_energy 10 s == 5
  /\ exists s',
       execute_rotation 10 s = Ok (0, s')
       /\ next_action s' == 11.8
       /\ ~ next_action s'
            == capped 10 s
                 (10 + (shred_cost (pext (player s)) - energy (player s)) / 10)
               + latency s.
Proof.
  simpl. split; [reflexivity|]. split; [reflexivity|]. split; [reflexivity|].
  split; [reflexivity|].
  eexists. split; [vm_compute; reflexivity|].
  split; [reflexivity|]. vm_compute. intros H. discriminate H.
Qed.

Lemma running_average_witness :
  exists acc, consolidate true [replicate_a; replicate_b] = Ok acc.
Proof.
  apply (running_average_exact replicate_a [replicate_b]).
  intros o [<- | []]. split.
  - intros ability inner key avg Hin Hkey. simpl in Hin.
    destruct Hin as [Heq | [Heq | []]]; injection Heq as <- <-;
      simpl in Hkey; destruct Hkey as [Heq | [Heq | []]];
      injection Heq as <- <-; discriminate.
  - simpl. lia.
Defined.

Lemma uptime_tracker_witness :
  0 <= uptime (apply_calls RipTracker
                 [CallUpdate 20 (set_rip_debuff true
                                   (Mini.sim_with 100 (Mini.player_with 100 0)));
                  CallUpdate 30 (Mini.sim_with 100 (Mini.player_with 100 0))])
  <= 1.
Proof.
  apply (uptime_tracker_invariant (ET := Mini.types) RipTracker
           [CallUpdate 20 (set_rip_debuff true
                             (Mini.sim_with 100 (Mini.player_with 100 0)));
            CallUpdate 30 (Mini.sim_with 100 (Mini.player_with 100 0))]).
Defined.

Lemma calc_deriv_witness :
  exists dps_delta p',
    calc_deriv quiet_replicates 2 "agility" 40 100 some_attributes
    = Ok (dps_delta, p').
Proof.
  apply (calc_deriv_restores_player quiet_replicates 2 "agility" 40 100
           some_attributes).
  - intros n q a _. reflexivity.
  - split; [eexists; reflexivity|]. split; [discriminate|].
    intros _. repeat split; eexists; reflexivity.
Defined.


End ConcreteRuns.

(** * Further properties of the code *)

(** ** Sorting *)

Section Sorting.
Context {A : Type} (leb : A -> A -> bool).

Lemma insert_sorted_perm (x : A) (l : list A) :
  Permutation (insert_sorted leb x l) (x :: l).
Proof.
  induction l as [|y l IH]; simpl.
  - reflexivity.
  - destruct (leb y x).
    + rewrite IH. apply perm_swap.
    + reflexivity.
Qed.

Lemma fold_insert_perm (l acc : list A) :
  Permutation (fold_left (fun acc x => insert_sorted leb x acc) l acc)
              (acc ++ l).
Proof.
  revert acc. induction l as [|x l IH]; intros acc; simpl.
  - rewrite app_nil_r. reflexivity.
  - rewrite IH, insert_sorted_perm.
    change (x :: acc) with ([x] ++ acc).
    rewrite (Permutation_app_comm [x] acc), <- app_assoc. reflexivity.
Qed.

Lemma pysort_perm (l : list A) : Permutation (pysort leb l) l.
Proof. unfold pysort. apply (fold_insert_perm l []). Qed.

Hypothesis leb_total : forall x y, leb x y = false -> leb y x = true.
Hypothesis leb_trans :
  forall x y z, leb x y = true -> leb y z = true -> leb x z = true.

Lemma insert_sorted_ascending (x : A) (l : list A) :
  ascending leb l -> ascending leb (insert_sorted leb x l).
Proof.
  induction l as [|y l IH]; simpl.
  - intros _. split; [constructor | exact I].
  - intros [Hy Hl]. destruct (leb y x) eqn:Hyx; simpl.
    + split; [|apply IH, Hl].
      apply List.Forall_forall. intros z Hz.
      apply (Permutation_in _ (insert_sorted_perm x l)) in Hz.
      destruct Hz as [<- | Hz]; [exact Hyx|].
      exact (proj1 (List.Forall_forall _ _) Hy z Hz).
    + apply leb_total in Hyx.
      split; [|split; assumption].
      constructor; [exact Hyx|].
      apply List.Forall_forall. intros z Hz.
      apply leb_trans with y; [exact Hyx|].
      exact (proj1 (List.Forall_forall _ _) Hy z Hz).
Qed.

Lemma fold_insert_ascending (l acc : list A) :
  ascending leb acc ->
  ascending leb (fold_left (fun acc x => insert_sorted leb x acc) l acc).
Proof.
  revert acc. induction l as [|x l IH]; intros acc Hacc; simpl.
  - exact Hacc.
  - apply IH, insert_sorted_ascending, Hacc.
Qed.

Lemma pysort_ascending (l : list A) : ascending leb (pysort leb l).
Proof. unfold pysort. apply fold_insert_ascending. exact I. Qed.

End Sorting.

Lemma Qeqb_eq (x y : Q) : Qeqb x y = true <-> x == y.
Proof. unfold Qeqb. apply Qeq_bool_iff. Qed.

Lemma Qeqb_neq (x y : Q) : Qeqb x y = false <-> ~ x == y.
Proof.
  unfold Qeqb. split.
  - intros H Heq. apply Qeq_bool_iff in Heq. congruence.
  - intros H. destruct (Qeq_bool x y) eqn:E; [|reflexivity].
    exfalso. apply H, Qeq_bool_iff, E.
Qed.

Lemma pair_leb_spec (a b : Q * Q) :
  pair_leb a b = true
  <-> fst a < fst b \/ (fst a == fst b /\ snd a <= snd b).
Proof.
  unfold pair_leb. rewrite orb_true_iff, andb_true_iff.
  rewrite Qltb_lt, Qeqb_eq, Qleb_le. reflexivity.
Qed.

Lemma pair_leb_total (a b : Q * Q) :
  pair_leb a b = false -> pair_leb b a = true.
Proof.
  intros H. apply pair_leb_spec.
  unfold pair_leb in H. apply orb_false_iff in H as [H1 H2].
  apply Qltb_ge in H1. apply andb_false_iff in H2.
  destruct (Qlt_le_dec (fst b) (fst a)) as [Hlt | Hle]; [left; exact Hlt|].
  right. assert (Heq : fst a == fst b) by lra.
  split; [lra|].
  destruct H2 as [H2 | H2].
  - apply Qeqb_neq in H2. contradiction.
  - apply Qleb_gt in H2. lra.
Qed.

Lemma pair_leb_trans (a b c : Q * Q) :
  pair_leb a b = true -> pair_leb b c = true -> pair_leb a c = true.
Proof.
  rewrite !pair_leb_spec. intros [H1 | [H1 H1']] [H2 | [H2 H2']].
  - left. lra.
  - left. lra.
  - left. lra.
  - right. split; lra.
Qed.

Lemma Qleb_total (x y : Q) : Qleb x y = false -> Qleb y x = true.
Proof. intros H. apply Qleb_gt in H. apply Qleb_le. lra. Qed.

Lemma Qleb_trans (x y z : Q) :
  Qleb x y = true -> Qleb y z = true -> Qleb x z = true.
Proof. rewrite !Qleb_le. intros H1 H2. lra. Qed.

(** ** Pending refreshes and the Energy reserved for them *)

Lemma sumQ_from (l : list Q) (a : Q) : fold_left Qplus l a == a + sumQ l.
Proof.
  unfold sumQ. revert a. induction l as [|x l IH]; intros a; simpl.
  - ring.
  - rewrite (IH (a + x)), (IH (0 + x)). ring.
Qed.

Lemma sumQ_cons (x : Q) (l : list Q) : sumQ (x :: l) == x + sumQ l.
Proof. unfold sumQ at 1. simpl. rewrite sumQ_from. ring. Qed.

Lemma tenth_of (c : Q) : c / 10 * 10 == c.
Proof. field. Qed.

Section Reservation.
Context `{C : Collab}.

Lemma pending_actions_ascending (time : Q) (s : Sim) :
  ascending pair_leb (pending_actions time s).
Proof.
  unfold pending_actions.
  apply pysort_ascending; [apply pair_leb_total | apply pair_leb_trans].
Qed.

(** X1.  [pending_actions] after its [sort()] is in ascending order of
    the Python tuples [(due_time, cost)], so its first entry is the
    earliest refresh; it has at most four entries, and each one is the
    expiry of an aura that is up: Rip (when a refresh is pending), Rake,
    a Mangle of finite duration, or Savage Roar. *)
Theorem pending_actions_sorted (time : Q) (s : Sim) :
  ascending pair_leb (pending_actions time s)
  /\ (length (pending_actions time s) <= 4)%nat
  /\ (forall a, In a (pending_actions time s) ->
        (rip_refresh_pending s = true /\ fst a = rip_end s)
        \/ (rake_debuff s = true /\ fst a = rake_end s)
        \/ (mangle_debuff s = true /\ mangle_end s = Finite (fst a))
        \/ (savage_roar (player s) = true /\ fst a = roar_end s)).
Proof.
  split; [apply pending_actions_ascending|].
  unfold pending_actions. split.
  - rewrite (Permutation_length (pysort_perm pair_leb _)).
    rewrite !length_app.
    destruct (rip_refresh_pending s);
      destruct (rake_debuff s && Qltb (rake_end s) (fight_length s - 9));
      destruct (savage_roar (player s));
      destruct (mangle_end s) as [m|];
      try destruct (mangle_debuff s && Qltb m (fight_length s - 1));
      simpl; lia.
  - intros a Hin.
    apply (Permutation_in _ (pysort_perm pair_leb _)) in Hin.
    rewrite !in_app_iff in Hin.
    destruct Hin as [Hin | [Hin | [Hin | Hin]]].
    + destruct (rip_refresh_pending s); [|destruct Hin].
      destruct Hin as [<- | []]. left. split; reflexivity.
    + destruct (rake_debuff s) eqn:Hrake; [|destruct Hin]. simpl in Hin.
      destruct (Qltb (rake_end s) (fight_length s - 9)); [|destruct Hin].
      destruct Hin as [<- | []]. right. left. split; reflexivity.
    + destruct (mangle_end s) as [m|]; [|destruct Hin].
      destruct (mangle_debuff s) eqn:Hm; [|destruct Hin]. simpl in Hin.
      destruct (Qltb m (fight_length s - 1)); [|destruct Hin].
      destruct Hin as [<- | []]. right. right. left. split; reflexivity.
    + destruct (savage_roar (player s)); [|destruct Hin].
      destruct Hin as [<- | []]. right. right. right. split; reflexivity.
Qed.

Lemma float_energy_ge (pending : list (Q * Q)) (f prev : Q) :
  f <= float_energy pending f prev.
Proof.
  revert f prev. induction pending as [|[t c] rest IH]; intros f prev; simpl.
  - lra.
  - destruct (Qltb (t - prev) (c / 10)) eqn:H.
    + apply Qltb_lt in H. pose proof (tenth_of c) as Hc.
      eapply Qle_trans; [|apply IH]. lra.
    + apply IH.
Qed.

Lemma float_energy_le (pending : list (Q * Q)) (f prev : Q) :
  ascending pair_leb pending ->
  Forall (fun a => prev <= fst a /\ 0 <= snd a) pending ->
  float_energy pending f prev <= f + sumQ (map snd pending).
Proof.
  revert f prev. induction pending as [|[t c] rest IH]; intros f prev; simpl.
  - intros _ _. unfold sumQ. simpl. lra.
  - intros [Hhead Hrest] Hall.
    inversion Hall as [|? ? [Hprev Hcost] Hall']; subst. simpl in Hprev, Hcost.
    rewrite sumQ_cons.
    assert (Hafter : forall prev', prev' <= t ->
              Forall (fun a => prev' <= fst a /\ 0 <= snd a) rest).
    { intros prev' Hle. apply List.Forall_forall. intros a Ha.
      pose proof (proj1 (List.Forall_forall _ _) Hhead a Ha) as Hleb.
      pose proof (proj1 (List.Forall_forall _ _) Hall' a Ha) as [_ Hc].
      apply pair_leb_spec in Hleb. simpl in Hleb.
      split; [|exact Hc]. destruct Hleb as [Hlt | [Heq _]]; lra. }
    pose proof (tenth_of c) as Hc.
    destruct (Qltb (t - prev) (c / 10)) eqn:H.
    + eapply Qle_trans; [apply IH; [exact Hrest | apply Hafter; lra]|]. lra.
    + apply Qltb_ge in H.
      eapply Qle_trans; [apply IH; [exact Hrest | apply Hafter; lra]|]. lra.
Qed.

(** X2.  The Energy that [execute_rotation] sets aside for the pending
    refreshes ([floating_energy]) is never negative, so the Energy offered
    to the fillers ([excess_e]) never exceeds the player's Energy; and when
    no pending refresh is overdue and no cost is negative, the reserve is at
    most the sum of the costs of the pending refreshes. *)
Theorem floating_energy_bounds (time : Q) (s : Sim) :
  0 <= floating_energy time s
  /\ excess_e time s <= energy (player s)
  /\ (Forall (fun a => time <= fst a /\ 0 <= snd a) (pending_actions time s) ->
      floating_energy time s <= sumQ (map snd (pending_actions time s))).
Proof.
  assert (H0 : 0 <= floating_energy time s) by apply float_energy_ge.
  split; [exact H0|]. split; [unfold excess_e; lra|].
  intros Hall. unfold floating_energy.
  eapply Qle_trans.
  - apply float_energy_le; [apply pending_actions_ascending | exact Hall].
  - lra.
Qed.

End Reservation.
(** ** Tick schedules *)

Lemma eps_small : 0 < eps /\ eps < 1.
Proof. split; reflexivity. Qed.

Lemma inject_Z_pred (k : Z) : inject_Z (k - 1) == inject_Z k - 1.
Proof.
  unfold Z.sub. rewrite inject_Z_plus, inject_Z_opp. reflexivity.
Qed.

Lemma Qceiling_unique (x : Q) (k : Z) :
  inject_Z k - 1 < x -> x <= inject_Z k -> Qceiling x = k.
Proof.
  intros Hlo Hhi.
  assert (H1 : (Qceiling x <= k)%Z).
  { rewrite <- (Qceiling_Z k). apply Qceiling_resp_le. exact Hhi. }
  assert (H2 : (k - 1 < Qceiling x)%Z).
  { rewrite Zlt_Qlt. rewrite inject_Z_pred.
    eapply Qlt_le_trans; [exact Hlo | apply Qle_ceiling]. }
  lia.
Qed.

(** [np.arange] has [n] values when the cadence point of index [n - 1] is
    below [stop] and the one of index [n] is not. *)
Lemma arange_count (start stop step : Q) (n : nat) :
  0 < step ->
  start + (inject_Z (Z.of_nat n) - 1) * step < stop ->
  stop <= start + inject_Z (Z.of_nat n) * step ->
  arange start stop step = cadence start step n.
Proof.
  intros Hstep Hlo Hhi. unfold arange, cadence. do 2 f_equal.
  rewrite (Qceiling_unique _ (Z.of_nat n)); [apply Nat2Z.id | |].
  - apply Qlt_shift_div_l; [assumption|]. lra.
  - apply Qle_shift_div_r; [assumption|]. lra.
Qed.

Lemma cadence_last (start step d : Q) (m : nat) :
  List.last (cadence start step (S m)) d
  = start + inject_Z (Z.of_nat m) * step.
Proof.
  unfold cadence. rewrite seq_S, map_app. simpl. apply last_last.
Qed.

Section TickSchedules.
Context `{C : Collab}.

(** X3.  A Rake that lands schedules exactly three ticks, 3, 6 and 9
    seconds after the cast, whatever the time of the cast; the last one
    falls on [rake_end = time + 9], and the tick damage and the Savage Roar
    snapshot are those of the player after the cast.  A Rake that does not
    land leaves the debuff, its expiry and its ticks as they were. *)
Theorem rake_schedules_three_ticks (time : Q) (s : Sim) :
  let cast := player_rake (mangle_debuff s) (player s) (rng s) in
  exists s',
    rake time s = Ok (cast.1.1.1, s')
    /\ (cast.1.1.2 = true ->
        rake_debuff s' = true
        /\ rake_end s' = time + 9
        /\ rake_ticks s' = cadence (time + 3) 3 3
        /\ List.last (rake_ticks s') 0 == rake_end s'
        /\ rake_damage s' = rake_tick (pext cast.1.2)
        /\ rake_sr_snapshot s' = savage_roar cast.1.2)
    /\ (cast.1.1.2 = false ->
        rake_debuff s' = rake_debuff s
        /\ rake_end s' = rake_end s
        /\ rake_ticks s' = rake_ticks s).
Proof.
  intros cast. unfold rake, bind, gets, call_player, modify, ret.
  fold cast. destruct cast as [[[dmg success] p'] g'] eqn:Hcast.
  destruct s; simpl in *. destruct success; simpl.
  - eexists. split; [reflexivity|]. simpl. split; [|discriminate].
    intros _. split; [reflexivity|]. split; [reflexivity|].
    assert (Hticks : arange (time + 3) (time + 9.01) 3
                     = cadence (time + 3) 3 3).
    { apply arange_count; [reflexivity| |];
        change (inject_Z (Z.of_nat 3)) with 3; lra. }
    rewrite Hticks.
    split; [reflexivity|]. split; [|split; reflexivity].
    rewrite cadence_last. change (inject_Z (Z.of_nat 2)) with 2. ring.
  - eexists. split; [reflexivity|]. simpl. split; [discriminate|].
    intros _. repeat split; reflexivity.
Qed.

(** X4.  A Lacerate that lands while no Lacerate is up starts the debuff
    with one stack, expiry [time + 15] and exactly five ticks, 3, 6, 9, 12
    and 15 seconds after the cast, the last one on the expiry; its tick
    damage is the player's [lacerate_tick] for one stack, with the 15%
    of Enrage when it is up, and its crit chance the player's less 4%. *)
Theorem lacerate_fresh_schedule (time : Q) (s : Sim) :
  let cast := player_lacerate (mangle_debuff s) (player s) (rng s) in
  lacerate_debuff s = false ->
  cast.1.1.2 = true ->
  exists s',
    lacerate time s = Ok (cast.1.1.1, s')
    /\ lacerate_debuff s' = true
    /\ lacerate_end s' = time + 15
    /\ lacerate_ticks s' = cadence (time + 3) 3 5
    /\ List.last (lacerate_ticks s') 0 == lacerate_end s'
    /\ lacerate_stacks s' = 1%Z
    /\ lacerate_damage s'
       == lacerate_tick (pext cast.1.2) * (1 + 0.15 * b2q (enrage cast.1.2))
    /\ lacerate_crit_chance s' = crit_chance (pext cast.1.2) - 0.04.
Proof.
  intros cast Hfresh Hlands.
  unfold lacerate, bind, gets, call_player, ifS, modify, ret.
  fold cast. destruct cast as [[[dmg success] p'] g'] eqn:Hcast.
  destruct s; simpl in *. subst. simpl.
  eexists. split; [reflexivity|]. simpl.
  assert (Hticks : arange (time + 3) (time + 16) 3 = cadence (time + 3) 3 5).
  { apply arange_count; [reflexivity| |];
      change (inject_Z (Z.of_nat 5)) with 5; lra. }
  rewrite Hticks.
  split; [reflexivity|]. split; [reflexivity|]. split; [reflexivity|].
  split.
  { rewrite cadence_last. change (inject_Z (Z.of_nat 4)) with 4. ring. }
  split; [reflexivity|]. split; [|reflexivity].
  change (inject_Z 1) with 1. ring.
Qed.

(** X5.  A Rip that lands with a duration of [2 * k] seconds ([k >= 1])
    starts at the time of the cast, ends [rip_duration] later and schedules
    exactly [k] ticks, one every 2 seconds from [time + 2], the last one on
    [rip_end]; it snapshots the tick damage returned by the cast, the
    player's crit chance and Savage Roar. *)
Theorem rip_schedule_even_duration (time : Q) (s : Sim) (k : nat) :
  let cast := player_rip (player s) (rng s) in
  cast.1.1.2 = true ->
  (1 <= k)%nat ->
  rip_duration (pext cast.1.2) == 2 * inject_Z (Z.of_nat k) ->
  exists s',
    rip time s = Ok (0, s')
    /\ rip_debuff s' = true
    /\ rip_start s' = time
    /\ rip_end s' = time + rip_duration (pext cast.1.2)
    /\ rip_ticks s' = cadence (time + 2) 2 k
    /\ List.last (rip_ticks s') 0 == rip_end s'
    /\ rip_damage s' = cast.1.1.1
    /\ rip_crit_chance s' = crit_chance (pext cast.1.2)
    /\ rip_sr_snapshot s' = savage_roar cast.1.2.
Proof.
  intros cast Hlands Hk Hdur.
  unfold rip, bind, gets, call_player, modify, ret.
  fold cast. destruct cast as [[[dmg success] p'] g'] eqn:Hcast.
  destruct s; simpl in *. subst. simpl.
  eexists. split; [reflexivity|]. simpl.
  assert (Hticks : arange (time + 2) (time + rip_duration (pext p') + eps) 2
                   = cadence (time + 2) 2 k).
  { pose proof eps_small as [He0 He1].
    apply arange_count; [reflexivity| |]; rewrite Hdur;
      generalize (inject_Z (Z.of_nat k)); intros K; lra. }
  rewrite Hticks.
  split; [reflexivity|]. split; [reflexivity|]. split; [reflexivity|].
  split; [reflexivity|]. split; [|repeat split; reflexivity].
  destruct k as [|m]; [lia|]. rewrite cadence_last, Hdur.
  rewrite Nat2Z.inj_succ. unfold Z.succ. rewrite inject_Z_plus.
  change (inject_Z 1) with 1. ring.
Qed.

End TickSchedules.

(** ** The swing schedule *)

Lemma swing_schedule_shape (start timer fl : Q) :
  0 < timer ->
  exists n,
    (2 <= n)%nat
    /\ Forall2 Qeq
         (if Qgtb start (fl - timer) then [start; start + timer]
          else arange start (fl + timer) timer)
         (cadence start timer n)
    /\ fl <= start + (inject_Z (Z.of_nat n) - 1) * timer.
Proof.
  intros Htimer. destruct (Qgtb start (fl - timer)) eqn:Hlate.
  - apply Qgtb_gt in Hlate. exists 2%nat. split; [lia|]. split.
    + unfold cadence. simpl.
      constructor; [|constructor; [|constructor]].
      * change (inject_Z 0) with 0. ring.
      * change (inject_Z 1) with 1. ring.
    + change (inject_Z (Z.of_nat 2)) with 2. lra.
  - apply Qgtb_le in Hlate.
    exists (length (arange start (fl + timer) timer)).
    pose proof (arange_complete start (fl + timer) timer Htimer) as Hc.
    set (n := length (arange start (fl + timer) timer)) in *.
    split; [|split].
    + assert (Hn : 2 * timer <= inject_Z (Z.of_nat n) * timer) by lra.
      apply Qmult_lt_0_le_reg_r in Hn; [|assumption].
      change 2 with (inject_Z 2) in Hn. rewrite <- Zle_Qle in Hn. lia.
    + rewrite (arange_cadence start (fl + timer) timer). fold n.
      unfold cadence. clear.
      induction (map _ _); constructor; [reflexivity | assumption].
    + lra.
Qed.

Section SwingSchedule.
Context `{C : Collab}.

(** X6.  [update_swing_times] with a positive new swing timer.  Called
    with [first_swing=False] on an empty schedule it raises [IndexError].
    Called for a first swing, or on a schedule that is not empty with a
    swing timer that is not zero, it assigns the timer and replaces the
    schedule, touching nothing else: the new schedule starts at [time] for
    a first swing, and otherwise at the time that leaves the same fraction
    of the swing to wait as before; it has at least two swings, spaced by
    the new timer, and its last swing is not before the end of the
    fight. *)
Theorem update_swing_times_covers (time new_swing_timer : Q)
    (first_swing : bool) (s : Sim) :
  0 < new_swing_timer ->
  (first_swing = false -> swing_times s = [] ->
   update_swing_times time new_swing_timer first_swing s = Raise IndexError)
  /\ (first_swing = true
      \/ (swing_times s <> [] /\ ~ swing_timer s == 0) ->
      exists start n s',
        update_swing_times time new_swing_timer first_swing s = Ok (tt, s')
        /\ s' = set_swing_times (swing_times s')
                  (set_swing_timer new_swing_timer s)
        /\ (first_swing = true -> start = time)
        /\ (forall next rest,
              first_swing = false -> swing_times s = next :: rest ->
              (start - time) / new_swing_timer
              == (next - time) / swing_timer s)
        /\ (2 <= n)%nat
        /\ Forall2 Qeq (swing_times s') (cadence start new_swing_timer n)
        /\ fight_length s
           <= start + (inject_Z (Z.of_nat n) - 1) * new_swing_timer).
Proof.
  intros Hpos. split.
  - intros -> Hempty.
    unfold update_swing_times, bind, getsR. rewrite Hempty. reflexivity.
  - intros Hcan.
    unfold update_swing_times, bind, getsR, gets, ret, modify.
    destruct first_swing.
    + destruct (swing_schedule_shape time new_swing_timer (fight_length s) Hpos)
        as (n & Hn & Hshape & Hlast).
      exists time, n. eexists. split; [reflexivity|].
      destruct s; simpl in *.
      split; [destruct (Qgtb time _); reflexivity|].
      split; [reflexivity|]. split; [discriminate|]. split; [exact Hn|].
      split; [|exact Hlast].
      destruct (Qgtb time _); exact Hshape.
    + destruct Hcan as [Hcan | [Hcan _]]; [discriminate|].
      destruct (swing_times s) as [|next rest] eqn:Hsw; [congruence|].
      simpl.
      set (start := time + (next - time) / swing_timer s * new_swing_timer).
      destruct (swing_schedule_shape start new_swing_timer (fight_length s) Hpos)
        as (n & Hn & Hshape & Hlast).
      exists start, n. eexists. split; [reflexivity|].
      destruct s; simpl in *.
      split; [destruct (Qgtb start _); reflexivity|].
      split; [discriminate|]. split.
      { intros next' rest' _ Heq. injection Heq as <- _.
        unfold start. set (frac := (next - time) / swing_timer0).
        assert (Hnum : time + frac * new_swing_timer - time
                       == frac * new_swing_timer) by ring.
        rewrite Hnum. apply Qdiv_mult_l. lra. }
      split; [exact Hn|]. split; [|exact Hlast].
      destruct (Qgtb start _); exact Hshape.
Qed.

(** X7.  [apply_tigers_fury] always returns.  It sets the expiry of the
    buff 6 seconds ahead and the cooldown to 30 seconds, turns the
    [tigers_fury] parameter on, schedules the next decision one latency
    ahead, and adds [time + 30] to [proc_end_times], which it leaves
    sorted: the result is in ascending order whatever the order before. *)
Theorem tigers_fury_bookkeeping (time : Q) (s : Sim) :
  exists s',
    apply_tigers_fury time s = Ok (tt, s')
    /\ tf_end s' = time + 6
    /\ tf_cd (player s') = 30
    /\ tigers_fury (params s') = true
    /\ next_action s' = time + latency s
    /\ Permutation (proc_end_times s') (proc_end_times s ++ [time + 30])
    /\ ascending Qleb (proc_end_times s').
Proof.
  unfold apply_tigers_fury, bind, gets, call_player, modify, log_append.
  destruct s; simpl.
  destruct (player_calc_damage_params _ _ _) as [[[] p'] g']. simpl.
  destruct log0; eexists; (split; [reflexivity|]); simpl;
    (split; [reflexivity|]); (split; [destruct p'; reflexivity|]);
    (split; [destruct params0; reflexivity|]); (split; [reflexivity|]);
    (split; [apply pysort_perm|]);
    apply pysort_ascending; [apply Qleb_total | apply Qleb_trans
                            | apply Qleb_total | apply Qleb_trans].
Qed.

End SwingSchedule.
(** ** Uptime of an aura that is always up, and the Sunder Armor stacks *)

Section TrackerActive.
Context `{C : Collab}.



(** X9.  One [update] of the armor debuff controller always returns 0
    damage.  It adds a Sunder Armor stack exactly when Sunder is in use,
    fewer than 5 stacks are up and [time >= 1.5 * stacks]; it never adds
    more than one stack nor goes past 5, and when it adds none it changes
    nothing at all (the damage parameters of the player are recomputed only
    after a new stack). *)
Theorem sunder_one_stack_per_update (time : Q) (s : Sim) :
  exists s',
    ArmorDebuffs.update time s = Ok (0, s')
    /\ use_sunder s' = use_sunder s
    /\ ((sunder (params s) <= 5)%Z -> (sunder (params s') <= 5)%Z)
    /\ (use_sunder s = true /\ (sunder (params s) < 5)%Z
        /\ 1.5 * inject_Z (sunder (params s)) <= time ->
        sunder (params s') = (sunder (params s) + 1)%Z)
    /\ (~ (use_sunder s = true /\ (sunder (params s) < 5)%Z
           /\ 1.5 * inject_Z (sunder (params s)) <= time) ->
        s' = s).
Proof.
  unfold ArmorDebuffs.update, ifS, bind, modify, gets, call_player,
    log_append, ret.
  destruct (use_sunder s && (sunder (params s) <? 5)%Z
            && Qgeb time (1.5 * inject_Z (sunder (params s)))) eqn:Hguard.
  - apply andb_true_iff in Hguard as [Hguard Htime].
    apply andb_true_iff in Hguard as [Huse Hlt].
    apply Z.ltb_lt in Hlt. apply Qgeb_ge in Htime.
    destruct s; simpl in *. destruct params0; simpl in *.
    destruct log0; simpl;
      destruct (player_calc_damage_params _ _ _) as [[[] p'] g'];
      eexists; (split; [reflexivity|]); simpl;
      (split; [reflexivity|]); (split; [lia|]);
      (split; [reflexivity|]); intros Hnot; exfalso; apply Hnot; auto.
  - exists s. split; [reflexivity|]. split; [reflexivity|].
    split; [auto|]. split; [|reflexivity].
    intros (Huse & Hlt & Htime). exfalso.
    apply Z.ltb_lt in Hlt. apply Qgeb_ge in Htime.
    rewrite Huse, Hlt, Htime in Hguard. discriminate.
Qed.

End TrackerActive.
(** ** Replicates: order of the outputs and the fight length *)

Lemma consolidate_from_order (detailed_output : bool)
    (outputs : list IterOutput) (acc0 acc : Consolidation) :
  consolidate_from detailed_output acc0 outputs = Ok acc ->
  loop_i acc = (loop_i acc0 + length outputs)%nat
  /\ dps_vals acc = dps_vals acc0 ++ map (fun o : IterOutput => o.1.1.1) outputs
  /\ oom_times acc
     = oom_times acc0
       ++ (if detailed_output then map (fun o : IterOutput => o.2) outputs
           else [])
  /\ (detailed_output = false -> sums acc = sums acc0)
  /\ (detailed_output = true -> outputs <> [] -> sums acc <> None).
Proof.
  revert acc0. induction outputs as [|o rest IH]; intros acc0 H; simpl in H.
  - injection H as <-. rewrite !app_nil_r, Nat.add_0_r.
    destruct detailed_output; simpl; rewrite ?app_nil_r;
      repeat split; auto; congruence.
  - destruct (consolidate_one detailed_output acc0 o) as [acc1|] eqn:Hone;
      [|discriminate].
    destruct (IH _ H) as (Hi & Hd & Ho & Hs & Hs').
    unfold consolidate_one in Hone.
    destruct o as [[[avg_dps bd] auras] oom].
    destruct detailed_output; simpl in Hone.
    + destruct (match loop_i acc0 with
                | O => _
                | S _ => _
                end) as [sm|] eqn:Hsm; [|discriminate].
      injection Hone as <-. simpl in *.
      rewrite Hi, Hd, Ho, <- !app_assoc. simpl.
      split; [lia|]. split; [reflexivity|]. split; [reflexivity|].
      split; [discriminate|]. intros _ _.
      destruct rest as [|o' rest'].
      * simpl in H. injection H as <-. discriminate.
      * apply Hs'; [reflexivity | discriminate].
    + injection Hone as <-. simpl in *.
      rewrite Hi, Hd, Ho, <- !app_assoc. simpl.
      split; [lia|]. split; [reflexivity|]. split; [reflexivity|].
      split; [intros _; apply Hs; reflexivity | discriminate].
Qed.

Lemma consolidate_from_plain (outputs : list IterOutput) (acc0 : Consolidation) :
  exists acc, consolidate_from false acc0 outputs = Ok acc.
Proof.
  revert acc0. induction outputs as [|o rest IH]; intros acc0; simpl.
  - eauto.
  - destruct o as [[[avg_dps bd] auras] oom]. simpl. apply IH.
Qed.

(** X10.  The consolidation loop of [run_replicates] keeps the outputs in
    the order in which the pool yields them: when it finishes, [dps_vals]
    holds the [avg_dps] of every output, in order, and with
    [detailed_output] the array [oom_times] holds their [time_to_oom], in
    order.  Without [detailed_output] the loop cannot fail and computes no
    summary; with it, the summaries are bound as soon as there is one
    output. *)
Theorem consolidate_keeps_order (outputs : list IterOutput) :
  (exists acc, consolidate false outputs = Ok acc)
  /\ forall detailed_output acc,
       consolidate detailed_output outputs = Ok acc ->
       loop_i acc = length outputs
       /\ dps_vals acc = map (fun o : IterOutput => o.1.1.1) outputs
       /\ oom_times acc
          = (if detailed_output
             then map (fun o : IterOutput => o.2) outputs else [])
       /\ (detailed_output = false -> sums acc = None)
       /\ (detailed_output = true -> outputs <> [] -> sums acc <> None).
Proof.
  split; [apply consolidate_from_plain|].
  intros detailed_output acc H.
  apply consolidate_from_order in H. simpl in H. exact H.
Qed.

Section ReplicateRuns.
Context `{C : Collab}.

(** X11.  [run_replicates] with [detailed_output=True] and no replicate
    raises [UnboundLocalError]: the loop body never runs, and the final
    [return] names [cast_sum] and [aura_sum], which only the first pass
    through the loop binds.  Without [detailed_output] the same call
    returns the empty array. *)
Theorem detailed_output_needs_a_replicate (entropy : nat -> Rng) (fuel : nat)
    (s : Sim) :
  run_replicates_result 0 true entropy fuel s = Raise UnboundLocalError
  /\ exists s', run_replicates_result 0 false entropy fuel s = Ok (([], None), s').
Proof.
  unfold run_replicates_result, run_replicates, bind, gets, getsR, call_player.
  simpl.
  destruct (player_calc_damage_params _ _ _) as [[[] p1] g1]. simpl.
  destruct (player_set_mana_regen _ _) as [[[] p2] g2]. simpl.
  split; [reflexivity | eexists; reflexivity].
Qed.

(** X12.  When [iterate] returns, the simulation has the fight length it
    had before the call, although the run in between used the randomized
    one; the fourth component of the result is the time at which the
    player went out of mana when the run recorded one, and otherwise the
    randomized fight length, the base length plus the normal variate drawn
    first from the reseeded generator. *)
Theorem iterate_restores_fight_length (args : list Z) (entropy : Rng)
    (fuel : nat) (s : Sim) (out : IterOutput) (s' : Sim) :
  iterate args entropy fuel s = Ok (out, s') ->
  fight_length s' = fight_length s
  /\ out.2 = match time_to_oom s' with
             | None => fight_length s + (randn entropy).1
             | Some t => t
             end.
Proof.
  unfold iterate, bind, modify, gets, np_randn, ret.
  destruct s; simpl. destruct (randn entropy) as [jitter g]. simpl.
  destruct (run fuel false _) as [[o s1]|]; [|discriminate].
  intros H. injection H as <- <-. destruct s1; simpl.
  split; reflexivity.
Qed.

End ReplicateRuns.
(** ** Configuration *)

Lemma forallb_same {A : Type} (f g : A -> bool) (l : list A) :
  (forall x, f x = g x) -> forallb f l = forallb g l.
Proof.
  intros H. induction l as [|x l IH]; simpl; [reflexivity|].
  rewrite H, IH. reflexivity.
Qed.

Section Dictionaries.
Context {V : Type}.

Lemma dict_get_set_same (k : string) (v : V) (d : Dict V) :
  dict_get k (dict_set k v d) = Some v.
Proof.
  induction d as [|[k' v'] d IH]; simpl.
  - rewrite String.eqb_refl. reflexivity.
  - destruct (String.eqb k k') eqn:E; simpl; rewrite E; [reflexivity | exact IH].
Qed.

Lemma dict_get_set_other (k k' : string) (v : V) (d : Dict V) :
  k <> k' -> dict_get k (dict_set k' v d) = dict_get k d.
Proof.
  intros Hne. induction d as [|[k'' v''] d IH]; simpl.
  - apply String.eqb_neq in Hne. rewrite Hne. reflexivity.
  - destruct (String.eqb k' k'') eqn:E; simpl.
    + apply String.eqb_eq in E. subst k''.
      apply String.eqb_neq in Hne. rewrite Hne. reflexivity.
    + rewrite IH. reflexivity.
Qed.

Lemma dict_set_keys (k : string) (v : V) (d : Dict V) :
  Config.has_key k d = true -> map fst (dict_set k v d) = map fst d.
Proof.
  unfold Config.has_key. induction d as [|[k' v'] d IH]; simpl.
  - discriminate.
  - destruct (String.eqb k k') eqn:E; simpl; [reflexivity|].
    intros H. rewrite IH by exact H. reflexivity.
Qed.

Lemma has_key_keys (k : string) (d d' : Dict V) :
  map fst d = map fst d' -> Config.has_key k d = Config.has_key k d'.
Proof.
  unfold Config.has_key. revert d'.
  induction d as [|[k1 v1] d IH]; intros [|[k2 v2] d'] H; simpl in *;
    try discriminate; [reflexivity|].
  injection H as -> H. destruct (String.eqb k k2); [reflexivity|].
  apply IH, H.
Qed.

Lemma has_key_In (k : string) (d : Dict V) :
  Config.has_key k d = true <-> In k (map fst d).
Proof.
  unfold Config.has_key. induction d as [|[k' v'] d IH]; simpl.
  - split; [discriminate | intros []].
  - destruct (String.eqb k k') eqn:E.
    + apply String.eqb_eq in E. subst. split; auto.
    + apply String.eqb_neq in E. rewrite IH. split; [auto|].
      intros [H | H]; [congruence | exact H].
Qed.

Lemma dict_get_app (k : string) (d1 d2 : Dict V) :
  dict_get k (d1 ++ d2)
  = match dict_get k d1 with
    | Some x => Some x
    | None => dict_get k d2
    end.
Proof.
  induction d1 as [|[k' v'] d1 IH]; simpl; [reflexivity|].
  destruct (String.eqb k k'); [reflexivity | exact IH].
Qed.

End Dictionaries.

Section Constructor.
Context `{ET : ExtTypes}.
Variable calc_damage_params : Dict Config.PyValue -> Player -> Player.

Import Config.

Lemma given_cons (key k : string) (v : PyValue)
    (rest : list (string * PyValue)) (default : option PyValue) :
  given key ((k, v) :: rest) default
  = given key rest (if String.eqb key k then Some v else default).
Proof.
  unfold given. simpl. rewrite dict_get_app. simpl.
  destruct (dict_get key (rev rest)); [reflexivity|].
  destruct (String.eqb key k); reflexivity.
Qed.

Lemma apply_kwargs_spec (kwargs : list (string * PyValue))
    (params strategy : Dict PyValue) :
  match apply_kwargs kwargs params strategy with
  | inr (params', strategy') =>
      map fst params' = map fst params
      /\ map fst strategy' = map fst strategy
      /\ forallb (fun kv : string * PyValue =>
                    has_key kv.1 params || has_key kv.1 strategy) kwargs
         = true
      /\ (forall key, has_key key params = true ->
            dict_get key params' = given key kwargs (dict_get key params))
      /\ (forall key, has_key key params = false ->
            dict_get key strategy'
            = given key kwargs (dict_get key strategy))
  | inl e =>
      exists pre key v post,
        kwargs = pre ++ (key, v) :: post
        /\ e = KeyErrorOn key
        /\ forallb (fun kv : string * PyValue =>
                      has_key kv.1 params || has_key kv.1 strategy) pre
           = true
        /\ has_key key params = false
        /\ has_key key strategy = false
  end.
Proof.
  revert params strategy.
  induction kwargs as [|[k v] rest IH]; intros params strategy; simpl.
  - repeat split; reflexivity.
  - destruct (has_key k params) eqn:Hp.
    + specialize (IH (dict_set k v params) strategy).
      pose proof (dict_set_keys k v params Hp) as Hkeys.
      assert (Hsame : forall key,
                has_key key (dict_set k v params) = has_key key params).
      { intros key. apply has_key_keys, Hkeys. }
      destruct (apply_kwargs rest (dict_set k v params) strategy)
        as [e | [params' strategy']].
      * destruct IH as (pre & key & v' & post & -> & -> & Hpre & Hk1 & Hk2).
        exists ((k, v) :: pre), key, v', post. simpl. rewrite Hp. simpl.
        split; [reflexivity|]. split; [reflexivity|].
        rewrite Hsame in Hk1. split; [|split; assumption].
        erewrite forallb_same; [exact Hpre|].
        intros kv. simpl. rewrite Hsame. reflexivity.
      * destruct IH as (Hk1 & Hk2 & Hall & Hv1 & Hv2).
        split; [congruence|]. split; [exact Hk2|]. simpl. split.
        { erewrite forallb_same; [exact Hall|].
          intros kv. simpl. rewrite Hsame. reflexivity. }
        split.
        { intros key Hkey. rewrite given_cons, Hv1 by (rewrite Hsame; exact Hkey).
          f_equal. destruct (String.eqb key k) eqn:E.
          - apply String.eqb_eq in E. subst. apply dict_get_set_same.
          - apply String.eqb_neq in E. apply dict_get_set_other, E. }
        { intros key Hkey. rewrite given_cons, Hv2 by (rewrite Hsame; exact Hkey).
          f_equal. destruct (String.eqb key k) eqn:E; [|reflexivity].
          apply String.eqb_eq in E. subst. congruence. }
    + destruct (has_key k strategy) eqn:Hs.
      * specialize (IH params (dict_set k v strategy)).
        pose proof (dict_set_keys k v strategy Hs) as Hkeys.
        assert (Hsame : forall key,
                  has_key key (dict_set k v strategy) = has_key key strategy).
        { intros key. apply has_key_keys, Hkeys. }
        destruct (apply_kwargs rest params (dict_set k v strategy))
          as [e | [params' strategy']].
        -- destruct IH as (pre & key & v' & post & -> & -> & Hpre & Hk1 & Hk2).
           exists ((k, v) :: pre), key, v', post. simpl. rewrite Hp, Hs. simpl.
           split; [reflexivity|]. split; [reflexivity|].
           rewrite Hsame in Hk2. split; [|split; assumption].
           erewrite forallb_same; [exact Hpre|].
           intros kv. simpl. rewrite Hsame. reflexivity.
        -- destruct IH as (Hk1 & Hk2 & Hall & Hv1 & Hv2).
           split; [exact Hk1|]. split; [congruence|]. simpl. split.
           { erewrite forallb_same; [exact Hall|].
             intros kv. simpl. rewrite Hsame. reflexivity. }
           split.
           { intros key Hkey. rewrite given_cons, Hv1 by exact Hkey.
             f_equal. destruct (String.eqb key k) eqn:E; [|reflexivity].
             apply String.eqb_eq in E. subst. congruence. }
           { intros key Hkey. rewrite given_cons, Hv2 by exact Hkey.
             f_equal. destruct (String.eqb key k) eqn:E.
             - apply String.eqb_eq in E. subst. apply dict_get_set_same.
             - apply String.eqb_neq in E. apply dict_get_set_other, E. }
      * exists [], k, v, rest. repeat split; assumption.
Qed.

Lemma strategy_key_not_param (key : string) :
  has_key key default_strategy = true -> has_key key default_params = false.
Proof.
  unfold has_key at 1. simpl.
  repeat (destruct (String.eqb key _) eqn:E;
          [apply String.eqb_eq in E; subst; reflexivity | clear E]).
  discriminate.
Qed.

Lemma pymax_ge_r (a b : Q) : b <= pymax a b.
Proof.
  unfold pymax. destruct (Qgtb b a) eqn:E; [lra|].
  apply Qgtb_le in E. exact E.
Qed.

(** X13.  [Simulation.__init__] fails fast on its keywords.  It returns
    exactly when every keyword is a key of [default_params] or of
    [default_strategy]; otherwise it raises [KeyError] for the first
    keyword that is neither, and nothing after it is looked at.  When it
    returns, the two dictionaries have the keys of the defaults, each
    holding the value passed for it if one was, and else the default,
    except ['sunder']: the debuff controller has read it into [use_sunder]
    and set it back to 0 before the player's damage parameters are
    computed.  The caller's trinkets are followed by the controller and the
    Rip and Savage Roar trackers, and the Revitalize interval is positive
    whatever [hot_uptime] is. *)
Theorem init_accepts_supported_keywords (player : Player)
    (fight_length latency : Q) (trinkets : list Trinket)
    (haste_multiplier hot_uptime : Q) (kwargs : list (string * PyValue)) :
  let result :=
    init calc_damage_params player fight_length latency trinkets
         haste_multiplier hot_uptime kwargs in
  ((exists sim, result = inr sim)
   <-> forallb (fun kv : string * PyValue => supported kv.1) kwargs = true)
  /\ (forall e, result = inl e ->
        exists pre key v post,
          kwargs = pre ++ (key, v) :: post
          /\ e = KeyErrorOn key
          /\ forallb (fun kv : string * PyValue => supported kv.1) pre = true
          /\ supported key = false)
  /\ (forall sim, result = inr sim ->
        map fst (cfg_params sim) = map fst default_params
        /\ map fst (cfg_strategy sim) = map fst default_strategy
        /\ (forall key, has_key key default_params = true ->
              key <> "sunder"%string ->
              dict_get key (cfg_params sim)
              = given key kwargs (dict_get key default_params))
        /\ dict_get "sunder" (cfg_params sim) = Some (PyInt 0)
        /\ cfg_use_sunder sim
           = match given "sunder" kwargs (Some (PyBool false)) with
             | Some v => truthy v
             | None => false
             end
        /\ (forall key, has_key key default_strategy = true ->
              dict_get key (cfg_strategy sim)
              = given key kwargs (dict_get key default_strategy))
        /\ cfg_player sim = calc_damage_params (cfg_params sim) player
        /\ cfg_trinkets sim
           = trinkets ++ [TArmorDebuffs; TTracker RipTracker;
                          TTracker RoarTracker]
        /\ 0 < cfg_revitalize_frequency sim).
Proof.
  intros result. subst result. unfold init.
  pose proof (apply_kwargs_spec kwargs default_params default_strategy) as H.
  destruct (apply_kwargs kwargs default_params default_strategy)
    as [e | [params strategy]].
  - destruct H as (pre & key & v & post & Hkw & He & Hpre & Hk1 & Hk2).
    split; [|split].
    + split; [intros [sim Hsim]; discriminate|].
      intros Hall. exfalso. rewrite Hkw, forallb_app in Hall.
      apply andb_true_iff in Hall as [_ Hall]. simpl in Hall.
      unfold supported in Hall. rewrite Hk1, Hk2 in Hall. discriminate.
    + intros e' He'. injection He' as <-.
      exists pre, key, v, post. repeat split; try assumption.
      unfold supported. rewrite Hk1, Hk2. reflexivity.
    + intros sim Hsim. discriminate.
  - destruct H as (Hkeys1 & Hkeys2 & Hall & Hv1 & Hv2).
    assert (Hsunder : has_key "sunder" params = true).
    { rewrite (has_key_keys _ _ _ Hkeys1). reflexivity. }
    unfold process_params.
    pose proof (Hv1 "sunder"%string eq_refl) as Hgiven.
    destruct (dict_get "sunder" params) as [sv|] eqn:Hsv;
      [|unfold has_key in Hsunder; rewrite Hsv in Hsunder; discriminate].
    split; [|split].
    + split; [intros _; exact Hall | intros _; eexists; reflexivity].
    + intros e He. discriminate.
    + intros sim Hsim. injection Hsim as <-. simpl.
      split; [rewrite dict_set_keys by exact Hsunder; exact Hkeys1|].
      split; [exact Hkeys2|]. split.
      { intros key Hkey Hne. rewrite dict_get_set_other by exact Hne.
        apply Hv1, Hkey. }
      split; [apply dict_get_set_same|]. split.
      { change (dict_get "sunder" default_params) with (Some (PyBool false))
          in Hgiven.
        rewrite <- Hgiven. reflexivity. }
      split.
      { intros key Hkey. apply Hv2, strategy_key_not_param, Hkey. }
      split; [reflexivity|]. split.
      { rewrite <- !app_assoc. reflexivity. }
      pose proof (pymax_ge_r hot_uptime 1e-9) as Hmax.
      assert (He : 0 < 1e-9) by reflexivity.
      apply Qlt_shift_div_l; lra.
Qed.

Lemma existsb_eqb_In (k : string) (l : list string) :
  existsb (String.eqb k) l = true <-> In k l.
Proof.
  rewrite existsb_exists. split.
  - intros (x & Hx & E). apply String.eqb_eq in E. subst. exact Hx.
  - intros H. exists k. split; [exact H | apply String.eqb_refl].
Qed.

Lemma remove_first_notin (k : string) (l : list string) :
  ~ In k l -> remove_first k l = l.
Proof.
  induction l as [|x l IH]; simpl; [reflexivity|].
  intros H. destruct (String.eqb k x) eqn:E.
  - apply String.eqb_eq in E. subst. exfalso. apply H. left. reflexivity.
  - rewrite IH; [reflexivity|]. intros Hin. apply H. right. exact Hin.
Qed.

Lemma remove_first_perm (k : string) (l : list string) :
  In k l -> Permutation l (k :: remove_first k l).
Proof.
  induction l as [|x l IH]; simpl; [intros []|].
  intros H. destruct (String.eqb k x) eqn:E.
  - apply String.eqb_eq in E. subst. reflexivity.
  - apply String.eqb_neq in E. destruct H as [H | H]; [congruence|].
    rewrite (IH H) at 1. apply perm_swap.
Qed.

Lemma remove_first_incl (k : string) (l : list string) :
  incl (remove_first k l) l.
Proof.
  induction l as [|x l IH]; simpl; [intros y []|].
  destruct (String.eqb k x).
  - intros y Hy. right. exact Hy.
  - intros y [<- | Hy]; [left; reflexivity | right; apply IH, Hy].
Qed.

Lemma existsb_remove_other (k k' : string) (l : list string) :
  k <> k' ->
  existsb (String.eqb k) (remove_first k' l) = existsb (String.eqb k) l.
Proof.
  intros Hne. induction l as [|x l IH]; simpl; [reflexivity|].
  destruct (String.eqb k' x) eqn:E; simpl.
  - apply String.eqb_eq in E. subst x.
    apply String.eqb_neq in Hne. rewrite Hne. reflexivity.
  - rewrite IH. reflexivity.
Qed.

(** What is left of [active_debuffs] after the loop. *)
Lemma mark_debuffs_leftover (ks : list string) (p : Dict PyValue)
    (a : list string) :
  List.NoDup ks ->
  incl (mark_debuffs ks p a).2 a
  /\ ((mark_debuffs ks p a).2 = [] <-> List.NoDup a /\ incl a ks).
Proof.
  intros Hks. revert p a.
  induction Hks as [|k r Hk Hr IH]; intros p a; simpl.
  - split; [apply incl_refl|]. split.
    + intros ->. split; [constructor | apply incl_refl].
    + intros [_ H]. destruct a as [|x a]; [reflexivity|].
      destruct (H x (or_introl eq_refl)).
  - destruct (existsb (String.eqb k) a) eqn:Hin.
    + apply existsb_eqb_In in Hin.
      destruct (IH (dict_set k (PyBool true) p) (remove_first k a))
        as [Hincl Hiff].
      split; [intros y Hy; apply (remove_first_incl k a), Hincl, Hy|].
      rewrite Hiff. pose proof (remove_first_perm k a Hin) as Hperm.
      split.
      * intros [Hnd Hsub]. split.
        -- apply (Permutation_NoDup (Permutation_sym Hperm)).
           constructor; [|exact Hnd]. intros Hk'. apply Hk, Hsub, Hk'.
        -- intros y Hy. apply (Permutation_in _ Hperm) in Hy.
           destruct Hy as [<- | Hy]; [left; reflexivity | right; apply Hsub, Hy].
      * intros [Hnd Hsub].
        apply (Permutation_NoDup Hperm) in Hnd.
        inversion Hnd as [|? ? Hnotin Hnd']; subst. split; [exact Hnd'|].
        intros y Hy.
        assert (Hya : In y a).
        { apply (Permutation_in _ (Permutation_sym Hperm)). right. exact Hy. }
        destruct (Hsub y Hya) as [<- | Hyr]; [contradiction | exact Hyr].
    + assert (Hnotin : ~ In k a).
      { intros H. apply existsb_eqb_In in H. congruence. }
      destruct (IH (dict_set k (PyBool false) p) a) as [Hincl Hiff].
      split; [exact Hincl|]. rewrite Hiff. split.
      * intros [Hnd Hsub]. split; [exact Hnd|].
        intros y Hy. right. apply Hsub, Hy.
      * intros [Hnd Hsub]. split; [exact Hnd|].
        intros y Hy. destruct (Hsub y Hy) as [<- | Hyr];
          [contradiction | exact Hyr].
Qed.

(** The flags written by the loop. *)
Lemma mark_debuffs_values (ks : list string) (p : Dict PyValue)
    (a : list string) (key : string) :
  List.NoDup ks ->
  dict_get key (mark_debuffs ks p a).1
  = if existsb (String.eqb key) ks
    then Some (PyBool (existsb (String.eqb key) a))
    else dict_get key p.
Proof.
  intros Hks. revert p a.
  induction Hks as [|k r Hk Hr IH]; intros p a; simpl; [reflexivity|].
  assert (Hstep : forall b a',
            (forall key', key' <> k ->
               existsb (String.eqb key') a' = existsb (String.eqb key') a) ->
            b = existsb (String.eqb k) a ->
            dict_get key (mark_debuffs r (dict_set k (PyBool b) p) a').1
            = if String.eqb key k || existsb (String.eqb key) r
              then Some (PyBool (existsb (String.eqb key) a))
              else dict_get key p).
  { intros b a' Ha' Hb. rewrite IH.
    destruct (String.eqb key k) eqn:E; simpl.
    - apply String.eqb_eq in E. subst key.
      assert (Hr' : existsb (String.eqb k) r = false).
      { destruct (existsb (String.eqb k) r) eqn:E'; [|reflexivity].
        apply existsb_eqb_In in E'. contradiction. }
      rewrite Hr', dict_get_set_same, Hb. reflexivity.
    - apply String.eqb_neq in E.
      rewrite Ha' by exact E. rewrite dict_get_set_other by exact E.
      reflexivity. }
  destruct (existsb (String.eqb k) a) eqn:Hin.
  - apply Hstep; [|reflexivity].
    intros key' Hne. apply existsb_remove_other, Hne.
  - apply Hstep; [|reflexivity]. reflexivity.
Qed.

Lemma mark_debuffs_keys (ks : list string) (p : Dict PyValue)
    (a : list string) :
  (forall k, In k ks -> has_key k p = true) ->
  map fst (mark_debuffs ks p a).1 = map fst p.
Proof.
  revert p a. induction ks as [|k r IH]; intros p a Hall; simpl;
    [reflexivity|].
  assert (Hk : has_key k p = true) by (apply Hall; left; reflexivity).
  assert (Hstep : forall b a',
            map fst (mark_debuffs r (dict_set k (PyBool b) p) a').1
            = map fst p).
  { intros b a'. rewrite IH; [apply dict_set_keys, Hk|].
    intros k' Hk'.
    rewrite (has_key_keys k' _ p (dict_set_keys k (PyBool b) p Hk)).
    apply Hall. right. exact Hk'. }
  destruct (existsb (String.eqb k) a); apply Hstep.
Qed.

Lemma debuff_keys (params : Dict PyValue) (key : string) :
  existsb (String.eqb key)
    (List.filter (fun key => negb (String.eqb key "boss_armor"))
                 (map fst params))
  = has_key key params && negb (String.eqb key "boss_armor").
Proof.
  apply eq_true_iff_eq.
  rewrite existsb_eqb_In, filter_In, andb_true_iff, has_key_In.
  reflexivity.
Qed.

(** X14.  [set_active_debuffs(debuff_list)] on a simulation whose
    [params] has ['sunder'] (each key once, as in a dictionary).  It
    returns exactly when the list has no duplicate and names only keys of
    [params] other than ['boss_armor']; otherwise it raises [ValueError]
    with the names left over, after the flags have been written and before
    the debuff controller is told, so [use_sunder] is stale.  In every case
    each such key holds [True] or [False] according to whether the list
    names it, ['boss_armor'] and the set of keys are untouched; when the
    call returns, [use_sunder] tells whether ['sunder'] was named and
    [params['sunder']] is back to 0. *)
Theorem set_active_debuffs_marks (debuff_list : list string)
    (sim : Simulation) :
  List.NoDup (map fst (cfg_params sim)) ->
  has_key "sunder" (cfg_params sim) = true ->
  let is_debuff key :=
    has_key key (cfg_params sim) && negb (String.eqb key "boss_armor") in
  let listed key := existsb (String.eqb key) debuff_list in
  let sim' := (set_active_debuffs debuff_list sim).1 in
  let raised := (set_active_debuffs debuff_list sim).2 in
  (raised = None
   <-> List.NoDup debuff_list
       /\ forall key, In key debuff_list -> is_debuff key = true)
  /\ (forall e, raised = Some e ->
        exists unsupported,
          e = ValueErrorOn unsupported
          /\ unsupported <> []
          /\ incl unsupported debuff_list
          /\ cfg_use_sunder sim' = cfg_use_sunder sim
          /\ forall key, is_debuff key = true ->
               dict_get key (cfg_params sim') = Some (PyBool (listed key)))
  /\ (raised = None ->
        (forall key, is_debuff key = true -> key <> "sunder"%string ->
           dict_get key (cfg_params sim') = Some (PyBool (listed key)))
        /\ dict_get "sunder" (cfg_params sim') = Some (PyInt 0)
        /\ cfg_use_sunder sim' = listed "sunder"%string)
  /\ map fst (cfg_params sim') = map fst (cfg_params sim)
  /\ dict_get "boss_armor" (cfg_params sim')
     = dict_get "boss_armor" (cfg_params sim).
Proof.
  intros Hnodup Hsunder is_debuff listed sim' raised.
  subst sim' raised. unfold set_active_debuffs.
  set (ks := List.filter (fun key => negb (String.eqb key "boss_armor"))
                    (map fst (cfg_params sim))).
  assert (Hks : List.NoDup ks) by (apply List.NoDup_filter, Hnodup).
  pose proof (mark_debuffs_leftover ks (cfg_params sim) debuff_list Hks)
    as [Hincl Hleft].
  pose proof (fun key =>
                mark_debuffs_values ks (cfg_params sim) debuff_list key Hks)
    as Hval.
  assert (Hin_ks : forall k, In k ks <-> is_debuff k = true).
  { intros k. rewrite <- existsb_eqb_In. unfold ks. rewrite debuff_keys.
    reflexivity. }
  assert (Hkeys : map fst (mark_debuffs ks (cfg_params sim) debuff_list).1
                  = map fst (cfg_params sim)).
  { apply mark_debuffs_keys. intros k Hk. apply Hin_ks in Hk.
    apply andb_true_iff in Hk as [Hk _]. exact Hk. }
  assert (Hflag : forall key, is_debuff key = true ->
            dict_get key (mark_debuffs ks (cfg_params sim) debuff_list).1
            = Some (PyBool (listed key))).
  { intros key Hkey. rewrite Hval. unfold ks. rewrite debuff_keys.
    fold (is_debuff key). rewrite Hkey. reflexivity. }
  assert (Hboss : dict_get "boss_armor"
                    (mark_debuffs ks (cfg_params sim) debuff_list).1
                  = dict_get "boss_armor" (cfg_params sim)).
  { rewrite Hval. unfold ks. rewrite debuff_keys. simpl.
    rewrite andb_false_r. reflexivity. }
  assert (Hsub : incl debuff_list ks
                 <-> forall key, In key debuff_list -> is_debuff key = true).
  { split; intros H key Hkey; apply Hin_ks, H, Hkey. }
  destruct (mark_debuffs ks (cfg_params sim) debuff_list)
    as [params leftover] eqn:Hmark.
  simpl in *.
  assert (Hsunder' : has_key "sunder" params = true).
  { rewrite (has_key_keys _ _ _ Hkeys). exact Hsunder. }
  destruct leftover as [|x leftover]; simpl.
  - unfold process_params.
    destruct (dict_get "sunder" params) as [sv|] eqn:Hsv;
      [|unfold has_key in Hsunder'; rewrite Hsv in Hsunder'; discriminate].
    simpl. split.
    { split; [intros _|reflexivity].
      rewrite <- Hsub. apply Hleft. reflexivity. }
    split; [discriminate|]. split.
    { intros _. split.
      - intros key Hkey Hne. rewrite dict_get_set_other by exact Hne.
        apply Hflag, Hkey.
      - split; [apply dict_get_set_same|].
        assert (Hsd : is_debuff "sunder"%string = true).
        { unfold is_debuff. rewrite Hsunder. reflexivity. }
        rewrite (Hflag _ Hsd) in Hsv. injection Hsv as <-. reflexivity. }
    split.
    { rewrite dict_set_keys by exact Hsunder'. exact Hkeys. }
    rewrite dict_get_set_other by discriminate. exact Hboss.
  - split.
    { split; [discriminate|]. intros H. rewrite <- Hsub in H.
      apply Hleft in H. discriminate. }
    split.
    { intros e He. injection He as <-. exists (x :: leftover).
      split; [reflexivity|]. split; [discriminate|].
      split; [exact Hincl|]. split; [reflexivity | exact Hflag]. }
    split; [discriminate|]. split; [exact Hkeys | exact Hboss].
Qed.

End Constructor.
(** ** Footprints of the methods *)

Section Frames.
Context `{C : Collab}.
Context {B : Type} (f : Sim -> B).

Lemma preserves_ret {A : Type} (a : A) : preserves f (ret a).
Proof. intros s a' s' H. injection H as _ <-. reflexivity. Qed.

Lemma preserves_raise {A : Type} (e : exn) : preserves f (raise e : M A).
Proof. intros s a s' H. discriminate. Qed.

Lemma preserves_bind {A A' : Type} (m : M A) (k : A -> M A') :
  preserves f m -> (forall a, preserves f (k a)) -> preserves f (bind m k).
Proof.
  intros Hm Hk s b s' H. unfold bind in H.
  destruct (m s) as [[a s1]|] eqn:E; [|discriminate].
  rewrite (Hk a s1 b s' H). exact (Hm s a s1 E).
Qed.

Lemma preserves_gets {A : Type} (g : Sim -> A) : preserves f (gets g).
Proof. intros s a s' H. injection H as _ <-. reflexivity. Qed.

Lemma preserves_getsR {A : Type} (g : Sim -> Result A) :
  preserves f (getsR g).
Proof.
  intros s a s' H. unfold getsR in H.
  destruct (g s); [|discriminate]. injection H as _ <-. reflexivity.
Qed.

Lemma preserves_modify (g : Sim -> Sim) :
  (forall s, f (g s) = f s) -> preserves f (modify g).
Proof. intros Hg s a s' H. injection H as _ <-. apply Hg. Qed.

Lemma preserves_ifS {A : Type} (c : Sim -> bool) (t e : M A) :
  preserves f t -> preserves f e -> preserves f (ifS c t e).
Proof.
  intros Ht He s a s' H. unfold ifS in H.
  destruct (c s); [exact (Ht s a s' H) | exact (He s a s' H)].
Qed.

Lemma preserves_whenS (c : Sim -> bool) (t : M unit) :
  preserves f t -> preserves f (whenS c t).
Proof. intros Ht. apply preserves_ifS; [exact Ht | apply preserves_ret]. Qed.

Lemma preserves_call_player {A : Type} (m : PM A) :
  ignores_player f -> preserves f (call_player m).
Proof.
  intros Hf s a s' H. unfold call_player in H.
  destruct (m (player s) (rng s)) as [[a' p] g].
  injection H as _ <-. apply Hf.
Qed.

Lemma preserves_log_append (entry : Sim -> LogEntry) :
  ignores_log f -> preserves f (log_append entry).
Proof.
  intros Hf s a s' H. unfold log_append in H.
  destruct (log s); injection H as _ <-; [apply Hf | reflexivity].
Qed.

Lemma preserves_log_append_if (b : bool) (entry : Sim -> LogEntry) :
  ignores_log f -> preserves f (log_append_if b entry).
Proof.
  intros Hf s a s' H. unfold log_append_if in H.
  destruct b; injection H as _ <-; [apply Hf | reflexivity].
Qed.

Lemma preserves_local {A : Type} (m : M A) :
  (forall s, match m s with Ok (_, s') => f s' = f s | Raise _ => True end) ->
  preserves f m.
Proof. intros Hm s a s' H. specialize (Hm s). rewrite H in Hm. exact Hm. Qed.

End Frames.

(** A step of a footprint proof: the combinators first, then the
    primitives that are functions of the state. *)
Ltac keeps_side :=
  let s := fresh "s" in
  first
    [ solve [ intros s; break_sim s; reflexivity ]
    | solve [ intros s ? ?; break_sim s; reflexivity ]
    | solve [ intros s ?; break_sim s; reflexivity ]
    | solve [ intros s; break_sim s; cbn;
              repeat match goal with
                     | |- context [if ?c then _ else _] => destruct c
                     | |- context [match ?c with _ => _ end] => destruct c
                     end;
              reflexivity ] ].

Ltac keeps_local :=
  let s := fresh "s" in
  apply preserves_local; intros s; break_sim s; cbn;
  repeat (destruct_inner; cbn); try reflexivity; try exact I.

Create HintDb keeps_db.

Ltac keeps_step :=
  lazymatch goal with
  | |- preserves _ (bind _ _) => apply preserves_bind; [|intros ?; cbv beta]
  | |- preserves _ (ret _) => apply preserves_ret
  | |- preserves _ (raise _) => apply preserves_raise
  | |- preserves _ (gets _) => apply preserves_gets
  | |- preserves _ (getsR _) => apply preserves_getsR
  | |- preserves _ (modify _) => apply preserves_modify; keeps_side
  | |- preserves _ (ifS _ _ _) => apply preserves_ifS
  | |- preserves _ (whenS _ _) => apply preserves_whenS
  | |- preserves _ (log_append _) => apply preserves_log_append; keeps_side
  | |- preserves _ (log_append_if _ _) =>
      apply preserves_log_append_if; keeps_side
  | |- preserves _ (call_player _) => apply preserves_call_player; keeps_side
  | |- preserves _ (match ?x with _ => _ end) => destruct x
  | |- preserves _ (let _ := _ in _) => cbv zeta
  | |- preserves _ (fun _ => _) => keeps_local
  | |- preserves _ _ => solve [auto with keeps_db]
  end.

Ltac keeps_tac := repeat keeps_step.

(** ** What the rotation leaves alone *)


Section RotationFrames.
Context `{C : Collab}.







End RotationFrames.
(** ** Casts of the rotation and damage records *)

Section Casts.
Context `{C : Collab}.



Lemma bind_inv {A B : Type} (m : M A) (k : A -> M B) (s : Sim) (b : B)
    (s' : Sim) :
  bind m k s = Ok (b, s') ->
  exists a s1, m s = Ok (a, s1) /\ k a s1 = Ok (b, s').
Proof.
  unfold bind. destruct (m s) as [[a s1]|]; [|discriminate]. eauto.
Qed.

Lemma damage_entry_set_same (ability : string) (inner : Dict Q) (v : Q)
    (bd : Breakdown) :
  damage_entry ability (dict_set ability (dict_set "damage" v inner) bd)
  = Some v.
Proof.
  unfold damage_entry. rewrite dict_get_set_same. apply dict_get_set_same.
Qed.

Lemma damage_entry_set_other (other ability : string) (inner : Dict Q)
    (bd : Breakdown) :
  other <> ability ->
  damage_entry other (dict_set ability inner bd) = damage_entry other bd.
Proof.
  intros Hne. unfold damage_entry. rewrite dict_get_set_other by exact Hne.
  reflexivity.
Qed.

Lemma add_damage_entry (ability : string) (x : Q) (s s' : Sim) :
  add_damage ability x s = Ok (tt, s') ->
  exists before bd',
    s' = set_player (set_dmg_breakdown bd' (player s)) s
    /\ damage_entry ability (dmg_breakdown (player s)) = Some before
    /\ damage_entry ability bd' = Some (before + x)
    /\ (forall other, other <> ability ->
          damage_entry other bd'
          = damage_entry other (dmg_breakdown (player s))).
Proof.
  unfold add_damage.
  destruct (dict_get ability (dmg_breakdown (player s))) as [inner|] eqn:Hget;
    [|discriminate].
  destruct (dict_get "damage" inner) as [d|] eqn:Hd; [|discriminate].
  intros H. injection H as <-. exists d. eexists. split; [reflexivity|].
  split; [unfold damage_entry; rewrite Hget; exact Hd|].
  split; [apply damage_entry_set_same|].
  intros other Hne. apply damage_entry_set_other, Hne.
Qed.

Lemma periodic_procs_none (time : Q) (ts : list TId) (d : Q) (s : Sim) :
  (forall i s0, In i ts -> trinket_periodic_only i s0 = false) ->
  periodic_procs time ts d s = Ok (d, s).
Proof.
  induction ts as [|i ts IH]; intros Hnone; simpl; [reflexivity|].
  unfold bind, gets. rewrite (Hnone i s (or_introl eq_refl)).
  apply IH. intros j s0 Hj. apply Hnone. right. exact Hj.
Qed.

(** X17.  A tick of a bleed other than ['Savage Roar'], without trinkets
    that proc on periodic damage.  When the tick cannot crit, its damage is
    the base tick damage times [1 + 0.3] under Mangle.  The tick is added
    to the ['damage'] entry of the ability; without a Savage Roar snapshot
    it is the value returned and the ['Savage Roar'] entry is not touched;
    with the snapshot, [roar_fac] times the tick is added to the
    ['Savage Roar'] entry and the value returned is the tick times
    [1 + roar_fac].  A breakdown without an entry for the ability gives
    [KeyError]. *)
Theorem bleed_damage_is_recorded (base_tick_damage crit_chance_v : Q)
    (ability_name : string) (sr_snapshot : bool) (time : Q) (s : Sim) :
  (forall i s0, In i (proc_trinkets (pext (player s))) ->
                trinket_periodic_only i s0 = false) ->
  ability_name <> "Savage Roar"%string ->
  (forall d s',
     apply_bleed_damage base_tick_damage crit_chance_v ability_name
       sr_snapshot time s = Ok (d, s') ->
     exists tick before,
       (Qgtb crit_chance_v 0 && primal_gore (pext (player s)) = false ->
        tick = base_tick_damage * (1 + 0.3 * b2q (mangle_debuff s)))
       /\ damage_entry ability_name (dmg_breakdown (player s)) = Some before
       /\ damage_entry ability_name (dmg_breakdown (player s'))
          = Some (before + tick)
       /\ (sr_snapshot = false ->
           d = tick
           /\ damage_entry "Savage Roar" (dmg_breakdown (player s'))
              = damage_entry "Savage Roar" (dmg_breakdown (player s)))
       /\ (sr_snapshot = true ->
           d = tick * (1 + roar_fac (pext (player s)))
           /\ exists roar_before,
                damage_entry "Savage Roar" (dmg_breakdown (player s))
                = Some roar_before
                /\ damage_entry "Savage Roar" (dmg_breakdown (player s'))
                   = Some (roar_before + roar_fac (pext (player s)) * tick)))
  /\ (dict_get ability_name (dmg_breakdown (player s)) = None ->
      apply_bleed_damage base_tick_damage crit_chance_v ability_name
        sr_snapshot time s = Raise KeyError).
Proof.
  intros Hnone Hname. split.
  - intros d s' H. unfold apply_bleed_damage in H.
    unfold bind at 1 2 in H. unfold gets at 1 2 in H.
    apply bind_inv in H as (tick & s1 & Hcrit & H).
    assert (Hs1 : exists g, s1 = set_rng g s
                  /\ (Qgtb crit_chance_v 0 && primal_gore (pext (player s))
                      = false ->
                      tick = base_tick_damage
                             * (1 + 0.3 * b2q (mangle_debuff s)))).
    { destruct (Qgtb crit_chance_v 0 && primal_gore (pext (player s))).
      - destruct (calc_yellow_damage _ _ _ _ _ _) as [x g].
        injection Hcrit as <- <-. exists g. split; [reflexivity|discriminate].
      - injection Hcrit as <- <-. exists (rng s).
        split; [destruct s; reflexivity | reflexivity]. }
    destruct Hs1 as (g & -> & Htick).
    apply bind_inv in H as ([] & s2 & Hadd & H).
    apply add_damage_entry in Hadd as (before & bd2 & -> & Hbefore & Hafter
                                       & Hothers).
    apply bind_inv in H as (tick' & s3 & Hsr & H).
    apply bind_inv in H as ([] & s4 & Hlog & H).
    unfold bind, gets in H.
    assert (Hplayer : player (set_rng g s) = player s)
      by (destruct s; reflexivity).
    rewrite Hplayer in Hbefore, Hothers.
    exists tick, before. split; [exact Htick|]. split; [exact Hbefore|].
    assert (Hs3 :
      pext (player s3) = pext (player s)
      /\ damage_entry ability_name (dmg_breakdown (player s3))
         = Some (before + tick)
      /\ (sr_snapshot = false ->
          tick' = tick
          /\ damage_entry "Savage Roar" (dmg_breakdown (player s3))
             = damage_entry "Savage Roar" (dmg_breakdown (player s)))
      /\ (sr_snapshot = true ->
          tick' = tick * (1 + roar_fac (pext (player s)))
          /\ exists roar_before,
               damage_entry "Savage Roar" (dmg_breakdown (player s))
               = Some roar_before
               /\ damage_entry "Savage Roar" (dmg_breakdown (player s3))
                  = Some (roar_before + roar_fac (pext (player s)) * tick))).
    { destruct sr_snapshot.
      - apply bind_inv in Hsr as (fac & s2' & Hfac & Hsr).
        injection Hfac as <- <-.
        apply bind_inv in Hsr as ([] & s3' & Hadd & Hsr).
        injection Hsr as <- <-.
        apply add_damage_entry in Hadd as (rb & bd3 & -> & Hrb & Hra & Hro).
        assert (Hbd : dmg_breakdown
                        (player
                           (set_player
                              (set_dmg_breakdown bd2 (player (set_rng g s)))
                              (set_rng g s))) = bd2)
          by (destruct s as [p]; destruct p; reflexivity).
        assert (Hpe : pext
                        (player
                           (set_player
                              (set_dmg_breakdown bd2 (player (set_rng g s)))
                              (set_rng g s))) = pext (player s))
          by (destruct s as [p]; destruct p; reflexivity).
        rewrite Hbd in Hrb, Hro. rewrite Hpe in *.
        assert (Hbd3 : forall st p0,
                  dmg_breakdown
                    (player (set_player (set_dmg_breakdown bd3 p0) st)) = bd3
                  /\ pext (player (set_player (set_dmg_breakdown bd3 p0) st))
                     = pext p0).
        { intros st p0. destruct st, p0. split; reflexivity. }
        destruct (Hbd3 (set_player
                          (set_dmg_breakdown bd2 (player (set_rng g s)))
                          (set_rng g s))
                       (player
                          (set_player
                             (set_dmg_breakdown bd2 (player (set_rng g s)))
                             (set_rng g s)))) as [-> ->].
        rewrite Hpe.
        split; [reflexivity|].
        split; [rewrite (Hro ability_name Hname); exact Hafter|].
        split; [discriminate|]. intros _. split; [reflexivity|].
        exists rb. split; [|exact Hra].
        rewrite <- Hrb. symmetry. apply Hothers.
        intros Heq. apply Hname. symmetry. exact Heq.
      - injection Hsr as <- <-.
        assert (Hbd : forall st p0,
                  dmg_breakdown
                    (player (set_player (set_dmg_breakdown bd2 p0) st)) = bd2
                  /\ pext (player (set_player (set_dmg_breakdown bd2 p0) st))
                     = pext p0).
        { intros st p0. destruct st, p0. split; reflexivity. }
        destruct (Hbd (set_rng g s) (player (set_rng g s))) as [-> ->].
        rewrite Hplayer.
        split; [reflexivity|]. split; [exact Hafter|].
        split; [|discriminate]. intros _. split; [reflexivity|].
        apply Hothers. intros Heq. apply Hname. symmetry. exact Heq. }
    destruct Hs3 as (Hpext & Hentry & Hplain & Hroar).
    assert (Hs4 : player s4 = player s3).
    { unfold log_append in Hlog. destruct (log s3); injection Hlog as <-;
        [destruct s3|]; reflexivity. }
    rewrite periodic_procs_none in H.
    + injection H as <- <-. rewrite Hs4.
      split; [exact Hentry|]. split; assumption.
    + rewrite Hs4, Hpext. exact Hnone.
  - intros Hmissing. unfold apply_bleed_damage.
    unfold bind at 1 2. unfold gets at 1 2.
    unfold bind at 1.
    destruct (Qgtb crit_chance_v 0 && primal_gore (pext (player s))).
    + destruct (calc_yellow_damage _ _ _ _ _ _) as [x g].
      unfold bind, add_damage. destruct s as [p]; destruct p; simpl in *.
      rewrite Hmissing. reflexivity.
    + unfold ret, bind, add_damage. rewrite Hmissing. reflexivity.
Qed.

End Casts.
(** ** The output of a run *)

Section RunOutput.
Context `{C : Collab}.

Lemma armor_update_returns (time : Q) (s : Sim) :
  exists s',
    ArmorDebuffs.update time s = Ok (0, s')
    /\ fight_length s' = fight_length s
    /\ trackers s' = trackers s.
Proof.
  assert (Hkeep : preserves (fun s => (fight_length s, trackers s))
                            (ArmorDebuffs.update time)).
  { unfold ArmorDebuffs.update. keeps_tac. }
  assert (Hret : exists s', ArmorDebuffs.update time s = Ok (0, s')).
  { unfold ArmorDebuffs.update, ifS, bind, modify, gets, call_player,
      log_append, ret.
    destruct (use_sunder s && _ && _); [|eauto].
    destruct (log _);
      destruct (player_calc_damage_params _ _ _) as [[[] p'] g']; eauto. }
  destruct Hret as [s' Hs']. exists s'. split; [exact Hs'|].
  pose proof (Hkeep s 0 s' Hs') as Heq. injection Heq as -> ->.
  split; reflexivity.
Qed.

Lemma same_kind_eq (a b : TrackerKind) : same_kind a b = true <-> a = b.
Proof. destruct a, b; simpl; split; congruence. Qed.

Lemma tracker_update_at_end (k : TrackerKind) (s : Sim) :
  UptimeTracker.update k (fight_length s) s
  = Ok (0, set_trackers
             (fun k' => if same_kind k' k then trackers s k
                        else trackers s k') s).
Proof.
  unfold UptimeTracker.update, UptimeTracker.update_tracker.
  assert (Hlate : Qltb (fight_length s) (fight_length s - 15) = false)
    by (apply Qltb_ge; lra).
  rewrite Hlate, andb_false_r. reflexivity.
Qed.

Lemma finish_trinket_own (t : Trinket) (s : Sim) :
  match t with TExternal _ => False | _ => True end ->
  exists r s',
    finish_trinket t s = Ok (r, s')
    /\ match r with Some row => [row] | None => [] end = aura_row s t
    /\ fight_length s' = fight_length s
    /\ (forall k,
          uptime (trackers s' k) = uptime (trackers s k)
          /\ num_procs (trackers s' k) = num_procs (trackers s k)
          /\ (active (trackers s k) = false ->
              active (trackers s' k) = false))
    /\ (forall k, t = TTracker k -> active (trackers s' k) = false).
Proof.
  intros Hown. destruct t as [i | | k]; [destruct Hown | |].
  - destruct (armor_update_returns (fight_length s) s)
      as (s1 & Hup & Hfl & Htr).
    exists None, s1. unfold finish_trinket, bind, gets, update_trinket.
    rewrite Hup. split; [reflexivity|]. split; [reflexivity|].
    split; [exact Hfl|]. rewrite Htr. split; [auto | discriminate].
  - unfold finish_trinket, bind, gets, update_trinket.
    rewrite tracker_update_at_end. unfold whenS, ifS, modify, ret.
    destruct s; simpl.
    assert (Hkk : same_kind k k = true) by (apply same_kind_eq; reflexivity).
    rewrite Hkk.
    destruct (active (trackers0 k)) eqn:Hact; simpl; rewrite ?Hkk;
      eexists; eexists; (split; [reflexivity|]); simpl.
    + split; [destruct k, (trackers0 _); reflexivity|]. split; [reflexivity|].
      split.
      * intros k'. destruct (same_kind k' k) eqn:E; [|auto].
        apply same_kind_eq in E. subst k'.
        destruct (trackers0 k); auto.
      * intros k' Heq. injection Heq as <-. rewrite Hkk.
        destruct (trackers0 k); reflexivity.
    + split; [destruct k; reflexivity|]. split; [reflexivity|].
      split.
      * intros k'. destruct (same_kind k' k) eqn:E; [|auto].
        apply same_kind_eq in E. subst k'. auto.
      * intros k' Heq. injection Heq as <-. rewrite Hkk. exact Hact.
Qed.

Lemma aura_row_ext (s s' : Sim) (t : Trinket) :
  (forall k, uptime (trackers s' k) = uptime (trackers s k)
             /\ num_procs (trackers s' k) = num_procs (trackers s k)) ->
  aura_row s' t = aura_row s t.
Proof.
  intros H. destruct t as [i | | []]; simpl; try reflexivity.
  - destruct (H RipTracker) as [-> ->]. reflexivity.
  - destruct (H RoarTracker) as [-> ->]. reflexivity.
Qed.

Lemma finish_trinkets_own (ts : list Trinket) (aura_stats : list AuraStat)
    (s : Sim) :
  own_trinkets ts ->
  exists s',
    finish_trinkets ts aura_stats s
    = Ok (aura_stats ++ flat_map (aura_row s) ts, s')
    /\ (forall k, In (TTracker k) ts -> active (trackers s' k) = false)
    /\ (forall k, uptime (trackers s' k) = uptime (trackers s k)
                  /\ num_procs (trackers s' k) = num_procs (trackers s k)
                  /\ (active (trackers s k) = false ->
                      active (trackers s' k) = false)).
Proof.
  intros Hown. revert aura_stats s.
  induction Hown as [|t ts Ht Hts IH]; intros aura_stats s; simpl.
  - exists s. rewrite app_nil_r. split; [reflexivity|].
    split; [intros k [] | auto].
  - destruct (finish_trinket_own t s Ht)
      as (r & s1 & Hfin & Hrow & Hfl & Hacc & Hoff).
    unfold bind. rewrite Hfin.
    destruct (IH (match r with
                  | Some row => aura_stats ++ [row]
                  | None => aura_stats
                  end) s1) as (s' & Hrest & Hoff' & Hacc').
    exists s'. split; [|split].
    + rewrite Hrest. f_equal. f_equal.
      assert (Hrows : flat_map (aura_row s1) ts = flat_map (aura_row s) ts).
      { apply flat_map_ext. intros t'. apply aura_row_ext.
        intros k. destruct (Hacc k) as (U & N & _). split; assumption. }
      rewrite Hrows, <- Hrow.
      destruct r; rewrite <- ?app_assoc; reflexivity.
    + intros k [-> | Hin]; [|apply Hoff', Hin].
      apply Hacc', Hoff. reflexivity.
    + intros k. destruct (Hacc k) as (U1 & N1 & A1).
      destruct (Hacc' k) as (U2 & N2 & A2).
      split; [congruence|]. split; [congruence | auto].
Qed.

(** X19.  The final pass of [run] over a trinket list made of the debuff
    controller and trackers cannot fail.  It reports one row for each Rip
    or Savage Roar tracker, in the order of the list, and none for the
    controller; the rows carry the proc count and the uptime accumulated
    during the fight, which the last update at the fight end does not
    change; and it leaves every tracker of the list inactive. *)
Theorem final_pass_reports_trackers (ts : list Trinket)
    (aura_stats : list AuraStat) (s : Sim) :
  own_trinkets ts ->
  exists s',
    finish_trinkets ts aura_stats s
    = Ok (aura_stats ++ flat_map (aura_row s) ts, s')
    /\ (forall k, In (TTracker k) ts -> active (trackers s' k) = false)
    /\ (forall k, uptime (trackers s' k) = uptime (trackers s k)
                  /\ num_procs (trackers s' k) = num_procs (trackers s k)).
Proof.
  intros Hown.
  destruct (finish_trinkets_own ts aura_stats s Hown)
    as (s' & Hrun & Hoff & Hacc).
  exists s'. split; [exact Hrun|]. split; [exact Hoff|].
  intros k. destruct (Hacc k) as (U & N & _). split; assumption.
Qed.

End RunOutput.
(** ** Tick schedules never run dry *)

Section ScheduleInvariants.
Context `{C : Collab}.
Hypothesis Hnone : no_periodic_trinkets.

Lemma gets_inv {A : Type} (g : Sim -> A) (s : Sim) (a : A) (s' : Sim) :
  gets g s = Ok (a, s') -> a = g s /\ s' = s.
Proof. intros H. injection H as <- <-. auto. Qed.

Lemma periodic_procs_keeps {B : Type} (f : Sim -> B) (time : Q)
    (ts : list TId) (d : Q) :
  preserves f (periodic_procs time ts d).
Proof.
  intros s a s' H. rewrite periodic_procs_none in H.
  - injection H as _ <-. reflexivity.
  - intros i s0 _. apply Hnone.
Qed.

Lemma add_damage_keeps {B : Type} (f : Sim -> B) (ability : string) (x : Q) :
  ignores_player f -> preserves f (add_damage ability x).
Proof.
  intros Hf s a s' H. unfold add_damage in H.
  destruct (dict_get ability _) as [inner|]; [|discriminate].
  destruct (dict_get "damage" inner) as [d|]; [|discriminate].
  injection H as _ <-.
  rewrite <- (Hf s (set_dmg_breakdown
                     (dict_set ability (dict_set "damage" (d + x) inner)
                               (dmg_breakdown (player s))) (player s))
                 (rng s)).
  f_equal. destruct s; reflexivity.
Qed.

Lemma apply_bleed_damage_keeps {B : Type} (f : Sim -> B)
    (base crit : Q) (name : string) (snapshot : bool) (time : Q) :
  ignores_player f -> ignores_log f ->
  preserves f (apply_bleed_damage base crit name snapshot time).
Proof.
  intros Hp Hl. unfold apply_bleed_damage.
  assert (Hrng : forall s g, f (set_rng g s) = f s).
  { intros s g. rewrite <- (Hp s (player s) g). f_equal.
    destruct s; reflexivity. }
  repeat first
    [ apply preserves_bind; [|intros ?]
    | apply preserves_ret | apply preserves_gets
    | apply add_damage_keeps; exact Hp
    | apply preserves_log_append; exact Hl
    | apply periodic_procs_keeps
    | match goal with
      | |- preserves _ (if ?b then _ else _) => destruct b
      end
    | apply preserves_local; intros s;
      destruct (calc_yellow_damage _ _ _ _ _ _) as [x g]; apply Hrng ].
Qed.

(** X20.  Without trinkets that proc on periodic damage only: a Rip whose
    schedule has a tick left and ends on [rip_end] keeps such a schedule
    through Shred (with or without the Glyph of Shred extension) and
    through the Rip block of the main loop, which drops the debuff in the
    very step that consumes the last tick.  So, as long as Rip is up, the
    reads of [rip_ticks[0]] in the loop find a tick. *)
Theorem rip_schedule_never_runs_dry (s : Sim) :
  schedule_ok (rip_debuff s) (rip_ticks s) (rip_end s) ->
  (forall d s', shred s = Ok (d, s') ->
     schedule_ok (rip_debuff s') (rip_ticks s') (rip_end s'))
  /\ (forall time d s', rip_phase time s = Ok (d, s') ->
        schedule_ok (rip_debuff s') (rip_ticks s') (rip_end s'))
  /\ (forall time, exists due,
        tick_due rip_debuff rip_ticks time s = Ok (due, s)).
Proof.
  intros Hok. split; [|split].
  - intros d s' H.
    unfold shred, bind, gets, call_player, whenS, ifS, modify, ret in H.
    destruct (player_shred _ _ _) as [[[dmg success] p'] g'].
    destruct s; simpl in *.
    destruct (success && rip_debuff0 && shred_glyph (pext p')) eqn:Hext.
    + destruct (Qltb _ _); injection H as _ <-; simpl; [|exact Hok].
      intros _. split; [intros E; destruct rip_ticks0; discriminate|].
      rewrite last_last. reflexivity.
    + injection H as _ <-. exact Hok.
  - intros time d s' H. unfold rip_phase in H.
    apply bind_inv in H as (due & s1 & Hdue & H).
    apply bind_inv in H as (d0 & s2 & Htick & H).
    apply bind_inv in H as ([] & s3 & Hfall & H).
    injection H as _ <-.
    assert (Hs2 : rip_debuff s2 = rip_debuff s /\ rip_end s2 = rip_end s
                  /\ (rip_ticks s2 = rip_ticks s
                      \/ exists t0, rip_ticks s = t0 :: rip_ticks s2
                                    /\ rip_debuff s = true /\ t0 <= time)).
    { unfold tick_due, ifS in Hdue. destruct (rip_debuff s) eqn:Hup.
      - apply bind_inv in Hdue as (first & s0 & Hfirst & Hdue).
        injection Hdue as <- <-. unfold getsR in Hfirst.
        destruct (rip_ticks s) as [|t0 rest] eqn:Hticks; [discriminate|].
        injection Hfirst as <- <-.
        destruct (Qgeb time t0) eqn:Hge.
        + apply Qgeb_ge in Hge.
          apply bind_inv in Htick as (dmg & sa & Ha & Htick).
          apply bind_inv in Htick as (crit & sb & Hb & Htick).
          apply bind_inv in Htick as (snap & sc & Hc & Htick).
          apply bind_inv in Htick as (d1 & sd & Hbleed & Htick).
          apply bind_inv in Htick as ([] & se & Hpop & Htick).
          apply gets_inv in Ha as [_ ->]. apply gets_inv in Hb as [_ ->].
          apply gets_inv in Hc as [_ ->].
          injection Htick as _ Hse.
          assert (Hsd : (rip_debuff sd, rip_end sd, rip_ticks sd)
                        = (rip_debuff s, rip_end s, rip_ticks s)).
          { refine (apply_bleed_damage_keeps
                      (fun s => (rip_debuff s, rip_end s, rip_ticks s))
                      _ _ _ _ _ _ _ s d1 sd Hbleed); keeps_side. }
          injection Hsd as Hd1 Hd2 Hd3.
          unfold pop_first in Hpop. rewrite Hd3, Hticks in Hpop.
          injection Hpop as Hpop. subst s2 se. destruct sd; simpl in *.
          split; [congruence|]. split; [congruence|].
          right. exists t0. auto.
        + injection Htick as _ <-. auto.
      - injection Hdue as <- <-. injection Htick as _ <-. auto. }
    destruct Hs2 as (Hdeb & Hend & Hticks).
    unfold whenS, ifS in Hfall.
    destruct (rip_debuff s2 && Qgtb time (rip_end s2 - eps)) eqn:Hcond.
    + apply bind_inv in Hfall as ([] & s4 & Hmod & Hlog).
      injection Hmod as <-.
      assert (Hoff : rip_debuff s3 = false).
      { unfold log_append in Hlog.
        destruct (log _); injection Hlog as <-; destruct s2; reflexivity. }
      intros Hup. congruence.
    + injection Hfall as <-. intros Hup.
      rewrite Hdeb in Hup. destruct (Hok Hup) as [Hne Hlast].
      rewrite Hdeb, Hup in Hcond. simpl in Hcond. apply Qgtb_le in Hcond.
      rewrite Hend in Hcond |- *.
      destruct Hticks as [-> | (t0 & Ht0 & _ & Hle)]; [auto|].
      rewrite Ht0 in Hlast.
      destruct (rip_ticks s2) as [|t1 rest].
      * simpl in Hlast. pose proof eps_small as [He _]. lra.
      * split; [discriminate | exact Hlast].
  - intros time. unfold tick_due, ifS, bind, getsR, ret.
    destruct (rip_debuff s) eqn:Hup; [|eauto].
    destruct (Hok eq_refl) as [Hne _].
    destruct (rip_ticks s); [congruence | eauto].
Qed.

(** X21.  Without trinkets that proc on periodic damage only: a Rake
    whose schedule has a tick left and ends on [rake_end] keeps such a
    schedule through the Rake block of the main loop, which drops the
    debuff in the very step that consumes the last tick; so, as long as
    Rake is up, the reads of [rake_ticks[0]] in the loop find a tick. *)
Theorem rake_schedule_never_runs_dry (s : Sim) :
  schedule_ok (rake_debuff s) (rake_ticks s) (rake_end s) ->
  (forall time d s', rake_phase time s = Ok (d, s') ->
     schedule_ok (rake_debuff s') (rake_ticks s') (rake_end s'))
  /\ (forall time, exists due,
        tick_due rake_debuff rake_ticks time s = Ok (due, s)).
Proof.
  intros Hok. split.
  - intros time d s' H. unfold rake_phase in H.
    apply bind_inv in H as (due & s1 & Hdue & H).
    apply bind_inv in H as (d0 & s2 & Htick & H).
    apply bind_inv in H as ([] & s3 & Hfall & H).
    injection H as _ <-.
    assert (Hs2 : rake_debuff s2 = rake_debuff s /\ rake_end s2 = rake_end s
                  /\ (rake_ticks s2 = rake_ticks s
                      \/ exists t0, rake_ticks s = t0 :: rake_ticks s2
                                    /\ rake_debuff s = true /\ t0 <= time)).
    { unfold tick_due, ifS in Hdue. destruct (rake_debuff s) eqn:Hup.
      - apply bind_inv in Hdue as (first & s0 & Hfirst & Hdue).
        injection Hdue as <- <-. unfold getsR in Hfirst.
        destruct (rake_ticks s) as [|t0 rest] eqn:Hticks; [discriminate|].
        injection Hfirst as <- <-.
        destruct (Qgeb time t0) eqn:Hge.
        + apply Qgeb_ge in Hge.
          apply bind_inv in Htick as (dmg & sa & Ha & Htick).
          apply bind_inv in Htick as (snap & sc & Hc & Htick).
          apply bind_inv in Htick as (d1 & sd & Hbleed & Htick).
          apply bind_inv in Htick as ([] & se & Hpop & Htick).
          apply gets_inv in Ha as [_ ->]. apply gets_inv in Hc as [_ ->].
          injection Htick as _ Hse.
          assert (Hsd : (rake_debuff sd, rake_end sd, rake_ticks sd)
                        = (rake_debuff s, rake_end s, rake_ticks s)).
          { refine (apply_bleed_damage_keeps
                      (fun s => (rake_debuff s, rake_end s, rake_ticks s))
                      _ _ _ _ _ _ _ s d1 sd Hbleed); keeps_side. }
          injection Hsd as Hd1 Hd2 Hd3.
          unfold pop_first in Hpop. rewrite Hd3, Hticks in Hpop.
          injection Hpop as Hpop. subst s2 se. destruct sd; simpl in *.
          split; [congruence|]. split; [congruence|].
          right. exists t0. auto.
        + injection Htick as _ <-. auto.
      - injection Hdue as <- <-. injection Htick as _ <-. auto. }
    destruct Hs2 as (Hdeb & Hend & Hticks).
    unfold whenS, ifS in Hfall.
    destruct (rake_debuff s2 && Qgtb time (rake_end s2 - eps)) eqn:Hcond.
    + apply bind_inv in Hfall as ([] & s4 & Hmod & Hlog).
      injection Hmod as <-.
      assert (Hoff : rake_debuff s3 = false).
      { unfold log_append in Hlog.
        destruct (log _); injection Hlog as <-; destruct s2; reflexivity. }
      intros Hup. congruence.
    + injection Hfall as <-. intros Hup.
      rewrite Hdeb in Hup. destruct (Hok Hup) as [Hne Hlast].
      rewrite Hdeb, Hup in Hcond. simpl in Hcond. apply Qgtb_le in Hcond.
      rewrite Hend in Hcond |- *.
      destruct Hticks as [-> | (t0 & Ht0 & _ & Hle)]; [auto|].
      rewrite Ht0 in Hlast.
      destruct (rake_ticks s2) as [|t1 rest].
      * simpl in Hlast. pose proof eps_small as [He _]. lra.
      * split; [discriminate | exact Hlast].
  - intros time. unfold tick_due, ifS, bind, getsR, ret.
    destruct (rake_debuff s) eqn:Hup; [|eauto].
    destruct (Hok eq_refl) as [Hne _].
    destruct (rake_ticks s); [congruence | eauto].
Qed.

End ScheduleInvariants.
(** ** One pass through the main loop *)

Section LoopFrames.
Context `{C : Collab}.
Hypothesis Hnone : no_periodic_trinkets.

Lemma invariant_of_preserves {A B : Type} (f : Sim -> B) (Q : B -> Prop)
    (m : M A) :
  preserves f m -> invariant (fun s => Q (f s)) m.
Proof. intros Hm s a s' HQ H. rewrite (Hm s a s' H). exact HQ. Qed.

(** A footprint proof through the phases of the loop. *)
Ltac phase_tac :=
  repeat first
    [ match goal with
      | |- preserves _ (apply_bleed_damage _ _ _ _ _) =>
          apply (apply_bleed_damage_keeps Hnone); keeps_side
      end
    | keeps_step ].

Ltac unfold_phases :=
  unfold rotation_phase, tigers_fury_phase, expire_buffs, bear_rotation,
    cat_rotation;
  unfold advance_cooldowns, expire_buffs, rip_phase, rake_phase,
    lacerate_phase, revitalize_phase, enrage_phase, proc_end_phase,
    tigers_fury_phase, rotation_phase, tick_due, drop_tigers_fury,
    drop_berserk, apply_tigers_fury, apply_berserk, pop_first, np_rand,
    log_player_action, log_player_swing, bear_rotation, cat_rotation,
    returning, waiting, set_ready_to_shift_true, mangle, rake, lacerate,
    rip, shred, ArmorDebuffs.update, ArmorDebuffs.reset,
    UptimeTracker.update.

Lemma update_trinkets_keeps_swings (time : Q) (ts : list Trinket) (d : Q) :
  own_trinkets ts -> preserves swings (update_trinkets time ts d).
Proof.
  intros Hown. revert d. induction Hown as [|t ts Ht Hts IH]; intros d; simpl.
  - apply preserves_ret.
  - apply preserves_bind; [|intros ?; apply IH].
    destruct t as [i | | k]; [destruct Ht | |]; simpl; unfold_phases;
      phase_tac.
Qed.

Lemma before_swing_keeps_swings (log_v : bool) (time delta_t : Q) (n : Z) :
  preserves swings (advance_cooldowns time delta_t)
  /\ preserves swings (expire_buffs log_v time)
  /\ preserves swings (rip_phase time)
  /\ preserves swings (rake_phase time)
  /\ preserves swings (lacerate_phase time)
  /\ preserves swings (revitalize_phase time n)
  /\ preserves swings (enrage_phase time)
  /\ preserves swings (proc_end_phase time)
  /\ preserves swings (tigers_fury_phase time).
Proof.
  repeat split; unfold_phases; phase_tac.
Qed.

Lemma swing_phase_pops_last (time t : Q) (s : Sim) (d : Q) (s' : Sim) :
  swing_times s = [t] -> time == t ->
  swing_phase time s = Ok (d, s') ->
  swing_times s' = [] /\ trinkets s' = trinkets s.
Proof.
  intros Hone Hnow H. unfold swing_phase in H.
  apply bind_inv in H as (next & s0 & Hnext & H).
  unfold getsR in Hnext. rewrite Hone in Hnext. injection Hnext as <- <-.
  assert (Heq : Qeqb time t = true) by (apply Qeqb_eq; exact Hnow).
  rewrite Heq in H.
  apply bind_inv in H as (d0 & s1 & Hattack & H).
  apply bind_inv in H as ([] & s2 & Hpop & H).
  assert (H1 : (swing_times s1, trinkets s1) = (swing_times s, trinkets s)).
  { refine ((_ : preserves swings _) s d0 s1 Hattack). phase_tac. }
  injection H1 as Hs1 Ht1.
  unfold pop_first in Hpop. rewrite Hs1, Hone in Hpop. injection Hpop as <-.
  assert (H2 : (swing_times s', trinkets s')
               = (swing_times (set_swing_times [] s1),
                  trinkets (set_swing_times [] s1))).
  { refine ((_ : preserves swings _) _ d s' H). unfold_phases. phase_tac. }
  injection H2 as -> ->. destruct s1; simpl in *. auto.
Qed.

Lemma execute_rotation_without_swings (time : Q) (s : Sim) (d : Q)
    (s' : Sim) :
  swing_times s = [] ->
  execute_rotation time s = Ok (d, s') ->
  (swing_times s', trinkets s') = (swing_times s, trinkets s).
Proof.
  intros Hempty H. unfold execute_rotation in H. unfold ifS at 1 in H.
  destruct (ready_to_shift (player s)).
  - exfalso.
    apply bind_inv in H as ([] & s1 & Hshift & H).
    apply bind_inv in H as ([] & s2 & Hoom & H).
    apply bind_inv in H as (fac & s3 & Hfac & H).
    apply bind_inv in H as (next & s4 & Hnext & H).
    injection Hfac as _ <-.
    assert (H1 : (swing_times s1, trinkets s1) = (swing_times s, trinkets s)).
    { refine ((_ : preserves swings _) s tt s1 Hshift). phase_tac. }
    assert (H2 : (swing_times s2, trinkets s2)
                 = (swing_times s1, trinkets s1)).
    { refine ((_ : preserves swings _) s1 tt s2 Hoom). phase_tac. }
    injection H1 as E1 _. injection H2 as E2 _.
    unfold getsR in Hnext. rewrite E2, E1, Hempty in Hnext. discriminate.
  - refine ((_ : preserves swings _) s d s' H). unfold_phases. phase_tac.
Qed.

Lemma rotation_phase_without_swings (time : Q) (s : Sim) (d : Q) (s' : Sim) :
  swing_times s = [] ->
  rotation_phase time s = Ok (d, s') ->
  (swing_times s', trinkets s') = (swing_times s, trinkets s).
Proof.
  intros Hempty H. unfold rotation_phase in H.
  apply bind_inv in H as ([] & s1 & Hmod & H).
  injection Hmod as <-.
  apply bind_inv in H as (d0 & s2 & Hrot & H).
  assert (H2 : (swing_times s2, trinkets s2) = (swing_times s, trinkets s)).
  { unfold ifS in Hrot.
    destruct (Qltb _ _ && Qgeb _ _).
    - assert (Hempty' : swing_times
                          (set_player (set_p_combat_log None (player s)) s)
                        = []) by (destruct s; exact Hempty).
      rewrite (execute_rotation_without_swings _ _ _ _ Hempty' Hrot).
      destruct s; reflexivity.
    - injection Hrot as _ <-. destruct s; reflexivity. }
  rewrite <- H2.
  refine ((_ : preserves swings _) s2 d s' H). unfold_phases. phase_tac.
Qed.

(** X22.  Without trinket objects of the caller in the trinket list and
    without trinkets that proc on periodic damage only: a pass through the
    main loop at the time of the last swing left in [swing_times] cannot
    complete.  The swing is executed and removed, nothing refills the
    schedule, and the pass ends in an exception, at the latest on the read
    of [swing_times[0]] that computes the next event time. *)
Theorem last_swing_exhausts_schedule (log_v : bool)
    (time previous_time : Q) (num_hot_ticks : Z) (s : Sim) (t : Q) :
  own_trinkets (trinkets s) ->
  swing_times s = [t] ->
  time == t ->
  exists e,
    loop_body log_v time previous_time num_hot_ticks s = Raise e.
Proof.
  intros Hown Hone Hnow.
  destruct (loop_body log_v time previous_time num_hot_ticks s)
    as [[r s']|e] eqn:H; [exfalso | eauto].
  unfold loop_body in H.
  destruct (before_swing_keeps_swings log_v time (time - previous_time)
              num_hot_ticks)
    as (K1 & K2 & K3 & K4 & K5 & K6 & K7 & K8 & K9).
  apply bind_inv in H as ([] & s1 & E1 & H).
  apply K1 in E1. injection E1 as S1 T1.
  apply bind_inv in H as ([] & s2 & E2 & H).
  apply K2 in E2. injection E2 as S2 T2.
  apply bind_inv in H as (d3 & s3 & E3 & H).
  apply K3 in E3. injection E3 as S3 T3.
  apply bind_inv in H as (d4 & s4 & E4 & H).
  apply K4 in E4. injection E4 as S4 T4.
  apply bind_inv in H as (d5 & s5 & E5 & H).
  apply K5 in E5. injection E5 as S5 T5.
  apply bind_inv in H as (n6 & s6 & E6 & H).
  apply K6 in E6. injection E6 as S6 T6.
  apply bind_inv in H as (ts & s7 & E7 & H).
  apply gets_inv in E7 as [-> ->].
  apply bind_inv in H as (d8 & s8 & E8 & H).
  assert (Hown6 : own_trinkets (trinkets s6)).
  { replace (trinkets s6) with (trinkets s) by congruence. exact Hown. }
  apply (update_trinkets_keeps_swings _ _ _ Hown6) in E8.
  injection E8 as S8 T8.
  apply bind_inv in H as ([] & s9 & E9 & H).
  apply K7 in E9. injection E9 as S9 T9.
  apply bind_inv in H as (d10 & s10 & E10 & H).
  apply (swing_phase_pops_last time t) in E10 as [S10 T10];
    [| congruence | exact Hnow].
  apply bind_inv in H as (d11 & s11 & E11 & H).
  apply rotation_phase_without_swings in E11; [|exact S10].
  injection E11 as S11 T11.
  apply bind_inv in H as (ts' & s12 & E12 & H).
  apply gets_inv in E12 as [-> ->].
  apply bind_inv in H as (d13 & s13 & E13 & H).
  assert (Hown11 : own_trinkets (trinkets s11)).
  { replace (trinkets s11) with (trinkets s) by congruence. exact Hown. }
  apply (update_trinkets_keeps_swings _ _ _ Hown11) in E13.
  injection E13 as S13 T13.
  apply bind_inv in H as ([] & s14 & E14 & H).
  apply K8 in E14. injection E14 as S14 T14.
  apply bind_inv in H as ([] & s15 & E15 & H).
  apply K9 in E15. injection E15 as S15 T15.
  apply bind_inv in H as (next & s16 & E16 & H).
  unfold next_event_time in E16.
  apply bind_inv in E16 as (first & s17 & E17 & _).
  unfold getsR in E17.
  assert (Hdry : swing_times s15 = []) by congruence.
  rewrite Hdry in E17. discriminate.
Qed.

End LoopFrames.
(** ** The next event time *)

Lemma pymin_le_l (a b : Q) : pymin a b <= a.
Proof.
  unfold pymin. destruct (Qltb b a) eqn:E; [|lra].
  apply Qltb_lt in E. lra.
Qed.

Lemma pymin_le_r (a b : Q) : pymin a b <= b.
Proof.
  unfold pymin. destruct (Qltb b a) eqn:E; [lra|].
  apply Qltb_ge in E. exact E.
Qed.

Lemma tail_min (t : Q) (lac : bool) (lticks procs : list Q) :
  let t' := if lac
            then match lticks with [] => t | first :: _ => pymin t first end
            else t in
  let r := match procs with [] => t' | first :: _ => pymin t' first end in
  r <= t
  /\ (forall x rest, lac = true -> lticks = x :: rest -> r <= x)
  /\ (forall x rest, procs = x :: rest -> r <= x).
Proof.
  intros t' r.
  assert (Ht' : t' <= t).
  { unfold t'. destruct lac; [|lra]. destruct lticks; [lra|].
    apply pymin_le_l. }
  assert (Hr : r <= t').
  { unfold r. destruct procs; [lra | apply pymin_le_l]. }
  split; [lra|]. split.
  - intros x rest -> ->. apply Qle_trans with t'; [exact Hr|].
    apply pymin_le_r.
  - intros x rest ->. apply pymin_le_r.
Qed.

Section NextEvent.
Context `{C : Collab}.

(** X23.  The computation of the next event time reads the first swing
    time and, for Rip and Rake when they are up, the first tick, without a
    guard: it raises [IndexError] exactly when [swing_times] is empty, or
    Rip is up with no tick scheduled, or Rake is up with no tick
    scheduled, and nothing else.  When it returns, it changes nothing, and
    the time returned is not after the next swing, the next decision
    [max(time + gcd, next_action)], the first tick of each bleed that is
    up, or the first entry of [proc_end_times]. *)
Theorem next_event_time_reads (time : Q) (s : Sim) :
  (next_event_time time s = Raise IndexError
   <-> swing_times s = []
       \/ (rip_debuff s = true /\ rip_ticks s = [])
       \/ (rake_debuff s = true /\ rake_ticks s = []))
  /\ (forall e, next_event_time time s = Raise e -> e = IndexError)
  /\ (forall t s', next_event_time time s = Ok (t, s') ->
        s' = s
        /\ (forall x rest, swing_times s = x :: rest -> t <= x)
        /\ t <= pymax (time + gcd (player s)) (next_action s)
        /\ (forall x rest, rip_debuff s = true -> rip_ticks s = x :: rest ->
              t <= x)
        /\ (forall x rest, rake_debuff s = true -> rake_ticks s = x :: rest ->
              t <= x)
        /\ (forall x rest, lacerate_debuff s = true ->
              lacerate_ticks s = x :: rest -> t <= x)
        /\ (forall x rest, proc_end_times s = x :: rest -> t <= x)).
Proof.
  unfold next_event_time, bind, getsR, gets, ifS, ret.
  destruct (swing_times s) as [|sw swr] eqn:Hsw; simpl.
  { split; [split; auto|]. split; [intros e H; congruence | discriminate]. }
  set (t0 := pymin (pymax (time + gcd (player s)) (next_action s)) sw).
  assert (H0a : t0 <= sw) by apply pymin_le_r.
  assert (H0b : t0 <= pymax (time + gcd (player s)) (next_action s))
    by apply pymin_le_l.
  destruct (rip_debuff s) eqn:Hrip.
  - destruct (rip_ticks s) as [|r0 rr] eqn:Hrt; simpl.
    { split; [split; auto|]. split; [intros e H; congruence | discriminate]. }
    pose proof (pymin_le_l t0 r0) as H1a. pose proof (pymin_le_r t0 r0) as H1b.
    set (t1 := pymin t0 r0) in *.
    destruct (rake_debuff s) eqn:Hrake.
    + destruct (rake_ticks s) as [|k0 kr] eqn:Hkt; simpl.
      { split; [split; auto|]. split; [intros e H; congruence | discriminate]. }
      pose proof (pymin_le_l t1 k0) as H2a.
      pose proof (pymin_le_r t1 k0) as H2b.
      set (t2 := pymin t1 k0) in *.
      split.
      { split; [discriminate|].
        intros [H | [[_ H] | [_ H]]]; discriminate. }
      split; [discriminate|].
      intros t s' H. injection H as <- <-.
      destruct (tail_min t2 (lacerate_debuff s) (lacerate_ticks s)
                  (proc_end_times s)) as (Ht & Hl & Hp).
      split; [reflexivity|].
      repeat split; intros;
        repeat match goal with
               | E : _ :: _ = _ :: _ |- _ => injection E as ? ?; subst
               end;
        try discriminate;
        try solve [eapply Qle_trans; [apply Ht|]; lra];
        try solve [eapply Hl; eauto];
        solve [eapply Hp; eauto].
    + split.
      { split; [discriminate|].
        intros [H | [[_ H] | [H _]]]; discriminate. }
      split; [discriminate|].
      intros t s' H. injection H as <- <-.
      destruct (tail_min t1 (lacerate_debuff s) (lacerate_ticks s)
                  (proc_end_times s)) as (Ht & Hl & Hp).
      split; [reflexivity|].
      repeat split; intros;
        repeat match goal with
               | E : _ :: _ = _ :: _ |- _ => injection E as ? ?; subst
               end;
        try discriminate;
        try solve [eapply Qle_trans; [apply Ht|]; lra];
        try solve [eapply Hl; eauto];
        solve [eapply Hp; eauto].
  - destruct (rake_debuff s) eqn:Hrake.
    + destruct (rake_ticks s) as [|k0 kr] eqn:Hkt; simpl.
      { split; [split; auto|]. split; [intros e H; congruence | discriminate]. }
      pose proof (pymin_le_l t0 k0) as H2a.
      pose proof (pymin_le_r t0 k0) as H2b.
      set (t2 := pymin t0 k0) in *.
      split.
      { split; [discriminate|].
        intros [H | [[H _] | [_ H]]]; discriminate. }
      split; [discriminate|].
      intros t s' H. injection H as <- <-.
      destruct (tail_min t2 (lacerate_debuff s) (lacerate_ticks s)
                  (proc_end_times s)) as (Ht & Hl & Hp).
      split; [reflexivity|].
      repeat split; intros;
        repeat match goal with
               | E : _ :: _ = _ :: _ |- _ => injection E as ? ?; subst
               end;
        try discriminate;
        try solve [eapply Qle_trans; [apply Ht|]; lra];
        try solve [eapply Hl; eauto];
        solve [eapply Hp; eauto].
    + split.
      { split; [discriminate|].
        intros [H | [[H _] | [H _]]]; discriminate. }
      split; [discriminate|].
      intros t s' H. injection H as <- <-.
      destruct (tail_min t0 (lacerate_debuff s) (lacerate_ticks s)
                  (proc_end_times s)) as (Ht & Hl & Hp).
      split; [reflexivity|].
      repeat split; intros;
        repeat match goal with
               | E : _ :: _ = _ :: _ |- _ => injection E as ? ?; subst
               end;
        try discriminate;
        try solve [eapply Qle_trans; [apply Ht|]; lra];
        try solve [eapply Hl; eauto];
        solve [eapply Hp; eauto].
Qed.

End NextEvent.
(** ** Shifting and table lookups *)

Section Shift.
Context `{C : Collab}.

(** X24.  The call of [execute_rotation] that carries out a shift decided
    earlier, with a positive swing timer.  With an empty swing schedule it
    raises [IndexError].  Otherwise it returns 0 damage after the player's
    [shift]: the swing timer is multiplied by 2.5 when the player is then
    out of Cat Form and divided by 2.5 when in it; the swing schedule is
    rebuilt from the swing that was next, which stays the next swing, with
    at least two swings spaced by the new timer and reaching the end of
    the fight; the time of going out of mana is recorded if mana is
    negative and none was recorded; and [next_action] is not touched. *)
Theorem shift_keeps_next_swing (time : Q) (s : Sim) :
  ready_to_shift (player s) = true ->
  0 < swing_timer s ->
  let shifted := player_shift time false (player s) (rng s) in
  let p' := shifted.1.2 in
  (swing_times s = [] -> execute_rotation time s = Raise IndexError)
  /\ (forall next rest, swing_times s = next :: rest ->
        exists s',
          execute_rotation time s = Ok (0, s')
          /\ player s' = p'
          /\ swing_timer s'
             = swing_timer s * (if cat_form (pext p') then 1 / 2.5 else 2.5)
          /\ time_to_oom s'
             = (if Qltb (mana (pext p')) 0 && no_oom_yet s then Some time
                else time_to_oom s)
          /\ next_action s' = next_action s
          /\ exists n,
               (2 <= n)%nat
               /\ Forall2 Qeq (swing_times s')
                          (cadence next (swing_timer s') n)
               /\ fight_length s
                  <= next + (inject_Z (Z.of_nat n) - 1) * swing_timer s').
Proof.
  intros Hready Hpos shifted p'.
  unfold execute_rotation, ifS. rewrite Hready.
  unfold update_swing_times, bind, call_player, whenS, ifS, getsR, gets,
    modify, ret.
  fold shifted. destruct shifted as [[[] p1] g1] eqn:Hshift.
  simpl in p'. subst p'.
  split.
  - intros Hempty. destruct s; simpl in *. subst.
    unfold no_oom_yet; simpl.
    destruct (Qltb (mana (pext p1)) 0 && _); reflexivity.
  - intros next rest Hsw. destruct s; simpl in *. subst.
    unfold no_oom_yet; simpl.
    assert (Hshape : forall fac, 0 < fac ->
              exists n,
                (2 <= n)%nat
                /\ Forall2 Qeq
                     (if Qgtb next (fight_length0 - swing_timer0 * fac)
                      then [next; next + swing_timer0 * fac]
                      else arange next (fight_length0 + swing_timer0 * fac)
                                  (swing_timer0 * fac))
                     (cadence next (swing_timer0 * fac) n)
                /\ fight_length0
                   <= next + (inject_Z (Z.of_nat n) - 1)
                             * (swing_timer0 * fac)).
    { intros fac Hfac. apply swing_schedule_shape.
      apply Qmult_lt_0_compat; assumption. }
    destruct (Qltb (mana (pext p1)) 0
              && match time_to_oom0 with
                 | None => true
                 | Some t => Qeqb t 0
                 end); simpl;
      (destruct (cat_form (pext p1));
       [specialize (Hshape (1 / 2.5) eq_refl)
       | specialize (Hshape 2.5 eq_refl)]);
      eexists; (split; [reflexivity|]);
      destruct (Qgtb next _); simpl;
      repeat split; try reflexivity; exact Hshape.
Qed.


End Shift.
(** ** A Mangle kept up by a bear tank *)

Section PermanentMangle.
Context `{C : Collab}.
Hypothesis Hnone : no_periodic_trinkets.

Lemma invariant_bind {A B : Type} (P : Sim -> Prop) (m : M A)
    (k : A -> M B) :
  invariant P m -> (forall a, invariant P (k a)) -> invariant P (bind m k).
Proof.
  intros Hm Hk s b s' HP H. apply bind_inv in H as (a & s1 & E & H).
  exact (Hk a s1 b s' (Hm s a s1 HP E) H).
Qed.

Lemma invariant_ifS {A : Type} (P : Sim -> Prop) (c : Sim -> bool)
    (t e : M A) :
  invariant P t -> invariant P e -> invariant P (ifS c t e).
Proof.
  intros Ht He s a s' HP H. unfold ifS in H.
  destruct (c s); [exact (Ht s a s' HP H) | exact (He s a s' HP H)].
Qed.

Lemma invariant_ret {A : Type} (P : Sim -> Prop) (a : A) :
  invariant P (ret a).
Proof. intros s a' s' HP H. injection H as _ <-. exact HP. Qed.

Lemma invariant_whenS (P : Sim -> Prop) (c : Sim -> bool) (t : M unit) :
  invariant P t -> invariant P (whenS c t).
Proof. intros Ht. apply invariant_ifS; [exact Ht | apply invariant_ret]. Qed.

Lemma invariant_whenS_off (P : Sim -> Prop) (c : Sim -> bool) (t : M unit) :
  (forall s, P s -> c s = false) -> invariant P (whenS c t).
Proof.
  intros Hc s a s' HP H. unfold whenS, ifS in H. rewrite (Hc s HP) in H.
  injection H as _ <-. exact HP.
Qed.

Ltac phase_tac :=
  repeat first
    [ match goal with
      | |- preserves _ (apply_bleed_damage _ _ _ _ _) =>
          apply (apply_bleed_damage_keeps Hnone); keeps_side
      end
    | keeps_step ].

Ltac unfold_phases :=
  unfold rotation_phase, tigers_fury_phase, expire_buffs, bear_rotation,
    cat_rotation, swing_phase, next_event_time, execute_rotation;
  unfold advance_cooldowns, expire_buffs, rip_phase, rake_phase,
    lacerate_phase, revitalize_phase, enrage_phase, proc_end_phase,
    tigers_fury_phase, rotation_phase, tick_due, drop_tigers_fury,
    drop_berserk, apply_tigers_fury, apply_berserk, pop_first, np_rand,
    log_player_action, log_player_swing, bear_rotation, cat_rotation,
    returning, waiting, set_ready_to_shift_true, rake, lacerate,
    rip, shred, update_swing_times, ArmorDebuffs.update, ArmorDebuffs.reset,
    UptimeTracker.update.

(** A computation that does not touch what the property reads. *)
Ltac untouched :=
  apply (invariant_of_preserves mangle_view permanent_view);
  solve [unfold_phases; phase_tac].

Lemma mangle_keeps_permanent (time : Q) :
  invariant mangle_permanent (mangle time).
Proof.
  intros s d s' HP H.
  unfold mangle, bind, call_player, modify, ret in H.
  destruct (player_mangle _ _) as [[[dmg success] p'] g'].
  unfold mangle_permanent, permanent_view, mangle_view in *.
  destruct s; simpl in *. destruct HP as (Hb & Hd & He & Ho).
  destruct success; injection H as _ <-; simpl; rewrite ?Hb; auto.
Qed.

Ltac permanent_step :=
  lazymatch goal with
  | |- invariant _ (mangle _) => apply mangle_keeps_permanent
  | |- invariant _ (bind _ _) => apply invariant_bind; [|intros ?; cbv beta]
  | |- invariant _ (ifS _ _ _) => apply invariant_ifS
  | |- invariant _ (whenS _ _) => apply invariant_whenS
  | |- invariant _ (ret _) => apply invariant_ret
  | |- invariant _ (match ?x with _ => _ end) => destruct x
  | |- invariant _ _ => untouched
  end.

Lemma expire_buffs_keeps_permanent (log_v : bool) (time : Q) :
  invariant mangle_permanent (expire_buffs log_v time).
Proof.
  unfold expire_buffs.
  apply invariant_bind; [untouched | intros c1].
  apply invariant_bind; [destruct c1; untouched | intros _].
  apply invariant_bind; [untouched | intros c2].
  apply invariant_bind; [destruct c2; untouched | intros _].
  apply invariant_bind; [|intros _; untouched].
  apply invariant_whenS_off. intros s (_ & Hd & He & _).
  unfold mangle_view in *. simpl in *. rewrite He. simpl.
  apply andb_false_r.
Qed.

Lemma execute_rotation_keeps_permanent (time : Q) :
  invariant mangle_permanent (execute_rotation time).
Proof.
  unfold execute_rotation, bear_rotation, cat_rotation, returning.
  repeat permanent_step.
Qed.

Lemma update_trinkets_keeps_view (time : Q) (ts : list Trinket) (d : Q) :
  own_trinkets ts -> preserves mangle_view (update_trinkets time ts d).
Proof.
  intros Hown. revert d. induction Hown as [|t ts Ht Hts IH]; intros d; simpl.
  - apply preserves_ret.
  - apply preserves_bind; [|intros ?; apply IH].
    destruct t as [i | | k]; [destruct Ht | |]; simpl; unfold_phases;
      phase_tac.
Qed.

Lemma reset_trinkets_keeps_view (ts : list Trinket) :
  own_trinkets ts -> preserves mangle_view (reset_trinkets ts).
Proof.
  intros Hown. induction Hown as [|t ts Ht Hts IH]; simpl.
  - apply preserves_ret.
  - apply preserves_bind; [|intros ?; apply IH].
    destruct t as [i | | k]; [destruct Ht | |]; simpl; unfold_phases;
      phase_tac.
Qed.

Lemma finish_trinkets_keeps_view (ts : list Trinket) (acc : list AuraStat) :
  own_trinkets ts -> preserves mangle_view (finish_trinkets ts acc).
Proof.
  intros Hown. revert acc.
  induction Hown as [|t ts Ht Hts IH]; intros acc; simpl.
  - apply preserves_ret.
  - apply preserves_bind; [|intros ?; apply IH].
    destruct t as [i | | k]; [destruct Ht | |]; unfold finish_trinket; simpl;
      unfold_phases; phase_tac.
Qed.

Lemma with_own_trinkets {A : Type} (k : list Trinket -> M A) :
  (forall ts, own_trinkets ts -> invariant mangle_permanent (k ts)) ->
  invariant mangle_permanent (bind (gets trinkets) k).
Proof.
  intros Hk s a s' HP H. apply bind_inv in H as (ts & s1 & E & H).
  apply gets_inv in E as [-> ->].
  refine (Hk (trinkets s) _ s a s' HP H). exact (proj2 (proj2 (proj2 HP))).
Qed.

Lemma loop_body_keeps_permanent (log_v : bool) (time previous_time : Q)
    (num_hot_ticks : Z) :
  invariant mangle_permanent
            (loop_body log_v time previous_time num_hot_ticks).
Proof.
  unfold loop_body.
  apply invariant_bind; [untouched | intros _].
  apply invariant_bind; [apply expire_buffs_keeps_permanent | intros _].
  apply invariant_bind; [untouched | intros d_rip].
  apply invariant_bind; [untouched | intros d_rake].
  apply invariant_bind; [untouched | intros d_lac].
  apply invariant_bind; [untouched | intros n'].
  apply with_own_trinkets. intros ts Hts.
  apply invariant_bind;
    [apply (invariant_of_preserves mangle_view permanent_view),
       update_trinkets_keeps_view, Hts | intros dmg].
  apply invariant_bind; [untouched | intros _].
  apply invariant_bind; [untouched | intros d_swing].
  apply invariant_bind.
  { unfold rotation_phase.
    apply invariant_bind; [untouched | intros _].
    apply invariant_bind;
      [apply invariant_ifS;
         [apply execute_rotation_keeps_permanent | apply invariant_ret]
      | intros d].
    untouched. }
  intros d_rot.
  apply with_own_trinkets. intros ts' Hts'.
  apply invariant_bind;
    [apply (invariant_of_preserves mangle_view permanent_view),
       update_trinkets_keeps_view, Hts' | intros dmg'].
  apply invariant_bind; [untouched | intros _].
  apply invariant_bind; [untouched | intros _].
  apply invariant_bind; [untouched | intros next].
  apply invariant_ret.
Qed.

Lemma run_loop_keeps_permanent (fuel : nat) (log_v : bool)
    (time previous_time : Q) (num_hot_ticks : Z) (acc : Series) :
  invariant mangle_permanent
            (run_loop fuel log_v time previous_time num_hot_ticks acc).
Proof.
  revert time previous_time num_hot_ticks acc.
  induction fuel as [|fuel IH]; intros time previous_time n acc; simpl.
  - intros s a s' _ H. discriminate.
  - apply invariant_ifS; [|apply invariant_ret].
    apply invariant_bind; [apply loop_body_keeps_permanent|].
    intros [[dmg n'] next].
    apply invariant_bind; [untouched | intros e].
    apply invariant_bind; [untouched | intros c].
    apply IH.
Qed.

(** X26.  With [bear_mangle] in the strategy, without trinket objects of
    the caller in the trinket list and without trinkets that proc on
    periodic damage only: once the Mangle debuff is on with no expiry,
    every pass through the main loop leaves it so (it cannot fall off,
    and a Mangle cast by the player renews it without an expiry); [run]
    puts it in that state before the loop, so the debuff is still up, with
    no expiry, when [run] returns. *)
Theorem bear_mangle_never_falls_off (fuel : nat) (log_v : bool) (s : Sim) :
  own_trinkets (trinkets s) ->
  bear_mangle (strategy s) = true ->
  (forall time previous_time num_hot_ticks,
     invariant mangle_permanent
               (loop_body log_v time previous_time num_hot_ticks))
  /\ (forall out s', run fuel log_v s = Ok (out, s') ->
        mangle_debuff s' = true /\ mangle_end s' = Infinity).
Proof.
  intros Hown Hbear. split; [intros; apply loop_body_keeps_permanent|].
  intros out s' H. unfold run in H.
  assert (Hkeep : forall {A : Type} (m : M A) s0 a s1,
            preserves (fun s => (strategy s, trinkets s)) m ->
            m s0 = Ok (a, s1) ->
            strategy s1 = strategy s0 /\ trinkets s1 = trinkets s0).
  { intros A m s0 a s1 Hm E. pose proof (Hm s0 a s1 E) as Heq.
    injection Heq as -> ->. auto. }
  apply bind_inv in H as ([] & s1 & E1 & H).
  apply Hkeep in E1 as [S1 T1]; [|phase_tac].
  apply bind_inv in H as ([] & s2 & E2 & H).
  apply Hkeep in E2 as [S2 T2]; [|phase_tac].
  apply bind_inv in H as ([] & s3 & E3 & H).
  apply Hkeep in E3 as [S3 T3]; [|phase_tac].
  apply bind_inv in H as ([] & s4 & E4 & H).
  apply Hkeep in E4 as [S4 T4]; [|phase_tac].
  apply bind_inv in H as ([] & s5 & E5 & H).
  apply Hkeep in E5 as [S5 T5]; [|phase_tac].
  apply bind_inv in H as ([] & s6 & E6 & H).
  apply Hkeep in E6 as [S6 T6]; [|destruct log_v; phase_tac].
  apply bind_inv in H as (r & s7 & E7 & H).
  apply Hkeep in E7 as [S7 T7]; [|unfold_phases; phase_tac].
  apply bind_inv in H as (psw & s8 & E8 & H).
  apply gets_inv in E8 as [_ ->].
  apply bind_inv in H as ([] & s9 & E9 & H).
  apply Hkeep in E9 as [S9 T9]; [|unfold_phases; phase_tac].
  apply bind_inv in H as ([] & s10 & E10 & H).
  apply Hkeep in E10 as [S10 T10]; [|phase_tac].
  apply bind_inv in H as (ts & s11 & E11 & H).
  apply gets_inv in E11 as [-> ->].
  assert (Hown10 : own_trinkets (trinkets s10)).
  { replace (trinkets s10) with (trinkets s) by congruence. exact Hown. }
  assert (Hbear10 : bear_mangle (strategy s10) = true).
  { replace (strategy s10) with (strategy s) by congruence. exact Hbear. }
  apply bind_inv in H as ([] & s12 & E12 & H).
  apply (reset_trinkets_keeps_view _ Hown10) in E12.
  unfold mangle_view in E12. injection E12 as S12 _ _ T12.
  apply bind_inv in H as ([] & s13 & E13 & H).
  assert (P13 : mangle_permanent s13).
  { unfold whenS, ifS, modify in E13. rewrite S12, Hbear10 in E13.
    injection E13 as <-.
    unfold mangle_permanent, permanent_view, mangle_view.
    destruct s12; simpl in *. subst. auto. }
  apply bind_inv in H as ([] & s14 & E14 & H).
  assert (P14 : mangle_permanent s14).
  { refine ((_ : invariant mangle_permanent _) s13 tt s14 P13 E14).
    apply invariant_whenS. untouched. }
  apply bind_inv in H as ([] & s15 & E15 & H).
  assert (P15 : mangle_permanent s15).
  { refine ((_ : invariant mangle_permanent _) s14 tt s15 P14 E15).
    apply invariant_whenS. untouched. }
  apply bind_inv in H as ([] & s16 & E16 & H).
  assert (P16 : mangle_permanent s16).
  { refine ((_ : invariant mangle_permanent _) s15 tt s16 P15 E16).
    untouched. }
  apply bind_inv in H as (series & s17 & E17 & H).
  apply (run_loop_keeps_permanent _ _ _ _ _ _ _ _ _ P16) in E17.
  apply bind_inv in H as (ts' & s18 & E18 & H).
  apply gets_inv in E18 as [-> ->].
  apply bind_inv in H as (stats & s19 & E19 & H).
  apply (finish_trinkets_keeps_view _ _ (proj2 (proj2 (proj2 E17)))) in E19.
  apply gets_inv in H as [_ ->].
  destruct E17 as (_ & Hd & He & _).
  unfold mangle_view in *. simpl in *.
  injection E19 as _ -> -> _. auto.
Qed.

End PermanentMangle.
(** ** Haste buffs and stat weights *)

Section AllWeights.
Variable replicates : nat -> gmap string Q -> gmap string Q * list Q.
Variable calc_haste_rating : Q -> Q -> Q.
Variable calc_swing_timer : Q -> Q -> Q.

Lemma calc_deriv_keeps (num_replicates : nat) (param : string)
    (increment base_dps dps_delta : Q) (p p' : gmap string Q) (a : string) :
  a <> "miss_chance"%string -> a <> "attack_power"%string ->
  a <> "crit_chance"%string ->
  leaves_alone replicates a ->
  calc_deriv replicates num_replicates param increment base_dps p
  = Ok (dps_delta, p') ->
  p' !! a = p !! a.
Proof.
  intros Hmiss Hap Hcrit Halone H. unfold calc_deriv, and_then in H.
  destruct (increment_stat param increment p) as [[original q]|] eqn:Hinc;
    [|discriminate].
  destruct (replicates num_replicates q) as [q' dps] eqn:Hrep.
  destruct (restore_stat param original increment q') as [p1|] eqn:Hres;
    [|discriminate].
  injection H as _ <-.
  destruct (increment_stat_spec _ _ _ _ _ Hinc) as (Hp & Hframe1 & _).
  destruct (restore_stat_spec _ _ _ _ _ Hres) as (Hp' & Hframe2 & _).
  destruct (String.eqb a param) eqn:Hparam.
  { apply String.eqb_eq in Hparam. subst a. rewrite Hp', Hp. reflexivity. }
  apply String.eqb_neq in Hparam.
  assert (Hc : ~ coupled param a).
  { intros [[_ ->] | [_ [-> | ->]]]; congruence. }
  rewrite (Hframe2 a Hparam Hc).
  pose proof (Halone num_replicates q) as Hk. rewrite Hrep in Hk.
  simpl in Hk. rewrite Hk. apply (Hframe1 a Hparam Hc).
Qed.

Lemma normalize_spec (dps_deltas stat_weights : Dict Q) :
  normalize dps_deltas = Ok stat_weights ->
  exists ap_delta,
    dict_get "1 AP" dps_deltas = Some ap_delta
    /\ map fst stat_weights
       = List.filter (fun stat => negb (String.eqb stat "1 AP"))
                     (map fst dps_deltas)
    /\ forall stat w, In (stat, w) stat_weights ->
         exists d, In (stat, d) dps_deltas /\ w = d / ap_delta.
Proof.
  unfold normalize. destruct (dict_get "1 AP" dps_deltas) as [ap|];
    [|discriminate].
  intros H. injection H as <-. exists ap. split; [reflexivity|]. split.
  - induction dps_deltas as [|[k v] rest IH]; [reflexivity|]. simpl.
    destruct (negb (String.eqb k "1 AP")); simpl; rewrite IH; reflexivity.
  - intros stat w Hin. apply in_map_iff in Hin.
    destruct Hin as ([k d] & Heq & Hin). injection Heq as <- <-.
    apply List.filter_In in Hin. destruct Hin as [Hin _].
    exists d. split; [exact Hin | reflexivity].
Qed.

(** X27.  When [calc_stat_weights] returns, every attribute of the
    player other than [miss_chance], [attack_power] and [crit_chance] that
    [run_replicates] never assigns holds the value it held before the
    call, whatever the eight increments were (those three are incremented
    and decremented together with [dodge_chance] and [agility], and are
    not covered); [dps_deltas] has the eight keys in the order of the
    assignments and [stat_weights] the same keys without ['1 AP']; and
    when the ['1 AP'] delta is not zero each weight is the delta of its
    stat divided by it. *)
Theorem calc_stat_weights_restores_player (num_replicates : nat)
    (base_dps : option Q) (agi_mod haste_multiplier_v : Q)
    (p p' : gmap string Q) (dps_deltas stat_weights : Dict Q) :
  calc_stat_weights replicates calc_haste_rating calc_swing_timer
    num_replicates base_dps agi_mod haste_multiplier_v p
  = Ok (dps_deltas, stat_weights, p') ->
  (forall a,
     a <> "miss_chance"%string -> a <> "attack_power"%string ->
     a <> "crit_chance"%string ->
     leaves_alone replicates a -> p' !! a = p !! a)
  /\ map fst dps_deltas
     = ["1 AP"; "1% hit"; "1% expertise"; "1% crit"; "1% haste";
        "1 Agility"; "1 Armor Pen Rating"; "1 Weapon Damage"]%string
  /\ map fst stat_weights
     = ["1% hit"; "1% expertise"; "1% crit"; "1% haste";
        "1 Agility"; "1 Armor Pen Rating"; "1 Weapon Damage"]%string
  /\ exists ap_delta,
       dict_get "1 AP" dps_deltas = Some ap_delta
       /\ (~ ap_delta == 0 ->
           forall stat w, In (stat, w) stat_weights ->
             exists delta,
               dict_get stat dps_deltas = Some delta
               /\ w = delta / ap_delta).
Proof.
  intros H. unfold calc_stat_weights in H.
  set (start := match base_dps with
                | Some b => (p, b)
                | None =>
                    let '(player, dps_vals_v) := replicates num_replicates p in
                    (player, mean dps_vals_v)
                end) in H.
  assert (Hstart : forall a, leaves_alone replicates a ->
                             start.1 !! a = p !! a).
  { intros a Ha. subst start. destruct base_dps as [b|]; [reflexivity|].
    pose proof (Ha num_replicates p) as Hk.
    destruct (replicates num_replicates p) as [q dps]. exact Hk. }
  destruct start as [p0 base]. simpl in Hstart.
  unfold and_then in H.
  repeat match type of H with
  | match attr ?n ?q with _ => _ end = _ =>
      destruct (attr n q); [|discriminate]
  | match calc_deriv ?r ?n ?prm ?i ?b ?q with _ => _ end = _ =>
      let d := fresh "d" in let q' := fresh "q" in let E := fresh "E" in
      destruct (calc_deriv r n prm i b q) as [[d q']|] eqn:E; [|discriminate]
  end.
  match type of H with
  | match normalize ?l with _ => _ end = _ =>
      destruct (normalize l) as [sw|] eqn:Hnorm; [|discriminate]
  end.
  injection H as <- <- <-.
  split.
  { intros name Hmiss Hap Hcrit Ha. rewrite <- (Hstart name Ha).
    repeat match goal with
    | E : calc_deriv _ _ _ _ _ ?q = Ok (_, ?q')
      |- ?q' !! name = _ =>
        rewrite (calc_deriv_keeps _ _ _ _ _ _ _ name Hmiss Hap Hcrit Ha E)
    end.
    reflexivity. }
  split; [reflexivity|].
  destruct (normalize_spec _ _ Hnorm) as (ap & Hap & Hkeys & Hw).
  split; [rewrite Hkeys; reflexivity|].
  exists ap. split; [exact Hap|].
  intros _ stat w Hin. destruct (Hw stat w Hin) as (delta & Hd & ->).
  exists delta. split; [|reflexivity].
  simpl in Hd.
  repeat destruct Hd as [Hd | Hd]; try (injection Hd as <- <-; reflexivity).
  destruct Hd.
Qed.

End AllWeights.

Section HasteBuffs.
Context `{C : Collab}.
Variable calc_haste_rating : Q -> Q -> bool -> Q.
Variable calc_swing_timer : Q -> Q -> bool -> Q.

(** X28.  [apply_haste_buff] on a schedule whose next swing is not in the
    past, with positive swing timers before and after: the new timer is
    assigned, the schedule is rebuilt, and its next swing is not in the
    past either; a buff that shortens the swing timer never postpones the
    next swing, and one that lengthens it never brings it forward. *)
Theorem haste_buff_moves_next_swing (time haste_rating_increment : Q)
    (s : Sim) (next : Q) (rest : list Q) :
  let new_swing_timer :=
    calc_swing_timer
      (calc_haste_rating (swing_timer s) (haste_multiplier s)
                         (cat_form (pext (player s)))
       + haste_rating_increment)
      (haste_multiplier s) (cat_form (pext (player s))) in
  swing_times s = next :: rest ->
  time <= next ->
  0 < swing_timer s ->
  0 < new_swing_timer ->
  exists next' rest' s',
    apply_haste_buff calc_haste_rating calc_swing_timer
      time haste_rating_increment s = Ok (tt, s')
    /\ swing_timer s' = new_swing_timer
    /\ swing_times s' = next' :: rest'
    /\ time <= next'
    /\ (new_swing_timer <= swing_timer s -> next' <= next)
    /\ (swing_timer s <= new_swing_timer -> next <= next').
Proof.
  intros new Hsw Hnext Hold Hnew.
  unfold apply_haste_buff, update_swing_times, bind, getsR, gets, ret, modify.
  fold new. rewrite Hsw. simpl.
  set (frac := (next - time) / swing_timer s).
  set (start := time + frac * new).
  destruct (swing_schedule_shape start new (fight_length s) Hnew)
    as (n & Hn & Hshape & _).
  assert (Hfrac : frac * swing_timer s == next - time).
  { unfold frac. field. lra. }
  assert (Hfrac0 : 0 <= frac).
  { unfold frac. apply Qle_shift_div_l; [exact Hold | lra]. }
  assert (Hhead : exists next' rest',
             (if Qgtb start (fight_length s - new)
              then [start; start + new]
              else arange start (fight_length s + new) new) = next' :: rest'
             /\ next' == start).
  { destruct n as [|n]; [lia|]. unfold cadence in Hshape. simpl in Hshape.
    inversion Hshape as [|x y l l' Hxy Hrest Hl Hl']; subst.
    exists x, l. split; [reflexivity|]. rewrite Hxy.
    change (inject_Z 0) with 0. ring. }
  destruct Hhead as (next' & rest' & Hlist & Hstart).
  exists next', rest'. eexists. split; [reflexivity|].
  destruct s; simpl in *.
  split; [destruct (Qgtb start _); reflexivity|].
  split; [destruct (Qgtb start _); exact Hlist|].
  rewrite Hstart. unfold start.
  split; [nra|]. split; intros Hcmp; nra.
Qed.

End HasteBuffs.
(** ** Rounding *)

Section Rounding.

(** C9, counterexample.  In a fight of 60 seconds, a tracker whose aura
    is up at its updates of times 15.1 and 31.2 reports an uptime of
    [1 + 2 ^ -52], the double above 1. *)
Lemma uptime_exceeds_one :
  Binary64.above_one (Binary64.uptime Binary64.aura_up_twice) = true
  /\ match Binary64.exact (Binary64.uptime Binary64.aura_up_twice) with
     | Some u => u == 1 + 1 / 2 ^ 52
     | None => False
     end.
Proof. split; vm_compute; reflexivity. Qed.

(** C8, counterexample.  For an entry whose values in three replicates
    are 0.0, 0.1 and 0.2, the loop ends with a double that is not their
    arithmetic mean, although the mean is a double: it is the second
    value. *)
Lemma running_average_rounds :
  match Binary64.running_average Binary64.three_values,
        Binary64.exact_all Binary64.three_values with
  | Some avg, Some xs =>
      match Binary64.exact avg with
      | Some q => ~ q == mean xs /\ nth 1 xs 0 == mean xs
      | None => False
      end
  | _, _ => False
  end.
Proof.
  vm_compute. split; [intros H; discriminate H | reflexivity].
Qed.

(** C10, the failing input.  With 3% to be missed and 1% to be dodged,
    [calc_deriv] for ['dodge_chance'] with an increment of 0.02, around
    replicates that leave the player alone, puts [dodge_chance] back and
    leaves in [miss_chance] a double that is not the one it held:
    [0.03 + 0.02 - 0.02] is [0.030000000000000002]. *)
Lemma coupled_attribute_drifts :
  match Binary64.calc_deriv_player Binary64.quiet 1 "dodge_chance"
          Binary64.two_percent Binary64.some_player with
  | Ok p' =>
      p' !! "dodge_chance"%string = Binary64.some_player !! "dodge_chance"%string
      /\ match p' !! "miss_chance"%string,
               Binary64.some_player !! "miss_chance"%string with
         | Some after, Some before => Binary64.same after before = false
         | _, _ => False
         end
  | Raise _ => False
  end.
Proof. vm_compute. split; reflexivity. Qed.

End Rounding.
(** ** The series of a run *)

Section RunSeries.
Context `{C : Collab}.
Hypothesis Hnone : no_periodic_trinkets.

Ltac phase_tac :=
  repeat first
    [ match goal with
      | |- preserves _ (apply_bleed_damage _ _ _ _ _) =>
          apply (apply_bleed_damage_keeps Hnone); keeps_side
      end
    | keeps_step ].

Ltac unfold_phases :=
  unfold rotation_phase, tigers_fury_phase, expire_buffs, bear_rotation,
    cat_rotation, swing_phase, next_event_time, execute_rotation;
  unfold advance_cooldowns, expire_buffs, rip_phase, rake_phase,
    lacerate_phase, revitalize_phase, enrage_phase, proc_end_phase,
    tigers_fury_phase, rotation_phase, tick_due, drop_tigers_fury,
    drop_berserk, apply_tigers_fury, apply_berserk, pop_first, np_rand,
    log_player_action, log_player_swing, bear_rotation, cat_rotation,
    returning, waiting, set_ready_to_shift_true, mangle, rake, lacerate,
    rip, shred, update_swing_times, ArmorDebuffs.update, ArmorDebuffs.reset,
    UptimeTracker.update.

Ltac same_fight :=
  apply (invariant_of_preserves fight_view (fight_of _));
  solve [unfold_phases; unfold_phases; phase_tac].

Lemma update_trinkets_keeps_fight (time : Q) (ts : list Trinket) (d : Q) :
  own_trinkets ts -> preserves fight_view (update_trinkets time ts d).
Proof.
  intros Hown. revert d. induction Hown as [|t ts Ht Hts IH]; intros d; simpl.
  - apply preserves_ret.
  - apply preserves_bind; [|intros ?; apply IH].
    destruct t as [i | | k]; [destruct Ht | |]; simpl; unfold_phases;
      phase_tac.
Qed.

Lemma reset_trinkets_keeps_fight (ts : list Trinket) :
  own_trinkets ts -> preserves fight_view (reset_trinkets ts).
Proof.
  intros Hown. induction Hown as [|t ts Ht Hts IH]; simpl.
  - apply preserves_ret.
  - apply preserves_bind; [|intros ?; apply IH].
    destruct t as [i | | k]; [destruct Ht | |]; simpl; unfold_phases;
      phase_tac.
Qed.

Lemma finish_trinkets_keeps_fight (ts : list Trinket) (acc : list AuraStat) :
  own_trinkets ts -> preserves fight_view (finish_trinkets ts acc).
Proof.
  intros Hown. revert acc.
  induction Hown as [|t ts Ht Hts IH]; intros acc; simpl.
  - apply preserves_ret.
  - apply preserves_bind; [|intros ?; apply IH].
    destruct t as [i | | k]; [destruct Ht | |]; unfold finish_trinket; simpl;
      unfold_phases; phase_tac.
Qed.

Lemma over_own_trinkets {A : Type} (fl : Q) (k : list Trinket -> M A) :
  (forall ts, own_trinkets ts ->
              invariant (fun s => fight_of fl (fight_view s)) (k ts)) ->
  invariant (fun s => fight_of fl (fight_view s)) (bind (gets trinkets) k).
Proof.
  intros Hk s a s' HP H. apply bind_inv in H as (ts & s1 & E & H).
  apply gets_inv in E as [-> ->].
  exact (Hk (trinkets s) (proj2 HP) s a s' HP H).
Qed.

Lemma loop_body_keeps_fight (fl : Q) (log_v : bool) (time previous_time : Q)
    (num_hot_ticks : Z) :
  invariant (fun s => fight_of fl (fight_view s))
            (loop_body log_v time previous_time num_hot_ticks).
Proof.
  unfold loop_body.
  apply invariant_bind; [same_fight | intros _].
  apply invariant_bind; [same_fight | intros _].
  apply invariant_bind; [same_fight | intros d_rip].
  apply invariant_bind; [same_fight | intros d_rake].
  apply invariant_bind; [same_fight | intros d_lac].
  apply invariant_bind; [same_fight | intros n'].
  apply over_own_trinkets. intros ts Hts.
  apply invariant_bind;
    [apply (invariant_of_preserves fight_view (fight_of fl)),
       update_trinkets_keeps_fight, Hts | intros dmg].
  apply invariant_bind; [same_fight | intros _].
  apply invariant_bind; [same_fight | intros d_swing].
  apply invariant_bind; [same_fight | intros d_rot].
  apply over_own_trinkets. intros ts' Hts'.
  apply invariant_bind;
    [apply (invariant_of_preserves fight_view (fight_of fl)),
       update_trinkets_keeps_fight, Hts' | intros dmg'].
  apply invariant_bind; [same_fight | intros _].
  apply invariant_bind; [same_fight | intros _].
  apply invariant_bind; [same_fight | intros next].
  apply invariant_ret.
Qed.

Lemma run_loop_samples (fl : Q) (fuel : nat) (log_v : bool)
    (time previous_time : Q) (num_hot_ticks : Z) (acc series : Series)
    (s s' : Sim) :
  run_loop fuel log_v time previous_time num_hot_ticks acc s
  = Ok (series, s') ->
  fight_of fl (fight_view s) ->
  length (damage acc) = length (times acc) ->
  length (energy_series acc) = length (times acc) ->
  length (combos acc) = length (times acc) ->
  Forall (fun t => t <= fl) (times acc) ->
  fight_of fl (fight_view s')
  /\ length (damage series) = length (times series)
  /\ length (energy_series series) = length (times series)
  /\ length (combos series) = length (times series)
  /\ Forall (fun t => t <= fl) (times series)
  /\ (time <= fl -> exists rest, times series = times acc ++ time :: rest)
  /\ (~ time <= fl -> series = acc).
Proof.
  revert time previous_time num_hot_ticks acc s.
  induction fuel as [|fuel IH];
    intros time previous_time num_hot_ticks acc s H HP H1 H2 H3 Hacc;
    simpl in H.
  - discriminate.
  - unfold ifS in H.
    assert (Hfl : fight_length s = fl) by exact (proj1 HP).
    rewrite Hfl in H.
    destruct (Qleb time fl) eqn:Hle.
    + apply Qleb_le in Hle.
      apply bind_inv in H as ([[dmg n'] next] & s1 & E1 & H).
      pose proof (loop_body_keeps_fight fl _ _ _ _ _ _ _ HP E1) as P1.
      apply bind_inv in H as (e & s2 & E2 & H).
      apply gets_inv in E2 as [_ ->].
      apply bind_inv in H as (c & s3 & E3 & H).
      apply gets_inv in E3 as [_ ->].
      apply IH in H; simpl; rewrite ?length_app; simpl; try lia;
        try exact P1.
      * destruct H as (P' & L1 & L2 & L3 & Hall & Hin & Hout).
        split; [exact P'|]. split; [exact L1|]. split; [exact L2|].
        split; [exact L3|]. split; [exact Hall|]. split.
        -- intros _. destruct (Qleb next fl) eqn:Hnext.
           ++ apply Qleb_le in Hnext. destruct (Hin Hnext) as [rest Hrest].
              simpl in Hrest. rewrite <- app_assoc in Hrest.
              eexists. exact Hrest.
           ++ apply Qleb_gt in Hnext. rewrite Hout by lra.
              exists []. reflexivity.
        -- intros Hn. exfalso. apply Hn, Hle.
      * apply Forall_app. split; [exact Hacc|].
        constructor; [exact Hle | constructor].
    + apply Qleb_gt in Hle. injection H as <- <-.
      split; [exact HP|]. split; [exact H1|]. split; [exact H2|].
      split; [exact H3|]. split; [exact Hacc|]. split.
      * intros Hn. lra.
      * intros _. reflexivity.
Qed.

Ltac fight_step fl E HP :=
  match type of E with
  | ?m ?s0 = Ok (?a, ?s1) =>
      let Hm := fresh "Hm" in
      assert (Hm : invariant (fun st => fight_of fl (fight_view st)) m);
      [ first [ same_fight
              | match goal with b : bool |- _ => destruct b; same_fight end ]
      | apply (Hm s0 a s1 HP) in E; clear Hm ]
  end.

(** X18.  A run over a trinket list made of the debuff controller and
    trackers, without trinkets that proc on periodic damage only.  When
    [run] returns, its four series (times, damage, Energy and combo points)
    have the same length; with a fight length that is not negative they
    start with the sample of the pass at time 0, and with a negative one
    they are empty; every sample was taken at a time within the fight; the
    fight length is the one the run started with; and the breakdown
    returned is the player's. *)
Theorem run_series_aligned (fuel : nat) (log_v : bool) (s : Sim)
    (out : RunOutput) (s' : Sim) :
  own_trinkets (trinkets s) ->
  run fuel log_v s = Ok (out, s') ->
  let series := out_series out in
  length (damage series) = length (times series)
  /\ length (energy_series series) = length (times series)
  /\ length (combos series) = length (times series)
  /\ (0 <= fight_length s -> exists rest, times series = 0 :: rest)
  /\ (fight_length s < 0 -> series = empty_series)
  /\ Forall (fun t => t <= fight_length s) (times series)
  /\ fight_length s' = fight_length s
  /\ out_dmg_breakdown out = dmg_breakdown (player s').
Proof.
  intros Hown H. unfold run in H.
  assert (P0 : fight_of (fight_length s) (fight_view s))
    by (split; [reflexivity | exact Hown]).
  apply bind_inv in H as ([] & s1 & E1 & H).
  fight_step (fight_length s) E1 P0.
  apply bind_inv in H as ([] & s2 & E2 & H).
  fight_step (fight_length s) E2 E1.
  apply bind_inv in H as ([] & s3 & E3 & H).
  fight_step (fight_length s) E3 E2.
  apply bind_inv in H as ([] & s4 & E4 & H).
  fight_step (fight_length s) E4 E3.
  apply bind_inv in H as ([] & s5 & E5 & H).
  fight_step (fight_length s) E5 E4.
  apply bind_inv in H as ([] & s6 & E6 & H).
  fight_step (fight_length s) E6 E5.
  apply bind_inv in H as (r & s7 & E7 & H).
  fight_step (fight_length s) E7 E6.
  apply bind_inv in H as (psw & s8 & E8 & H).
  apply gets_inv in E8 as [_ ->].
  apply bind_inv in H as ([] & s9 & E9 & H).
  fight_step (fight_length s) E9 E7.
  apply bind_inv in H as ([] & s10 & E10 & H).
  fight_step (fight_length s) E10 E9.
  apply bind_inv in H as (ts & s11 & E11 & H).
  apply gets_inv in E11 as [-> ->].
  apply bind_inv in H as ([] & s12 & E12 & H).
  assert (P12 : fight_of (fight_length s) (fight_view s12)).
  { pose proof (reset_trinkets_keeps_fight _ (proj2 E10) _ _ _ E12) as Heq.
    rewrite Heq. exact E10. }
  apply bind_inv in H as ([] & s13 & E13 & H).
  fight_step (fight_length s) E13 P12.
  apply bind_inv in H as ([] & s14 & E14 & H).
  fight_step (fight_length s) E14 E13.
  apply bind_inv in H as ([] & s15 & E15 & H).
  fight_step (fight_length s) E15 E14.
  apply bind_inv in H as ([] & s16 & E16 & H).
  fight_step (fight_length s) E16 E15.
  apply bind_inv in H as (series & s17 & E17 & H).
  apply (run_loop_samples (fight_length s)) in E17;
    [|exact E16 | reflexivity | reflexivity | reflexivity | constructor].
  destruct E17 as (P17 & L1 & L2 & L3 & Hall & Hin & Hout).
  apply bind_inv in H as (ts' & s18 & E18 & H).
  apply gets_inv in E18 as [-> ->].
  apply bind_inv in H as (stats & s19 & E19 & H).
  apply (finish_trinkets_keeps_fight _ _ (proj2 P17)) in E19.
  apply gets_inv in H as [-> ->]. simpl.
  split; [exact L1|]. split; [exact L2|]. split; [exact L3|].
  split; [intros H0; destruct (Hin H0) as [rest Hrest]; exists rest;
          exact Hrest|].
  split; [intros Hneg; apply Hout; lra|].
  split; [exact Hall|].
  split; [|reflexivity].
  unfold fight_view in E19. injection E19 as -> _. exact (proj1 P17).
Qed.

End RunSeries.
(** ** Concrete instances *)

Section MoreConcreteRuns.

#[local] Existing Instance Mini.types.
#[local] Existing Instance Mini.collab.

Lemma mini_no_periodic_trinkets : no_periodic_trinkets.
Proof. intros i s. reflexivity. Qed.

Lemma lacerate_fresh_schedule_witness :
  exists s',
    lacerate 0 fresh_fight = Ok (60, s')
    /\ lacerate_ticks s' = cadence (0 + 3) 3 5
    /\ lacerate_stacks s' = 1%Z.
Proof.
  destruct (lacerate_fresh_schedule (ET := Mini.types) (C := Mini.collab) 0 fresh_fight
              eq_refl eq_refl)
    as (s' & Hrun & _ & _ & Hticks & _ & Hstacks & _).
  exists s'. split; [exact Hrun|]. split; [exact Hticks | exact Hstacks].
Defined.

Lemma rip_schedule_even_duration_witness :
  exists s',
    rip 10 rip_ready = Ok (0, s')
    /\ rip_ticks s' = cadence (10 + 2) 2 6
    /\ List.last (rip_ticks s') 0 == rip_end s'.
Proof.
  assert (Hk : (1 <= 6)%nat) by lia.
  assert (Hd : rip_duration
                 (pext (player_rip (player rip_ready) (rng rip_ready)).1.2)
               == 2 * inject_Z (Z.of_nat 6)) by reflexivity.
  destruct (rip_schedule_even_duration (ET := Mini.types) (C := Mini.collab) 10 rip_ready 6
              eq_refl Hk Hd)
    as (s' & Hrun & _ & _ & _ & Hticks & Hlast & _).
  exists s'. split; [exact Hrun|]. split; [exact Hticks | exact Hlast].
Defined.

Lemma update_swing_times_covers_witness :
  exists start n s',
    update_swing_times 5.5 2 false last_swing_due = Ok (tt, s')
    /\ (start - 5.5) / 2 == (6 - 5.5) / swing_timer last_swing_due
    /\ (2 <= n)%nat
    /\ Forall2 Qeq (swing_times s') (cadence start 2 n)
    /\ fight_length last_swing_due
       <= start + (inject_Z (Z.of_nat n) - 1) * 2.
Proof.
  assert (Hpos : 0 < 2) by reflexivity.
  assert (Hcan : false = true
                 \/ (swing_times last_swing_due <> []
                     /\ ~ swing_timer last_swing_due == 0)).
  { right. split; [discriminate | vm_compute; discriminate]. }
  destruct (proj2 (update_swing_times_covers 5.5 2 false last_swing_due Hpos)
                  Hcan)
    as (start & n & s' & Hrun & _ & _ & Hfrac & Hn & Hshape & Hlast).
  exists start, n, s'. split; [exact Hrun|].
  split; [exact (Hfrac 6 [] eq_refl eq_refl)|]. split; [exact Hn|].
  split; [exact Hshape | exact Hlast].
Defined.


Lemma iterate_restores_fight_length_witness :
  exists out s',
    iterate [7%Z] [0.5; 0] 100 fresh_fight = Ok (out, s')
    /\ fight_length s' = fight_length fresh_fight.
Proof.
  destruct (iterate (C := Mini.collab) [7%Z] [0.5; 0] 100 fresh_fight)
    as [[out s']|e] eqn:H.
  - exists out, s'. split; [reflexivity|].
    exact (proj1 (iterate_restores_fight_length (C := Mini.collab)
                    [7%Z] [0.5; 0] 100 fresh_fight out s' H)).
  - vm_compute in H. discriminate H.
Defined.

Lemma set_active_debuffs_marks_witness :
  let result :=
    Config.set_active_debuffs ["sunder"; "faerie_fire"]%string configured in
  result.2 = None
  /\ Config.cfg_use_sunder result.1 = true
  /\ dict_get "gift_of_arthas" (Config.cfg_params result.1)
     = Some (Config.PyBool false).
Proof.
  assert (Hkeys : List.NoDup (map fst (Config.cfg_params configured))).
  { simpl. repeat (constructor; [simpl; intuition discriminate|]).
    constructor. }
  destruct (set_active_debuffs_marks (ET := Mini.types)
              ["sunder"; "faerie_fire"]%string configured Hkeys eq_refl)
    as (_ & _ & Hmarks & _).
  destruct (Hmarks eq_refl) as (Hflags & _ & Hsunder).
  split; [reflexivity|]. split; [exact Hsunder|].
  apply (Hflags "gift_of_arthas"%string); [reflexivity | discriminate].
Defined.



Lemma bleed_damage_is_recorded_witness :
  exists d s',
    apply_bleed_damage 30 0 "Rake" true 10
      (set_mangle_debuff true fresh_fight) = Ok (d, s')
    /\ d = 30 * (1 + 0.3 * 1) * (1 + 0.3)
    /\ damage_entry "Rake" (dmg_breakdown (player s'))
       = Some (0 + 30 * (1 + 0.3 * 1))
    /\ damage_entry "Savage Roar" (dmg_breakdown (player s'))
       = Some (0 + 0.3 * (30 * (1 + 0.3 * 1))).
Proof.
  destruct (apply_bleed_damage 30 0 "Rake" true 10
              (set_mangle_debuff true fresh_fight))
    as [[d s']|e] eqn:H; [|vm_compute in H; discriminate H].
  exists d, s'. split; [reflexivity|].
  assert (Hnone : forall i s0,
            In i (proc_trinkets
                    (pext (player (set_mangle_debuff true fresh_fight)))) ->
            trinket_periodic_only i s0 = false) by (intros i s0 []).
  assert (Hname : "Rake"%string <> "Savage Roar"%string) by discriminate.
  destruct (proj1 (bleed_damage_is_recorded (ET := Mini.types)
                     (C := Mini.collab) 30 0 "Rake" true 10
                     (set_mangle_debuff true fresh_fight) Hnone Hname)
                  d s' H)
    as (tick & before & Htick & Hbefore & Hafter & _ & Hroar).
  specialize (Htick eq_refl). subst tick.
  destruct (Hroar eq_refl) as (Hd & rb & Hrb & Hra).
  injection Hbefore as <-. injection Hrb as <-.
  split; [exact Hd|]. split; [exact Hafter | exact Hra].
Defined.

Lemma run_series_aligned_witness :
  exists out s',
    run 100 false short_fight = Ok (out, s')
    /\ length (damage (out_series out)) = length (times (out_series out))
    /\ (exists rest, times (out_series out) = 0 :: rest)
    /\ Forall (fun t => t <= 6.5) (times (out_series out)).
Proof.
  assert (Hown : own_trinkets (trinkets short_fight)).
  { repeat constructor. }
  assert (Hlen : 0 <= fight_length short_fight) by (vm_compute; discriminate).
  destruct (run 100 false short_fight) as [[out s']|e] eqn:H;
    [|vm_compute in H; discriminate H].
  exists out, s'. split; [reflexivity|].
  destruct (run_series_aligned (ET := Mini.types) (C := Mini.collab)
              mini_no_periodic_trinkets 100 false short_fight
              out s' Hown H) as (Hd & _ & _ & Hfirst & _ & Hall & _).
  split; [exact Hd|]. split; [exact (Hfirst Hlen) | exact Hall].
Defined.

Lemma final_pass_reports_trackers_witness :
  exists s',
    finish_trinkets (trinkets fresh_fight) [] fresh_fight
    = Ok ([("Rip"%string, 0, 0); ("Savage Roar"%string, 0, 0)], s').
Proof.
  assert (Hown : own_trinkets (trinkets fresh_fight)).
  { repeat constructor. }
  destruct (final_pass_reports_trackers (ET := Mini.types) (C := Mini.collab)
              (trinkets fresh_fight) [] fresh_fight Hown) as (s' & Hrun & _).
  exists s'. exact Hrun.
Defined.

Lemma rip_schedule_never_runs_dry_witness :
  exists due, tick_due rip_debuff rip_ticks 10 rip_up = Ok (due, rip_up).
Proof.
  assert (Hok : schedule_ok (rip_debuff rip_up) (rip_ticks rip_up)
                            (rip_end rip_up)).
  { intros _. split; [discriminate | reflexivity]. }
  exact (proj2 (proj2 (rip_schedule_never_runs_dry (ET := Mini.types) (C := Mini.collab)
                         mini_no_periodic_trinkets rip_up Hok)) 10).
Defined.

Lemma rake_schedule_never_runs_dry_witness :
  exists d s',
    rake_phase 6 rake_up = Ok (d, s')
    /\ rake_debuff s' = true
    /\ rake_ticks s' <> []
    /\ List.last (rake_ticks s') 0 == rake_end s'.
Proof.
  assert (Hok : schedule_ok (rake_debuff rake_up) (rake_ticks rake_up)
                            (rake_end rake_up)).
  { intros _. split; [discriminate | reflexivity]. }
  destruct (rake_phase 6 rake_up) as [[d s']|e] eqn:H;
    [|vm_compute in H; discriminate H].
  exists d, s'. split; [reflexivity|].
  pose proof (proj1 (rake_schedule_never_runs_dry (ET := Mini.types)
                       (C := Mini.collab) mini_no_periodic_trinkets
                       rake_up Hok) 6 d s' H) as Hkept.
  assert (Hup : rake_debuff s' = true).
  { vm_compute in H. injection H as _ <-. reflexivity. }
  split; [exact Hup | exact (Hkept Hup)].
Defined.

Lemma last_swing_exhausts_schedule_witness :
  exists e, loop_body false 6 5 0 last_swing_due = Raise e.
Proof.
  assert (Hown : own_trinkets (trinkets last_swing_due)).
  { repeat constructor. }
  assert (Htime : 6 == 6) by reflexivity.
  exact (last_swing_exhausts_schedule (ET := Mini.types) (C := Mini.collab)
           mini_no_periodic_trinkets false 6 5 0 last_swing_due 6
           Hown eq_refl Htime).
Defined.

Lemma shift_keeps_next_swing_witness :
  exists s',
    execute_rotation 10 shifting = Ok (0, s')
    /\ swing_timer s' = swing_timer shifting * 2.5
    /\ next_action s' = next_action shifting
    /\ exists n, Forall2 Qeq (swing_times s') (cadence 0 (swing_timer s') n).
Proof.
  assert (Hpos : 0 < swing_timer shifting) by reflexivity.
  destruct (proj2 (shift_keeps_next_swing (ET := Mini.types)
                     (C := Mini.collab) 10 shifting eq_refl Hpos)
                  0 [1; 2] eq_refl)
    as (s' & Hrun & _ & Htimer & _ & Hnext & n & _ & Hshape & _).
  exists s'. split; [exact Hrun|]. split; [exact Htimer|].
  split; [exact Hnext|]. exists n. exact Hshape.
Defined.

Lemma bear_mangle_never_falls_off_witness :
  exists out s',
    run 100 false tank_fight = Ok (out, s')
    /\ mangle_debuff s' = true /\ mangle_end s' = Infinity.
Proof.
  assert (Hown : own_trinkets (trinkets tank_fight)).
  { repeat constructor. }
  destruct (run 100 false tank_fight) as [[out s']|e] eqn:H.
  - exists out, s'. split; [reflexivity|].
    exact (proj2 (bear_mangle_never_falls_off (ET := Mini.types) (C := Mini.collab)
                    mini_no_periodic_trinkets 100 false tank_fight
                    Hown eq_refl) out s' H).
  - vm_compute in H. discriminate H.
Defined.

Lemma calc_stat_weights_witness :
  exists dps_deltas stat_weights p',
    calc_stat_weights quiet_replicates rating_of_timer timer_of_rating
      2 (Some 100) 1 1 all_attributes
    = Ok (dps_deltas, stat_weights, p')
    /\ p' !! "agility"%string = all_attributes !! "agility"%string
    /\ p' !! "dodge_chance"%string = all_attributes !! "dodge_chance"%string
    /\ map fst stat_weights
       = ["1% hit"; "1% expertise"; "1% crit"; "1% haste";
          "1 Agility"; "1 Armor Pen Rating"; "1 Weapon Damage"]%string.
Proof.
  destruct (calc_stat_weights quiet_replicates rating_of_timer
              timer_of_rating 2 (Some 100) 1 1 all_attributes)
    as [[[dps_deltas stat_weights] p']|e] eqn:H;
    [|vm_compute in H; discriminate H].
  exists dps_deltas, stat_weights, p'. split; [reflexivity|].
  destruct (calc_stat_weights_restores_player quiet_replicates
              rating_of_timer timer_of_rating 2 (Some 100) 1 1
              all_attributes p' dps_deltas stat_weights H)
    as (Hall & _ & Hkeys & _).
  split; [apply Hall; [discriminate.. | intros n q; reflexivity]|].
  split; [apply Hall; [discriminate.. | intros n q; reflexivity]|].
  exact Hkeys.
Defined.

Lemma haste_buff_moves_next_swing_witness :
  exists next' rest' s',
    apply_haste_buff (fun t m _ => rating_of_timer t m)
                     (fun r m _ => timer_of_rating r m) 0 100 fresh_fight
    = Ok (tt, s')
    /\ swing_times s' = next' :: rest'
    /\ next' <= 0.
Proof.
  assert (Hnext : 0 <= 0) by (vm_compute; discriminate).
  assert (Hold : 0 < swing_timer fresh_fight) by reflexivity.
  assert (Hnew : 0 < timer_of_rating
                       (rating_of_timer (swing_timer fresh_fight)
                                        (haste_multiplier fresh_fight) + 100)
                       (haste_multiplier fresh_fight)) by reflexivity.
  destruct (haste_buff_moves_next_swing (ET := Mini.types) (C := Mini.collab)
              (fun t m _ => rating_of_timer t m)
              (fun r m _ => timer_of_rating r m) 0 100 fresh_fight 0 [1; 2]
              eq_refl Hnext Hold Hnew)
    as (next' & rest' & s' & Hrun & _ & Hsw & _ & Hfaster & _).
  exists next', rest', s'. split; [exact Hrun|]. split; [exact Hsw|].
  apply Hfaster. vm_compute. discriminate.
Defined.

End MoreConcreteRuns.
